(** * Usage synchronisation (internal/usage/sync.go): a shallow embedding

    The Go code works on a graph of heap objects reached through pointers
    (to a ResourceUsage, to a schema.UsageItem) that it mutates in place and
    sometimes shares (a destination item's [Value] is seeded with the very
    pointer held in its [DefaultValue]; a materialised sub-tree holds the
    item pointers of the default sub-tree).  The embedding therefore keeps an
    explicit store of objects, passes it through every function, and returns
    [Panic] where Go would panic (nil dereference, failed type assertion).
    The two recursive functions follow pointers of the store, so they take a
    fuel argument and return [OutOfFuel] when it runs out. *)

From Stdlib Require Import ZArith Lia.
From stdpp Require Import base tactics option list gmap strings sorting.

Local Open Scope Z_scope.
Local Open Scope nat_scope.

(** ** Data model *)

(** A pointer is an address of the store. *)
Abbreviation loc := nat.

(** A [float64] is carried around by the code and never computed on; it is
    kept as its IEEE-754 bit pattern. *)
Definition float64 := Z.

(** The Go [error] interface, kept as the error's message. *)
Definition error := string.

Module schema.

(** [schema.UsageVariableType], as far as sync.go distinguishes it. *)
Inductive UsageVariableType :=
| Int64 | Float64 | String | StringArray | SubResourceUsage.

(** The contents of an [interface{}] field of a usage item.  [Nil] is the
    nil interface; [VRU None] is the (non-nil) interface holding a nil
    ResourceUsage pointer. *)
Inductive value :=
| Nil
| VInt (n : Z)
| VFloat (f : float64)
| VString (s : string)
| VStringArray (l : list string)
| VRU (p : option loc).

Record UsageItem := mkUsageItem {
  Key : string;
  ValueType : UsageVariableType;
  Description : string;
  DefaultValue : value;
  Value : value
}.

(** [schema.Resource], as far as sync.go reads it.  [EstimateUsage] is the
    optional estimation capability; it updates the usage map it is given
    in place, which is returned here next to its error. *)
Record Resource (UsageMap : Type) := mkResource {
  Name : string;
  UsageSchema : list loc;
  EstimateUsage : option (UsageMap → UsageMap * option error)
}.
Arguments mkResource {UsageMap}.
Arguments Name {UsageMap}.
Arguments UsageSchema {UsageMap}.
Arguments EstimateUsage {UsageMap}.

Record Project (UsageMap : Type) := mkProject {
  Resources : list (Resource UsageMap)
}.
Arguments mkProject {UsageMap}.
Arguments Resources {UsageMap}.

End schema.

Abbreviation Nil := schema.Nil.
Abbreviation VInt := schema.VInt.
Abbreviation VFloat := schema.VFloat.
Abbreviation VString := schema.VString.
Abbreviation VStringArray := schema.VStringArray.
Abbreviation VRU := schema.VRU.
Abbreviation UsageItem := schema.UsageItem.
Abbreviation Key := schema.Key.
Abbreviation ValueType := schema.ValueType.
Abbreviation Description := schema.Description.
Abbreviation DefaultValue := schema.DefaultValue.
Abbreviation Value := schema.Value.

(** [usage.ResourceUsage]; [Items] is a slice of item pointers. *)
Record ResourceUsage := mkResourceUsage {
  Name : string;
  Items : list loc
}.

Record MergeResourceUsagesOpts := mkOpts {
  OverrideValueType : bool
}.

Record SyncResult := mkSyncResult {
  ResourceCount : Z;
  EstimationCount : Z;
  EstimationErrors : gmap string error
}.

(** ** The store *)

Inductive obj :=
| ORU (r : ResourceUsage)
| OItem (it : UsageItem).

Abbreviation store := (list obj).

Inductive res (A : Type) : Type :=
| Ok (a : A)
| Panic
| OutOfFuel.
Arguments Ok {A} a.
Arguments Panic {A}.
Arguments OutOfFuel {A}.

#[global] Instance res_ret : MRet res := fun A a => Ok a.
#[global] Instance res_bind : MBind res := fun A B f m =>
  match m with
  | Ok a => f a
  | Panic => Panic
  | OutOfFuel => OutOfFuel
  end.

Definition isNil (v : schema.value) : bool :=
  match v with Nil => true | _ => false end.

Definition isSub (t : schema.UsageVariableType) : bool :=
  match t with schema.SubResourceUsage => true | _ => false end.

(** [p.Field] on a ResourceUsage pointer. *)
Definition getRU (st : store) (p : loc) : res ResourceUsage :=
  match st !! p with
  | Some (ORU r) => Ok r
  | _ => Panic
  end.

Definition derefRU (st : store) (p : option loc) : res ResourceUsage :=
  match p with
  | Some p => getRU st p
  | None => Panic
  end.

(** [i.Field] on a schema.UsageItem pointer. *)
Definition getItem (st : store) (i : loc) : res UsageItem :=
  match st !! i with
  | Some (OItem it) => Ok it
  | _ => Panic
  end.

(** [&T{...}] *)
Definition alloc (st : store) (o : obj) : loc * store :=
  (length st, st ++ [o]).

(** [i.Field = v] *)
Definition modItem (f : UsageItem → UsageItem) (i : loc) (st : store)
  : res store :=
  it ← getItem st i; Ok (<[i := OItem (f it)]> st).

(** The type assertion of a value to a ResourceUsage pointer. *)
Definition asRU (v : schema.value) : res (option loc) :=
  match v with
  | VRU p => Ok p
  | _ => Panic
  end.

Definition setValueType (t : schema.UsageVariableType) (it : UsageItem) :=
  schema.mkUsageItem (Key it) t (Description it) (DefaultValue it) (Value it).
Definition setDescription (s : string) (it : UsageItem) :=
  schema.mkUsageItem (Key it) (ValueType it) s (DefaultValue it) (Value it).
Definition setDefaultValue (v : schema.value) (it : UsageItem) :=
  schema.mkUsageItem (Key it) (ValueType it) (Description it) v (Value it).
Definition setValue (v : schema.value) (it : UsageItem) :=
  schema.mkUsageItem (Key it) (ValueType it) (Description it) (DefaultValue it) v.

(** [for _, x := range l { ... }] over a slice evaluated once. *)
Fixpoint forEach {A} (f : A → store → res store) (l : list A) (st : store)
  : res store :=
  match l with
  | [] => Ok st
  | x :: l => st ← f x st; forEach f l st
  end.

(** ** mergeResourceUsages *)

(** Lines 110-113: the key index of [dest.Items]; a later item with the same
    key replaces an earlier one. *)
Fixpoint buildItemMap (st : store) (l : list loc) (m : gmap string loc)
  : res (gmap string loc) :=
  match l with
  | [] => Ok m
  | i :: l => it ← getItem st i; buildItemMap st l (<[Key it := i]> m)
  end.

Section MergeBody.

(** The recursive call. *)
Variable recur : option loc → option loc → MergeResourceUsagesOpts →
                 store → res store.
Variable dest : loc.
Variable destItemMap : gmap string loc.
Variable opts : MergeResourceUsagesOpts.

(** Lines 116-120.  The index is not updated when an item is appended. *)
Definition findOrAppend (srcItem : loc) (st : store) : res (loc * store) :=
  s ← getItem st srcItem;
  match destItemMap !! Key s with
  | Some destItem => Ok (destItem, st)
  | None =>
      let '(destItem, st) :=
        alloc st (OItem (schema.mkUsageItem (Key s) (ValueType s) EmptyString Nil Nil)) in
      d ← getRU st dest;
      Ok (destItem, <[dest := ORU (mkResourceUsage (Name d) (Items d ++ [destItem]))]> st)
  end.

(** Lines 122-124. *)
Definition overrideType (srcItem destItem : loc) (st : store) : res store :=
  if OverrideValueType opts then
    s ← getItem st srcItem;
    modItem (setValueType (ValueType s)) destItem st
  else Ok st.

(** Lines 126-128. *)
Definition copyDescription (srcItem destItem : loc) (st : store) : res store :=
  s ← getItem st srcItem;
  if String.eqb (Description s) EmptyString then Ok st
  else modItem (setDescription (Description s)) destItem st.

(** Lines 131-139. *)
Definition mergeSubDefault (srcItem destItem : loc) (st : store) : res store :=
  s ← getItem st srcItem;
  if isNil (DefaultValue s) then Ok st
  else
    srcDefaultValue ← asRU (DefaultValue s);
    d ← getItem st destItem;
    st ← (if isNil (DefaultValue d) then
            r ← derefRU st srcDefaultValue;
            let '(p, st) := alloc st (ORU (mkResourceUsage (Name r) [])) in
            modItem (setDefaultValue (VRU (Some p))) destItem st
          else Ok st);
    d ← getItem st destItem;
    destDefaultValue ← asRU (DefaultValue d);
    recur destDefaultValue srcDefaultValue opts st.

(** Lines 141-152. *)
Definition mergeSubValue (srcItem destItem : loc) (st : store) : res store :=
  s ← getItem st srcItem;
  if isNil (Value s) then Ok st
  else
    srcValue ← asRU (Value s);
    d ← getItem st destItem;
    st ← (if isNil (Value d) then
            modItem (setValue (DefaultValue d)) destItem st
          else Ok st);
    d ← getItem st destItem;
    st ← (if isNil (Value d) then
            r ← derefRU st srcValue;
            let '(p, st) := alloc st (ORU (mkResourceUsage (Name r) [])) in
            modItem (setValue (VRU (Some p))) destItem st
          else Ok st);
    d ← getItem st destItem;
    destValue ← asRU (Value d);
    recur destValue srcValue opts st.

(** Lines 154-160. *)
Definition copyScalars (srcItem destItem : loc) (st : store) : res store :=
  s ← getItem st srcItem;
  st ← (if isNil (DefaultValue s) then Ok st
        else modItem (setDefaultValue (DefaultValue s)) destItem st);
  s ← getItem st srcItem;
  if isNil (Value s) then Ok st
  else modItem (setValue (Value s)) destItem st.

(** Lines 130-161. *)
Definition mergeFields (srcItem destItem : loc) (st : store) : res store :=
  s ← getItem st srcItem;
  if isSub (ValueType s) then
    st ← mergeSubDefault srcItem destItem st;
    mergeSubValue srcItem destItem st
  else copyScalars srcItem destItem st.

(** The body of the loop of lines 115-162. *)
Definition mergeItem (srcItem : loc) (st : store) : res store :=
  '(destItem, st) ← findOrAppend srcItem st;
  st ← overrideType srcItem destItem st;
  st ← copyDescription srcItem destItem st;
  mergeFields srcItem destItem st.

End MergeBody.

Fixpoint mergeResourceUsages (fuel : nat) (dest src : option loc)
    (opts : MergeResourceUsagesOpts) (st : store) : res store :=
  match fuel with
  | 0 => OutOfFuel
  | S fuel =>
      match dest, src with
      | Some d, Some s =>
          dr ← getRU st d;
          destItemMap ← buildItemMap st (Items dr) ∅;
          sr ← getRU st s;
          forEach (mergeItem (mergeResourceUsages fuel) d destItemMap opts)
                  (Items sr) st
      | _, _ => Ok st
      end
  end.

(** ** Collaborators

    sync.go calls functions of this repository that are declared in other
    files (schema.UsageData and its accessors, schema.ParseAttributes,
    ResourceUsage.Map, the reference file, resourceUsagesMap) and of
    libraries (gjson.Result).  They are taken as an interface. *)
Class Collaborators := {
  (** the contents of a schema.UsageData *)
  UsageData : Type;
  (** gjson.Result *)
  Result : Type;
  (** map[string]gjson.Result *)
  Attributes : Type;
  (** map[string]interface{} *)
  UsageMap : Type;
  ReferenceFile : Type;
  Get : UsageData → string → Result;
  GetInt : UsageData → string → option Z;
  GetFloat : UsageData → string → option float64;
  GetString : UsageData → string → option string;
  GetStringArray : UsageData → string → option (list string);
  (** [r.Map()] *)
  ResultMap : Result → Attributes;
  (** [r.Type == gjson.Null] *)
  ResultIsNull : Result → bool;
  NewUsageData : string → Attributes → UsageData;
  ParseAttributes : UsageMap → Attributes;
  (** [resourceUsage.Map()] *)
  RUMap : store → loc → res UsageMap;
  (** [LoadReferenceFile()]: on success the store holds the loaded trees *)
  LoadReferenceFile : store → (ReferenceFile * store) + error;
  SetDefaultValues : ReferenceFile → store → store;
  FindMatchingResourceUsage : ReferenceFile → store → string → option loc;
  resourceUsagesMap : store → list loc → res (gmap string loc)
}.

(** ** mergeResourceUsageWithUsageData *)

Section MergeBackBody.

Context `{C : Collaborators}.

Variable recur : option loc → option UsageData → store → res store.

(** Lines 207-213: the default sub-items whose key is not null in
    [subExisting], in order. *)
Fixpoint keepNonNull (st : store) (subExisting : UsageData) (l : list loc)
  : res (list loc) :=
  match l with
  | [] => Ok []
  | i :: l =>
      subItem ← getItem st i;
      rest ← keepNonNull st subExisting l;
      Ok (if ResultIsNull (Get subExisting (Key subItem)) then rest
          else i :: rest)
  end.

(** Lines 203-217.  The new ResourceUsage is allocated before the loop
    and dropped (left unreferenced) when it received no sub-item. *)
Definition materialise (item : UsageItem) (subExisting : UsageData)
    (st : store) : res (option loc * store) :=
  d ← asRU (DefaultValue item);
  dr ← derefRU st d;
  kept ← keepNonNull st subExisting (Items dr);
  let '(p, st) := alloc st (ORU (mkResourceUsage (Key item) kept)) in
  Ok (match kept with [] => None | _ => Some p end, st).

(** Lines 229-231. *)
Definition assign (i : loc) (val : schema.value) (st : store) : res store :=
  if isNil val then Ok st else modItem (setValue val) i st.

(** Lines 190-226. *)
Definition mergeSubUsage (usageData : UsageData) (i : loc) (item : UsageItem)
    (st : store) : res store :=
  let subExisting :=
    NewUsageData (Key item) (ResultMap (Get usageData (Key item))) in
  base ← (if isNil (Value item) then Ok None else asRU (Value item));
  '(subResourceUsage, st) ←
    (if isNil (Value item) && negb (isNil (DefaultValue item))
     then materialise item subExisting st
     else Ok (base, st));
  st ← (match subResourceUsage with
        | Some _ => recur subResourceUsage (Some subExisting) st
        | None => Ok st
        end);
  match subResourceUsage with
  | Some p => assign i (VRU (Some p)) st
  | None => Ok st
  end.

(** The body of the loop of lines 170-232. *)
Definition mergeUsageItem (usageData : UsageData) (i : loc) (st : store)
  : res store :=
  item ← getItem st i;
  match ValueType item with
  | schema.Int64 =>
      assign i (from_option VInt Nil (GetInt usageData (Key item))) st
  | schema.Float64 =>
      assign i (from_option VFloat Nil (GetFloat usageData (Key item))) st
  | schema.String =>
      assign i (from_option VString Nil (GetString usageData (Key item))) st
  | schema.StringArray =>
      assign i (from_option VStringArray Nil
                  (GetStringArray usageData (Key item))) st
  | schema.SubResourceUsage => mergeSubUsage usageData i item st
  end.

End MergeBackBody.

Fixpoint mergeResourceUsageWithUsageData `{C : Collaborators} (fuel : nat)
    (resourceUsage : option loc) (usageData : option UsageData) (st : store)
  : res store :=
  match fuel with
  | 0 => OutOfFuel
  | S fuel =>
      match usageData with
      | None => Ok st
      | Some ud =>
          r ← derefRU st resourceUsage;
          forEach (mergeUsageItem (mergeResourceUsageWithUsageData fuel) ud)
                  (Items r) st
      end
  end.

(** ** sortResourceUsages *)

(** [sort.Slice] is a library function.  It is taken by its contract: the
    result is a rearrangement of the slice in which no element is [less]
    than an earlier one, provided [less] is a transitive ordering in the
    sense of the documentation of [sort.Interface] (on the elements of the
    slice): no element is less than itself, less is transitive, and so is
    its negation.  The order of elements that are not [less] than one
    another is not specified (the sort is not stable). *)
Definition transitiveOrdering {A} (less : A → A → bool) (l : list A) : Prop :=
  (∀ x, x ∈ l → less x x = false) ∧
  (∀ x y z, x ∈ l → y ∈ l → z ∈ l →
     less x y = true → less y z = true → less x z = true) ∧
  (∀ x y z, x ∈ l → y ∈ l → z ∈ l →
     less x y = false → less y z = false → less x z = false).

Definition noInversion {A} (less : A → A → bool) (l : list A) : Prop :=
  ∀ i j x y, i < j → l !! i = Some x → l !! j = Some y → less y x = false.

Class SliceSort := {
  sortSlice : ∀ {A}, (A → A → bool) → list A → list A;
  sortSlice_perm : ∀ A (less : A → A → bool) l, sortSlice less l ≡ₚ l;
  sortSlice_sorted : ∀ A (less : A → A → bool) l,
    transitiveOrdering less l → noInversion less (sortSlice less l)
}.

Fixpoint indexOfFrom (k : Z) (s : string) (arr : list string) : Z :=
  match arr with
  | [] => (-1)%Z
  | v :: arr => if String.eqb s v then k else indexOfFrom (k + 1)%Z s arr
  end.

Definition indexOf (s : string) (arr : list string) : Z := indexOfFrom 0 s arr.

Fixpoint anyValue (st : store) (l : list loc) : res bool :=
  match l with
  | [] => Ok false
  | i :: l =>
      item ← getItem st i;
      if isNil (Value item) then anyValue st l else Ok true
  end.

Definition resourceUsageHasValue (st : store) (resourceUsage : loc) : res bool :=
  r ← getRU st resourceUsage; anyValue st (Items r).

(** The comparison of lines 237-266. *)
Definition less (st : store) (existingOrder : list string) (a b : loc)
  : res bool :=
  ri ← getRU st a;
  rj ← getRU st b;
  let iExistingIndex := indexOf (Name ri) existingOrder in
  let jExistingIndex := indexOf (Name rj) existingOrder in
  if negb (iExistingIndex =? -1)%Z && negb (jExistingIndex =? -1)%Z
  then Ok (iExistingIndex <? jExistingIndex)%Z
  else if (iExistingIndex =? -1)%Z && negb (jExistingIndex =? -1)%Z
  then Ok false
  else if (jExistingIndex =? -1)%Z && negb (iExistingIndex =? -1)%Z
  then Ok true
  else
    iHasUsage ← resourceUsageHasValue st a;
    jHasUsafe ← resourceUsageHasValue st b;
    if iHasUsage && negb jHasUsafe then Ok true
    else if jHasUsafe && negb iHasUsage then Ok false
    else Ok (String.ltb (Name ri) (Name rj)).

Definition isOk {A} (r : res A) : bool :=
  match r with Ok _ => true | _ => false end.

Definition lessb (st : store) (existingOrder : list string) (a b : loc) : bool :=
  match less st existingOrder a b with Ok true => true | _ => false end.

(** The sort panics when a comparison does.  Which pairs [sort.Slice]
    compares is not specified; the embedding panics as soon as some pair of
    the slice cannot be compared, and so panics at least where Go does. *)
Definition sortResourceUsages `{SliceSort} (st : store)
    (resourceUsages : list loc) (existingOrder : list string)
  : res (list loc) :=
  if forallb (fun a => forallb (fun b => isOk (less st existingOrder a b))
                         resourceUsages) resourceUsages
  then Ok (sortSlice (lessb st existingOrder) resourceUsages)
  else Panic.

(** ** syncResourceUsages and SyncUsageData *)

Record UsageFile := mkUsageFile {
  ResourceUsages : list loc
}.

Fixpoint namesOf (st : store) (l : list loc) : res (list string) :=
  match l with
  | [] => Ok []
  | p :: l => r ← getRU st p; rest ← namesOf st l; Ok (Name r :: rest)
  end.

Section Sync.

Context `{C : Collaborators} `{S : SliceSort}.

Variable fuel : nat.
Variable referenceFile : ReferenceFile.
Variable existingResourceUsagesMap : gmap string loc.

(** Lines 83-92. *)
Definition estimate (resource : schema.Resource UsageMap)
    (resourceUsage : loc) (syncResult : SyncResult) (st : store)
  : res (SyncResult * store) :=
  match schema.EstimateUsage resource with
  | None => Ok (syncResult, st)
  | Some estimateUsage =>
      let syncResult :=
        mkSyncResult (ResourceCount syncResult)
                     (EstimationCount syncResult + 1)%Z
                     (EstimationErrors syncResult) in
      resourceUsageMap ← RUMap st resourceUsage;
      let '(resourceUsageMap, err) := estimateUsage resourceUsageMap in
      let syncResult :=
        match err with
        | Some e =>
            mkSyncResult (ResourceCount syncResult)
                         (EstimationCount syncResult)
                         (<[schema.Name resource := e]>
                            (EstimationErrors syncResult))
        | None => syncResult
        end in
      let estimatedUsageData :=
        NewUsageData (schema.Name resource)
                     (ParseAttributes resourceUsageMap) in
      st ← mergeResourceUsageWithUsageData fuel (Some resourceUsage)
             (Some estimatedUsageData) st;
      Ok (syncResult, st)
  end.

(** Lines 55-77: the usage tree of one resource before estimation. *)
Definition buildResourceUsage (resource : schema.Resource UsageMap)
    (st : store) : res (loc * store) :=
  let '(resourceUsage, st) :=
    alloc st (ORU (mkResourceUsage (schema.Name resource) [])) in
  st ← (match FindMatchingResourceUsage referenceFile st
                (schema.Name resource) with
        | Some refResourceUsage =>
            mergeResourceUsages fuel (Some resourceUsage)
              (Some refResourceUsage) (mkOpts false) st
        | None => Ok st
        end);
  let '(schemaUsage, st) :=
    alloc st (ORU (mkResourceUsage (schema.Name resource)
                     (schema.UsageSchema resource))) in
  st ← mergeResourceUsages fuel (Some resourceUsage) (Some schemaUsage)
         (mkOpts true) st;
  st ← (match existingResourceUsagesMap !! schema.Name resource with
        | Some existingResourceUsage =>
            mergeResourceUsages fuel (Some resourceUsage)
              (Some existingResourceUsage) (mkOpts false) st
        | None => Ok st
        end);
  Ok (resourceUsage, st).

(** The body of the loop of lines 54-96. *)
Definition syncResource (resource : schema.Resource UsageMap)
    (acc : SyncResult * list loc * store)
  : res (SyncResult * list loc * store) :=
  let '(syncResult, resourceUsages, st) := acc in
  '(resourceUsage, st) ← buildResourceUsage resource st;
  let syncResult :=
    mkSyncResult (ResourceCount syncResult + 1)%Z
                 (EstimationCount syncResult)
                 (EstimationErrors syncResult) in
  '(syncResult, st) ← estimate resource resourceUsage syncResult st;
  Ok (syncResult, resourceUsages ++ [resourceUsage], st).

Fixpoint syncResources (resources : list (schema.Resource UsageMap))
    (acc : SyncResult * list loc * store)
  : res (SyncResult * list loc * store) :=
  match resources with
  | [] => Ok acc
  | resource :: resources =>
      acc ← syncResource resource acc; syncResources resources acc
  end.

End Sync.

Definition syncResourceUsages `{C : Collaborators} `{S : SliceSort}
    (fuel : nat) (usageFile : UsageFile)
    (resources : list (schema.Resource UsageMap))
    (referenceFile : ReferenceFile) (st : store)
  : res (SyncResult * UsageFile * store) :=
  existingResourceUsagesMap ← resourceUsagesMap st (ResourceUsages usageFile);
  existingOrder ← namesOf st (ResourceUsages usageFile);
  '(syncResult, resourceUsages, st) ←
    syncResources fuel referenceFile existingResourceUsagesMap resources
      (mkSyncResult 0 0 ∅, [], st);
  resourceUsages ← sortResourceUsages st resourceUsages existingOrder;
  Ok (syncResult, mkUsageFile resourceUsages, st).

(** [SyncUsageData] returns a pair of a result pointer and an error. *)
Definition SyncUsageData `{C : Collaborators} `{S : SliceSort}
    (fuel : nat) (usageFile : UsageFile)
    (projects : list (schema.Project UsageMap)) (st : store)
  : res (option SyncResult * option error * UsageFile * store) :=
  match LoadReferenceFile st with
  | inr err => Ok (None, Some err, usageFile, st)
  | inl (referenceFile, st) =>
      let st := SetDefaultValues referenceFile st in
      let resources := concat (map schema.Resources projects) in
      '(syncResult, usageFile, st) ←
        syncResourceUsages fuel usageFile resources referenceFile st;
      Ok (Some syncResult, None, usageFile, st)
  end.

(** ** Well-formed stores

    The invariants of the data model, stated on the store: every pointer
    leads to an object of the right kind, the keys of the items of a
    ResourceUsage are pairwise distinct, the shape of a value matches the
    declared type of its item, and the objects form a hierarchy (no object
    is reached from itself).

    Whether a key names a sub-resource or a scalar attribute is fixed by
    [sub]; the hierarchy is witnessed by a level [lv] that increases along
    every pointer. *)

Definition ptrOf (v : schema.value) : list loc :=
  match v with
  | VRU (Some q) => [q]
  | _ => []
  end.

Definition ptrs (it : UsageItem) : list loc :=
  ptrOf (DefaultValue it) ++ ptrOf (Value it).

Definition succs (o : obj) : list loc :=
  match o with
  | ORU r => Items r
  | OItem it => ptrs it
  end.

Definition isRU (st : store) (p : loc) : bool :=
  match st !! p with Some (ORU _) => true | _ => false end.

Definition isItem (st : store) (i : loc) : bool :=
  match st !! i with Some (OItem _) => true | _ => false end.

Definition keyOf (st : store) (i : loc) : string :=
  match st !! i with Some (OItem it) => Key it | _ => EmptyString end.

Definition keysOf (st : store) (l : list loc) : list string :=
  map (keyOf st) l.

Section WellFormed.

Variable sub : string → bool.
Variable lv : loc → nat.

Definition field_ok (st : store) (k : string) (v : schema.value) : Prop :=
  if sub k then v = Nil ∨ ∃ q, v = VRU (Some q) ∧ isRU st q = true
  else ∀ p, v ≠ VRU p.

Definition item_ok (st : store) (it : UsageItem) : Prop :=
  isSub (ValueType it) = sub (Key it) ∧
  field_ok st (Key it) (DefaultValue it) ∧
  field_ok st (Key it) (Value it).

Definition obj_ok (st : store) (o : obj) : Prop :=
  match o with
  | ORU r => (∀ i, i ∈ Items r → isItem st i = true) ∧
             NoDup (keysOf st (Items r))
  | OItem it => item_ok st it
  end.

Record good (st : store) : Prop := mkGood {
  good_obj : ∀ l o, st !! l = Some o → obj_ok st o;
  good_edge : ∀ l o l', st !! l = Some o → l' ∈ succs o → lv l < lv l';
  (** addresses not yet allocated lie above everything before them *)
  good_fresh : ∀ l l', l < l' → length st ≤ l' → lv l < lv l'
}.

(** The sub-trees of a source item lie strictly below level [k] and have
    nesting depth at most [n]. *)
Definition item_below (P : loc → Prop) (k : nat) (st : store) (si : loc)
  : Prop :=
  lv si < k ∧ ∀ it, st !! si = Some (OItem it) → ∀ q, q ∈ ptrs it → P q.

Fixpoint tree_below (n k : nat) (st : store) (q : loc) : Prop :=
  match n with
  | 0 => False
  | S n => lv q < k ∧ ∃ r, st !! q = Some (ORU r) ∧
           ∀ si, si ∈ Items r → item_below (tree_below n k st) k st si
  end.

(** A source of a merge: its items and their sub-trees lie below [k]. *)
Definition src_ok (n k : nat) (st : store) (s : loc) : Prop :=
  ∃ r, st !! s = Some (ORU r) ∧
       ∀ si, si ∈ Items r → item_below (tree_below n k st) k st si.

(** What a merge may do to an object that existed before it: a
    ResourceUsage keeps its name and only receives new items at its end;
    an item keeps its key, keeps a sub-resource pointer once it has one,
    and only gains pointers to new objects. *)
Definition obj_ext (n : nat) (o o' : obj) : Prop :=
  match o, o' with
  | ORU r, ORU r' =>
      Name r' = Name r ∧
      ∃ ap, Items r' = Items r ++ ap ∧ ∀ i, i ∈ ap → n ≤ i
  | OItem it, OItem it' =>
      Key it' = Key it ∧
      (sub (Key it) = true → DefaultValue it ≠ Nil →
       DefaultValue it' = DefaultValue it) ∧
      (sub (Key it) = true → Value it ≠ Nil → Value it' = Value it) ∧
      (∀ q, q ∈ ptrs it' → q ∈ ptrs it ∨ n ≤ q)
  | _, _ => False
  end.

Record ext (st st' : store) : Prop := mkExt {
  ext_len : length st ≤ length st';
  ext_obj : ∀ l o, st !! l = Some o →
              ∃ o', st' !! l = Some o' ∧ obj_ext (length st) o o';
  ext_new : ∀ l o l', length st ≤ l → st' !! l = Some o → l' ∈ succs o →
              length st ≤ l'
}.

(** Nothing below level [k] changes. *)
Definition frame (k : nat) (st st' : store) : Prop :=
  ∀ l, lv l < k → st' !! l = st !! l.

(** Among the objects that existed before, apart from the item [dj]
    itself, only those at or above the level of a sub-tree of [dj]
    change. *)
Definition item_frame (dj : loc) (st st' : store) : Prop :=
  ∀ l, l < length st → l ≠ dj →
    (∀ it q, st' !! dj = Some (OItem it) → q ∈ ptrs it → lv l < lv q) →
    st' !! l = st !! l.

(** The item [di] of a destination lies below the sub-trees of the items
    of that destination: it is not shared with any of them. *)
Definition owned (st : store) (dr : ResourceUsage) (di : loc) : Prop :=
  ∀ dj djt q, dj ∈ Items dr → st !! dj = Some (OItem djt) → q ∈ ptrs djt →
    lv di < lv q.

End WellFormed.

(** Every key of the items of [q] (before) is a key of an item of [dd]
    (after). *)
Definition covers (st : store) (q : loc) (st' : store) (dd : loc) : Prop :=
  ∀ r, st !! q = Some (ORU r) →
    ∃ r', st' !! dd = Some (ORU r') ∧
          ∀ i, i ∈ Items r → keyOf st i ∈ keysOf st' (Items r').

(** What the merge of the fields of the source item [sit] does to the two
    value fields of the destination item ([djt] before, [djt'] after). *)
Definition field_detail (sit djt djt' : UsageItem) (st st' : store) : Prop :=
  (Value sit = Nil → Value djt' = Value djt) ∧
  (isSub (ValueType sit) = true →
     (DefaultValue sit = Nil → DefaultValue djt' = DefaultValue djt) ∧
     (DefaultValue djt ≠ Nil → DefaultValue djt' = DefaultValue djt) ∧
     (∀ q, DefaultValue sit = VRU (Some q) →
        ∃ dd, DefaultValue djt' = VRU (Some dd) ∧ covers st q st' dd) ∧
     (∀ q, Value sit = VRU (Some q) →
        ∃ dv, Value djt' = VRU (Some dv) ∧ covers st q st' dv) ∧
     (Value djt = Nil → Value sit ≠ Nil → DefaultValue djt' ≠ Nil →
      Value djt' = DefaultValue djt')).

(** ** Executable checks of the predicates above *)

Definition field_okb (sub : string → bool) (st : store) (k : string)
    (v : schema.value) : bool :=
  if sub k then
    match v with
    | Nil => true
    | VRU (Some q) => isRU st q
    | _ => false
    end
  else match v with VRU _ => false | _ => true end.

Definition item_okb (sub : string → bool) (st : store) (it : UsageItem) : bool :=
  Bool.eqb (isSub (ValueType it)) (sub (Key it)) &&
  field_okb sub st (Key it) (DefaultValue it) &&
  field_okb sub st (Key it) (Value it).

Definition obj_okb (sub : string → bool) (st : store) (o : obj) : bool :=
  match o with
  | ORU r => forallb (isItem st) (Items r) &&
             bool_decide (NoDup (keysOf st (Items r)))
  | OItem it => item_okb sub st it
  end.

Fixpoint all_from (P : loc → obj → bool) (i : loc) (l : list obj) : bool :=
  match l with
  | [] => true
  | o :: l => P i o && all_from P (S i) l
  end.

Definition store_okb (sub : string → bool) (lv : loc → nat) (st : store) : bool :=
  all_from (fun l o => obj_okb sub st o &&
                       forallb (fun l' => lv l <? lv l') (succs o)) 0 st.

Fixpoint tree_belowb (lv : loc → nat) (n k : nat) (st : store) (q : loc) : bool :=
  match n with
  | 0 => false
  | S n =>
      (lv q <? k) &&
      match st !! q with
      | Some (ORU r) =>
          forallb (fun si =>
                     (lv si <? k) &&
                     match st !! si with
                     | Some (OItem it) => forallb (tree_belowb lv n k st) (ptrs it)
                     | _ => true
                     end) (Items r)
      | _ => false
      end
  end.

Definition src_okb (lv : loc → nat) (n k : nat) (st : store) (s : loc) : bool :=
  match st !! s with
  | Some (ORU r) =>
      forallb (fun si =>
                 (lv si <? k) &&
                 match st !! si with
                 | Some (OItem it) => forallb (tree_belowb lv n k st) (ptrs it)
                 | _ => true
                 end) (Items r)
  | _ => false
  end.

Definition ownedb (lv : loc → nat) (st : store) (dr : ResourceUsage) (di : loc)
  : bool :=
  forallb (fun dj => match st !! dj with
                     | Some (OItem djt) => forallb (fun q => lv di <? lv q) (ptrs djt)
                     | _ => true
                     end) (Items dr).

(** ** Example stores

    Keys named "nodes" are sub-resources; the level of an object is its
    address. *)

Definition ex_sub (k : string) : bool := String.eqb k "nodes".

Definition ex_lv (l : loc) : nat := l.

Definition ex_item (k : string) (t : schema.UsageVariableType)
    (d v : schema.value) : obj :=
  OItem (schema.mkUsageItem k t EmptyString d v).

(** A source at address 0 and a destination at address 7.  Both have a
    scalar item "requests" and a sub-resource item "nodes"; the source's
    "nodes" has a default tree and a value tree, the destination's only a
    default tree. *)
Definition ex_store : store :=
  [ ORU (mkResourceUsage "aws_eks_cluster.src" [1; 2]);
    ex_item "requests" schema.Int64 (VInt 5) Nil;
    ex_item "nodes" schema.SubResourceUsage (VRU (Some 3)) (VRU (Some 5));
    ORU (mkResourceUsage "nodes" [4]);
    ex_item "count" schema.Int64 (VInt 1) Nil;
    ORU (mkResourceUsage "nodes" [6]);
    ex_item "hours" schema.Int64 Nil (VInt 7);
    ORU (mkResourceUsage "aws_eks_cluster.dest" [8; 9]);
    ex_item "requests" schema.Int64 Nil (VInt 100);
    ex_item "nodes" schema.SubResourceUsage (VRU (Some 10)) Nil;
    ORU (mkResourceUsage "nodes" [11]);
    ex_item "count" schema.Int64 (VInt 2) Nil ].

(** A source whose sub-resource item has a default tree and no value, and
    an empty destination at address 4. *)
Definition ex_default_only : store :=
  [ ORU (mkResourceUsage "src" [1]);
    ex_item "nodes" schema.SubResourceUsage (VRU (Some 2)) Nil;
    ORU (mkResourceUsage "nodes" [3]);
    ex_item "count" schema.Int64 (VInt 1) Nil;
    ORU (mkResourceUsage "dest" []) ].

(** ** Statements of the specification that the code contradicts *)

(** C3 as stated: whenever a sub-resource item of the source has a
    DefaultValue and the destination has no Value for its key, the merge
    populates the destination's Value (from its DefaultValue). *)
Definition C3_as_stated : Prop :=
  ∀ fuel st d s opts dr sr si sit sd st',
    st !! d = Some (ORU dr) → st !! s = Some (ORU sr) →
    si ∈ Items sr → st !! si = Some (OItem sit) →
    ValueType sit = schema.SubResourceUsage →
    DefaultValue sit = VRU (Some sd) →
    (∀ di dit, di ∈ Items dr → st !! di = Some (OItem dit) →
       Key dit = Key sit → Value dit = Nil) →
    mergeResourceUsages fuel (Some d) (Some s) opts st = Ok st' →
    ∃ dr' dj dit', st' !! d = Some (ORU dr') ∧ dj ∈ Items dr' ∧
                   st' !! dj = Some (OItem dit') ∧ Key dit' = Key sit ∧
                   Value dit' ≠ Nil ∧ Value dit' = DefaultValue dit'.

(** ** Identical copies

    [same_tree n st p p']: the tree at [p'] is an identical copy of the tree
    at [p] (same items in the same order, with the same keys, types,
    descriptions and values, and recursively identical sub-trees), of depth
    at most [n].  The trees are those of the data model: keys are pairwise
    distinct and the shape of a value matches the type of its item. *)

Definition same_value (isSubItem : bool) (P : loc → loc → Prop)
    (v v' : schema.value) : Prop :=
  if isSubItem then
    match v, v' with
    | Nil, Nil => True
    | VRU (Some q), VRU (Some q') => P q q'
    | _, _ => False
    end
  else v = v' ∧ ∀ p, v ≠ VRU p.

Definition same_item (P : loc → loc → Prop) (st : store) (i i' : loc) : Prop :=
  ∃ it it', st !! i = Some (OItem it) ∧ st !! i' = Some (OItem it') ∧
    Key it = Key it' ∧ ValueType it = ValueType it' ∧
    Description it = Description it' ∧
    same_value (isSub (ValueType it)) P (DefaultValue it) (DefaultValue it') ∧
    same_value (isSub (ValueType it)) P (Value it) (Value it').

Fixpoint same_tree (n : nat) (st : store) (p p' : loc) : Prop :=
  match n with
  | 0 => False
  | S n =>
      ∃ r r', st !! p = Some (ORU r) ∧ st !! p' = Some (ORU r') ∧
        NoDup (keysOf st (Items r)) ∧
        Forall2 (same_item (same_tree n st) st) (Items r) (Items r')
  end.

(** A store in which addresses 0-3 hold a tree and addresses 4-7 an
    identical copy of it. *)
Definition ex_copy : store :=
  [ ORU (mkResourceUsage "t" [1]);
    ex_item "nodes" schema.SubResourceUsage (VRU (Some 2)) Nil;
    ORU (mkResourceUsage "nodes" [3]);
    ex_item "count" schema.Int64 (VInt 1) (VInt 4);
    ORU (mkResourceUsage "t" [5]);
    ex_item "nodes" schema.SubResourceUsage (VRU (Some 6)) Nil;
    ORU (mkResourceUsage "nodes" [7]);
    ex_item "count" schema.Int64 (VInt 1) (VInt 4) ].

(** ** A sort that meets the contract of [sort.Slice]

    Insertion sort, used to run the sort on concrete inputs. *)

Fixpoint insertBy {A} (less : A → A → bool) (x : A) (l : list A) : list A :=
  match l with
  | [] => [x]
  | y :: l' => if less x y then x :: y :: l' else y :: insertBy less x l'
  end.

Fixpoint insertionSort {A} (less : A → A → bool) (l : list A) : list A :=
  match l with
  | [] => []
  | x :: l => insertBy less x (insertionSort less l)
  end.

(** ** What the comparison reads of a ResourceUsage *)

Definition nameOf (st : store) (a : loc) : string :=
  match st !! a with Some (ORU r) => Name r | _ => EmptyString end.

(** The ResourceUsage at [a] and its items can be read. *)
Definition readable (st : store) (a : loc) : Prop :=
  ∃ r, st !! a = Some (ORU r) ∧ ∀ i, i ∈ Items r → isItem st i = true.

(** The ResourceUsage at [a] has an item of its own whose Value is not
    absent. *)
Definition valued (st : store) (a : loc) : Prop :=
  ∃ r i it, st !! a = Some (ORU r) ∧ i ∈ Items r ∧
            st !! i = Some (OItem it) ∧ Value it ≠ Nil.

(** What resourceUsageHasValue answers for the ResourceUsage at [a]. *)
Definition hasValue (st : store) (a : loc) : bool :=
  match resourceUsageHasValue st a with Ok b => b | _ => false end.

(** The sort key that the comparison implements: resources of the
    persisted order first, by their index; then the others, those with a
    value first; then by name. *)
Definition sortKey (st : store) (existingOrder : list string) (a : loc)
  : Z * Z * string :=
  let i := indexOf (nameOf st a) existingOrder in
  if (i =? -1)%Z
  then (1%Z, if hasValue st a then 0%Z else 1%Z, nameOf st a)
  else (0%Z, i, EmptyString).

Definition keyLt (k k' : Z * Z * string) : bool :=
  let '(a, b, c) := k in
  let '(a', b', c') := k' in
  (a <? a')%Z || ((a =? a')%Z && ((b <? b')%Z || ((b =? b')%Z && String.ltb c c'))).

(** Three resource usages X (5), Y (3) and Z (0), of which only Z has an
    item with a Value. *)
Definition ex_sort : store :=
  [ ORU (mkResourceUsage "Z" [1; 2]);
    ex_item "a" schema.Int64 (VInt 1) Nil;
    ex_item "b" schema.Int64 Nil (VInt 2);
    ORU (mkResourceUsage "Y" [4]);
    ex_item "a" schema.Int64 (VInt 1) Nil;
    ORU (mkResourceUsage "X" []) ].

(** ** Predicates for the merge-back *)

(** All objects of the store lie below level [B]. *)
Definition bounded (lv : loc → nat) (B : nat) (st : store) : Prop :=
  ∀ l, l < length st → lv l < B.

(** The level [lv] with the object at [p] moved to level [k]. *)
Definition relevel (lv : loc → nat) (p k : nat) : loc → nat :=
  fun l => if decide (l = p) then k else lv l.

(** What a merge-back may do to an object that existed before it: nothing
    to a ResourceUsage; of an item it only assigns the Value, with a value
    that is not nil, and keeps a sub-resource pointer that is there. *)
Definition mb_obj_ext (sub : string → bool) (n : nat) (o o' : obj) : Prop :=
  match o, o' with
  | ORU r, ORU r' => r' = r
  | OItem it, OItem it' =>
      Key it' = Key it ∧ ValueType it' = ValueType it ∧
      Description it' = Description it ∧
      DefaultValue it' = DefaultValue it ∧
      (sub (Key it) = true → Value it ≠ Nil → Value it' = Value it) ∧
      (∀ q, q ∈ ptrs it' → q ∈ ptrs it ∨ n ≤ q) ∧
      (it' = it ∨ Value it' ≠ Nil)
  | _, _ => False
  end.

Record mb_ext (sub : string → bool) (st st' : store) : Prop := mkMbExt {
  mbe_len : length st ≤ length st';
  mbe_obj : ∀ l o, st !! l = Some o →
              ∃ o', st' !! l = Some o' ∧ mb_obj_ext sub (length st) o o';
  (** the objects created are ResourceUsages *)
  mbe_new : ∀ l o, length st ≤ l → st' !! l = Some o → ∃ r, o = ORU r
}.

(** The default sub-items that the merge-back keeps (lines 207-213). *)
Definition keptItems `{C : Collaborators} (st : store) (subExisting : UsageData)
    (l : list loc) : list loc :=
  filter (fun i => ResultIsNull (Get subExisting (keyOf st i)) = false) l.

Section MergeBackInv.

Context `{C : Collaborators}.
Variable sub : string → bool.
Variable B : nat.

(** What a merge-back establishes: the store stays well-formed for a
    level [lv'] that agrees with [lv] on the old objects, and a pointer
    that an item received lies at the level of one it had. *)
Record mb_inv (lv : loc → nat) (st st' : store) (lv' : loc → nat)
  : Prop := mkMbInv {
  mbi_good : good sub lv' st';
  mbi_bounded : bounded lv' B st';
  mbi_agree : ∀ l, l < length st → lv' l = lv l;
  mbi_ext : mb_ext sub st st';
  mbi_lv : ∀ l it it' q, st !! l = Some (OItem it) →
             st' !! l = Some (OItem it') → q ∈ ptrs it' →
             ∃ q0, q0 ∈ ptrs it ∧ lv' q = lv q0
}.

(** Apart from the item [i] itself, only objects above a sub-tree of [i]
    change. *)
Definition mb_item_frame (lv : loc → nat) (i : loc) (st st' : store)
  : Prop :=
  ∀ x, x < length st → x ≠ i →
    (∀ it q, st !! i = Some (OItem it) → q ∈ ptrs it → lv x ≤ lv q) →
    st' !! x = st !! x.

Definition mb_loop_frame (lv : loc → nat) (l : list loc) (st st' : store)
  : Prop :=
  ∀ x, x < length st → x ∉ l →
    (∀ j it q, j ∈ l → st !! j = Some (OItem it) → q ∈ ptrs it →
       lv x ≤ lv q) →
    st' !! x = st !! x.

(** Nothing at or below the level of the ResourceUsage [r] changes. *)
Definition mb_frame (lv : loc → nat) (r : loc) (st st' : store) : Prop :=
  ∀ x, x < length st → lv x ≤ lv r → st' !! x = st !! x.

(** The recursive call behaves well on every ResourceUsage above level
    [k]. *)
Definition mb_rec_ok (k : nat)
    (recur : option loc → option UsageData → store → res store) : Prop :=
  ∀ st lv q ud, good sub lv st → bounded lv B st → isRU st q = true →
    k < lv q →
    ∃ st' lv', recur (Some q) (Some ud) st = Ok st' ∧
               mb_inv lv st st' lv' ∧ mb_frame lv q st st'.

End MergeBackInv.

(** The value that lines 173-189 look up for a scalar or array item; [Nil]
    when the accessor returns nil. *)
Definition scalarLookup `{C : Collaborators} (usageData : UsageData)
    (item : UsageItem) : schema.value :=
  match ValueType item with
  | schema.Int64 => from_option VInt Nil (GetInt usageData (Key item))
  | schema.Float64 => from_option VFloat Nil (GetFloat usageData (Key item))
  | schema.String => from_option VString Nil (GetString usageData (Key item))
  | schema.StringArray =>
      from_option VStringArray Nil (GetStringArray usageData (Key item))
  | schema.SubResourceUsage => Nil
  end.

(** ** An implementation of the collaborators, for the examples

    The theorems are stated for every implementation of [Collaborators];
    the examples need one.  The raw estimation output is a tagged value
    (null, number, string, array of strings, nested mapping), a UsageData
    is the list of its attributes, and an accessor finds a value of its own
    type or nothing. *)

#[local] Unset Elimination Schemes.
Inductive json :=
| JNull
| JInt (z : Z)
| JFloat (f : float64)
| JString (s : string)
| JStrings (l : list string)
| JMap (m : list (string * json)).
#[local] Set Elimination Schemes.

Fixpoint jsonGet (m : list (string * json)) (k : string) : json :=
  match m with
  | [] => JNull
  | (k', v) :: m => if String.eqb k k' then v else jsonGet m k
  end.

Fixpoint refLookup (rf : list (string * loc)) (k : string) : option loc :=
  match rf with
  | [] => None
  | (k', p) :: rf => if String.eqb k k' then Some p else refLookup rf k
  end.

(** A later entry with the same name replaces an earlier one. *)
Fixpoint namesMap (st : store) (l : list loc) (m : gmap string loc)
  : res (gmap string loc) :=
  match l with
  | [] => Ok m
  | p :: l => r ← getRU st p; namesMap st l (<[Name r := p]> m)
  end.

(** [reference]: the reference file that loading finds, if it can be
    loaded; its trees are in the store already.  The usage map handed to
    an estimator starts empty. *)
Definition exampleCollaborators (reference : option (list (string * loc)))
  : Collaborators := {|
  UsageData := list (string * json);
  Result := json;
  Attributes := list (string * json);
  UsageMap := list (string * json);
  ReferenceFile := list (string * loc);
  Get := jsonGet;
  GetInt := fun u k => match jsonGet u k with JInt z => Some z | _ => None end;
  GetFloat := fun u k =>
    match jsonGet u k with JFloat f => Some f | _ => None end;
  GetString := fun u k =>
    match jsonGet u k with JString s => Some s | _ => None end;
  GetStringArray := fun u k =>
    match jsonGet u k with JStrings l => Some l | _ => None end;
  ResultMap := fun r => match r with JMap m => m | _ => [] end;
  ResultIsNull := fun r => match r with JNull => true | _ => false end;
  NewUsageData := fun _ attrs => attrs;
  ParseAttributes := fun m => m;
  RUMap := fun _ _ => Ok [];
  LoadReferenceFile := fun st =>
    match reference with
    | Some rf => inl (rf, st)
    | None => inr "reference file not found"%string
    end;
  SetDefaultValues := fun _ st => st;
  FindMatchingResourceUsage := fun rf _ name => refLookup rf name;
  resourceUsagesMap := fun st l => namesMap st l ∅
|}.

(** A usage tree at address 0: a scalar item "requests" with a Value, and a
    sub-resource item "nodes" that has only a default tree, with the items
    "a" and "b". *)
Definition ex_tree : store :=
  [ ORU (mkResourceUsage "aws_eks_cluster.c" [1; 2]);
    ex_item "requests" schema.Int64 Nil (VInt 100);
    ex_item "nodes" schema.SubResourceUsage (VRU (Some 3)) Nil;
    ORU (mkResourceUsage "nodes" [4; 5]);
    ex_item "a" schema.Int64 (VInt 1) Nil;
    ex_item "b" schema.Int64 (VInt 2) Nil ].

(** Estimation output with data for "a" of "nodes" only. *)
Definition ex_data : list (string * json) :=
  [ ("nodes"%string, JMap [("a"%string, JInt 7); ("b"%string, JNull)]) ].

(** Estimation output in which "nodes" is there, with null sub-items. *)
Definition ex_no_data : list (string * json) :=
  [ ("requests"%string, JNull);
    ("nodes"%string, JMap [("a"%string, JNull); ("b"%string, JNull)]) ].

(** ** Predicates for a sync pass *)

(** The computation returns [a] whenever it is given enough fuel. *)
Definition converges {A} (m : nat → res A) (a : A) : Prop :=
  ∃ fuel0, ∀ fuel, fuel0 ≤ fuel → m fuel = Ok a.

(** Every object of [st] is still there, unchanged, in [st']. *)
Definition prefix_kept (st st' : store) : Prop :=
  length st ≤ length st' ∧ ∀ l, l < length st → st' !! l = st !! l.

(** Line 79 on the counters. *)
Definition counted (syncResult : SyncResult) : SyncResult :=
  mkSyncResult (ResourceCount syncResult + 1)%Z (EstimationCount syncResult)
    (EstimationErrors syncResult).

(** The number of resources that have an estimation capability. *)
Definition estimators `{C : Collaborators}
    (resources : list (schema.Resource UsageMap)) : nat :=
  length (filter (fun r => is_Some (schema.EstimateUsage r)) resources).

(** Lines 80-88 on the counters and the error mapping, for the usage map
    [m] handed to the estimation capability. *)
Definition estimated `{C : Collaborators} (resource : schema.Resource UsageMap)
    (m : UsageMap) (syncResult : SyncResult) : SyncResult :=
  match schema.EstimateUsage resource with
  | None => syncResult
  | Some estimateUsage =>
      mkSyncResult (ResourceCount syncResult)
        (EstimationCount syncResult + 1)%Z
        (match (estimateUsage m).2 with
         | Some e => <[schema.Name resource := e]> (EstimationErrors syncResult)
         | None => EstimationErrors syncResult
         end)
  end.

(** The usage data that lines 91-92 merge back, for the usage map [m]
    handed to the estimation capability [estimateUsage]. *)
Definition estimatedUsageData `{C : Collaborators}
    (resource : schema.Resource UsageMap)
    (estimateUsage : UsageMap → UsageMap * option error) (m : UsageMap)
  : UsageData :=
  NewUsageData (schema.Name resource) (ParseAttributes (estimateUsage m).1).

(** The input of a sync pass respects the data model: the store is
    well-formed, the usage file, the reference file and the schemas of the
    resources point to trees of the store, and the collaborators return
    (ResourceUsage.Map on the trees of well-formed stores). *)
Record sync_wf `{C : Collaborators} (sub : string → bool)
    (referenceFile : ReferenceFile) (usageFile : UsageFile)
    (resources : list (schema.Resource UsageMap)) (st0 : store) : Prop
  := mkSyncWf {
  wf_good : ∃ lv, good sub lv st0;
  wf_usage : ∀ p, p ∈ ResourceUsages usageFile → isRU st0 p = true;
  wf_ref : ∀ st name p,
    FindMatchingResourceUsage referenceFile st name = Some p →
    isRU st0 p = true;
  wf_schema : ∀ r, r ∈ resources →
    (∀ i, i ∈ schema.UsageSchema r → isItem st0 i = true) ∧
    NoDup (keysOf st0 (schema.UsageSchema r));
  wf_map : ∃ m, resourceUsagesMap st0 (ResourceUsages usageFile) = Ok m ∧
                ∀ k p, m !! k = Some p → p ∈ ResourceUsages usageFile;
  wf_rumap : ∀ lv st p, good sub lv st → isRU st p = true →
               ∃ m, RUMap st p = Ok m
}.

(** ** An example sync pass

    Two resources with one scalar attribute each.  The usage file holds a
    saved value (100) for the attribute of the first.  The estimation of
    the first writes 42 for its attribute into the usage map and then
    fails; the estimation of the second succeeds. *)

Definition ex_sync : store :=
  [ ex_item "requests" schema.Int64 Nil Nil;
    ex_item "storage" schema.Int64 Nil Nil;
    ORU (mkResourceUsage "aws_lambda_function.a" [3]);
    ex_item "requests" schema.Int64 Nil (VInt 100) ].

Definition ex_usageFile : UsageFile := mkUsageFile [2].

Definition ex_A : schema.Resource (list (string * json)) :=
  schema.mkResource "aws_lambda_function.a" [0]
    (Some (fun _ => ([("requests"%string, JInt 42)], Some "throttled"%string))).

Definition ex_B : schema.Resource (list (string * json)) :=
  schema.mkResource "aws_s3_bucket.b" [1]
    (Some (fun _ => ([("storage"%string, JInt 7)], None))).

Definition ex_projects : list (schema.Project (list (string * json))) :=
  [ schema.mkProject [ex_A]; schema.mkProject [ex_B] ].

(** ** Statements of the specification that the code contradicts
       (estimation) *)

(** C1 as stated: when the estimation of A fails and that of B succeeds,
    the pass records the error of A only, counts both estimations, and the
    usage tree of A (the ResourceUsage [a] and its items, as built by lines
    55-77 in the store [stA]) is the same after the pass. *)
Definition C1_as_stated : Prop :=
  ∀ (C : Collaborators) (S : SliceSort) (sub : string → bool)
    (lv : loc → nat) fuel usageFile (A B : schema.Resource UsageMap)
    referenceFile st estimateA estimateB e existing a stA syncResult
    usageFile' st',
    good sub lv st →
    schema.EstimateUsage A = Some estimateA →
    (∀ m, (estimateA m).2 = Some e) →
    schema.EstimateUsage B = Some estimateB →
    (∀ m, (estimateB m).2 = None) →
    resourceUsagesMap st (ResourceUsages usageFile) = Ok existing →
    buildResourceUsage fuel referenceFile existing A st = Ok (a, stA) →
    syncResourceUsages fuel usageFile [A; B] referenceFile st =
      Ok (syncResult, usageFile', st') →
    EstimationErrors syncResult = {[ schema.Name A := e ]} ∧
    EstimationCount syncResult = 2%Z ∧
    ∀ r, stA !! a = Some (ORU r) →
         st' !! a = Some (ORU r) ∧ ∀ i, i ∈ Items r → st' !! i = stA !! i.

(** ** Invariants used in the proofs about mergeResourceUsages *)

(** Kinds and keys of the existing objects are kept. *)
Definition kinds (st st' : store) : Prop :=
  length st ≤ length st' ∧
  (∀ q, isRU st q = true → isRU st' q = true) ∧
  (∀ i, isItem st i = true → isItem st' i = true ∧ keyOf st' i = keyOf st i).

(** The two value fields of [dj] are the same in [st'] as in [st]. *)
Definition values_kept (dj : loc) (st st' : store) : Prop :=
  ∀ djt, st !! dj = Some (OItem djt) →
    ∃ djt', st' !! dj = Some (OItem djt') ∧
            DefaultValue djt' = DefaultValue djt ∧ Value djt' = Value djt.

(** The index built from the items of the destination. *)
Definition index_ok (st : store) (items : list loc) (m : gmap string loc)
  : Prop :=
  (∀ k dj, m !! k = Some dj → dj ∈ items ∧ isItem st dj = true ∧ keyOf st dj = k).

Section StepInvariants.

Variable sub : string → bool.
Variable lv : loc → nat.

(** What the proof of a merge at depth [n] assumes of its recursive
    calls. *)
Definition rec_spec (n : nat)
    (recur : option loc → option loc → MergeResourceUsagesOpts →
             store → res store) : Prop :=
  ∀ st dd q o, good sub lv st → isRU st dd = true →
    tree_below lv n (lv dd) st q →
    ∃ st', recur (Some dd) (Some q) o st = Ok st' ∧
           good sub lv st' ∧ ext sub st st' ∧ frame lv (lv dd) st st' ∧
           covers st q st' dd.

(** The situation inside the loop body: the source item [si] with its
    sub-trees below the destination [d], and the destination item [dj] of
    the same key above it. *)
Record ctx (n : nat) (d si dj : loc) (st : store) : Prop := mkCtx {
  ctx_good : good sub lv st;
  ctx_d : isRU st d = true;
  ctx_src : isItem st si = true;
  ctx_below : item_below lv (tree_below lv n (lv d) st) (lv d) st si;
  ctx_dst : isItem st dj = true;
  ctx_key : keyOf st dj = keyOf st si;
  ctx_lv : lv d < lv dj
}.

Definition steps (dj : loc) (st st' : store) : Prop :=
  good sub lv st' ∧ ext sub st st' ∧ item_frame lv dj st st'.

End StepInvariants.

Section LoopInvariants.

Variable lv : loc → nat.

(** The items of the source that the loop goes through. *)
Definition srcs_ok (n : nat) (d : loc) (st : store) (l : list loc) : Prop :=
  (∀ si, si ∈ l → isItem st si = true ∧
                  item_below lv (tree_below lv n (lv d) st) (lv d) st si) ∧
  NoDup (keysOf st l).

End LoopInvariants.

Section ItemInvariants.

Variable sub : string → bool.
Variable lv : loc → nat.

(** What the loop over [l] leaves untouched among the old objects. *)
Definition loop_frame (d : loc) (l : list loc) (st st' : store)
    (dr' : ResourceUsage) : Prop :=
  ∀ l0, l0 < length st → l0 ≠ d →
    (∀ dj, dj ∈ Items dr' → keyOf st' dj ∈ keysOf st l →
       l0 ≠ dj ∧ ∀ it q, st' !! dj = Some (OItem it) → q ∈ ptrs it →
                   lv l0 < lv q) →
    st' !! l0 = st !! l0.

Record loop_pre (n : nat) (d : loc) (m : gmap string loc) (st : store)
    (dr : ResourceUsage) (l : list loc) : Prop := mkLoopPre {
  lp_good : good sub lv st;
  lp_d : st !! d = Some (ORU dr);
  lp_srcs : srcs_ok lv n d st l;
  lp_index : index_ok st (Items dr) m;
  lp_miss : ∀ k, k ∈ keysOf st l → m !! k = None → k ∉ keysOf st (Items dr)
}.

Record loop_post (d : loc) (l : list loc) (st : store) (dr : ResourceUsage)
    (st' : store) (dr' : ResourceUsage) : Prop := mkLoopPost {
  lq_good : good sub lv st';
  lq_ext : ext sub st st';
  lq_frame : frame lv (lv d) st st';
  lq_d : st' !! d = Some (ORU dr');
  lq_cov : ∀ si, si ∈ l → keyOf st si ∈ keysOf st' (Items dr');
  lq_new : ∀ dj, dj ∈ Items dr' → dj ∈ Items dr ∨ keyOf st' dj ∈ keysOf st l;
  lq_lf : loop_frame d l st st' dr'
}.

(** The outcome of the iteration for the source item [si]: the
    destination item is [dj], with fields [dit0] when the iteration
    starts and [dK] when it ends. *)
Record item_post (d : loc) (m : gmap string loc) (sit : UsageItem)
    (st : store) (dr : ResourceUsage) (dj : loc) (sb : store)
    (drb : ResourceUsage) (dit0 dK : UsageItem) : Prop := mkItemPost {
  ip_good : good sub lv sb;
  ip_ext : ext sub st sb;
  ip_frame : frame lv (lv d) st sb;
  ip_d : sb !! d = Some (ORU drb);
  ip_in : dj ∈ Items drb;
  ip_key : keyOf sb dj = Key sit;
  ip_case :
    (m !! Key sit = Some dj ∧ Items drb = Items dr ∧
     st !! dj = Some (OItem dit0)) ∨
    (m !! Key sit = None ∧ dj = length st ∧ Items drb = Items dr ++ [dj] ∧
     DefaultValue dit0 = Nil ∧ Value dit0 = Nil);
  ip_lf : ∀ l, l < length st → l ≠ d → l ≠ dj →
            (∀ it q, sb !! dj = Some (OItem it) → q ∈ ptrs it → lv l < lv q) →
            sb !! l = st !! l;
  ip_dj : sb !! dj = Some (OItem dK);
  ip_fields : field_detail sit dit0 dK st sb
}.

End ItemInvariants.

(** ** Predicates for the further properties *)

(** [reaches st p l]: the object at [l] belongs to the tree at [p]. *)
Inductive reaches (st : store) : loc → loc → Prop :=
| reaches_here p : reaches st p p
| reaches_step p o q l :
    st !! p = Some o → q ∈ succs o → reaches st q l → reaches st p l.

(** What a merge may do to the fields of an item that existed before it:
    the key stays; the type stays unless OverrideValueType is set; the
    description is only replaced by a non-empty one; a field that holds a
    value is never left without one. *)
Definition item_kept (opts : MergeResourceUsagesOpts) (it it' : UsageItem)
  : Prop :=
  Key it' = Key it ∧
  (OverrideValueType opts = false → ValueType it' = ValueType it) ∧
  (Description it' = Description it ∨ Description it' ≠ EmptyString) ∧
  (DefaultValue it ≠ Nil → DefaultValue it' ≠ Nil) ∧
  (Value it ≠ Nil → Value it' ≠ Nil).

Definition items_kept (opts : MergeResourceUsagesOpts) (st st' : store)
  : Prop :=
  ∀ l it, st !! l = Some (OItem it) →
    ∃ it', st' !! l = Some (OItem it') ∧ item_kept opts it it'.

(** The item that lines 122-160 leave for a destination item [d] and a
    scalar or array source item [s] of the same key. *)
Definition mergedScalar (opts : MergeResourceUsagesOpts) (s d : UsageItem)
  : UsageItem :=
  schema.mkUsageItem (Key d)
    (if OverrideValueType opts then ValueType s else ValueType d)
    (if String.eqb (Description s) EmptyString then Description d
     else Description s)
    (if isNil (DefaultValue s) then DefaultValue d else DefaultValue s)
    (if isNil (Value s) then Value d else Value s).

(** Every ResourceUsage of [st] is still one in [st'], under its name. *)
Definition rus_kept (st st' : store) : Prop :=
  length st ≤ length st' ∧
  ∀ l r, st !! l = Some (ORU r) →
    ∃ r', st' !! l = Some (ORU r') ∧ Name r' = Name r.

(** The source items whose key the index [m] of the destination (lines
    110-113) does not have. *)
Definition unindexed (m : gmap string loc) (st : store) (l : list loc)
  : list loc :=
  filter (fun si => m !! keyOf st si = None) l.

(** ** Value precedence *)

(** The old object [x] is none of the items of the destination and lies
    below the DefaultValue tree of the item [di] and below the sub-trees of
    the other items of the destination: a merge that does not enter the
    Value tree of [di] has no way to it. *)
Definition apart (lv : loc → nat) (st : store) (dr : ResourceUsage)
    (di x : loc) : Prop :=
  (x ∉ Items dr) ∧
  (∀ dit q, st !! di = Some (OItem dit) →
     DefaultValue dit = VRU (Some q) → lv x < lv q) ∧
  (∀ dj djt q, dj ∈ Items dr → dj ≠ di → st !! dj = Some (OItem djt) →
     q ∈ ptrs djt → lv x < lv q).

(** A destination (address 4) whose item "nodes" has a Value tree (6) of
    its own and a DefaultValue tree (8); the source (0) has only a
    DefaultValue tree for "nodes". *)
Definition ex_value : store :=
  [ ORU (mkResourceUsage "src" [1]);
    ex_item "nodes" schema.SubResourceUsage (VRU (Some 2)) Nil;
    ORU (mkResourceUsage "nodes" [3]);
    ex_item "count" schema.Int64 (VInt 8) Nil;
    ORU (mkResourceUsage "dest" [5]);
    ex_item "nodes" schema.SubResourceUsage (VRU (Some 8)) (VRU (Some 6));
    ORU (mkResourceUsage "nodes" [7]);
    ex_item "count" schema.Int64 (VInt 3) Nil;
    ORU (mkResourceUsage "nodes" [9]);
    ex_item "count" schema.Int64 (VInt 2) Nil ].

(** The same, with the Value and the DefaultValue of the destination's
    "nodes" being one tree (6), as lines 143-145 leave them. *)
Definition ex_alias : store :=
  [ ORU (mkResourceUsage "src" [1]);
    ex_item "nodes" schema.SubResourceUsage (VRU (Some 2)) Nil;
    ORU (mkResourceUsage "nodes" [3]);
    ex_item "count" schema.Int64 (VInt 8) Nil;
    ORU (mkResourceUsage "dest" [5]);
    ex_item "nodes" schema.SubResourceUsage (VRU (Some 6)) (VRU (Some 6));
    ORU (mkResourceUsage "nodes" [7]);
    ex_item "count" schema.Int64 (VInt 3) Nil ].

(** ** Statements of the specification that the code contradicts
       (value precedence) *)

(** C5 as stated: when the destination's item for a key holds a Value and
    the source's item for that key has none, the destination's item still
    holds that Value after the merge: the same scalar or array, or the same
    tree with the same contents. *)
Definition C5_as_stated : Prop :=
  ∀ fuel st d s opts dr sr di dit si sit st',
    st !! d = Some (ORU dr) → st !! s = Some (ORU sr) →
    di ∈ Items dr → st !! di = Some (OItem dit) →
    si ∈ Items sr → st !! si = Some (OItem sit) → Key sit = Key dit →
    Value dit ≠ Nil → Value sit = Nil →
    mergeResourceUsages fuel (Some d) (Some s) opts st = Ok st' →
    (∃ dit', st' !! di = Some (OItem dit') ∧ Value dit' = Value dit) ∧
    (∀ v x, Value dit = VRU (Some v) → reaches st v x →
       st' !! x = st !! x).

(** ** The items that a merge-back goes through *)

(** The usage data that lines 191-192 hand to the merge-back of the
    sub-tree of [item]. *)
Definition subData `{C : Collaborators} (usageData : UsageData)
    (item : UsageItem) : UsageData :=
  NewUsageData (Key item) (ResultMap (Get usageData (Key item))).

(** The state in which lines 173-189 and 229-231 leave a scalar or array
    item. *)
Definition assigned `{C : Collaborators} (usageData : UsageData)
    (item : UsageItem) : UsageItem :=
  if isNil (scalarLookup usageData item) then item
  else setValue (scalarLookup usageData item) item.

(** The items [l] of the sub-tree into which the merge-back of a
    sub-resource item goes (lines 194-222): those of its Value, or, when it
    has none, the items of its DefaultValue that have data. *)
Definition recursesInto `{C : Collaborators} (st : store)
    (usageData : UsageData) (item : UsageItem) (l : list loc) : Prop :=
  (∃ q qr, Value item = VRU (Some q) ∧ st !! q = Some (ORU qr) ∧
           l = Items qr) ∨
  (∃ q qr, Value item = Nil ∧ DefaultValue item = VRU (Some q) ∧
           st !! q = Some (ORU qr) ∧
           l = keptItems st (subData usageData item) (Items qr)).

(** What the merge-back makes of an item [it] of the store [st] to which
    it comes with the data [u], [st'] being the store it leaves
    (lines 173-231): a scalar or array item is assigned what the accessor
    finds; a sub-resource item that has a Value keeps it; one that has only
    a DefaultValue gets as Value a new ResourceUsage with the default
    sub-items that have data, and stays as it is when there is none. *)
Definition mergedBack `{C : Collaborators} (st st' : store) (u : UsageData)
    (it it' : UsageItem) : Prop :=
  if isSub (ValueType it) then
    match Value it, DefaultValue it with
    | Nil, VRU (Some q) =>
        ∃ qr, st !! q = Some (ORU qr) ∧
          match keptItems st (subData u it) (Items qr) with
          | [] => it' = it
          | kept =>
              ∃ p, st !! p = None ∧ it' = setValue (VRU (Some p)) it ∧
                   st' !! p = Some (ORU (mkResourceUsage (Key it) kept))
          end
    | _, _ => it' = it
    end
  else it' = assigned u it.

(** [nested lv st items ud i (Some u)]: the merge-back of the items
    [items] with the data [ud] comes to the item [i], at some depth, with
    the data [u], and on no other way: at every level the tree of the item
    through which the way goes lies apart from its siblings, at or below
    their sub-trees.  [nested lv st items ud x None]: the way ends in a
    loop that passes the object [x] by: [x] is not one of the items of the
    loop (a default sub-item without data, for one) and lies at or below
    their sub-trees. *)
Inductive nested `{C : Collaborators} (lv : loc → nat) (st : store)
  : list loc → UsageData → loc → option UsageData → Prop :=
| nested_here items ud i :
    i ∈ items →
    (∀ j jt q, j ∈ items → st !! j = Some (OItem jt) → q ∈ ptrs jt →
       lv i < lv q) →
    nested lv st items ud i (Some ud)
| nested_out items ud x :
    x < length st → x ∉ items →
    (∀ j jt q, j ∈ items → st !! j = Some (OItem jt) → q ∈ ptrs jt →
       lv x ≤ lv q) →
    nested lv st items ud x None
| nested_below items ud j jt l i u :
    j ∈ items → st !! j = Some (OItem jt) →
    ValueType jt = schema.SubResourceUsage →
    recursesInto st ud jt l →
    reaches st j i → i ≠ j →
    (∀ x j', reaches st j x → j' ∈ items → j' ≠ j →
       x ≠ j' ∧ ∀ jt' q', st !! j' = Some (OItem jt') → q' ∈ ptrs jt' →
                  lv x ≤ lv q') →
    nested lv st l (subData ud jt) i u →
    nested lv st items ud i u.

(** A tree whose item "nodes" has a Value tree with the items "a" and
    "b". *)
Definition ex_nested : store :=
  [ ORU (mkResourceUsage "aws_eks_cluster.c" [1]);
    ex_item "nodes" schema.SubResourceUsage Nil (VRU (Some 2));
    ORU (mkResourceUsage "nodes" [3; 4]);
    ex_item "a" schema.Int64 Nil (VInt 1);
    ex_item "b" schema.Int64 Nil (VInt 2) ].

(** Estimation output with "a" at the top, and under "nodes" a null "a"
    and data for "b". *)
Definition ex_nested_data : list (string * json) :=
  [ ("a"%string, JInt 9);
    ("nodes"%string, JMap [("a"%string, JNull); ("b"%string, JInt 5)]) ].

(** The example pass of [ex_sync], step by step: the store after lines
    55-77 for the first resource (its usage tree at address 4, the schema
    tree at 5, the item at 6 with the saved value), after the merge-back
    of the usage map that the failed estimation left, and after lines
    55-77 for the second resource (its usage tree at address 7). *)
Definition ex_builtA : store :=
  ex_sync ++
  [ ORU (mkResourceUsage "aws_lambda_function.a" [6]);
    ORU (mkResourceUsage "aws_lambda_function.a" [0]);
    ex_item "requests" schema.Int64 Nil (VInt 100) ].

Definition ex_mergedA : store :=
  ex_sync ++
  [ ORU (mkResourceUsage "aws_lambda_function.a" [6]);
    ORU (mkResourceUsage "aws_lambda_function.a" [0]);
    ex_item "requests" schema.Int64 Nil (VInt 42) ].

Definition ex_builtB : store :=
  ex_mergedA ++
  [ ORU (mkResourceUsage "aws_s3_bucket.b" [9]);
    ORU (mkResourceUsage "aws_s3_bucket.b" [1]);
    ex_item "storage" schema.Int64 Nil Nil ].

(** Levels for a store of the example pass: the items above the
    ResourceUsages, the addresses not yet allocated above both. *)
Definition ex_lvOf (st : store) (l : loc) : nat :=
  if l <? length st then (if isItem st l then 10 + l else l) else 20 + l.

(** Where a merge-back that started in [st] and left [st'] stands with the
    object at [i]: merged back with the data [u], or passed by. *)
Definition outcome `{C : Collaborators} (st st' : store) (i : loc)
    (u : option UsageData) : Prop :=
  match u with
  | Some u => ∀ it, st !! i = Some (OItem it) →
                ∃ it', st' !! i = Some (OItem it') ∧ mergedBack st st' u it it'
  | None => st' !! i = st !! i
  end.

(** * Proofs *)

(** ** The result monad and the store primitives *)

Lemma bind_Ok {A B} (m : res A) (f : A → res B) (b : B) :
  m ≫= f = Ok b ↔ ∃ a, m = Ok a ∧ f a = Ok b.
Proof.
  destruct m; simpl; split; try (intros [? [? ?]]); try discriminate; eauto.
  intros. simplify_eq. done.
Qed.

Lemma getItem_Ok st i it : getItem st i = Ok it ↔ st !! i = Some (OItem it).
Proof.
  unfold getItem. destruct (st !! i) as [[]|]; split; intros; simplify_eq; done.
Qed.

Lemma getRU_Ok st p r : getRU st p = Ok r ↔ st !! p = Some (ORU r).
Proof.
  unfold getRU. destruct (st !! p) as [[]|]; split; intros; simplify_eq; done.
Qed.

Lemma isItem_true st i : isItem st i = true ↔ ∃ it, st !! i = Some (OItem it).
Proof.
  unfold isItem. destruct (st !! i) as [[]|]; split;
    try (intros [? ?]); intros; simplify_eq; eauto.
Qed.

Lemma isRU_true st p : isRU st p = true ↔ ∃ r, st !! p = Some (ORU r).
Proof.
  unfold isRU. destruct (st !! p) as [[]|]; split;
    try (intros [? ?]); intros; simplify_eq; eauto.
Qed.

Lemma keyOf_item st i it : st !! i = Some (OItem it) → keyOf st i = Key it.
Proof. unfold keyOf. by intros ->. Qed.

Lemma elem_of_keysOf st l k :
  k ∈ keysOf st l ↔ ∃ i, i ∈ l ∧ keyOf st i = k.
Proof.
  unfold keysOf. rewrite list_elem_of_In, in_map_iff. split.
  - intros (i & ? & ?%list_elem_of_In). eauto.
  - intros (i & ?%list_elem_of_In & ?). eauto.
Qed.

Lemma keyOf_in_keysOf st l i : i ∈ l → keyOf st i ∈ keysOf st l.
Proof. intros. apply elem_of_keysOf. eauto. Qed.

Lemma modItem_Ok f i st it :
  st !! i = Some (OItem it) → modItem f i st = Ok (<[i := OItem (f it)]> st).
Proof. intros H. unfold modItem. apply getItem_Ok in H. by rewrite H. Qed.

Lemma forEach_app {A} (f : A → store → res store) l1 l2 st st' :
  forEach f (l1 ++ l2) st = Ok st' ↔
  ∃ st1, forEach f l1 st = Ok st1 ∧ forEach f l2 st1 = Ok st'.
Proof.
  revert st. induction l1 as [|x l1 IH]; intros st; simpl.
  - split; [eauto|]. by intros (? & [= ->] & ?).
  - rewrite bind_Ok. split.
    + intros (a & Ha & H). apply IH in H as (st1 & H1 & H2).
      exists st1. split; [|done]. apply bind_Ok. eauto.
    + intros (st1 & H1 & H2). apply bind_Ok in H1 as (a & Ha & H1).
      exists a. split; [done|]. apply IH. eauto.
Qed.

Lemma ptrOf_spec v q : q ∈ ptrOf v ↔ v = VRU (Some q).
Proof.
  destruct v as [| | | | |[p|]]; simpl;
    rewrite ?list_elem_of_singleton, ?elem_of_nil;
    split; intros; simplify_eq; done.
Qed.

Lemma ptrs_spec it q :
  q ∈ ptrs it ↔ DefaultValue it = VRU (Some q) ∨ Value it = VRU (Some q).
Proof. unfold ptrs. by rewrite elem_of_app, !ptrOf_spec. Qed.

Lemma lookup_snoc_old {A} (l : list A) x i y :
  l !! i = Some y → (l ++ [x]) !! i = Some y.
Proof. intros. by apply lookup_app_l_Some. Qed.

Lemma lookup_snoc_inv {A} (l : list A) x i y :
  (l ++ [x]) !! i = Some y → l !! i = Some y ∨ (i = length l ∧ y = x).
Proof.
  intros H. apply lookup_app_Some in H as [H|[Hl H]]; [by left|right].
  apply list_lookup_singleton_Some in H as [? ?]. split; [lia|done].
Qed.

Lemma lookup_insert_inv {A} (l : list A) i x j y :
  <[i := x]> l !! j = Some y →
  (j = i ∧ y = x ∧ i < length l) ∨ (j ≠ i ∧ l !! j = Some y).
Proof.
  intros H. destruct (decide (j = i)) as [->|Hne].
  - left. assert (i < length l).
    { apply lookup_lt_Some in H. by rewrite length_insert in H. }
    rewrite list_lookup_insert_eq in H by done. by simplify_eq.
  - right. by rewrite list_lookup_insert_ne in H.
Qed.

(** ** Extension of stores *)

Section Ext.

Variable sub : string → bool.
Variable lv : loc → nat.

Lemma obj_ext_refl n o : obj_ext sub n o o.
Proof.
  destruct o as [r|it]; simpl.
  - split; [done|]. exists []. rewrite app_nil_r. split; [done|].
    intros i Hi. by apply elem_of_nil in Hi.
  - repeat split; auto.
Qed.

Lemma obj_ext_trans n n' o o' o'' :
  n ≤ n' → obj_ext sub n o o' → obj_ext sub n' o' o'' → obj_ext sub n o o''.
Proof.
  intros Hn. destruct o as [r|it], o' as [r'|it'], o'' as [r''|it''];
    simpl; try done.
  - intros [HN (ap & Hap & Hfr)] [HN' (ap' & Hap' & Hfr')].
    split; [congruence|]. exists (ap ++ ap'). split.
    + rewrite Hap', Hap. by rewrite app_assoc.
    + intros i [Hi|Hi]%elem_of_app; [auto|]. apply Hfr' in Hi. lia.
  - intros (HK & HD & HV & HP) (HK' & HD' & HV' & HP').
    rewrite HK in HD', HV'.
    split; [congruence|]. split; [|split].
    + intros Hs Hd. rewrite <- (HD Hs Hd). apply HD'; [done|].
      by rewrite (HD Hs Hd).
    + intros Hs Hd. rewrite <- (HV Hs Hd). apply HV'; [done|].
      by rewrite (HV Hs Hd).
    + intros q Hq. destruct (HP' q Hq) as [Hq'|?]; [|right; lia].
      apply HP in Hq'. done.
Qed.

Lemma ext_refl st : ext sub st st.
Proof.
  split; [done| |].
  - intros l o H. exists o. split; [done|apply obj_ext_refl].
  - intros l o l' Hl H. apply lookup_lt_Some in H. lia.
Qed.

Lemma ext_trans st1 st2 st3 :
  ext sub st1 st2 → ext sub st2 st3 → ext sub st1 st3.
Proof.
  intros [L1 O1 N1] [L2 O2 N2]. split; [lia| |].
  - intros l o H. destruct (O1 l o H) as (o' & H' & E1).
    destruct (O2 l o' H') as (o'' & H'' & E2).
    exists o''. split; [done|]. by eapply obj_ext_trans.
  - intros l o l' Hl H Hs.
    destruct (st2 !! l) as [o2|] eqn:H2.
    + destruct (O2 l o2 H2) as (o'' & H'' & E2).
      rewrite H in H''. injection H'' as <-.
      destruct o2 as [r2|it2], o as [r3|it3]; simpl in E2; try done.
      * destruct E2 as [_ (ap & Hap & Hfr)]. simpl in Hs.
        rewrite Hap in Hs. apply elem_of_app in Hs as [Hs|Hs].
        -- eapply (N1 l (ORU r2)); eauto.
        -- apply Hfr in Hs. lia.
      * destruct E2 as (_ & _ & _ & HP). simpl in Hs.
        destruct (HP l' Hs) as [Hq|?]; [|lia].
        eapply (N1 l (OItem it2)); eauto.
    + apply lookup_ge_None in H2.
      assert (length st2 ≤ l') by (eapply N2; eauto). lia.
Qed.

Lemma ext_isRU st st' q : ext sub st st' → isRU st q = true → isRU st' q = true.
Proof.
  intros E (r & H)%isRU_true. destruct (ext_obj _ _ _ E _ _ H) as (o' & H' & X).
  destruct o'; [|done]. apply isRU_true. eauto.
Qed.

Lemma ext_item st st' i it :
  ext sub st st' → st !! i = Some (OItem it) →
  ∃ it', st' !! i = Some (OItem it') ∧ obj_ext sub (length st) (OItem it) (OItem it').
Proof.
  intros E H. destruct (ext_obj _ _ _ E _ _ H) as (o' & H' & X).
  destruct o'; [done|]. eauto.
Qed.

Lemma ext_ru st st' p r :
  ext sub st st' → st !! p = Some (ORU r) →
  ∃ r', st' !! p = Some (ORU r') ∧ obj_ext sub (length st) (ORU r) (ORU r').
Proof.
  intros E H. destruct (ext_obj _ _ _ E _ _ H) as (o' & H' & X).
  destruct o'; [|done]. eauto.
Qed.

Lemma ext_isItem st st' i :
  ext sub st st' → isItem st i = true → isItem st' i = true.
Proof.
  intros E (it & H)%isItem_true. destruct (ext_item _ _ _ _ E H) as (it' & H' & _).
  apply isItem_true. eauto.
Qed.

Lemma ext_keyOf st st' i :
  ext sub st st' → isItem st i = true → keyOf st' i = keyOf st i.
Proof.
  intros E (it & H)%isItem_true.
  destruct (ext_item _ _ _ _ E H) as (it' & H' & HK & _).
  by rewrite (keyOf_item _ _ _ H), (keyOf_item _ _ _ H').
Qed.

Lemma ext_keysOf st st' l :
  ext sub st st' → (∀ i, i ∈ l → isItem st i = true) →
  keysOf st' l = keysOf st l.
Proof.
  intros E Hl. unfold keysOf. apply map_ext_in. intros i Hi.
  apply ext_keyOf; [done|]. apply Hl. by apply list_elem_of_In.
Qed.

(** Pointers held by an item of a well-formed store are kept. *)
Lemma ext_ptrs st st' i it it' q :
  item_ok sub st it → ext sub st st' →
  st !! i = Some (OItem it) → st' !! i = Some (OItem it') →
  q ∈ ptrs it → q ∈ ptrs it'.
Proof.
  intros (HT & HD & HV) E H H' Hq.
  destruct (ext_item _ _ _ _ E H) as (it2 & H2 & HK & SD & SV & _).
  simplify_eq. apply ptrs_spec. apply ptrs_spec in Hq.
  unfold field_ok in HD, HV.
  destruct (sub (Key it)) eqn:Hs.
  - destruct Hq as [Hq|Hq]; [left; rewrite SD|right; rewrite SV];
      try done; by rewrite Hq.
  - destruct Hq as [Hq|Hq]; [by apply HD in Hq|by apply HV in Hq].
Qed.

End Ext.

(** ** Building extensions and well-formed stores step by step *)

Section Steps.

Variable sub : string → bool.
Variable lv : loc → nat.

Lemma obj_ext_succs n o o' l' :
  obj_ext sub n o o' → l' ∈ succs o' → l' ∈ succs o ∨ n ≤ l'.
Proof.
  destruct o as [r|it], o' as [r'|it']; simpl; try done.
  - intros [_ (ap & -> & Hfr)] [?|?]%elem_of_app; auto.
  - intros (_ & _ & _ & HP). apply HP.
Qed.

Lemma ext_snoc st st1 o :
  ext sub st st1 → (∀ l', l' ∈ succs o → length st ≤ l') →
  ext sub st (st1 ++ [o]).
Proof.
  intros [L O N] Ho. split.
  - rewrite length_app. simpl. lia.
  - intros l o0 H. destruct (O l o0 H) as (o' & H' & E).
    exists o'. split; [|done]. by apply lookup_snoc_old.
  - intros l o0 l' Hl H Hs. apply lookup_snoc_inv in H as [H|[-> ->]]; eauto.
Qed.

Lemma ext_insert st st1 l o1 o' :
  ext sub st st1 → st1 !! l = Some o1 → obj_ext sub (length st) o1 o' →
  ext sub st (<[l := o']> st1).
Proof.
  intros [L O N] H1 E. split.
  - by rewrite length_insert.
  - intros l0 o0 H. destruct (O l0 o0 H) as (o2 & H2 & E2).
    destruct (decide (l0 = l)) as [->|Hne].
    + exists o'. split.
      * apply list_lookup_insert_eq. by eapply lookup_lt_Some.
      * simplify_eq. eapply obj_ext_trans; [|done|done]. done.
    + exists o2. by rewrite list_lookup_insert_ne.
  - intros l0 o0 l' Hl H Hs.
    apply lookup_insert_inv in H as [(-> & -> & _)|[Hne H]]; [|eauto].
    destruct (obj_ext_succs _ _ _ _ E Hs); [|done]. eauto.
Qed.

Lemma kinds_snoc st o : kinds st (st ++ [o]).
Proof.
  split; [rewrite length_app; lia|]. split.
  - intros q (r & H)%isRU_true. apply isRU_true. exists r.
    by apply lookup_snoc_old.
  - intros i (it & H)%isItem_true.
    pose proof (lookup_snoc_old _ o _ _ H) as H'.
    split; [apply isItem_true; eauto|].
    by rewrite (keyOf_item _ _ _ H), (keyOf_item _ _ _ H').
Qed.

Lemma kinds_insert_item st i it it' :
  st !! i = Some (OItem it) → Key it' = Key it →
  kinds st (<[i := OItem it']> st).
Proof.
  intros H HK. pose proof (lookup_lt_Some _ _ _ H) as Hlt.
  split; [by rewrite length_insert|]. split.
  - intros q (r & Hq)%isRU_true. apply isRU_true. exists r.
    rewrite list_lookup_insert_ne; [done|]. intros ->. simplify_eq.
  - intros j (jt & Hj)%isItem_true. destruct (decide (j = i)) as [->|Hne].
    + pose proof (list_lookup_insert_eq st i (OItem it') Hlt) as H'.
      split; [apply isItem_true; eauto|].
      rewrite (keyOf_item _ _ _ H), (keyOf_item _ _ _ H'). done.
    + assert (<[i := OItem it']> st !! j = Some (OItem jt)) as H'
        by (by rewrite list_lookup_insert_ne).
      split; [apply isItem_true; eauto|].
      by rewrite (keyOf_item _ _ _ Hj), (keyOf_item _ _ _ H').
Qed.

Lemma kinds_insert_ru st p r r' :
  st !! p = Some (ORU r) → kinds st (<[p := ORU r']> st).
Proof.
  intros H. pose proof (lookup_lt_Some _ _ _ H) as Hlt.
  split; [by rewrite length_insert|]. split.
  - intros q (rq & Hq)%isRU_true. apply isRU_true.
    destruct (decide (q = p)) as [->|Hne].
    + exists r'. by apply list_lookup_insert_eq.
    + exists rq. by rewrite list_lookup_insert_ne.
  - intros j (jt & Hj)%isItem_true.
    assert (<[p := ORU r']> st !! j = Some (OItem jt)) as H'.
    { rewrite list_lookup_insert_ne; [done|]. intros ->. simplify_eq. }
    split; [apply isItem_true; eauto|].
    by rewrite (keyOf_item _ _ _ Hj), (keyOf_item _ _ _ H').
Qed.

Lemma kinds_trans st1 st2 st3 : kinds st1 st2 → kinds st2 st3 → kinds st1 st3.
Proof.
  intros (L1 & R1 & I1) (L2 & R2 & I2). split; [lia|]. split; [auto|].
  intros i Hi. destruct (I1 i Hi) as [Hi' HK]. destruct (I2 i Hi') as [? HK'].
  split; [done|congruence].
Qed.

Lemma field_ok_kinds st st' k v :
  kinds st st' → field_ok sub st k v → field_ok sub st' k v.
Proof.
  intros (_ & HR & _). unfold field_ok. destruct (sub k); [|done].
  intros [?|(q & ? & ?)]; [by left|right]. eauto.
Qed.

Lemma obj_ok_kinds st st' o :
  kinds st st' → obj_ok sub st o → obj_ok sub st' o.
Proof.
  intros K. destruct o as [r|it]; simpl.
  - intros [HI HN]. destruct K as (_ & _ & KI). split.
    + intros i Hi. by apply KI, HI.
    + unfold keysOf in *. erewrite map_ext_in; [done|].
      intros i Hi. apply KI, HI. by apply list_elem_of_In.
  - intros (? & ? & ?). split; [done|]. split; by eapply field_ok_kinds.
Qed.

(** The objects of [st'] are those of [st], unchanged, or well-formed
    objects with pointers to higher levels. *)
Lemma good_step st st' :
  good sub lv st → kinds st st' →
  (∀ l o, st' !! l = Some o →
     st !! l = Some o ∨
     (obj_ok sub st' o ∧ ∀ l', l' ∈ succs o → lv l < lv l')) →
  good sub lv st'.
Proof.
  intros [GO GE GF] K H. split.
  - intros l o Hl. destruct (H l o Hl) as [Ho|[? ?]]; [|done].
    eapply obj_ok_kinds; eauto.
  - intros l o l' Hl Hs. destruct (H l o Hl) as [Ho|[? ?]]; eauto.
  - intros l l' Hlt Hl. apply GF; [done|]. destruct K as [? _]. lia.
Qed.

Lemma good_snoc st o :
  good sub lv st → obj_ok sub (st ++ [o]) o →
  (∀ l', l' ∈ succs o → lv (length st) < lv l') →
  good sub lv (st ++ [o]).
Proof.
  intros G Ho He. apply (good_step st); [done|apply kinds_snoc|].
  intros l o0 [H|[-> ->]]%lookup_snoc_inv; auto.
Qed.

Lemma good_insert_item st i it it' :
  good sub lv st → st !! i = Some (OItem it) → Key it' = Key it →
  item_ok sub st it' → (∀ q, q ∈ ptrs it' → lv i < lv q) →
  good sub lv (<[i := OItem it']> st).
Proof.
  intros G H HK Ho He.
  pose proof (kinds_insert_item st i it it' H HK) as K.
  apply (good_step st); [done|done|].
  intros l o [(-> & -> & _)|[Hne Hl]]%lookup_insert_inv; [right|by left].
  split; [|done]. apply (obj_ok_kinds st); [done|]. exact Ho.
Qed.

(** [frame] and [item_frame] *)

Lemma frame_refl k st : frame lv k st st.
Proof. by intros l _. Qed.

Lemma frame_trans k st1 st2 st3 :
  frame lv k st1 st2 → frame lv k st2 st3 → frame lv k st1 st3.
Proof. intros F1 F2 l Hl. rewrite (F2 l Hl). by apply F1. Qed.

Lemma frame_mono k k' st st' : k ≤ k' → frame lv k' st st' → frame lv k st st'.
Proof. intros Hk F l Hl. apply F. lia. Qed.

Lemma tree_below_mono_k n k k' st q :
  k ≤ k' → tree_below lv n k st q → tree_below lv n k' st q.
Proof.
  intros Hk. revert q. induction n as [|n IH]; [done|]. simpl.
  intros q (Hq & r & Hr & Hi). split; [lia|]. exists r. split; [done|].
  intros si Hsi. destruct (Hi si Hsi) as [Hl Hp]. split; [lia|].
  intros it Hit q' Hq'. apply IH. eauto.
Qed.

Lemma tree_below_mono_n n n' k st q :
  n ≤ n' → tree_below lv n k st q → tree_below lv n' k st q.
Proof.
  revert n' q. induction n as [|n IH]; [done|].
  intros [|n'] q Hn; [lia|]. simpl.
  intros (Hq & r & Hr & Hi). split; [done|]. exists r. split; [done|].
  intros si Hsi. destruct (Hi si Hsi) as [Hl Hp]. split; [done|].
  intros it Hit q' Hq'. apply IH; [lia|]. eauto.
Qed.

Lemma tree_below_frame n k st st' q :
  frame lv k st st' → tree_below lv n k st q → tree_below lv n k st' q.
Proof.
  intros F. revert q. induction n as [|n IH]; [done|]. simpl.
  intros q (Hq & r & Hr & Hi). split; [done|]. exists r.
  split; [by rewrite (F q Hq)|].
  intros si Hsi. destruct (Hi si Hsi) as [Hl Hp]. split; [done|].
  intros it Hit q' Hq'. rewrite (F si Hl) in Hit. apply IH. eauto.
Qed.

Lemma item_below_frame n k st st' si :
  frame lv k st st' →
  item_below lv (tree_below lv n k st) k st si →
  item_below lv (tree_below lv n k st') k st' si.
Proof.
  intros F [Hl Hp]. split; [done|]. intros it Hit q Hq.
  rewrite (F si Hl) in Hit. eapply tree_below_frame; eauto.
Qed.

Lemma tree_below_src n k st q :
  tree_below lv (S n) k st q → src_ok lv n k st q.
Proof. intros (_ & r & ? & ?). exists r. done. Qed.

End Steps.

(** ** The steps of the body of mergeResourceUsages *)

Lemma getItem_eq st i it : st !! i = Some (OItem it) → getItem st i = Ok it.
Proof. apply getItem_Ok. Qed.

Lemma getRU_eq st p r : st !! p = Some (ORU r) → getRU st p = Ok r.
Proof. apply getRU_Ok. Qed.

Section MergeSteps.

Variable sub : string → bool.
Variable lv : loc → nat.

Local Abbreviation rec_spec := (rec_spec sub lv).
Local Abbreviation ctx := (ctx sub lv).
Local Abbreviation steps := (steps sub lv).

Lemma steps_refl dj st : good sub lv st → steps dj st st.
Proof. intros G. split; [done|]. split; [apply ext_refl|]. by intros l _ _ _. Qed.

Lemma steps_trans dj st1 st2 st3 :
  good sub lv st2 → isItem st2 dj = true →
  steps dj st1 st2 → steps dj st2 st3 → steps dj st1 st3.
Proof.
  intros G2 (it2 & H2)%isItem_true (_ & E1 & F1) (G3 & E2 & F2).
  split; [done|]. split; [by eapply ext_trans|].
  intros l Hl Hne Hp.
  pose proof (ext_len _ _ _ E1) as L1.
  rewrite (F2 l) by (done || lia). apply F1; [done|done|].
  intros it q Hit Hq. rewrite H2 in Hit. injection Hit as <-.
  destruct (ext_item _ _ _ _ _ E2 H2) as (it3 & H3 & _).
  apply (Hp it3 q H3). eapply ext_ptrs; eauto.
  eapply (good_obj _ _ _ G2 dj (OItem it2)); eauto.
Qed.

Lemma steps_frame n d si dj st st' :
  ctx n d si dj st → steps dj st st' → frame lv (lv d) st st'.
Proof.
  intros C (G' & E & F) l Hl.
  pose proof (ctx_d _ _ _ _ _ _ _ C) as Hd. apply isRU_true in Hd as (r & Hd).
  pose proof (lookup_lt_Some _ _ _ Hd) as Hdlt.
  pose proof (ctx_lv _ _ _ _ _ _ _ C) as Hlv.
  assert (l < length st) as Hlt.
  { destruct (decide (l < length st)); [done|].
    pose proof (good_fresh _ _ _ (ctx_good _ _ _ _ _ _ _ C) d l). lia. }
  apply F; [done| |].
  - intros ->. lia.
  - intros it q Hit Hq.
    pose proof (good_edge _ _ _ G' dj (OItem it) q Hit Hq). lia.
Qed.

Lemma ctx_steps n d si dj st st' :
  ctx n d si dj st → steps dj st st' → ctx n d si dj st'.
Proof.
  intros C S. pose proof (steps_frame _ _ _ _ _ _ C S) as F.
  destruct S as (G' & E & IF). destruct C as [G Hd Hs Hb Hj HK Hlv].
  split; try done.
  - by eapply ext_isRU.
  - by eapply ext_isItem.
  - by eapply item_below_frame.
  - by eapply ext_isItem.
  - rewrite (ext_keyOf _ _ _ _ E Hj), (ext_keyOf _ _ _ _ E Hs). done.
Qed.

Lemma ctx_items n d si dj st :
  ctx n d si dj st →
  ∃ sit djt, st !! si = Some (OItem sit) ∧ st !! dj = Some (OItem djt) ∧
             Key djt = Key sit ∧ item_ok sub st sit ∧ item_ok sub st djt ∧
             si ≠ dj.
Proof.
  intros [G Hd Hs Hb Hj HK Hlv].
  apply isItem_true in Hs as (sit & Hs). apply isItem_true in Hj as (djt & Hj).
  exists sit, djt. rewrite (keyOf_item _ _ _ Hs), (keyOf_item _ _ _ Hj) in HK.
  repeat split; try done.
  - apply (good_obj _ _ _ G si (OItem sit) Hs).
  - apply (good_obj _ _ _ G si (OItem sit) Hs).
  - apply (good_obj _ _ _ G si (OItem sit) Hs).
  - apply (good_obj _ _ _ G dj (OItem djt) Hj).
  - apply (good_obj _ _ _ G dj (OItem djt) Hj).
  - apply (good_obj _ _ _ G dj (OItem djt) Hj).
  - intros ->. destruct Hb as [Hb _]. lia.
Qed.

(** An assignment to a field of [dj]. *)
Lemma mod_steps f dj st djt :
  good sub lv st → st !! dj = Some (OItem djt) →
  item_ok sub st (f djt) →
  obj_ext sub (length st) (OItem djt) (OItem (f djt)) →
  (∀ q, q ∈ ptrs (f djt) → q ∈ ptrs djt) →
  modItem f dj st = Ok (<[dj := OItem (f djt)]> st) ∧
  steps dj st (<[dj := OItem (f djt)]> st).
Proof.
  intros G H Hok Hext Hp. split; [by apply modItem_Ok|].
  split; [|split].
  - eapply good_insert_item; eauto.
    + apply Hext.
    + intros q Hq. apply (good_edge _ _ _ G dj (OItem djt) q H). auto.
  - eapply ext_insert; eauto. apply ext_refl.
  - intros l _ Hne _. by rewrite list_lookup_insert_ne.
Qed.

Variable recur : option loc → option loc → MergeResourceUsagesOpts →
                 store → res store.
Variable opts : MergeResourceUsagesOpts.

Lemma values_kept_insert f dj st djt :
  st !! dj = Some (OItem djt) →
  DefaultValue (f djt) = DefaultValue djt → Value (f djt) = Value djt →
  values_kept dj st (<[dj := OItem (f djt)]> st).
Proof.
  intros H HD HV djt0 H0. rewrite H in H0. injection H0 as <-.
  exists (f djt). split; [|done].
  apply list_lookup_insert_eq. by eapply lookup_lt_Some.
Qed.

Lemma values_kept_refl dj st : values_kept dj st st.
Proof. intros djt H. eauto. Qed.

Lemma overrideType_steps n d si dj st :
  ctx n d si dj st →
  ∃ st', overrideType opts si dj st = Ok st' ∧ steps dj st st' ∧
         values_kept dj st st'.
Proof.
  intros C. destruct (ctx_items _ _ _ _ _ C)
    as (sit & djt & Hs & Hj & HK & Hsok & Hjok & Hne).
  unfold overrideType. destruct (OverrideValueType opts).
  - rewrite (getItem_eq _ _ _ Hs). simpl.
    edestruct (mod_steps (setValueType (ValueType sit)) dj st djt) as [-> S];
      eauto using ctx_good.
    + destruct Hsok as (Ht & _), Hjok as (_ & Hd & Hv).
      split; [simpl; congruence|]. done.
    + simpl. auto.
    + eexists. split; [done|]. split; [done|].
      by apply values_kept_insert.
  - eexists. split; [done|]. split; [|apply values_kept_refl].
    apply steps_refl. eapply ctx_good; eauto.
Qed.

Lemma copyDescription_steps n d si dj st :
  ctx n d si dj st →
  ∃ st', copyDescription si dj st = Ok st' ∧ steps dj st st' ∧
         values_kept dj st st'.
Proof.
  intros C. destruct (ctx_items _ _ _ _ _ C)
    as (sit & djt & Hs & Hj & HK & Hsok & Hjok & Hne).
  unfold copyDescription. rewrite (getItem_eq _ _ _ Hs). simpl.
  destruct (String.eqb _ _).
  - eexists. split; [done|]. split; [|apply values_kept_refl].
    apply steps_refl. eapply ctx_good; eauto.
  - edestruct (mod_steps (setDescription (Description sit)) dj st djt)
      as [-> S]; eauto using ctx_good.
    + simpl. auto.
    + eexists. split; [done|]. split; [done|].
      by apply values_kept_insert.
Qed.


Lemma field_ok_sub st k v :
  sub k = true → field_ok sub st k v →
  v = Nil ∨ ∃ q r, v = VRU (Some q) ∧ st !! q = Some (ORU r).
Proof.
  unfold field_ok. intros ->. intros [?|(q & ? & (r & ?)%isRU_true)]; eauto.
Qed.

Lemma field_ok_scalar st k v :
  sub k = false → field_ok sub st k v → ptrOf v = [].
Proof.
  unfold field_ok. intros -> H. destruct v as [| | | | |p]; try done.
  by destruct (H p).
Qed.

Lemma set_scalar_default_steps dj st djt v :
  good sub lv st → st !! dj = Some (OItem djt) → sub (Key djt) = false →
  (∀ p, v ≠ VRU p) →
  modItem (setDefaultValue v) dj st
    = Ok (<[dj := OItem (setDefaultValue v djt)]> st) ∧
  steps dj st (<[dj := OItem (setDefaultValue v djt)]> st).
Proof.
  intros G H Hs Hv.
  destruct (good_obj _ _ _ G dj (OItem djt) H) as (Ht & Hd & Hvv).
  assert (ptrOf v = []) as Hp by (by destruct v as [| | | | |[q|]]; try done;
    edestruct Hv).
  apply mod_steps; try done.
  - split; [done|]. split; [|done]. simpl. unfold field_ok. by rewrite Hs.
  - simpl. rewrite Hs. repeat split; try done.
    intros q Hq. left. unfold ptrs in *. simpl in Hq. rewrite Hp in Hq.
    rewrite elem_of_app. by right.
  - intros q Hq. unfold ptrs in *. simpl in Hq. rewrite Hp in Hq.
    rewrite elem_of_app. by right.
Qed.

Lemma set_scalar_value_steps dj st djt v :
  good sub lv st → st !! dj = Some (OItem djt) → sub (Key djt) = false →
  (∀ p, v ≠ VRU p) →
  modItem (setValue v) dj st = Ok (<[dj := OItem (setValue v djt)]> st) ∧
  steps dj st (<[dj := OItem (setValue v djt)]> st).
Proof.
  intros G H Hs Hv.
  destruct (good_obj _ _ _ G dj (OItem djt) H) as (Ht & Hd & Hvv).
  assert (ptrOf v = []) as Hp by (by destruct v as [| | | | |[q|]]; try done;
    edestruct Hv).
  apply mod_steps; try done.
  - split; [done|]. split; [done|]. simpl. unfold field_ok. by rewrite Hs.
  - simpl. rewrite Hs. repeat split; try done.
    intros q Hq. left. unfold ptrs in *. simpl in Hq. rewrite Hp in Hq.
    rewrite elem_of_app in *. destruct Hq as [?|[]%elem_of_nil]. by left.
  - intros q Hq. unfold ptrs in *. simpl in Hq. rewrite Hp in Hq.
    rewrite elem_of_app in *. destruct Hq as [?|[]%elem_of_nil]. by left.
Qed.

Lemma copyScalars_steps n d si dj st sit :
  ctx n d si dj st → st !! si = Some (OItem sit) →
  isSub (ValueType sit) = false →
  ∃ st', copyScalars si dj st = Ok st' ∧ steps dj st st' ∧
    (Value sit = Nil → ∀ djt, st !! dj = Some (OItem djt) →
       ∃ djt', st' !! dj = Some (OItem djt') ∧ Value djt' = Value djt).
Proof.
  intros C Hs0 Hsub. destruct (ctx_items _ _ _ _ _ C)
    as (sit' & djt & Hs & Hj & HK & Hsok & Hjok & Hne).
  rewrite Hs0 in Hs. injection Hs as <-.
  pose proof (ctx_good _ _ _ _ _ _ _ C) as G.
  assert (sub (Key djt) = false) as Hk.
  { destruct Hsok as (Ht & _). congruence. }
  assert (∀ p, DefaultValue sit ≠ VRU p ∧ Value sit ≠ VRU p) as Hscal.
  { destruct Hsok as (_ & Hd & Hv). unfold field_ok in *.
    rewrite <- HK, Hk in Hd, Hv. split; auto. }
  unfold copyScalars. rewrite (getItem_eq _ _ _ Hs0). simpl.
  assert (∃ st1, (if isNil (DefaultValue sit) then Ok st
                  else modItem (setDefaultValue (DefaultValue sit)) dj st)
                 = Ok st1 ∧ steps dj st st1 ∧
                 ∃ djt1, st1 !! dj = Some (OItem djt1) ∧
                         Value djt1 = Value djt) as (st1 & -> & S1 & HV1).
  { destruct (isNil (DefaultValue sit)).
    - eexists. split; [done|]. split; [by apply steps_refl|]. eauto.
    - destruct (set_scalar_default_steps dj st djt (DefaultValue sit) G Hj Hk)
        as [Hm S]; [intros p; apply Hscal|].
      eexists. split; [exact Hm|]. split; [exact S|].
      exists (setDefaultValue (DefaultValue sit) djt). split; [|done].
      apply list_lookup_insert_eq. by eapply lookup_lt_Some. }
  simpl. pose proof (ctx_steps _ _ _ _ _ _ C S1) as C1.
  destruct (ctx_items _ _ _ _ _ C1)
    as (sit1 & djt1 & Hs1 & Hj1 & HK1 & Hsok1 & Hjok1 & _).
  pose proof (steps_frame _ _ _ _ _ _ C S1) as F1.
  rewrite (F1 si) in Hs1 by apply (ctx_below _ _ _ _ _ _ _ C).
  rewrite Hs0 in Hs1. injection Hs1 as <-.
  rewrite (getItem_eq st1 si sit)
    by (rewrite (F1 si); [done|apply (ctx_below _ _ _ _ _ _ _ C)]).
  simpl. destruct (isNil (Value sit)) eqn:HnV.
  - eexists. split; [done|]. split; [done|].
    intros _ djt0 H0. rewrite Hj in H0. injection H0 as <-.
    destruct HV1 as (djt1' & ? & ?). eauto.
  - edestruct (set_scalar_value_steps dj st1 djt1 (Value sit)) as [-> S2];
      eauto using ctx_good.
    + congruence.
    + intros p. apply Hscal.
    + eexists. split; [done|]. split.
      * apply (steps_trans dj st st1);
          [by eapply ctx_good|by eapply ctx_dst|done|done].
      * intros E. by rewrite E in HnV.
Qed.


(** Allocation of an empty ResourceUsage followed by an assignment of its
    address to a field of [dj]. *)
Lemma alloc_mod_steps f nm dj st djt :
  good sub lv st → st !! dj = Some (OItem djt) →
  item_ok sub (st ++ [ORU (mkResourceUsage nm [])]) (f djt) →
  obj_ext sub (length st) (OItem djt) (OItem (f djt)) →
  (∀ q, q ∈ ptrs (f djt) → q ∈ ptrs djt ∨ q = length st) →
  modItem f dj (st ++ [ORU (mkResourceUsage nm [])])
    = Ok (<[dj := OItem (f djt)]> (st ++ [ORU (mkResourceUsage nm [])])) ∧
  steps dj st (<[dj := OItem (f djt)]> (st ++ [ORU (mkResourceUsage nm [])])).
Proof.
  intros G H Hok Hext Hp.
  set (st1 := st ++ [ORU (mkResourceUsage nm [])]) in *.
  assert (st1 !! dj = Some (OItem djt)) as H1 by (by apply lookup_snoc_old).
  assert (good sub lv st1) as G1.
  { apply good_snoc; [done| |].
    - split; [|constructor]. intros i Hi. by apply elem_of_nil in Hi.
    - intros l' Hl'. by apply elem_of_nil in Hl'. }
  split; [by apply modItem_Ok|]. split; [|split].
  - eapply good_insert_item; eauto.
    + apply Hext.
    + intros q Hq. destruct (Hp q Hq) as [Hq'| ->].
      * apply (good_edge _ _ _ G dj (OItem djt) q H Hq').
      * apply (good_fresh _ _ _ G); [|done]. by eapply lookup_lt_Some.
  - eapply ext_insert; eauto. apply ext_snoc; [apply ext_refl|].
    intros l' Hl'. by apply elem_of_nil in Hl'.
  - intros l Hl Hne _. rewrite list_lookup_insert_ne by done.
    unfold st1. by rewrite lookup_app_l.
Qed.

Lemma recur_steps n d si dj st sit djt dd q :
  rec_spec n recur → ctx n d si dj st →
  st !! si = Some (OItem sit) → st !! dj = Some (OItem djt) →
  dd ∈ ptrs djt → q ∈ ptrs sit →
  ∃ st', recur (Some dd) (Some q) opts st = Ok st' ∧ steps dj st st' ∧
         covers st q st' dd ∧ st' !! dj = Some (OItem djt).
Proof.
  intros R C Hs Hj Hdd Hq. pose proof (ctx_good _ _ _ _ _ _ _ C) as G.
  pose proof (good_edge _ _ _ G dj (OItem djt) dd Hj Hdd) as Hlv.
  pose proof (ctx_lv _ _ _ _ _ _ _ C) as Hlvd.
  assert (isRU st dd = true) as Hru.
  { destruct (good_obj _ _ _ G dj (OItem djt) Hj) as (_ & Hd & Hv).
    unfold field_ok in *. apply ptrs_spec in Hdd.
    destruct (sub (Key djt)).
    - destruct Hdd as [E|E]; [rewrite E in Hd; destruct Hd as [?|(? & ? & ?)]
                             |rewrite E in Hv; destruct Hv as [?|(? & ? & ?)]];
        by simplify_eq.
    - destruct Hdd as [E|E]; [by apply Hd in E|by apply Hv in E]. }
  destruct (R st dd q opts G Hru) as (st' & Hr & G' & E & F & Cv).
  { eapply tree_below_mono_k;
      [|apply (proj2 (ctx_below _ _ _ _ _ _ _ C) sit Hs q Hq)]. lia. }
  exists st'. split; [done|]. split; [|split; [done|]].
  2: { rewrite <- Hj. by apply F. }
  split; [done|]. split; [done|].
  intros l Hl Hne Hp. apply F.
  destruct (ext_item _ _ _ _ _ E Hj) as (djt' & Hj' & _).
  apply (Hp djt' dd Hj'). eapply ext_ptrs; eauto.
  apply (good_obj _ _ _ G dj (OItem djt) Hj).
Qed.


Lemma covers_frame n k st st1 q st' dd :
  tree_below lv n k st q → frame lv k st st1 →
  covers st1 q st' dd → covers st q st' dd.
Proof.
  intros T F Cv r Hr. destruct n as [|n]; [done|].
  destruct T as (Hq & r0 & Hr0 & Hi). simplify_eq.
  destruct (Cv r0) as (r' & Hr' & Hk); [by rewrite (F q Hq)|].
  exists r'. split; [done|]. intros i Hin.
  destruct (Hi i Hin) as [Hl _]. specialize (Hk i Hin).
  unfold keyOf in *. by rewrite (F i Hl) in Hk.
Qed.

Lemma ctx_src_lookup n d si dj st st' sit :
  ctx n d si dj st → steps dj st st' →
  st !! si = Some (OItem sit) → st' !! si = Some (OItem sit).
Proof.
  intros C S H. rewrite (steps_frame _ _ _ _ _ _ C S); [done|].
  apply (ctx_below _ _ _ _ _ _ _ C).
Qed.

Lemma mergeSubDefault_steps n d si dj st sit djt :
  rec_spec n recur → ctx n d si dj st →
  st !! si = Some (OItem sit) → st !! dj = Some (OItem djt) →
  isSub (ValueType sit) = true →
  ∃ st' djt', mergeSubDefault recur opts si dj st = Ok st' ∧ steps dj st st' ∧
    st' !! dj = Some (OItem djt') ∧ Value djt' = Value djt ∧
    (DefaultValue sit = Nil → st' = st) ∧
    (∀ q, DefaultValue sit = VRU (Some q) →
       ∃ dd, DefaultValue djt' = VRU (Some dd) ∧ covers st q st' dd).
Proof.
  intros R C Hs Hj Hsub. pose proof (ctx_good _ _ _ _ _ _ _ C) as G.
  destruct (ctx_items _ _ _ _ _ C)
    as (sit' & djt0 & Hs' & Hj' & HK & Hsok & Hjok & Hne).
  rewrite Hs in Hs'. injection Hs' as <-. rewrite Hj in Hj'. injection Hj' as <-.
  assert (sub (Key sit) = true) as Hks by (destruct Hsok as (<- & _); done).
  assert (sub (Key djt) = true) as Hkd by congruence.
  unfold mergeSubDefault. rewrite (getItem_eq _ _ _ Hs). simpl.
  destruct Hsok as (_ & Hsd & _).
  destruct (field_ok_sub _ _ _ Hks Hsd) as [E|(q & r & E & Hq)]; rewrite E; simpl.
  { exists st, djt. split; [done|]. split; [by apply steps_refl|].
    repeat split; done. }
  rewrite (getItem_eq _ _ _ Hj). simpl.
  assert (q ∈ ptrs sit) as Hqp by (apply ptrs_spec; auto).
  destruct Hjok as (Hjt & Hjd & Hjv).
  destruct (field_ok_sub _ _ _ Hkd Hjd) as [Ed|(dd & rd & Ed & Hdd)];
    rewrite Ed; simpl.
  - (* the destination has no default: a new tree is created *)
    rewrite (getRU_eq _ _ _ Hq). simpl.
    edestruct (alloc_mod_steps (setDefaultValue (VRU (Some (length st))))
                 (Name r) dj st djt) as [-> S1]; try done.
    + split; [done|]. split; [|eapply field_ok_kinds; [apply kinds_snoc|done]].
      simpl. unfold field_ok. rewrite Hkd. right. eexists. split; [done|].
      apply isRU_true. eexists. apply lookup_app_Some. right.
      split; [done|]. by rewrite Nat.sub_diag.
    + simpl. repeat split; try done.
      intros q' Hq'. apply ptrs_spec in Hq'. simpl in Hq'.
      destruct Hq' as [?|?]; [right; by simplify_eq|].
      left. apply ptrs_spec. auto.
    + intros q' Hq'. apply ptrs_spec in Hq'. simpl in Hq'.
      destruct Hq' as [?|?]; [right; by simplify_eq|].
      left. apply ptrs_spec. auto.
    + simpl.
      set (djt1 := setDefaultValue (VRU (Some (length st))) djt) in *.
      set (st1 := <[dj:=OItem djt1]> (st ++ [ORU (mkResourceUsage (Name r) [])])) in *.
      pose proof (ctx_steps _ _ _ _ _ _ C S1) as C1.
      assert (st1 !! dj = Some (OItem djt1)) as Hj1.
      { apply list_lookup_insert_eq. rewrite length_app.
        apply lookup_lt_Some in Hj. lia. }
      rewrite (getItem_eq _ _ _ Hj1). simpl.
      destruct (recur_steps n d si dj st1 sit djt1 (length st) q R C1)
        as (st' & -> & S2 & Cv & Hj2); try done.
      * apply (ctx_src_lookup _ _ _ _ _ _ _ C S1 Hs).
      * apply ptrs_spec. by left.
      * exists st', djt1. split; [done|]. split.
        { apply (steps_trans dj st st1);
            [by eapply ctx_good|by eapply ctx_dst|done|done]. }
        split; [done|]. split; [done|]. split; [done|].
        intros q' [= <-]. exists (length st). split; [done|].
        eapply covers_frame;
          [apply (proj2 (ctx_below _ _ _ _ _ _ _ C) sit Hs q Hqp)| |done].
        eapply steps_frame; eauto.
  - (* the destination has a default tree *)
    rewrite (getItem_eq _ _ _ Hj). simpl. rewrite Ed. simpl.
    destruct (recur_steps n d si dj st sit djt dd q R C)
      as (st' & -> & S2 & Cv & Hj2); try done.
    { apply ptrs_spec. by left. }
    exists st', djt. split; [done|]. split; [done|].
    repeat split; try done.
    intros q' [= <-]. exists dd. done.
Qed.


Lemma mergeSubValue_steps n d si dj st sit djt :
  rec_spec n recur → ctx n d si dj st →
  st !! si = Some (OItem sit) → st !! dj = Some (OItem djt) →
  isSub (ValueType sit) = true →
  ∃ st' djt', mergeSubValue recur opts si dj st = Ok st' ∧ steps dj st st' ∧
    st' !! dj = Some (OItem djt') ∧ DefaultValue djt' = DefaultValue djt ∧
    (Value sit = Nil → st' = st) ∧
    (∀ q, Value sit = VRU (Some q) →
       ∃ dv, Value djt' = VRU (Some dv) ∧ covers st q st' dv ∧
             (Value djt = Nil → DefaultValue djt ≠ Nil →
              Value djt' = DefaultValue djt)).
Proof.
  intros R C Hs Hj Hsub. pose proof (ctx_good _ _ _ _ _ _ _ C) as G.
  destruct (ctx_items _ _ _ _ _ C)
    as (sit' & djt0 & Hs' & Hj' & HK & Hsok & Hjok & Hne).
  rewrite Hs in Hs'. injection Hs' as <-. rewrite Hj in Hj'. injection Hj' as <-.
  assert (sub (Key sit) = true) as Hks by (destruct Hsok as (<- & _); done).
  assert (sub (Key djt) = true) as Hkd by congruence.
  unfold mergeSubValue. rewrite (getItem_eq _ _ _ Hs). simpl.
  destruct Hsok as (_ & _ & Hsv).
  destruct (field_ok_sub _ _ _ Hks Hsv) as [E|(q & r & E & Hq)]; rewrite E; simpl.
  { exists st, djt. split; [done|]. split; [by apply steps_refl|].
    repeat split; done. }
  rewrite (getItem_eq _ _ _ Hj). simpl.
  assert (q ∈ ptrs sit) as Hqp by (apply ptrs_spec; auto).
  pose proof (proj2 (ctx_below _ _ _ _ _ _ _ C) sit Hs q Hqp) as Hqb.
  destruct Hjok as (Hjt & Hjd & Hjv).
  destruct (field_ok_sub _ _ _ Hkd Hjv) as [Ev|(dv & rv & Ev & Hdv)];
    rewrite Ev; simpl.
  - (* the destination has no value: it is seeded with its default *)
    set (djt1 := setValue (DefaultValue djt) djt).
    edestruct (mod_steps (setValue (DefaultValue djt)) dj st djt) as [-> S1];
      try done.
    { simpl. repeat split; try done. intros q' Hq'. left.
      apply ptrs_spec in Hq'. simpl in Hq'. apply ptrs_spec. tauto. }
    { intros q' Hq'. apply ptrs_spec in Hq'. simpl in Hq'.
      apply ptrs_spec. tauto. }
    fold djt1 in S1 |- *. set (st1 := <[dj:=OItem djt1]> st) in *. simpl.
    pose proof (ctx_steps _ _ _ _ _ _ C S1) as C1.
    pose proof (ctx_good _ _ _ _ _ _ _ C1) as G1.
    pose proof (steps_frame _ _ _ _ _ _ C S1) as F1.
    assert (st1 !! dj = Some (OItem djt1)) as Hj1.
    { apply list_lookup_insert_eq. by eapply lookup_lt_Some. }
    pose proof (ctx_src_lookup _ _ _ _ _ _ _ C S1 Hs) as Hs1.
    rewrite (getItem_eq _ _ _ Hj1). simpl.
    destruct (field_ok_sub _ _ _ Hkd Hjd) as [Ed|(dd & rd & Ed & Hdd)];
      rewrite Ed; simpl.
    + (* no default either: a new tree is created *)
      assert (st1 !! q = Some (ORU r)) as Hq1.
      { rewrite (F1 q); [done|]. destruct n; [done|]. apply Hqb. }
      rewrite (getRU_eq _ _ _ Hq1). simpl.
      edestruct (alloc_mod_steps (setValue (VRU (Some (length st1))))
                   (Name r) dj st1 djt1) as [-> S2]; try done.
      * split; [done|]. split; [eapply field_ok_kinds; [apply kinds_snoc|]|].
        { apply (good_obj _ _ _ G1 dj (OItem djt1) Hj1). }
        simpl. unfold field_ok. rewrite Hkd. right. eexists. split; [done|].
        apply isRU_true. eexists. apply lookup_app_Some. right.
        split; [done|]. by rewrite Nat.sub_diag.
      * simpl. repeat split; try done.
        intros q' Hq'. apply ptrs_spec in Hq'. simpl in Hq'.
        destruct Hq' as [?|?]; [|right; by simplify_eq].
        left. apply ptrs_spec. auto.
      * intros q' Hq'. apply ptrs_spec in Hq'. simpl in Hq'.
        destruct Hq' as [?|?]; [|right; by simplify_eq].
        left. apply ptrs_spec. auto.
      * simpl.
        set (djt2 := setValue (VRU (Some (length st1))) djt1) in *.
        set (st2 := <[dj:=OItem djt2]> (st1 ++ [ORU (mkResourceUsage (Name r) [])])) in *.
        pose proof (ctx_steps _ _ _ _ _ _ C1 S2) as C2.
        assert (st2 !! dj = Some (OItem djt2)) as Hj2.
        { apply list_lookup_insert_eq. rewrite length_app.
          apply lookup_lt_Some in Hj1. lia. }
        rewrite (getItem_eq _ _ _ Hj2). simpl.
        destruct (recur_steps n d si dj st2 sit djt2 (length st1) q R C2)
          as (st' & -> & S3 & Cv & Hj3); try done.
        { apply (ctx_src_lookup _ _ _ _ _ _ _ C1 S2 Hs1). }
        { apply ptrs_spec. by right. }
        assert (steps dj st st2) as S12.
        { apply (steps_trans dj st st1); [done|by eapply ctx_dst|done|done]. }
        exists st', djt2. split; [done|]. split.
        { apply (steps_trans dj st st2);
            [by eapply ctx_good|by eapply ctx_dst|done|done]. }
        split; [done|]. split; [done|]. split; [done|].
        intros q' [= <-]. exists (length st1). split; [done|].
        split; [|intros _ Hn; by destruct Hn].
        eapply covers_frame; [apply Hqb| |done].
        eapply steps_frame; eauto.
    + (* seeded with the default tree *)
      rewrite (getItem_eq _ _ _ Hj1). simpl. rewrite Ed. simpl.
      destruct (recur_steps n d si dj st1 sit djt1 dd q R C1)
        as (st' & -> & S2 & Cv & Hj2); try done.
      { apply ptrs_spec. right. simpl. done. }
      exists st', djt1. split; [done|]. split.
      { apply (steps_trans dj st st1); [done|by eapply ctx_dst|done|done]. }
      split; [done|]. split; [done|]. split; [done|].
      intros q' [= <-]. exists dd. split; [done|]. split; [|done].
      eapply covers_frame; [apply Hqb| |done]. done.
  - (* the destination has a value tree *)
    rewrite (getItem_eq _ _ _ Hj). simpl. rewrite Ev. simpl.
    rewrite (getItem_eq _ _ _ Hj). simpl. rewrite Ev. simpl.
    destruct (recur_steps n d si dj st sit djt dv q R C)
      as (st' & -> & S2 & Cv & Hj2); try done.
    { apply ptrs_spec. by right. }
    exists st', djt. split; [done|]. split; [done|].
    repeat split; try done.
    intros q' [= <-]. exists dv. done.
Qed.

End MergeSteps.

(** ** The loop of mergeResourceUsages *)

Section MergeLoop.

Variable sub : string → bool.
Variable lv : loc → nat.

Local Abbreviation srcs_ok := (srcs_ok lv).

Lemma good_insert_ru st p r r' :
  good sub lv st → st !! p = Some (ORU r) →
  obj_ok sub (<[p := ORU r']> st) (ORU r') →
  (∀ i, i ∈ Items r' → lv p < lv i) →
  good sub lv (<[p := ORU r']> st).
Proof.
  intros G H Hok He.
  apply (good_step sub lv st); [done|by eapply kinds_insert_ru|].
  intros l o [(-> & -> & _)|[Hne Hl]]%lookup_insert_inv; [right|by left].
  done.
Qed.

Lemma buildItemMap_spec st l m0 :
  (∀ i, i ∈ l → isItem st i = true) →
  ∃ m, buildItemMap st l m0 = Ok m ∧
       (∀ k dj, m !! k = Some dj →
          (dj ∈ l ∧ keyOf st dj = k) ∨ m0 !! k = Some dj) ∧
       (∀ k, k ∈ keysOf st l ∨ is_Some (m0 !! k) → is_Some (m !! k)).
Proof.
  revert m0. induction l as [|i l IH]; intros m0 Hl; simpl.
  - exists m0. split; [done|]. split; [auto|].
    intros k [Hk|?]; [|done]. by apply elem_of_nil in Hk.
  - destruct (proj1 (isItem_true _ _) (Hl i ltac:(left))) as (it & Hi).
    rewrite (getItem_eq _ _ _ Hi). simpl.
    destruct (IH (<[Key it := i]> m0)) as (m & -> & H1 & H2).
    { intros j Hj. apply Hl. by right. }
    exists m. split; [done|]. split.
    + intros k dj Hk. destruct (H1 k dj Hk) as [[? ?]|Hm].
      * left. split; [by right|done].
      * apply lookup_insert_Some in Hm as [[<- <-]|[? ?]]; [|by right].
        left. split; [by left|]. by apply keyOf_item.
    + intros k Hk. apply H2. unfold keysOf in Hk. simpl in Hk.
      rewrite (keyOf_item _ _ _ Hi) in Hk.
      destruct Hk as [[->|Hk]%elem_of_cons|Hk].
      * right. rewrite lookup_insert_eq. eauto.
      * by left.
      * right. destruct (decide (Key it = k)) as [->|?].
        -- rewrite lookup_insert_eq. eauto.
        -- by rewrite lookup_insert_ne.
Qed.

Variable recur : option loc → option loc → MergeResourceUsagesOpts →
                 store → res store.
Variable opts : MergeResourceUsagesOpts.

(** Lines 116-120. *)
Lemma findOrAppend_spec n d m si st dr sit :
  good sub lv st → st !! d = Some (ORU dr) → st !! si = Some (OItem sit) →
  item_below lv (tree_below lv n (lv d) st) (lv d) st si →
  index_ok st (Items dr) m →
  (m !! Key sit = None → Key sit ∉ keysOf st (Items dr)) →
  ∃ dj st1 dr1,
    findOrAppend d m si st = Ok (dj, st1) ∧
    ctx sub lv n d si dj st1 ∧ ext sub st st1 ∧
    st1 !! d = Some (ORU dr1) ∧ dj ∈ Items dr1 ∧
    (∀ l, l < length st → l ≠ d → st1 !! l = st !! l) ∧
    ((m !! Key sit = Some dj ∧ st1 = st) ∨
     (m !! Key sit = None ∧ dj = length st ∧
      Items dr1 = Items dr ++ [dj] ∧
      st1 !! dj = Some (OItem (schema.mkUsageItem (Key sit) (ValueType sit)
                                 EmptyString Nil Nil)))).
Proof.
  intros G Hd Hs Hb M1 M2.
  unfold findOrAppend. rewrite (getItem_eq _ _ _ Hs). simpl.
  destruct (m !! Key sit) as [dj|] eqn:Hm.
  - destruct (M1 _ _ Hm) as (Hin & Hit & HK).
    exists dj, st, dr. split; [done|]. split; [|split; [apply ext_refl|]].
    + split; try done.
      * apply isRU_true; eauto.
      * apply isItem_true; eauto.
      * by rewrite HK, (keyOf_item _ _ _ Hs).
      * apply (good_edge _ _ _ G d (ORU dr) dj Hd Hin).
    + split; [done|]. split; [done|]. split; [done|]. by left.
  - specialize (M2 eq_refl). simpl.
    set (new := schema.mkUsageItem (Key sit) (ValueType sit) EmptyString Nil Nil).
    set (st0 := st ++ [OItem new]).
    pose proof (lookup_lt_Some _ _ _ Hd) as Hdlt.
    assert (st0 !! d = Some (ORU dr)) as Hd0 by (by apply lookup_snoc_old).
    rewrite (getRU_eq _ _ _ Hd0). simpl.
    set (dr1 := mkResourceUsage (Name dr) (Items dr ++ [length st])).
    set (st1 := <[d := ORU dr1]> st0).
    assert (st0 !! length st = Some (OItem new)) as Hn0.
    { unfold st0. rewrite lookup_app_r by done.
      by rewrite Nat.sub_diag. }
    assert (st1 !! length st = Some (OItem new)) as Hn1.
    { unfold st1. rewrite list_lookup_insert_ne by lia. done. }
    assert (st1 !! d = Some (ORU dr1)) as Hd1.
    { apply list_lookup_insert_eq. unfold st0. rewrite length_app. lia. }
    destruct (good_obj _ _ _ G si (OItem sit) Hs) as (Hst & _ & _).
    destruct (good_obj _ _ _ G d (ORU dr) Hd) as (Hitems & Hnd).
    assert (good sub lv st0) as G0.
    { apply good_snoc; [done| |].
      - split; [done|]. unfold field_ok. simpl.
        destruct (sub (Key sit)); split; auto; done.
      - intros l' Hl'. by apply elem_of_nil in Hl'. }
    assert (kinds st st0) as K0 by apply kinds_snoc.
    assert (kinds st0 st1) as K1 by (by eapply kinds_insert_ru).
    assert (good sub lv st1) as G1.
    { eapply good_insert_ru; eauto.
      - split.
        + intros i [Hi| ->%list_elem_of_singleton]%elem_of_app.
          * apply K1, K0. auto.
          * apply isItem_true. eauto.
        + unfold keysOf. simpl. rewrite map_app. simpl. fold st1.
          assert (map (keyOf st1) (Items dr) = keysOf st (Items dr)) as ->.
          { apply map_ext_in. intros i Hi%list_elem_of_In.
            destruct K0 as (_ & _ & K0), K1 as (_ & _ & K1).
            specialize (Hitems i Hi). destruct (K0 i Hitems) as [Hi0 E0].
            destruct (K1 i Hi0) as [_ E1]. congruence. }
          rewrite (keyOf_item _ _ _ Hn1). simpl.
          apply NoDup_app. split; [done|]. split; [|apply NoDup_singleton].
          intros k Hk ->%list_elem_of_singleton. done.
      - intros i [Hi| ->%list_elem_of_singleton]%elem_of_app.
        + apply (good_edge _ _ _ G d (ORU dr) i Hd Hi).
        + apply (good_fresh _ _ _ G); [done|lia]. }
    assert (∀ l, l < length st → l ≠ d → st1 !! l = st !! l) as Hfr.
    { intros l Hl Hne. unfold st1, st0.
      rewrite list_lookup_insert_ne by done. by rewrite lookup_app_l. }
    assert (ext sub st st1) as E1.
    { eapply ext_insert; [apply ext_snoc; [apply ext_refl|]|done|].
      - intros l' Hl'. by apply elem_of_nil in Hl'.
      - simpl. split; [done|]. exists [length st]. split; [done|].
        intros i ->%list_elem_of_singleton. done. }
    exists (length st), st1, dr1. split; [done|]. split; [|split; [done|]].
    + split; try done.
      * apply isRU_true; eauto.
      * apply isItem_true. exists sit. rewrite Hfr; [done| |].
        -- by eapply lookup_lt_Some.
        -- intros ->. simplify_eq.
      * assert (frame lv (lv d) st st1) as F.
        { intros l Hl. destruct (decide (l < length st)).
          - apply Hfr; [done|]. intros ->. lia.
          - pose proof (good_fresh _ _ _ G d l). lia. }
        eapply item_below_frame; eauto.
      * apply isItem_true; eauto.
      * rewrite (keyOf_item _ _ _ Hn1). simpl.
        assert (st1 !! si = Some (OItem sit)) as Hs1.
        { rewrite Hfr; [done|by eapply lookup_lt_Some|].
          intros ->. simplify_eq. }
        by rewrite (keyOf_item _ _ _ Hs1).
      * apply (good_fresh _ _ _ G); [done|lia].
    + split; [done|]. split.
      { simpl. apply elem_of_app. right. by apply list_elem_of_singleton. }
      split; [done|]. right. done.
Qed.


Lemma covers_ext st q st1 st2 dd :
  good sub lv st1 → ext sub st1 st2 →
  covers st q st1 dd → covers st q st2 dd.
Proof.
  intros G1 E Cv r Hr. destruct (Cv r Hr) as (r1 & Hr1 & Hk).
  destruct (ext_ru _ _ _ _ _ E Hr1) as (r2 & Hr2 & _ & (ap & Hap & _)).
  exists r2. split; [done|]. intros i Hi.
  destruct (good_obj _ _ _ G1 dd (ORU r1) Hr1) as (Hit & _).
  specialize (Hk i Hi). apply elem_of_keysOf in Hk as (j & Hj & HK).
  apply elem_of_keysOf. exists j. split.
  - rewrite Hap. apply elem_of_app. by left.
  - rewrite (ext_keyOf _ _ _ _ E); auto.
Qed.

Lemma mergeFields_steps n d si dj st sit djt :
  rec_spec sub lv n recur → ctx sub lv n d si dj st →
  st !! si = Some (OItem sit) → st !! dj = Some (OItem djt) →
  ∃ st' djt', mergeFields recur opts si dj st = Ok st' ∧
              steps sub lv dj st st' ∧
              st' !! dj = Some (OItem djt') ∧
              field_detail sit djt djt' st st'.
Proof.
  intros R C Hs Hj.
  unfold mergeFields. rewrite (getItem_eq _ _ _ Hs). simpl.
  destruct (isSub (ValueType sit)) eqn:Hsub.
  - destruct (mergeSubDefault_steps sub lv recur opts n d si dj st sit djt)
      as (st1 & djt1 & -> & S1 & Hj1 & HV1 & HD1 & HC1); try done.
    simpl. pose proof (ctx_steps _ _ _ _ _ _ _ _ C S1) as C1.
    pose proof (ctx_src_lookup _ _ _ _ _ _ _ _ _ C S1 Hs) as Hs1.
    destruct (mergeSubValue_steps sub lv recur opts n d si dj st1 sit djt1)
      as (st2 & djt2 & -> & S2 & Hj2 & HD2 & HV2 & HC2); try done.
    assert (steps sub lv dj st st2) as S12.
    { apply (steps_trans sub lv dj st st1);
        [by eapply ctx_good|by eapply ctx_dst|done|done]. }
    exists st2, djt2. split; [done|]. split; [done|]. split; [done|].
    pose proof (ctx_good _ _ _ _ _ _ _ C) as G.
    pose proof (ctx_good _ _ _ _ _ _ _ C1) as G1.
    pose proof (steps_frame _ _ _ _ _ _ _ _ C S1) as F1.
    destruct (ctx_items _ _ _ _ _ _ _ C)
      as (sit' & djt' & Hs' & Hj' & HK & Hsok & Hjok & Hne).
    rewrite Hs in Hs'. injection Hs' as <-.
    rewrite Hj in Hj'. injection Hj' as <-.
    assert (sub (Key sit) = true) as Hks.
    { destruct Hsok as (Ht & _). by rewrite Hsub in Ht. }
    assert (sub (Key djt) = true) as Hkd by congruence.
    pose proof (proj1 (proj2 S1)) as E1. pose proof (proj1 (proj2 S2)) as E2.
    destruct (ext_item _ _ _ _ _ E1 Hj) as (x & Hx & _ & SD1 & _).
    rewrite Hj1 in Hx. injection Hx as <-.
    split.
    + intros EV. specialize (HV2 EV). subst st2.
      rewrite Hj1 in Hj2. injection Hj2 as <-. done.
    + intros _. split; [|split; [|split; [|split]]].
      * intros ED. specialize (HD1 ED). subst st1.
        rewrite Hj in Hj1. injection Hj1 as <-. done.
      * intros Hn. rewrite HD2. by apply SD1.
      * intros q Hq. destruct (HC1 q Hq) as (dd & Hdd & Cv).
        exists dd. split; [congruence|]. by eapply covers_ext.
      * intros q Hq. destruct (HC2 q Hq) as (dv & Hdv & Cv & _).
        exists dv. split; [done|].
        assert (tree_below lv n (lv d) st q) as T.
        { apply (proj2 (ctx_below _ _ _ _ _ _ _ C) sit Hs q).
          apply ptrs_spec. by right. }
        eapply covers_frame; [exact T|exact F1|exact Cv].
      * intros EV Hn Hdn.
        destruct Hsok as (_ & _ & Hsv).
        destruct (field_ok_sub _ _ _ _ Hks Hsv) as [?|(q & r & Hq & _)]; [done|].
        destruct (HC2 q Hq) as (dv & Hdv & _ & Hseed).
        rewrite Hseed; [done|congruence|congruence].
  - destruct (copyScalars_steps sub lv n d si dj st sit C Hs Hsub)
      as (st' & -> & S & HV).
    destruct (ext_item _ _ _ _ _ (proj1 (proj2 S)) Hj) as (djt' & Hj' & _).
    exists st', djt'. split; [done|]. split; [done|]. split; [done|].
    split; [|intros; congruence].
    intros EV. destruct (HV EV djt Hj) as (x & Hx & ?). congruence.
Qed.


Lemma field_detail_shift n k sit djt0 djt djt' st0 st st' :
  (∀ q, q ∈ ptrs sit → tree_below lv n k st0 q) → frame lv k st0 st →
  DefaultValue djt = DefaultValue djt0 → Value djt = Value djt0 →
  field_detail sit djt djt' st st' → field_detail sit djt0 djt' st0 st'.
Proof.
  intros T F ED EV (H1 & H2). rewrite ED, EV in *. split; [done|].
  intros Hs. destruct (H2 Hs) as (A & B & Cd & Cv & S).
  repeat split; try done.
  - intros q Hq. destruct (Cd q Hq) as (dd & ? & ?). exists dd.
    split; [done|]. eapply covers_frame; [apply (T q)|done|done].
    apply ptrs_spec. by left.
  - intros q Hq. destruct (Cv q Hq) as (dd & ? & ?). exists dd.
    split; [done|]. eapply covers_frame; [apply (T q)|done|done].
    apply ptrs_spec. by right.
Qed.

Lemma mergeItem_spec n d m si st dr sit :
  rec_spec sub lv n recur →
  good sub lv st → st !! d = Some (ORU dr) → st !! si = Some (OItem sit) →
  item_below lv (tree_below lv n (lv d) st) (lv d) st si →
  index_ok st (Items dr) m →
  (m !! Key sit = None → Key sit ∉ keysOf st (Items dr)) →
  ∃ dj st' dr' dit0 dit',
    mergeItem recur d m opts si st = Ok st' ∧
    good sub lv st' ∧ ext sub st st' ∧ frame lv (lv d) st st' ∧
    st' !! d = Some (ORU dr') ∧ dj ∈ Items dr' ∧ keyOf st' dj = Key sit ∧
    ((m !! Key sit = Some dj ∧ Items dr' = Items dr ∧
      st !! dj = Some (OItem dit0)) ∨
     (m !! Key sit = None ∧ dj = length st ∧ Items dr' = Items dr ++ [dj] ∧
      DefaultValue dit0 = Nil ∧ Value dit0 = Nil)) ∧
    (∀ l, l < length st → l ≠ d → l ≠ dj →
       (∀ it q, st' !! dj = Some (OItem it) → q ∈ ptrs it → lv l < lv q) →
       st' !! l = st !! l) ∧
    st' !! dj = Some (OItem dit') ∧ field_detail sit dit0 dit' st st'.
Proof.
  intros R G Hd Hs Hb M1 M2.
  destruct (findOrAppend_spec n d m si st dr sit G Hd Hs Hb M1 M2)
    as (dj & st1 & dr1 & Hf & C1 & E1 & Hd1 & Hin1 & Hfr1 & Hcase).
  unfold mergeItem. rewrite Hf. simpl.
  destruct (ctx_items _ _ _ _ _ _ _ C1)
    as (sit1 & dit0 & Hs1 & Hj1 & _).
  destruct (overrideType_steps sub lv opts n d si dj st1 C1)
    as (st2 & -> & S2 & K2).
  simpl. pose proof (ctx_steps _ _ _ _ _ _ _ _ C1 S2) as C2.
  destruct (copyDescription_steps sub lv n d si dj st2 C2)
    as (st3 & -> & S3 & K3).
  simpl. pose proof (ctx_steps _ _ _ _ _ _ _ _ C2 S3) as C3.
  destruct (K2 dit0 Hj1) as (dit2 & Hj2 & ED2 & EV2).
  destruct (K3 dit2 Hj2) as (dit3 & Hj3 & ED3 & EV3).
  assert (steps sub lv dj st1 st3) as S13.
  { apply (steps_trans sub lv dj st1 st2);
      [by eapply ctx_good|by eapply ctx_dst|done|done]. }
  pose proof (lookup_lt_Some _ _ _ Hd) as Hdlt.
  pose proof (ext_len _ _ _ E1) as L1.
  pose proof (ctx_lv _ _ _ _ _ _ _ C1) as Hlv.
  assert (frame lv (lv d) st st1) as F1.
  { intros l Hl. destruct (decide (l < length st)).
    - apply Hfr1; [done|]. intros ->. lia.
    - pose proof (good_fresh _ _ _ G d l). lia. }
  assert (frame lv (lv d) st st3) as F3.
  { eapply frame_trans; [done|]. eapply steps_frame; eauto. }
  assert (st3 !! si = Some (OItem sit)) as Hs3.
  { rewrite F3; [done|]. apply Hb. }
  destruct (mergeFields_steps n d si dj st3 sit dit3 R C3 Hs3 Hj3)
    as (st4 & dit' & -> & S4 & Hj4 & FD).
  assert (steps sub lv dj st1 st4) as S14.
  { apply (steps_trans sub lv dj st1 st3);
      [by eapply ctx_good|by eapply ctx_dst|done|done]. }
  pose proof (ctx_steps _ _ _ _ _ _ _ _ C1 S14) as C4.
  pose proof (steps_frame _ _ _ _ _ _ _ _ C1 S14) as F14.
  destruct S14 as (G4 & E14 & IF14).
  assert (st4 !! d = Some (ORU dr1)) as Hd4.
  { rewrite <- Hd1. apply IF14; [lia| |].
    - intros ->. lia.
    - intros it q Hit Hq.
      pose proof (good_edge _ _ _ G4 dj (OItem it) q Hit Hq). lia. }
  exists dj, st4, dr1, dit0, dit'. split; [done|]. split; [done|].
  split; [by eapply ext_trans|].
  split; [exact (frame_trans lv (lv d) st st1 st4 F1 F14)|].
  split; [done|]. split; [done|]. split.
  { rewrite (ctx_key _ _ _ _ _ _ _ C4).
    apply keyOf_item. destruct Hb as [Hsl _].
    rewrite F14 by done. by rewrite F1. }
  split.
  { destruct Hcase as [[? Heq]|(? & ? & ? & Hnew)]; [left|right].
    - split; [done|]. rewrite Heq in Hd1, Hj1. split; [congruence|done].
    - subst dj. rewrite Hj1 in Hnew. injection Hnew as ->. done. }
  split.
  { intros l Hl Hnd Hnj Hp. rewrite IF14; [|lia|done|done]. by apply Hfr1. }
  split; [done|].
  eapply (field_detail_shift n (lv d) sit dit0 dit3 dit' st st3 st4);
    [|done|congruence|congruence|done].
  intros q Hq. by apply (proj2 Hb sit Hs q).
Qed.

Lemma keyOf_frame k st st' i :
  frame lv k st st' → lv i < k → keyOf st' i = keyOf st i.
Proof. intros F Hi. unfold keyOf. by rewrite (F i Hi). Qed.

Lemma keysOf_frame k st st' l :
  frame lv k st st' → (∀ i, i ∈ l → lv i < k) → keysOf st' l = keysOf st l.
Proof.
  intros F Hl. unfold keysOf. apply map_ext_in. intros i Hi%list_elem_of_In.
  eapply keyOf_frame; eauto.
Qed.

Lemma srcs_ok_frame n d st st' l :
  ext sub st st' → frame lv (lv d) st st' →
  srcs_ok n d st l → srcs_ok n d st' l.
Proof.
  intros E F [H1 H2]. split.
  - intros si Hsi. destruct (H1 si Hsi) as [? ?]. split.
    + by eapply ext_isItem.
    + by eapply item_below_frame.
  - rewrite (keysOf_frame (lv d) st st'); [done|done|].
    intros i Hi. apply H1. done.
Qed.

Lemma forEach_merge_spec n d m :
  rec_spec sub lv n recur →
  ∀ l st dr,
    good sub lv st → st !! d = Some (ORU dr) → srcs_ok n d st l →
    index_ok st (Items dr) m →
    (∀ k, k ∈ keysOf st l → m !! k = None → k ∉ keysOf st (Items dr)) →
    ∃ st' dr',
      forEach (mergeItem recur d m opts) l st = Ok st' ∧
      good sub lv st' ∧ ext sub st st' ∧ frame lv (lv d) st st' ∧
      st' !! d = Some (ORU dr') ∧
      (∀ si, si ∈ l → keyOf st si ∈ keysOf st' (Items dr')) ∧
      (∀ dj, dj ∈ Items dr' →
         dj ∈ Items dr ∨ keyOf st' dj ∈ keysOf st l) ∧
      (∀ l0, l0 < length st → l0 ≠ d →
         (∀ dj, dj ∈ Items dr' → keyOf st' dj ∈ keysOf st l →
            l0 ≠ dj ∧ ∀ it q, st' !! dj = Some (OItem it) → q ∈ ptrs it →
                        lv l0 < lv q) →
         st' !! l0 = st !! l0).
Proof.
  intros R. induction l as [|si l IH]; intros st dr G Hd [Hl Hnd] M1 M2.
  - exists st, dr. simpl. split; [done|]. split; [done|].
    split; [apply ext_refl|]. split; [apply frame_refl|]. split; [done|].
    split; [|split; [by left|done]].
    intros si Hsi. by apply elem_of_nil in Hsi.
  - destruct (Hl si ltac:(left)) as [(sit & Hs)%isItem_true Hb].
    pose proof (keyOf_item _ _ _ Hs) as HKs.
    destruct (mergeItem_spec n d m si st dr sit R G Hd Hs Hb M1)
      as (dj & st1 & dr1 & dit0 & dit1 & Hm & G1 & E1 & F1 & Hd1 & Hin1 & HK1
          & Hcase & IF1 & _).
    { intros Hnone. apply M2; [|done]. rewrite <- HKs. left. }
    simpl. rewrite Hm. simpl.
    assert (srcs_ok n d st1 l) as Hl1.
    { eapply srcs_ok_frame; eauto. split.
      - intros si' Hsi'. apply Hl. by right.
      - unfold keysOf in Hnd. simpl in Hnd. by apply NoDup_cons in Hnd as [_ ?]. }
    assert (keysOf st1 l = keysOf st l) as Hkl.
    { apply (keysOf_frame (lv d)); [done|]. intros i Hi.
      apply Hl. by right. }
    assert (∀ i, i ∈ Items dr → i ∈ Items dr1) as Hsubl.
    { destruct Hcase as [(_ & -> & _)|(_ & _ & -> & _)]; [done|].
      intros i Hi. apply elem_of_app. by left. }
    destruct (good_obj _ _ _ G d (ORU dr) Hd) as (Hitems & _).
    destruct (IH st1 dr1 G1 Hd1 Hl1) as
      (st' & dr' & -> & G' & E' & F' & Hd' & Hcov & Hnew & LF).
    { intros k dj' Hk. destruct (M1 k dj' Hk) as (? & ? & ?).
      split; [auto|]. split; [by eapply ext_isItem|].
      by rewrite (ext_keyOf _ _ _ _ E1). }
    { intros k Hk Hnone. rewrite Hkl in Hk.
      assert (k ≠ Key sit) as Hne.
      { intros ->. unfold keysOf in Hnd. simpl in Hnd.
        apply NoDup_cons in Hnd as [Hnin _]. apply Hnin.
        by rewrite HKs. }
      assert (k ∉ keysOf st (Items dr)) as Hnin.
      { apply M2; [|done]. by right. }
      assert (keysOf st1 (Items dr) = keysOf st (Items dr)) as Hkd
        by (by apply (ext_keysOf sub)).
      destruct Hcase as [(_ & -> & _)|(_ & _ & -> & _)]; [by rewrite Hkd|].
      unfold keysOf. rewrite map_app. fold (keysOf st1 (Items dr)).
      rewrite Hkd. simpl. rewrite HK1.
      intros [?|?%list_elem_of_singleton]%elem_of_app; done. }
    destruct (ext_ru _ _ _ _ _ E' Hd1) as (dr2 & Hd2 & _ & (ap & Hap & _)).
    rewrite Hd' in Hd2. injection Hd2 as <-.
    assert (isItem st1 dj = true) as Hdj1.
    { destruct (good_obj _ _ _ G1 d (ORU dr1) Hd1) as (Hit1 & _). auto. }
    exists st', dr'. split; [done|]. split; [done|].
    split; [by eapply ext_trans|]. split; [by eapply frame_trans|].
    split; [done|]. split; [|split].
    + intros si' [->|Hsi']%elem_of_cons.
      * rewrite HKs, <- HK1. rewrite <- (ext_keyOf _ _ _ _ E' Hdj1).
        apply keyOf_in_keysOf.
        rewrite Hap. apply elem_of_app. by left.
      * rewrite <- (keyOf_frame (lv d) st st1); [|done|by apply Hl; right].
        by apply Hcov.
    + intros dj' Hdj'. destruct (Hnew dj' Hdj') as [Hin|Hk].
      * assert (dj' ∈ Items dr ∨ dj' = dj) as [?| ->].
        { destruct Hcase as [(_ & Heq & _)|(_ & _ & Heq & _)];
            rewrite Heq in Hin; [by left|].
          apply elem_of_app in Hin as [?|?%list_elem_of_singleton]; auto. }
        -- by left.
        -- right. rewrite (ext_keyOf _ _ _ _ E' Hdj1), HK1, <- HKs. left.
      * right. rewrite Hkl in Hk. by right.
    + intros l0 Hl0 Hne0 Hp.
      pose proof (ext_len _ _ _ E1) as L1.
      rewrite LF; [|lia|done|].
      * assert (dj ∈ Items dr') as Hin'.
        { rewrite Hap. apply elem_of_app. by left. }
        assert (keyOf st' dj ∈ keysOf st (si :: l)) as Hkin.
        { rewrite (ext_keyOf _ _ _ _ E' Hdj1), HK1, <- HKs. left. }
        destruct (Hp dj Hin' Hkin) as [Hnj Hpq].
        apply IF1; [done|done|done|].
        intros it q Hit Hq.
        destruct (ext_item _ _ _ _ _ E' Hit) as (it' & Hit' & _).
        apply (Hpq it' q Hit'). eapply ext_ptrs; eauto.
        apply (good_obj _ _ _ G1 dj (OItem it) Hit).
      * intros dj' Hdj' Hk'. apply Hp; [done|].
        rewrite Hkl in Hk'. by right.
Qed.

End MergeLoop.

(** ** mergeResourceUsages on well-formed stores *)

Section MergeSpec.

Variable sub : string → bool.
Variable lv : loc → nat.

Lemma src_ok_srcs n d st s sr :
  good sub lv st → st !! s = Some (ORU sr) → src_ok lv n (lv d) st s →
  srcs_ok lv n d st (Items sr).
Proof.
  intros G Hs (r & Hr & Hb). rewrite Hs in Hr. injection Hr as <-.
  destruct (good_obj _ _ _ G s (ORU sr) Hs) as (Hit & Hnd).
  split; [|done]. intros si Hsi. split; auto.
Qed.

Lemma index_ok_build st dr m :
  (∀ k dj, m !! k = Some dj →
     (dj ∈ Items dr ∧ keyOf st dj = k) ∨ (∅ : gmap string loc) !! k = Some dj) →
  (∀ i, i ∈ Items dr → isItem st i = true) →
  index_ok st (Items dr) m.
Proof.
  intros H Hit k dj Hk. destruct (H k dj Hk) as [[? ?]|Hm].
  - split; [done|]. split; auto.
  - by rewrite lookup_empty in Hm.
Qed.

Lemma merge_unfold n d s o st dr sr m :
  st !! d = Some (ORU dr) → st !! s = Some (ORU sr) →
  buildItemMap st (Items dr) ∅ = Ok m →
  mergeResourceUsages (S n) (Some d) (Some s) o st =
  forEach (mergeItem (mergeResourceUsages n) d m o) (Items sr) st.
Proof.
  intros Hd Hs Hm. simpl. rewrite (getRU_eq _ _ _ Hd). simpl.
  rewrite Hm. simpl. rewrite (getRU_eq _ _ _ Hs). done.
Qed.

Lemma merge_spec_step n :
  rec_spec sub lv n (mergeResourceUsages n) →
  ∀ st d s o, good sub lv st → isRU st d = true →
    src_ok lv n (lv d) st s →
    ∃ st', mergeResourceUsages (S n) (Some d) (Some s) o st = Ok st' ∧
           good sub lv st' ∧ ext sub st st' ∧ frame lv (lv d) st st' ∧
           covers st s st' d.
Proof.
  intros R st d s o G (dr & Hd)%isRU_true Hsrc.
  pose proof Hsrc as (sr & Hs & _).
  destruct (good_obj _ _ _ G d (ORU dr) Hd) as (Hit & Hnd).
  destruct (buildItemMap_spec st (Items dr) ∅ Hit) as (m & Hm & M1 & M2).
  rewrite (merge_unfold n d s o st dr sr m Hd Hs Hm).
  destruct (forEach_merge_spec sub lv (mergeResourceUsages n) o n d m R
              (Items sr) st dr) as (st' & dr' & -> & G' & E & F & Hd' & Hcov & _ & _);
    try done.
  - by eapply src_ok_srcs.
  - by apply index_ok_build.
  - intros k _ Hnone Hk. destruct (M2 k (or_introl Hk)) as [? ?]. congruence.
  - exists st'. split; [done|]. split; [done|]. split; [done|].
    split; [done|]. intros r Hr. rewrite Hs in Hr. injection Hr as <-.
    exists dr'. done.
Qed.

Lemma rec_spec_merge n : rec_spec sub lv n (mergeResourceUsages n).
Proof.
  induction n as [|n IH]; intros st dd q o G Hdd T; [done|].
  apply merge_spec_step; try done. by apply tree_below_src.
Qed.

(** A merge into a destination [d] of a well-formed store, from a source
    whose items lie below [d] and have depth at most [n], returns; the
    resulting store is well formed, extends the store, leaves everything
    below [d] as it was, and the destination has an item for every key of
    the source. *)
Lemma merge_spec n st d s o :
  good sub lv st → isRU st d = true → src_ok lv n (lv d) st s →
  ∃ st', mergeResourceUsages (S n) (Some d) (Some s) o st = Ok st' ∧
         good sub lv st' ∧ ext sub st st' ∧ frame lv (lv d) st st' ∧
         covers st s st' d.
Proof. apply merge_spec_step, rec_spec_merge. Qed.

End MergeSpec.

(** ** One iteration of the loop, seen from the whole merge *)

Section MergeItemDetail.

Variable sub : string → bool.
Variable lv : loc → nat.

Local Abbreviation loop_frame := (loop_frame lv).
Local Abbreviation loop_pre := (loop_pre sub lv).
Local Abbreviation loop_post := (loop_post sub lv).
Local Abbreviation item_post := (item_post sub lv).

Variable recur : option loc → option loc → MergeResourceUsagesOpts →
                 store → res store.
Variable opts : MergeResourceUsagesOpts.

Lemma loop_spec n d m l st dr :
  rec_spec sub lv n recur → loop_pre n d m st dr l →
  ∃ st' dr', forEach (mergeItem recur d m opts) l st = Ok st' ∧
             loop_post d l st dr st' dr'.
Proof.
  intros R [G Hd Hl M1 M2].
  destruct (forEach_merge_spec sub lv recur opts n d m R l st dr G Hd Hl M1 M2)
    as (st' & dr' & ? & ? & ? & ? & ? & ? & ? & ?).
  exists st', dr'. split; [done|]. by split.
Qed.

Lemma srcs_ok_app n d st l1 l2 :
  srcs_ok lv n d st (l1 ++ l2) → srcs_ok lv n d st l1 ∧ srcs_ok lv n d st l2.
Proof.
  intros [H1 H2]. unfold keysOf in H2. rewrite map_app in H2.
  apply NoDup_app in H2 as (? & _ & ?).
  split; (split; [|done]); intros si Hsi; apply H1, elem_of_app; auto.
Qed.

Lemma keysOf_app st l1 l2 : keysOf st (l1 ++ l2) = keysOf st l1 ++ keysOf st l2.
Proof. unfold keysOf. apply map_app. Qed.

(** After the loop over [l1], the loop over [l2] can go on. *)
Lemma loop_pre_prefix n d m st dr l1 l2 :
  loop_pre n d m st dr (l1 ++ l2) → loop_pre n d m st dr l1.
Proof.
  intros [G Hd Hl M1 M2].
  destruct (srcs_ok_app _ _ _ _ _ Hl) as [Hl1 Hl2].
  split; try done. intros k Hk. apply M2. rewrite keysOf_app.
  apply elem_of_app. by left.
Qed.

Lemma loop_pre_app n d m st dr l1 l2 st' dr' :
  loop_pre n d m st dr (l1 ++ l2) → loop_post d l1 st dr st' dr' →
  loop_pre n d m st' dr' l2.
Proof.
  intros [G Hd Hl M1 M2] [G' E F Hd' Hcov Hnew LF].
  destruct (srcs_ok_app _ _ _ _ _ Hl) as [Hl1 Hl2].
  assert (keysOf st' l2 = keysOf st l2) as Hk2.
  { apply (keysOf_frame lv (lv d)); [done|]. intros i Hi. by apply Hl2. }
  destruct (ext_ru _ _ _ _ _ E Hd) as (x & Hx & _ & (ap & Hap & _)).
  rewrite Hd' in Hx. injection Hx as <-.
  destruct (good_obj _ _ _ G d (ORU dr) Hd) as (Hit & _).
  split; try done.
  - by eapply srcs_ok_frame.
  - intros k dj Hk. destruct (M1 k dj Hk) as (? & ? & ?).
    split; [rewrite Hap; apply elem_of_app; by left|].
    split; [by eapply ext_isItem|]. by rewrite (ext_keyOf _ _ _ _ E).
  - intros k Hk Hnone. rewrite Hk2 in Hk.
    intros (dj & Hdj & HK)%elem_of_keysOf.
    destruct (Hnew dj Hdj) as [Hin|Hin].
    + apply (M2 k); [rewrite keysOf_app; apply elem_of_app; by right|done|].
      apply elem_of_keysOf. exists dj. split; [done|].
      rewrite <- (ext_keyOf _ _ _ _ E); auto.
    + rewrite HK in Hin. destruct Hl as [_ Hnd].
      rewrite keysOf_app in Hnd. apply NoDup_app in Hnd as (_ & Hdisj & _).
      by apply (Hdisj k).
Qed.

Lemma item_spec n d m si l2 st dr sit :
  rec_spec sub lv n recur → loop_pre n d m st dr (si :: l2) →
  st !! si = Some (OItem sit) →
  ∃ dj sb drb dit0 dK,
    mergeItem recur d m opts si st = Ok sb ∧
    item_post d m sit st dr dj sb drb dit0 dK ∧
    loop_pre n d m sb drb l2.
Proof.
  intros R [G Hd [Hl Hnd] M1 M2] Hs.
  destruct (Hl si ltac:(left)) as [_ Hb].
  pose proof (keyOf_item _ _ _ Hs) as HKs.
  destruct (mergeItem_spec sub lv recur opts n d m si st dr sit R G Hd Hs Hb M1)
    as (dj & sb & drb & dit0 & dK & Hm & G1 & E1 & F1 & Hd1 & Hin1 & HK1
        & Hcase & IF1 & Hj & FD).
  { intros Hnone. apply M2; [|done]. rewrite <- HKs. left. }
  exists dj, sb, drb, dit0, dK. split; [done|]. split; [by split|].
  assert (srcs_ok lv n d st l2) as Hl2.
  { split.
    - intros si' Hsi'. apply Hl. by right.
    - unfold keysOf in Hnd. simpl in Hnd. by apply NoDup_cons in Hnd as [_ ?]. }
  assert (keysOf sb l2 = keysOf st l2) as Hkl.
  { apply (keysOf_frame lv (lv d)); [done|]. intros i Hi. by apply Hl2. }
  destruct (good_obj _ _ _ G d (ORU dr) Hd) as (Hitems & _).
  split; try done.
  - by eapply srcs_ok_frame.
  - intros k dj' Hk. destruct (M1 k dj' Hk) as (? & ? & ?).
    split.
    { destruct Hcase as [(_ & -> & _)|(_ & _ & -> & _)]; [done|].
      apply elem_of_app. by left. }
    split; [by eapply ext_isItem|]. by rewrite (ext_keyOf _ _ _ _ E1).
  - intros k Hk Hnone. rewrite Hkl in Hk.
    assert (k ≠ Key sit) as Hne.
    { intros ->. unfold keysOf in Hnd. simpl in Hnd.
      apply NoDup_cons in Hnd as [Hnin _]. apply Hnin. by rewrite HKs. }
    assert (k ∉ keysOf st (Items dr)) as Hnin.
    { apply M2; [|done]. by right. }
    assert (keysOf sb (Items dr) = keysOf st (Items dr)) as Hkd
      by (by apply (ext_keysOf sub)).
    destruct Hcase as [(_ & -> & _)|(_ & _ & -> & _)]; [by rewrite Hkd|].
    rewrite keysOf_app, Hkd. unfold keysOf at 2. simpl. rewrite HK1.
    intros [?|?%list_elem_of_singleton]%elem_of_app; done.
Qed.

Lemma field_detail_lift n k sit dit0 dK st sa sb st' :
  (∀ q, q ∈ ptrs sit → tree_below lv n k st q) → frame lv k st sa →
  good sub lv sb → ext sub sb st' →
  field_detail sit dit0 dK sa sb → field_detail sit dit0 dK st st'.
Proof.
  intros T F G E (H1 & H2). split; [done|].
  intros Hs. destruct (H2 Hs) as (A & B & Cd & Cv & S).
  repeat split; try done.
  - intros q Hq. destruct (Cd q Hq) as (dd & ? & ?). exists dd.
    split; [done|]. eapply covers_ext; [done|done|].
    eapply covers_frame; [apply (T q)|done|done].
    apply ptrs_spec. by left.
  - intros q Hq. destruct (Cv q Hq) as (dd & ? & ?). exists dd.
    split; [done|]. eapply covers_ext; [done|done|].
    eapply covers_frame; [apply (T q)|done|done].
    apply ptrs_spec. by right.
Qed.


(** Other iterations leave an owned item of the destination alone. *)
Lemma loop_frame_owned d l st st' dr' st0 dr0 di dit :
  good sub lv st0 → ext sub st0 st → ext sub st st' →
  st0 !! d = Some (ORU dr0) → st' !! d = Some (ORU dr') →
  loop_frame d l st st' dr' →
  di ∈ Items dr0 → st0 !! di = Some (OItem dit) → owned lv st0 dr0 di →
  Key dit ∉ keysOf st l →
  st' !! di = st !! di.
Proof.
  intros G0 E0 E Hd0 Hd' LF Hin Hdi Hown HK.
  pose proof (ext_trans _ _ _ _ E0 E) as E0'.
  pose proof (lookup_lt_Some _ _ _ Hdi) as Hlt.
  pose proof (ext_len _ _ _ E0) as L0.
  destruct (ext_item _ _ _ _ _ E0' Hdi) as (dit' & Hdi' & HK' & _).
  destruct (ext_ru _ _ _ _ _ E0' Hd0) as (x & Hx & _ & (ap & Hap & Hfr)).
  rewrite Hd' in Hx. injection Hx as <-.
  apply LF; [lia| |].
  { intros Heq. subst. congruence. }
  intros dj Hdj Hkj. split.
  { intros <-. apply HK. by rewrite <- HK', <- (keyOf_item _ _ _ Hdi'). }
  intros it q Hit Hq.
  assert (q ∈ succs (OItem it)) as Hq' by done.
  rewrite Hap in Hdj. apply elem_of_app in Hdj as [Hdj|Hdj].
  - destruct (good_obj _ _ _ G0 d (ORU dr0) Hd0) as (Hitems & _).
    destruct (proj1 (isItem_true _ _) (Hitems dj Hdj)) as (djt & Hdjt).
    destruct (ext_item _ _ _ _ _ E0' Hdjt) as (x & Hx & _ & _ & _ & HP).
    rewrite Hit in Hx. injection Hx as <-.
    destruct (HP q Hq) as [Hold|Hnew].
    + by eapply Hown.
    + apply (good_fresh _ _ _ G0); lia.
  - apply Hfr in Hdj.
    pose proof (ext_new _ _ _ E0' dj (OItem it) q Hdj Hit Hq').
    apply (good_fresh _ _ _ G0); lia.
Qed.

End MergeItemDetail.

Lemma NoDup_keys_inj st l i j :
  NoDup (keysOf st l) → i ∈ l → j ∈ l → keyOf st i = keyOf st j → i = j.
Proof.
  induction l as [|x l IH]; intros Hnd Hi Hj HK.
  - by apply elem_of_nil in Hi.
  - unfold keysOf in Hnd. simpl in Hnd. apply NoDup_cons in Hnd as [Hx Hnd].
    apply elem_of_cons in Hi as [->|Hi]; apply elem_of_cons in Hj as [->|Hj];
      try done.
    + exfalso. apply Hx. rewrite HK. by apply keyOf_in_keysOf.
    + exfalso. apply Hx. rewrite <- HK. by apply keyOf_in_keysOf.
    + by apply IH.
Qed.

Lemma obj_ext_weaken sub n n' o o' :
  n ≤ n' → obj_ext sub n' o o' → obj_ext sub n o o'.
Proof.
  intros Hn. destruct o as [r|it], o' as [r'|it']; simpl; try done.
  - intros [? (ap & ? & Hfr)]. split; [done|]. exists ap. split; [done|].
    intros i Hi. apply Hfr in Hi. lia.
  - intros (? & ? & ? & HP). repeat split; try done.
    intros q Hq. destruct (HP q Hq); [by left|right; lia].
Qed.

Section MergeItemTheorem.

Variable sub : string → bool.
Variable lv : loc → nat.

Lemma merge_item_detail n st d s o dr sr si sit :
  good sub lv st → st !! d = Some (ORU dr) → st !! s = Some (ORU sr) →
  src_ok lv n (lv d) st s → si ∈ Items sr → st !! si = Some (OItem sit) →
  ∃ st' dr' dj dit0 dK,
    mergeResourceUsages (S n) (Some d) (Some s) o st = Ok st' ∧
    good sub lv st' ∧ ext sub st st' ∧ frame lv (lv d) st st' ∧
    st' !! d = Some (ORU dr') ∧ dj ∈ Items dr' ∧
    Key dK = Key sit ∧
    field_detail sit dit0 dK st st' ∧
    (∃ dit', st' !! dj = Some (OItem dit') ∧
             obj_ext sub (length st) (OItem dK) (OItem dit')) ∧
    (∀ di dit, di ∈ Items dr → st !! di = Some (OItem dit) →
       Key dit = Key sit → owned lv st dr di →
       dj = di ∧ dit0 = dit ∧ st' !! di = Some (OItem dK)) ∧
    (Key sit ∉ keysOf st (Items dr) →
     DefaultValue dit0 = Nil ∧ Value dit0 = Nil).
Proof.
  intros G Hd Hs Hsrc Hsi Hsit.
  destruct (good_obj _ _ _ G d (ORU dr) Hd) as (Hit & Hnd).
  destruct (buildItemMap_spec st (Items dr) ∅ Hit) as (m & Hm & M1 & M2).
  rewrite (merge_unfold n d s o st dr sr m Hd Hs Hm).
  apply list_elem_of_split in Hsi as (l1 & l2 & Hsplit).
  rewrite Hsplit.
  pose proof (rec_spec_merge sub lv n) as R.
  assert (loop_pre sub lv n d m st dr (l1 ++ si :: l2)) as P.
  { split; try done.
    - rewrite <- Hsplit. by eapply src_ok_srcs.
    - by apply index_ok_build.
    - intros k _ Hnone Hk. destruct (M2 k (or_introl Hk)) as [? ?]. congruence. }
  destruct (loop_spec sub lv _ o n d m l1 st dr R) as (sa & dra & Ha & Qa).
  { by eapply loop_pre_prefix. }
  pose proof (loop_pre_app sub lv n d m st dr l1 (si :: l2) sa dra P Qa) as Pa.
  destruct Qa as [Ga Ea Fa Hda Hcova Hnewa LFa].
  assert (lv si < lv d) as Hsil.
  { destruct P as [_ _ [Hl _] _ _]. apply Hl, elem_of_app. right. left. }
  assert (sa !! si = Some (OItem sit)) as Hsa by (by rewrite Fa).
  destruct (item_spec sub lv _ o n d m si l2 sa dra sit R Pa Hsa)
    as (dj & sb & drb & dit0 & dK & Hb & Qb & Pb).
  destruct (loop_spec sub lv _ o n d m l2 sb drb R Pb) as (st' & dr' & Hc & Qc).
  destruct Qb as [Gb Eb Fb Hdb Hinb HKb Hcase IFb Hjb FDb].
  destruct Qc as [Gc Ec Fc Hdc Hcovc Hnewc LFc].
  assert (ext sub st sb) as Esb by (by eapply ext_trans).
  assert (ext sub st st') as Est by (by eapply ext_trans).
  destruct (ext_item _ _ _ _ _ Ec Hjb) as (dit' & Hj' & OE).
  destruct (ext_ru _ _ _ _ _ Ec Hdb) as (x & Hx & _ & (ap & Hap & _)).
  rewrite Hdc in Hx. injection Hx as <-.
  assert (NoDup (keysOf st (l1 ++ si :: l2))) as Hndl.
  { destruct P as [_ _ [_ ?] _ _]. done. }
  rewrite keysOf_app in Hndl. apply NoDup_app in Hndl as (_ & Hdisj & Hnd2).
  unfold keysOf at 1 in Hnd2. simpl in Hnd2. fold (keysOf st l2) in Hnd2.
  apply NoDup_cons in Hnd2 as [Hnin2 _].
  rewrite (keyOf_item _ _ _ Hsit) in Hnin2.
  assert (Key sit ∉ keysOf st l1) as Hnin1.
  { intros Hk. apply (Hdisj _ Hk). unfold keysOf. simpl.
    rewrite (keyOf_item _ _ _ Hsit). left. }
  exists st', dr', dj, dit0, dK.
  split.
  { apply forEach_app. exists sa. split; [done|]. simpl. rewrite Hb. done. }
  split; [done|]. split; [done|].
  split; [eapply frame_trans; [|done]; by eapply frame_trans|].
  split; [done|]. split; [rewrite Hap; apply elem_of_app; by left|].
  split; [by rewrite <- HKb, (keyOf_item _ _ _ Hjb)|].
  split.
  { eapply (field_detail_lift sub lv n (lv d)); [|exact Fa|exact Gb|exact Ec|done].
    intros q Hq. destruct P as [_ _ [Hl _] _ _].
    apply (proj2 (proj2 (Hl si ltac:(apply elem_of_app; right; left))) sit Hsit q Hq). }
  split.
  { exists dit'. split; [done|].
    eapply obj_ext_weaken; [|exact OE]. apply (ext_len _ _ _ Esb). }
  split.
  - intros di dit Hdi Hdit HK Hown.
    assert (m !! Key sit = Some di) as Hmdi.
    { destruct (M2 (Key sit)) as [x Hx].
      { left. rewrite <- HK, <- (keyOf_item _ _ _ Hdit).
        by apply keyOf_in_keysOf. }
      destruct (M1 _ _ Hx) as [[Hxin Hxk]|Habs];
        [|by rewrite lookup_empty in Habs].
      rewrite Hx. f_equal.
      eapply (NoDup_keys_inj st (Items dr)); eauto.
      rewrite Hxk, (keyOf_item _ _ _ Hdit). done. }
    assert (sa !! di = Some (OItem dit)) as Hdia.
    { rewrite <- Hdit.
      eapply (loop_frame_owned sub lv d l1 st sa dra st dr di dit);
        eauto using ext_refl. by rewrite HK. }
    destruct Hcase as [(Hmj & _ & Hj0)|(Hmj & _)]; [|congruence].
    assert (dj = di) as -> by congruence.
    rewrite Hdia in Hj0. injection Hj0 as <-.
    split; [done|]. split; [done|].
    rewrite <- Hjb.
    eapply (loop_frame_owned sub lv d l2 sb st' dr' st dr di dit); eauto.
    rewrite (keysOf_frame lv (lv d) st sb); [by rewrite HK| |].
    + eapply frame_trans; eauto.
    + intros i Hi. destruct P as [_ _ [Hl _] _ _].
      apply Hl, elem_of_app. right. by right.
  - intros Hnk.
    destruct Hcase as [(Hmj & _ & Hj0)|(_ & _ & _ & ? & ?)]; [|done].
    exfalso. destruct (M1 _ _ Hmj) as [[Hxin Hxk]|Habs];
      [|by rewrite lookup_empty in Habs].
    apply Hnk. rewrite <- Hxk. by apply keyOf_in_keysOf.
Qed.

End MergeItemTheorem.

(** ** Soundness of the executable checks *)

Lemma forallb_elem {A} (f : A → bool) l x :
  forallb f l = true → x ∈ l → f x = true.
Proof.
  intros H Hx. rewrite forallb_forall in H. apply H. by apply list_elem_of_In.
Qed.

Lemma field_okb_sound sub st k v :
  field_okb sub st k v = true → field_ok sub st k v.
Proof.
  unfold field_okb, field_ok. destruct (sub k).
  - destruct v as [| | | | |[q|]]; try done; [by left|].
    intros H. right. eauto.
  - destruct v; done.
Qed.

Lemma obj_okb_sound sub st o : obj_okb sub st o = true → obj_ok sub st o.
Proof.
  destruct o as [r|it]; simpl.
  - intros [H1 H2]%andb_true_iff. split.
    + intros i Hi. by eapply forallb_elem.
    + by apply bool_decide_eq_true in H2.
  - unfold item_okb. intros [[H1 H2]%andb_true_iff H3]%andb_true_iff.
    split; [by apply Bool.eqb_prop|]. split; by apply field_okb_sound.
Qed.

Lemma all_from_spec P i l j o :
  all_from P i l = true → l !! j = Some o → P (i + j) o = true.
Proof.
  revert i j. induction l as [|x l IH]; intros i j H Hj; [done|].
  simpl in H. apply andb_true_iff in H as [Hx Hl]. destruct j as [|j].
  - simpl in Hj. injection Hj as <-. by rewrite Nat.add_0_r.
  - simpl in Hj. replace (i + S j) with (S i + j) by lia. by apply IH.
Qed.

Lemma store_okb_sound sub lv st :
  store_okb sub lv st = true →
  (∀ l l', l < l' → length st ≤ l' → lv l < lv l') →
  good sub lv st.
Proof.
  intros H Hf. split; [| |done].
  - intros l o Hl. pose proof (all_from_spec _ 0 st l o H Hl) as Ho.
    simpl in Ho. apply andb_true_iff in Ho as [Ho _]. by apply obj_okb_sound.
  - intros l o l' Hl Hs. pose proof (all_from_spec _ 0 st l o H Hl) as Ho.
    simpl in Ho. apply andb_true_iff in Ho as [_ Ho].
    pose proof (forallb_elem _ _ _ Ho Hs) as Hlt. simpl in Hlt.
    by apply Nat.ltb_lt.
Qed.

Lemma tree_belowb_sound lv n k st q :
  tree_belowb lv n k st q = true → tree_below lv n k st q.
Proof.
  revert q. induction n as [|n IH]; intros q; [done|]. simpl.
  intros [Hq H]%andb_true_iff. split; [by apply Nat.ltb_lt|].
  destruct (st !! q) as [[r|]|]; try done. exists r. split; [done|].
  intros si Hsi. pose proof (forallb_elem _ _ _ H Hsi) as Hs. simpl in Hs.
  apply andb_true_iff in Hs as [Hl Hp]. split; [by apply Nat.ltb_lt|].
  intros it Hit q' Hq'. rewrite Hit in Hp. apply IH. by eapply forallb_elem.
Qed.

Lemma src_okb_sound lv n k st s :
  src_okb lv n k st s = true → src_ok lv n k st s.
Proof.
  unfold src_okb, src_ok. destruct (st !! s) as [[r|]|]; try done.
  intros H. exists r. split; [done|].
  intros si Hsi. pose proof (forallb_elem _ _ _ H Hsi) as Hs. simpl in Hs.
  apply andb_true_iff in Hs as [Hl Hp]. split; [by apply Nat.ltb_lt|].
  intros it Hit q' Hq'. rewrite Hit in Hp.
  apply tree_belowb_sound. by eapply forallb_elem.
Qed.

Lemma ownedb_sound lv st dr di : ownedb lv st dr di = true → owned lv st dr di.
Proof.
  intros H dj djt q Hdj Hdjt Hq.
  pose proof (forallb_elem _ _ _ H Hdj) as Hj. simpl in Hj. rewrite Hdjt in Hj.
  pose proof (forallb_elem _ _ _ Hj Hq) as Hlt. simpl in Hlt.
  by apply Nat.ltb_lt.
Qed.

(** ** The merge engine: the claims *)

(** C8.  In a well-formed store (in particular: the keys of the items of
    every ResourceUsage, of the destination, of the source and nested, are
    pairwise distinct), a merge returns and the keys of the items of every
    ResourceUsage of the resulting store, the destination and every nested
    one included, are still pairwise distinct: no two items with the same
    key are ever created in one ResourceUsage. *)
Theorem C8_merge_keeps_keys_distinct sub lv n st d s opts :
  good sub lv st → isRU st d = true → src_ok lv n (lv d) st s →
  ∃ st', mergeResourceUsages (S n) (Some d) (Some s) opts st = Ok st' ∧
         ∀ p r, st' !! p = Some (ORU r) → NoDup (keysOf st' (Items r)).
Proof.
  intros G Hd Hs.
  destruct (merge_spec sub lv n st d s opts G Hd Hs) as (st' & Hm & G' & _).
  exists st'. split; [done|]. intros p r Hp.
  apply (good_obj _ _ _ G' p (ORU r) Hp).
Qed.

Lemma ex_store_good : good ex_sub ex_lv ex_store.
Proof.
  apply store_okb_sound; [by vm_compute|]. unfold ex_lv. intros; lia.
Defined.

Lemma C8_witness :
  ∃ st', mergeResourceUsages 2 (Some 7) (Some 0) (mkOpts true) ex_store = Ok st' ∧
         ∀ p r, st' !! p = Some (ORU r) → NoDup (keysOf st' (Items r)).
Proof.
  apply (C8_merge_keeps_keys_distinct ex_sub ex_lv 1 ex_store 7 0 (mkOpts true)).
  - exact ex_store_good.
  - reflexivity.
  - apply src_okb_sound. by vm_compute.
Defined.

(** C10.  When the destination's sub-resource item has no Value but a
    DefaultValue tree [p], and the source's item for the key has a Value
    tree [sv], then after the merge the destination's Value is the very
    tree [p] still held by its DefaultValue (the same address, not a copy),
    so both fields show one tree, and that tree has an item for every key
    of [sv]. *)
Theorem C10_value_seeded_with_default_tree
    sub lv n st d s opts dr sr di dit si sit p sv :
  good sub lv st → st !! d = Some (ORU dr) → st !! s = Some (ORU sr) →
  src_ok lv n (lv d) st s →
  di ∈ Items dr → st !! di = Some (OItem dit) → owned lv st dr di →
  si ∈ Items sr → st !! si = Some (OItem sit) → Key sit = Key dit →
  ValueType sit = schema.SubResourceUsage →
  Value dit = Nil → DefaultValue dit = VRU (Some p) →
  Value sit = VRU (Some sv) →
  ∃ st' dit', mergeResourceUsages (S n) (Some d) (Some s) opts st = Ok st' ∧
              st' !! di = Some (OItem dit') ∧
              DefaultValue dit' = VRU (Some p) ∧ Value dit' = VRU (Some p) ∧
              covers st sv st' p.
Proof.
  intros G Hd Hs Hsrc Hdi Hdit Hown Hsi Hsit HK HT HV HD HSV.
  destruct (merge_item_detail sub lv n st d s opts dr sr si sit G Hd Hs Hsrc Hsi Hsit)
    as (st' & dr' & dj & dit0 & dK & Hm & _ & _ & _ & _ & _ & _ & FD & _ & HA & _).
  destruct (HA di dit Hdi Hdit (eq_sym HK) Hown) as (-> & -> & Hdi').
  destruct FD as (_ & FD). destruct FD as (_ & Dk & _ & Cv & Seed).
  { by rewrite HT. }
  assert (DefaultValue dK = VRU (Some p)) as HDK.
  { rewrite Dk; [done|]. by rewrite HD. }
  assert (Value dK = VRU (Some p)) as HVK.
  { rewrite Seed; [done|done| |]; [by rewrite HSV|by rewrite HDK]. }
  destruct (Cv sv HSV) as (dv & Hdv & Hcov).
  assert (dv = p) as -> by congruence.
  exists st', dK. split; [done|]. split; [done|]. split; [done|].
  split; [done|]. done.
Qed.

Lemma C10_witness :
  ∃ st' dit',
    mergeResourceUsages 2 (Some 7) (Some 0) (mkOpts false) ex_store = Ok st' ∧
    st' !! 9 = Some (OItem dit') ∧
    DefaultValue dit' = VRU (Some 10) ∧ Value dit' = VRU (Some 10) ∧
    covers ex_store 5 st' 10.
Proof.
  apply (C10_value_seeded_with_default_tree ex_sub ex_lv 1 ex_store 7 0
           (mkOpts false)
           (mkResourceUsage "aws_eks_cluster.dest" [8; 9])
           (mkResourceUsage "aws_eks_cluster.src" [1; 2])
           9 (schema.mkUsageItem "nodes" schema.SubResourceUsage EmptyString
                (VRU (Some 10)) Nil)
           2 (schema.mkUsageItem "nodes" schema.SubResourceUsage EmptyString
                (VRU (Some 3)) (VRU (Some 5)))
           10 5 ex_store_good).
  - reflexivity.
  - reflexivity.
  - apply src_okb_sound. by vm_compute.
  - simpl. set_solver.
  - reflexivity.
  - apply ownedb_sound. by vm_compute.
  - simpl. set_solver.
  - reflexivity.
  - reflexivity.
  - reflexivity.
  - reflexivity.
  - reflexivity.
  - reflexivity.
Defined.

(** C3, as amended.  When a sub-resource item of the source has a
    DefaultValue tree [sd] and a Value tree [sv], and the destination has no
    Value for its key (it has no item for the key, or an item without
    Value), then after the merge the destination's item for the key has a
    DefaultValue tree, its Value is that same tree, and the tree has an item
    for every key of [sd] and of [sv]. *)
Theorem C3_sub_resource_seeding sub lv n st d s opts dr sr si sit sd sv :
  good sub lv st → st !! d = Some (ORU dr) → st !! s = Some (ORU sr) →
  src_ok lv n (lv d) st s →
  si ∈ Items sr → st !! si = Some (OItem sit) →
  ValueType sit = schema.SubResourceUsage →
  DefaultValue sit = VRU (Some sd) → Value sit = VRU (Some sv) →
  (∀ di dit, di ∈ Items dr → st !! di = Some (OItem dit) → Key dit = Key sit →
     Value dit = Nil ∧ owned lv st dr di) →
  ∃ st' dr' dj dit' dd,
    mergeResourceUsages (S n) (Some d) (Some s) opts st = Ok st' ∧
    st' !! d = Some (ORU dr') ∧ dj ∈ Items dr' ∧
    st' !! dj = Some (OItem dit') ∧ Key dit' = Key sit ∧
    DefaultValue dit' = VRU (Some dd) ∧ Value dit' = VRU (Some dd) ∧
    covers st sd st' dd ∧ covers st sv st' dd.
Proof.
  intros G Hd Hs Hsrc Hsi Hsit HT HSD HSV Hdest.
  destruct (merge_item_detail sub lv n st d s opts dr sr si sit G Hd Hs Hsrc Hsi Hsit)
    as (st' & dr' & dj & dit0 & dK & Hm & G' & _ & _ & Hd' & Hin & HKK & FD
        & (dit' & Hdj' & OE) & HA & HB).
  assert (sub (Key sit) = true) as Hsub.
  { destruct (good_obj _ _ _ G si (OItem sit) Hsit) as (Ht & _).
    by rewrite HT in Ht. }
  assert (Value dit0 = Nil) as HV0.
  { destruct (decide (Key sit ∈ keysOf st (Items dr))) as [Hk|Hk].
    - apply elem_of_keysOf in Hk as (di & Hdi & HK).
      destruct (good_obj _ _ _ G d (ORU dr) Hd) as (Hitems & _).
      destruct (proj1 (isItem_true _ _) (Hitems di Hdi)) as (dit & Hdit).
      rewrite (keyOf_item _ _ _ Hdit) in HK.
      destruct (Hdest di dit Hdi Hdit HK) as [HV Hown].
      destruct (HA di dit Hdi Hdit HK Hown) as (_ & -> & _). done.
    - by apply HB. }
  destruct FD as (_ & FD). destruct FD as (_ & _ & Cd & Cv & Seed).
  { by rewrite HT. }
  destruct (Cd sd HSD) as (dd & Hdd & Hcd).
  destruct (Cv sv HSV) as (dv & Hdv & Hcv).
  assert (Value dK = DefaultValue dK) as Heq.
  { apply Seed; [done|by rewrite HSV|by rewrite Hdd]. }
  assert (dv = dd) as -> by congruence.
  destruct OE as (HK' & SD & SV & _). rewrite HKK in SD, SV.
  exists st', dr', dj, dit', dd. split; [done|]. split; [done|].
  split; [done|]. split; [done|]. split; [congruence|].
  split; [rewrite SD; [done|done|by rewrite Hdd]|].
  split; [rewrite SV; [done|done|by rewrite Hdv]|]. done.
Qed.

Lemma C3_witness :
  ∃ st' dr' dj dit' dd,
    mergeResourceUsages 2 (Some 7) (Some 0) (mkOpts false) ex_store = Ok st' ∧
    st' !! 7 = Some (ORU dr') ∧ dj ∈ Items dr' ∧
    st' !! dj = Some (OItem dit') ∧ Key dit' = "nodes"%string ∧
    DefaultValue dit' = VRU (Some dd) ∧ Value dit' = VRU (Some dd) ∧
    covers ex_store 3 st' dd ∧ covers ex_store 5 st' dd.
Proof.
  apply (C3_sub_resource_seeding ex_sub ex_lv 1 ex_store 7 0 (mkOpts false)
           (mkResourceUsage "aws_eks_cluster.dest" [8; 9])
           (mkResourceUsage "aws_eks_cluster.src" [1; 2])
           2 (schema.mkUsageItem "nodes" schema.SubResourceUsage EmptyString
                (VRU (Some 3)) (VRU (Some 5)))
           3 5 ex_store_good).
  - reflexivity.
  - reflexivity.
  - apply src_okb_sound. by vm_compute.
  - simpl. set_solver.
  - reflexivity.
  - reflexivity.
  - reflexivity.
  - reflexivity.
  - intros di dit Hdi Hdit HK. simpl in Hdi.
    apply elem_of_cons in Hdi as [->|Hdi].
    { simpl in Hdit. injection Hdit as <-. discriminate HK. }
    apply list_elem_of_singleton in Hdi as ->.
    simpl in Hdit. injection Hdit as <-.
    split; [reflexivity|]. apply ownedb_sound. by vm_compute.
Defined.

(** C3, as stated, fails: the source item of [ex_default_only] has a
    DefaultValue and the destination has no Value for its key, yet the merge
    leaves the Value of the destination's new item absent, because the
    source item has no Value. *)
Lemma C3_counterexample : ¬ C3_as_stated.
Proof.
  intros H.
  destruct (H 3 ex_default_only 4 0 (mkOpts false)
              (mkResourceUsage "dest" []) (mkResourceUsage "src" [1]) 1
              (schema.mkUsageItem "nodes" schema.SubResourceUsage EmptyString
                 (VRU (Some 2)) Nil) 2 _
              eq_refl eq_refl ltac:(simpl; set_solver) eq_refl eq_refl eq_refl
              ltac:(intros di dit Hdi; simpl in Hdi; set_solver) eq_refl)
    as (dr' & dj & dit' & Hd & Hin & Hdj & HK & HV & _).
  vm_compute in Hd. injection Hd as <-.
  simpl in Hin. apply list_elem_of_singleton in Hin as ->.
  vm_compute in Hdj. injection Hdj as <-. by apply HV.
Qed.

(** ** Idempotence *)

Lemma item_eta (it : UsageItem) :
  schema.mkUsageItem (Key it) (ValueType it) (Description it)
    (DefaultValue it) (Value it) = it.
Proof. by destruct it. Qed.

Lemma modItem_id f i st it :
  st !! i = Some (OItem it) → f it = it → modItem f i st = Ok st.
Proof.
  intros H Hf. rewrite (modItem_Ok f i st it H), Hf.
  by rewrite list_insert_id.
Qed.

Lemma buildItemMap_lookup st l m i :
  (∀ j, j ∈ l → isItem st j = true) → NoDup (keysOf st l) →
  buildItemMap st l ∅ = Ok m → i ∈ l → m !! keyOf st i = Some i.
Proof.
  intros Hl Hnd Hm Hi.
  destruct (buildItemMap_spec st l ∅ Hl) as (m' & Hm' & M1 & M2).
  rewrite Hm in Hm'. injection Hm' as <-.
  destruct (M2 (keyOf st i)) as [x Hx].
  { left. by apply keyOf_in_keysOf. }
  rewrite Hx. f_equal.
  destruct (M1 _ _ Hx) as [[Hin HK]|Habs]; [|by rewrite lookup_empty in Habs].
  by eapply NoDup_keys_inj.
Qed.

Section Idempotence.

Variable opts : MergeResourceUsagesOpts.
Variable recur : option loc → option loc → MergeResourceUsagesOpts →
                 store → res store.
Variable P : loc → loc → Prop.
Variable st : store.
Hypothesis recur_id : ∀ q q', P q q' → recur (Some q) (Some q') opts st = Ok st.

Lemma mergeItem_same d m i i' :
  same_item P st i i' → m !! keyOf st i = Some i →
  mergeItem recur d m opts i' st = Ok st.
Proof.
  intros (it & it' & Hi & Hi' & HK & HT & HDs & HD & HV) Hm.
  rewrite (keyOf_item _ _ _ Hi) in Hm.
  unfold mergeItem, findOrAppend. rewrite (getItem_eq _ _ _ Hi'). simpl.
  rewrite <- HK, Hm. simpl.
  assert (overrideType opts i' i st = Ok st) as ->.
  { unfold overrideType. destruct (OverrideValueType opts); [|done].
    rewrite (getItem_eq _ _ _ Hi'). simpl.
    apply (modItem_id _ _ _ it Hi). unfold setValueType. rewrite <- HT.
    apply item_eta. }
  simpl.
  assert (copyDescription i' i st = Ok st) as ->.
  { unfold copyDescription. rewrite (getItem_eq _ _ _ Hi'). simpl.
    destruct (String.eqb _ _); [done|].
    apply (modItem_id _ _ _ it Hi). unfold setDescription. rewrite <- HDs.
    apply item_eta. }
  simpl. unfold mergeFields. rewrite (getItem_eq _ _ _ Hi'). simpl.
  rewrite <- HT. unfold same_value in HD, HV.
  destruct (isSub (ValueType it)).
  - assert (mergeSubDefault recur opts i' i st = Ok st) as ->.
    { unfold mergeSubDefault. rewrite (getItem_eq _ _ _ Hi'). simpl.
      destruct (DefaultValue it) as [| | | | |[q|]] eqn:E,
               (DefaultValue it') as [| | | | |[q'|]] eqn:E'; try done.
      simpl. rewrite (getItem_eq _ _ _ Hi). simpl. rewrite E. simpl.
      rewrite (getItem_eq _ _ _ Hi). simpl. rewrite E. simpl.
      by apply recur_id. }
    simpl. unfold mergeSubValue. rewrite (getItem_eq _ _ _ Hi'). simpl.
    destruct (Value it) as [| | | | |[q|]] eqn:E,
             (Value it') as [| | | | |[q'|]] eqn:E'; try done.
    simpl. rewrite (getItem_eq _ _ _ Hi). simpl. rewrite E. simpl.
    rewrite (getItem_eq _ _ _ Hi). simpl. rewrite E. simpl.
    rewrite (getItem_eq _ _ _ Hi). simpl. rewrite E. simpl.
    by apply recur_id.
  - destruct HD as [HD _], HV as [HV _].
    unfold copyScalars. rewrite (getItem_eq _ _ _ Hi'). simpl.
    assert ((if isNil (DefaultValue it') then Ok st
             else modItem (setDefaultValue (DefaultValue it')) i st) = Ok st)
      as ->.
    { destruct (isNil _); [done|]. apply (modItem_id _ _ _ it Hi).
      unfold setDefaultValue. rewrite <- HD. apply item_eta. }
    simpl. rewrite (getItem_eq _ _ _ Hi'). simpl.
    destruct (isNil _); [done|]. apply (modItem_id _ _ _ it Hi).
    unfold setValue. rewrite <- HV. apply item_eta.
Qed.

Lemma forEach_same d m l l' :
  Forall2 (same_item P st) l l' →
  (∀ i, i ∈ l → m !! keyOf st i = Some i) →
  forEach (mergeItem recur d m opts) l' st = Ok st.
Proof.
  induction 1 as [|i i' l l' Hi Hl IH]; intros Hm; [done|].
  simpl. rewrite (mergeItem_same d m i i' Hi); [|apply Hm; by left].
  simpl. apply IH. intros j Hj. apply Hm. by right.
Qed.

End Idempotence.

(** C6.  Merging an identical copy [s] of the tree [d] into [d], with
    either setting of OverrideValueType, returns and leaves the store as it
    was: every assignment of the merge (the ValueType under
    OverrideValueType, the Description, the values) writes the value that is
    already there, and no item or tree is created. *)
Theorem C6_merge_identical_copy n st d s opts :
  same_tree n st d s →
  mergeResourceUsages n (Some d) (Some s) opts st = Ok st.
Proof.
  revert st d s. induction n as [|n IH]; intros st d s; [done|].
  intros (r & r' & Hd & Hs & Hnd & Hall).
  assert (∀ j, j ∈ Items r → isItem st j = true) as Hitems.
  { intros j Hj. apply list_elem_of_lookup in Hj as (k & Hk).
    destruct (Forall2_lookup_l _ _ _ _ _ Hall Hk) as (j' & _ & (it & _ & Hit & _)).
    apply isItem_true. eauto. }
  destruct (buildItemMap_spec st (Items r) ∅ Hitems) as (m & Hm & _).
  rewrite (merge_unfold n d s opts st r r' m Hd Hs Hm).
  apply (forEach_same opts (mergeResourceUsages n) (same_tree n st) st
           (fun q q' H => IH st q q' H) d m (Items r) (Items r') Hall).
  intros i Hi. by eapply buildItemMap_lookup.
Qed.

Lemma C6_witness :
  mergeResourceUsages 2 (Some 0) (Some 4) (mkOpts true) ex_copy = Ok ex_copy.
Proof.
  apply (C6_merge_identical_copy 2 ex_copy 0 4 (mkOpts true)).
  simpl. eexists _, _. split; [reflexivity|]. split; [reflexivity|].
  split; [apply (bool_decide_unpack _); by vm_compute|].
  repeat constructor.
  eexists _, _. repeat split; try reflexivity. simpl.
  eexists _, _. split; [reflexivity|]. split; [reflexivity|].
  split; [apply (bool_decide_unpack _); by vm_compute|].
  repeat constructor.
  eexists _, _. repeat split; try reflexivity; done.
Defined.

(** ** The order of strings *)

Lemma ascii_compare_spec (a b : Ascii.ascii) :
  Ascii.compare a b = N.compare (Ascii.N_of_ascii a) (Ascii.N_of_ascii b).
Proof. reflexivity. Qed.

Lemma string_compare_refl s : String.compare s s = Eq.
Proof.
  induction s as [|a s IH]; simpl; [done|].
  rewrite ascii_compare_spec, N.compare_refl. done.
Qed.

Lemma string_compare_lt_trans a b c :
  String.compare a b = Lt → String.compare b c = Lt → String.compare a c = Lt.
Proof.
  revert b c. induction a as [|x a IH]; intros [|y b] [|z c]; simpl; try done.
  rewrite !ascii_compare_spec.
  destruct (N.compare_spec (Ascii.N_of_ascii x) (Ascii.N_of_ascii y)) as [E1|L1|G1];
    destruct (N.compare_spec (Ascii.N_of_ascii y) (Ascii.N_of_ascii z)) as [E2|L2|G2];
    try done; intros H1 H2.
  - rewrite E1, E2, N.compare_refl. eauto.
  - rewrite E1. by apply N.compare_lt_iff in L2 as ->.
  - rewrite <- E2. by apply N.compare_lt_iff in L1 as ->.
  - assert (Ascii.N_of_ascii x < Ascii.N_of_ascii z)%N as L by lia.
    by apply N.compare_lt_iff in L as ->.
Qed.

Lemma string_ltb_irrefl s : String.ltb s s = false.
Proof. unfold String.ltb. by rewrite string_compare_refl. Qed.

Lemma string_ltb_trans a b c :
  String.ltb a b = true → String.ltb b c = true → String.ltb a c = true.
Proof.
  unfold String.ltb.
  destruct (String.compare a b) eqn:E1; try done.
  destruct (String.compare b c) eqn:E2; try done.
  by rewrite (string_compare_lt_trans a b c E1 E2).
Qed.

Lemma string_ltb_negtrans a b c :
  String.ltb a b = false → String.ltb b c = false → String.ltb a c = false.
Proof.
  unfold String.ltb. intros H1 H2.
  destruct (String.compare a c) eqn:E3; try done. exfalso.
  destruct (String.compare a b) eqn:E1; try done.
  - apply String.compare_eq_iff in E1 as ->. by rewrite E3 in H2.
  - destruct (String.compare b c) eqn:E2; try done.
    + apply String.compare_eq_iff in E2 as ->. by rewrite E1 in E3.
    + rewrite String.compare_antisym in E1.
      destruct (String.compare b a) eqn:E1'; try done.
      rewrite (string_compare_lt_trans b a c E1' E3) in E2. done.
Qed.

Lemma string_ltb_leb a b : String.ltb b a = false → String.leb a b = true.
Proof.
  unfold String.ltb, String.leb. rewrite (String.compare_antisym b a).
  by destruct (String.compare a b).
Qed.

(** ** The sort key is a strict order *)

Lemma keyLt_spec a b c a' b' c' :
  keyLt (a, b, c) (a', b', c') = true ↔
  (a < a')%Z ∨ (a = a' ∧ ((b < b')%Z ∨ (b = b' ∧ String.ltb c c' = true))).
Proof.
  unfold keyLt.
  rewrite orb_true_iff, andb_true_iff, orb_true_iff, andb_true_iff.
  rewrite !Z.ltb_lt, !Z.eqb_eq. done.
Qed.

Lemma keyLt_irrefl k : keyLt k k = false.
Proof.
  destruct k as [[a b] c]. apply not_true_is_false. rewrite keyLt_spec.
  rewrite string_ltb_irrefl. intros [?|[_ [?|[_ ?]]]]; (lia || done).
Qed.

Lemma keyLt_trans k1 k2 k3 :
  keyLt k1 k2 = true → keyLt k2 k3 = true → keyLt k1 k3 = true.
Proof.
  destruct k1 as [[a1 b1] c1], k2 as [[a2 b2] c2], k3 as [[a3 b3] c3].
  rewrite !keyLt_spec.
  intros [?|[-> [?|[-> H1]]]] [?|[? [?|[? H2]]]]; subst;
    try (left; lia); try (right; split; [done|left; lia]).
  right. split; [done|]. right. split; [done|]. by eapply string_ltb_trans.
Qed.

Lemma keyLt_negtrans k1 k2 k3 :
  keyLt k1 k2 = false → keyLt k2 k3 = false → keyLt k1 k3 = false.
Proof.
  destruct k1 as [[a1 b1] c1], k2 as [[a2 b2] c2], k3 as [[a3 b3] c3].
  intros H1 H2. apply not_true_is_false. intros H3.
  apply not_true_iff_false in H1, H2. rewrite keyLt_spec in *.
  assert (a2 ≤ a1)%Z by (destruct (decide (a1 < a2)%Z); [tauto|lia]).
  assert (a3 ≤ a2)%Z by (destruct (decide (a2 < a3)%Z); [tauto|lia]).
  destruct H3 as [?|[-> H3]]; [lia|].
  assert (a2 = a3) as -> by lia.
  assert (b2 ≤ b1)%Z by (destruct (decide (b1 < b2)%Z); [tauto|lia]).
  assert (b3 ≤ b2)%Z by (destruct (decide (b2 < b3)%Z); [tauto|lia]).
  destruct H3 as [?|[-> H3]]; [lia|].
  assert (b2 = b3) as -> by lia.
  destruct (String.ltb c1 c2) eqn:E1; [tauto|].
  destruct (String.ltb c2 c3) eqn:E2; [tauto|].
  by rewrite (string_ltb_negtrans c1 c2 c3 E1 E2) in H3.
Qed.

(** ** The comparison implements the sort key *)

Lemma anyValue_ok st l :
  (∀ i, i ∈ l → isItem st i = true) → ∃ b, anyValue st l = Ok b.
Proof.
  induction l as [|i l IH]; intros Hl; simpl; [eauto|].
  destruct (proj1 (isItem_true _ _) (Hl i ltac:(left))) as (it & Hi).
  rewrite (proj2 (getItem_Ok _ _ _) Hi). simpl.
  destruct (isNil (Value it)); [|eauto]. apply IH. intros j Hj. apply Hl. by right.
Qed.

Lemma hasValue_ok st a :
  readable st a → resourceUsageHasValue st a = Ok (hasValue st a).
Proof.
  intros (r & Hr & Hi). unfold hasValue, resourceUsageHasValue.
  rewrite (proj2 (getRU_Ok _ _ _) Hr). simpl.
  destruct (anyValue_ok st (Items r) Hi) as (b & ->). done.
Qed.

Lemma anyValue_spec st l b :
  anyValue st l = Ok b →
  (b = true ↔ ∃ i it, i ∈ l ∧ st !! i = Some (OItem it) ∧ Value it ≠ Nil).
Proof.
  revert b. induction l as [|i l IH]; intros b; simpl.
  - intros [= <-]. split; [done|]. by intros (i & it & ?%elem_of_nil & _).
  - intros H. apply bind_Ok in H as (it & Hit%getItem_Ok & H).
    destruct (isNil (Value it)) eqn:En.
    + rewrite (IH b H). split.
      * intros (j & jt & Hj & Hjt & Hv). exists j, jt. split; [by right|done].
      * intros (j & jt & [->|Hj]%elem_of_cons & Hjt & Hv); [|by eauto].
        rewrite Hit in Hjt. injection Hjt as <-. by destruct (Value it).
    + injection H as <-. split; [|done]. intros _. exists i, it.
      split; [left|]. split; [done|]. by destruct (Value it).
Qed.

(** resourceUsageHasValue answers true exactly for the ResourceUsages that
    have an item with a Value. *)
Lemma hasValue_valued st a :
  readable st a → hasValue st a = true ↔ valued st a.
Proof.
  intros (r & Hr & Hi). unfold hasValue, resourceUsageHasValue, valued.
  rewrite (proj2 (getRU_Ok _ _ _) Hr). simpl.
  destruct (anyValue_ok st (Items r) Hi) as (b & Hb). rewrite Hb.
  rewrite (anyValue_spec st (Items r) b Hb). split.
  - intros (i & it & ?). by exists r, i, it.
  - intros (r' & i & it & Hr' & ?). rewrite Hr in Hr'. injection Hr' as <-.
    by exists i, it.
Qed.

Lemma less_key st eo a b :
  readable st a → readable st b →
  less st eo a b = Ok (keyLt (sortKey st eo a) (sortKey st eo b)).
Proof.
  intros Ha Hb. pose proof (hasValue_ok st a Ha) as Hva.
  pose proof (hasValue_ok st b Hb) as Hvb.
  destruct Ha as (ra & Hra & _), Hb as (rb & Hrb & _).
  unfold less, sortKey, nameOf.
  rewrite (proj2 (getRU_Ok _ _ _) Hra), (proj2 (getRU_Ok _ _ _) Hrb), Hra, Hrb.
  simpl.
  destruct (indexOf (Name ra) eo =? -1)%Z eqn:Ea,
           (indexOf (Name rb) eo =? -1)%Z eqn:Eb; simpl.
  - rewrite Hva, Hvb. simpl.
    destruct (hasValue st a), (hasValue st b); simpl; try done.
  - done.
  - done.
  - rewrite string_ltb_irrefl, andb_false_r, orb_false_r. done.
Qed.

Lemma lessb_key st eo a b :
  readable st a → readable st b →
  lessb st eo a b = keyLt (sortKey st eo a) (sortKey st eo b).
Proof.
  intros Ha Hb. unfold lessb. rewrite (less_key st eo a b Ha Hb).
  by destruct (keyLt _ _).
Qed.

Lemma lessb_ordering st eo l :
  (∀ a, a ∈ l → readable st a) → transitiveOrdering (lessb st eo) l.
Proof.
  intros Hl. split; [|split].
  - intros x Hx. rewrite lessb_key by auto. apply keyLt_irrefl.
  - intros x y z Hx Hy Hz. rewrite !lessb_key by auto. apply keyLt_trans.
  - intros x y z Hx Hy Hz. rewrite !lessb_key by auto. apply keyLt_negtrans.
Qed.

(** ** Insertion sort meets the contract *)

Lemma insertBy_perm {A} (less : A → A → bool) x l : insertBy less x l ≡ₚ x :: l.
Proof.
  induction l as [|y l IH]; simpl; [done|].
  destruct (less x y); [done|]. rewrite IH. apply Permutation_swap.
Qed.

Lemma insertionSort_perm {A} (less : A → A → bool) l : insertionSort less l ≡ₚ l.
Proof.
  induction l as [|x l IH]; simpl; [done|]. by rewrite insertBy_perm, IH.
Qed.

Lemma insertBy_sorted {A} (less : A → A → bool) (u : list A) x l :
  transitiveOrdering less u → x ∈ u → (∀ y, y ∈ l → y ∈ u) →
  StronglySorted (fun a b => less b a = false) l →
  StronglySorted (fun a b => less b a = false) (insertBy less x l).
Proof.
  intros (Hirr & Htr & Hnt) Hx. induction l as [|y l IH]; intros Hl Hs; simpl.
  - repeat constructor.
  - apply StronglySorted_inv in Hs as [Hs Hy].
    assert (y ∈ u) as Hyu by (apply Hl; left).
    destruct (less x y) eqn:E.
    + assert (less y x = false) as Hyx.
      { apply not_true_is_false. intros E'.
        pose proof (Htr x y x Hx Hyu Hx E E') as Hxx.
        by rewrite (Hirr x Hx) in Hxx. }
      constructor; [by constructor|].
      constructor; [done|].
      apply Forall_forall. intros z Hz.
      rewrite Forall_forall in Hy.
      apply (Hnt z y x); [apply Hl; by right|done|done|by apply Hy|done].
    + constructor.
      * apply IH; [|done]. intros z Hz. apply Hl. by right.
      * apply Forall_forall. intros z Hz.
        rewrite Forall_forall in Hy.
        rewrite insertBy_perm in Hz. apply elem_of_cons in Hz as [->|Hz]; auto.
Qed.

Lemma insertionSort_sorted {A} (less : A → A → bool) (u : list A) l :
  transitiveOrdering less u → (∀ y, y ∈ l → y ∈ u) →
  StronglySorted (fun a b => less b a = false) (insertionSort less l).
Proof.
  intros Hu. induction l as [|x l IH]; intros Hl; simpl; [constructor|].
  apply (insertBy_sorted less u); [done|apply Hl; left| |].
  - intros y Hy. rewrite insertionSort_perm in Hy. apply Hl. by right.
  - apply IH. intros y Hy. apply Hl. by right.
Qed.

Lemma StronglySorted_lookup {A} (R : A → A → Prop) l i j x y :
  StronglySorted R l → i < j → l !! i = Some x → l !! j = Some y → R x y.
Proof.
  intros Hs. revert i j. induction Hs as [|a l Hs IH Ha]; intros i j Hij Hi Hj.
  - done.
  - destruct j as [|j]; [lia|]. simpl in Hj. destruct i as [|i].
    + simpl in Hi. injection Hi as <-. rewrite Forall_forall in Ha.
      apply Ha. by eapply list_elem_of_lookup_2.
    + simpl in Hi. apply (IH i j); [lia|done|done].
Qed.

#[global] Instance insertionSlice : SliceSort.
Proof.
  refine {| sortSlice := fun A less l => insertionSort less l |}.
  - intros A less l. apply insertionSort_perm.
  - intros A less l Hl i j x y Hij Hi Hj.
    eapply (StronglySorted_lookup (fun a b => less b a = false));
      [|exact Hij|exact Hi|exact Hj].
    by apply (insertionSort_sorted less l).
Defined.

(** ** sortResourceUsages *)

Lemma indexOfFrom_range k s l :
  (0 ≤ k)%Z →
  ((s ∉ l) ∧ indexOfFrom k s l = (-1)%Z) ∨ (s ∈ l ∧ (k ≤ indexOfFrom k s l)%Z).
Proof.
  revert k. induction l as [|v l IH]; intros k Hk; simpl.
  - left. split; [|done]. apply not_elem_of_nil.
  - destruct (String.eqb s v) eqn:E.
    + apply String.eqb_eq in E as ->. right. split; [left|lia].
    + apply String.eqb_neq in E.
      destruct (IH (k + 1)%Z ltac:(lia)) as [[Hn ->]|[Hin Hle]].
      * left. split; [|done]. by apply not_elem_of_cons.
      * right. split; [by right|lia].
Qed.

Lemma indexOf_absent s l : indexOf s l = (-1)%Z ↔ s ∉ l.
Proof.
  unfold indexOf. destruct (indexOfFrom_range 0 s l ltac:(lia)) as [[? ?]|[? ?]].
  - tauto.
  - split; [lia|tauto].
Qed.

Lemma sortResourceUsages_ok `{SliceSort} st rus eo :
  (∀ a, a ∈ rus → readable st a) →
  sortResourceUsages st rus eo = Ok (sortSlice (lessb st eo) rus).
Proof.
  intros Hr. unfold sortResourceUsages.
  assert (forallb (fun a => forallb (fun b => isOk (less st eo a b)) rus) rus = true)
    as ->; [|done].
  apply forallb_forall. intros a Ha%list_elem_of_In.
  apply forallb_forall. intros b Hb%list_elem_of_In.
  rewrite less_key by auto. done.
Qed.

(** The order of two elements that the sort leaves in this order. *)
Lemma sorted_pair st eo a b :
  readable st a → readable st b → lessb st eo b a = false →
  (nameOf st b ∈ eo →
   nameOf st a ∈ eo ∧
   (indexOf (nameOf st a) eo ≤ indexOf (nameOf st b) eo)%Z) ∧
  ((nameOf st a ∉ eo) →
   (nameOf st b ∉ eo) ∧
   (hasValue st b = true → hasValue st a = true) ∧
   (hasValue st a = hasValue st b →
    String.leb (nameOf st a) (nameOf st b) = true)).
Proof.
  intros Ha Hb. rewrite lessb_key by done. unfold sortKey.
  destruct (indexOf (nameOf st a) eo =? -1)%Z eqn:Ea,
           (indexOf (nameOf st b) eo =? -1)%Z eqn:Eb;
    rewrite ?Z.eqb_eq, ?Z.eqb_neq in *; intros HK;
    apply not_true_iff_false in HK; rewrite keyLt_spec in HK.
  - apply indexOf_absent in Ea, Eb. split; [done|]. intros _. split; [done|].
    split.
    + intros Hvb. rewrite Hvb in HK. destruct (hasValue st a); [done|].
      exfalso. apply HK. right. split; [done|]. left. lia.
    + intros Hv. rewrite Hv in HK. apply string_ltb_leb.
      apply not_true_is_false. intros E. apply HK. right. split; [done|].
      right. done.
  - exfalso. apply HK. left. lia.
  - apply indexOf_absent in Eb. split; [done|].
    intros Hn. apply indexOf_absent in Hn. done.
  - split.
    + intros _. split.
      * destruct (decide (nameOf st a ∈ eo)) as [|Hn]; [done|].
        apply indexOf_absent in Hn. done.
      * destruct (decide (indexOf (nameOf st b) eo < indexOf (nameOf st a) eo)%Z);
          [|lia].
        exfalso. apply HK. right. split; [done|]. left. done.
    + intros Hn. apply indexOf_absent in Hn. done.
Qed.

(** The same, with the value tier stated on the items themselves. *)
Lemma sorted_pair_valued st eo a b :
  readable st a → readable st b → lessb st eo b a = false →
  (nameOf st b ∈ eo →
   nameOf st a ∈ eo ∧
   (indexOf (nameOf st a) eo ≤ indexOf (nameOf st b) eo)%Z) ∧
  ((nameOf st a ∉ eo) →
   (nameOf st b ∉ eo) ∧
   (valued st b → valued st a) ∧
   ((valued st a ↔ valued st b) →
    String.leb (nameOf st a) (nameOf st b) = true)).
Proof.
  intros Ha Hb Hl. destruct (sorted_pair st eo a b Ha Hb Hl) as [H1 H2].
  split; [done|]. intros Hn. destruct (H2 Hn) as (Hnb & Hv & Hname).
  split; [done|]. split.
  - intros Hvb. apply (hasValue_valued st a Ha), Hv.
    by apply (hasValue_valued st b Hb).
  - intros Hiff. apply Hname.
    pose proof (hasValue_valued st a Ha) as Ea.
    pose proof (hasValue_valued st b Hb) as Eb.
    destruct (hasValue st a), (hasValue st b); try done.
    + symmetry. apply Eb, Hiff, Ea. done.
    + apply Ea, Hiff, Eb. done.
Qed.

Lemma Permutation_3 {A} (l : list A) a b c :
  l ≡ₚ [a; b; c] →
  l = [a; b; c] ∨ l = [a; c; b] ∨ l = [b; a; c] ∨
  l = [b; c; a] ∨ l = [c; a; b] ∨ l = [c; b; a].
Proof.
  intros HP.
  apply Permutation_cons_inv_r in HP as (k1 & k2 & -> & HP).
  apply Permutation_length_2_inv in HP.
  destruct k1 as [|u [|v [|w k1]]]; simpl in HP;
    destruct HP as [HP|HP]; simplify_eq; simpl; auto 10.
Qed.

(** C2.  The sort returns a rearrangement of the list in which, for any
    element [a] placed before an element [b]: if the name of [b] is in the
    persisted order then so is the name of [a], at an index that is not
    larger; and if the name of [a] is not in the persisted order then
    neither is the name of [b], [a] has an item with a Value if [b] has
    one, and when both or neither have one the name of [a] is not larger
    than the name of [b].  In particular the input [Y, Z, X] with persisted
    order [X, Y], Z not being in it, comes out with the names in the order
    [X, Y, Z]; and of two ResourceUsages outside the persisted order of
    which only the second has an item with a Value, the second comes out
    first. *)
Theorem C2_sort_order `{SliceSort} st rus eo :
  (∀ a, a ∈ rus → readable st a) →
  ∃ out, sortResourceUsages st rus eo = Ok out ∧ out ≡ₚ rus ∧
    (∀ i j a b, i < j → out !! i = Some a → out !! j = Some b →
       (nameOf st b ∈ eo →
        nameOf st a ∈ eo ∧
        (indexOf (nameOf st a) eo ≤ indexOf (nameOf st b) eo)%Z) ∧
       ((nameOf st a ∉ eo) →
        (nameOf st b ∉ eo) ∧
        (valued st b → valued st a) ∧
        ((valued st a ↔ valued st b) →
         String.leb (nameOf st a) (nameOf st b) = true))) ∧
    (∀ x y z, rus = [y; z; x] → eo = [nameOf st x; nameOf st y] →
       (nameOf st z ∉ eo) →
       map (nameOf st) out = [nameOf st x; nameOf st y; nameOf st z]) ∧
    (∀ a b, rus = [a; b] → (nameOf st a ∉ eo) → (nameOf st b ∉ eo) →
       valued st b → ¬ valued st a → out = [b; a]).
Proof.
  intros Hr. exists (sortSlice (lessb st eo) rus).
  pose proof (sortSlice_perm _ (lessb st eo) rus) as HP.
  pose proof (sortSlice_sorted _ (lessb st eo) rus (lessb_ordering st eo rus Hr))
    as HS.
  assert (∀ i j a b, i < j → sortSlice (lessb st eo) rus !! i = Some a →
            sortSlice (lessb st eo) rus !! j = Some b →
            readable st a ∧ readable st b ∧ lessb st eo b a = false) as Hpair.
  { intros i j a b Hij Hi Hj. split; [|split].
    - apply Hr. rewrite <- HP. by eapply list_elem_of_lookup_2.
    - apply Hr. rewrite <- HP. by eapply list_elem_of_lookup_2.
    - by eapply HS. }
  split; [by apply sortResourceUsages_ok|]. split; [done|].
  split; [|split].
  - intros i j a b Hij Hi Hj.
    destruct (Hpair i j a b Hij Hi Hj) as (Ha & Hb & Hl).
    by apply sorted_pair_valued.
  - intros x y z -> -> Hz.
    set (out := sortSlice (lessb st [nameOf st x; nameOf st y]) [y; z; x]) in *.
    assert (∀ i j a b, i < j → out !! i = Some a → out !! j = Some b →
              (nameOf st b ∈ [nameOf st x; nameOf st y] →
               nameOf st a ∈ [nameOf st x; nameOf st y] ∧
               (indexOf (nameOf st a) [nameOf st x; nameOf st y]
                ≤ indexOf (nameOf st b) [nameOf st x; nameOf st y])%Z)) as Hord.
    { intros i j a b Hij Hi Hj.
      destruct (Hpair i j a b Hij Hi Hj) as (Ha & Hb & Hl).
      by apply sorted_pair. }
    assert (nameOf st x ∈ [nameOf st x; nameOf st y]) as Hx by left.
    assert (nameOf st y ∈ [nameOf st x; nameOf st y]) as Hy by (right; left).
    assert (indexOf (nameOf st x) [nameOf st x; nameOf st y] = 0%Z) as Hix.
    { unfold indexOf. simpl. by rewrite String.eqb_refl. }
    assert (nameOf st y ≠ nameOf st x →
            indexOf (nameOf st y) [nameOf st x; nameOf st y] = 1%Z) as Hiy.
    { intros Hne. unfold indexOf. simpl.
      apply String.eqb_neq in Hne. rewrite Hne. by rewrite String.eqb_refl. }
    destruct (Permutation_3 out y z x HP) as [E|[E|[E|[E|[E|E]]]]]; rewrite E in *.
    + destruct (Hord 1 2 z x ltac:(lia) eq_refl eq_refl Hx). done.
    + destruct (Hord 0 1 y x ltac:(lia) eq_refl eq_refl Hx) as [_ Hle].
      destruct (decide (nameOf st y = nameOf st x)) as [Heq|Hne].
      * simpl. by rewrite Heq.
      * rewrite Hix, (Hiy Hne) in Hle. lia.
    + destruct (Hord 0 1 z y ltac:(lia) eq_refl eq_refl Hy). done.
    + destruct (Hord 0 1 z x ltac:(lia) eq_refl eq_refl Hx). done.
    + done.
    + destruct (Hord 1 2 z y ltac:(lia) eq_refl eq_refl Hy). done.
  - intros a b -> Hna Hnb Hvb Hva.
    set (out := sortSlice (lessb st eo) [a; b]) in *.
    symmetry in HP. apply Permutation_length_2_inv in HP as [E|E]; [|done].
    exfalso. rewrite E in Hpair.
    destruct (Hpair 0 1 a b ltac:(lia) eq_refl eq_refl) as (Ha & Hb & Hl).
    destruct (sorted_pair_valued st eo a b Ha Hb Hl) as [_ H2].
    destruct (H2 Hna) as (_ & Hv & _). auto.
Qed.

(** On [ex_sort], with nothing in the persisted order: Z (address 0) has
    an item with a Value, Y (address 3) has none. *)
Lemma C2_witness :
  ∃ out, sortResourceUsages ex_sort [3; 0] [] = Ok out ∧
    out ≡ₚ [3; 0] ∧
    (∀ i j a b, i < j → out !! i = Some a → out !! j = Some b →
       (nameOf ex_sort b ∈ @nil string →
        nameOf ex_sort a ∈ @nil string ∧
        (indexOf (nameOf ex_sort a) [] ≤ indexOf (nameOf ex_sort b) [])%Z) ∧
       ((nameOf ex_sort a ∉ @nil string) →
        (nameOf ex_sort b ∉ @nil string) ∧
        (valued ex_sort b → valued ex_sort a) ∧
        ((valued ex_sort a ↔ valued ex_sort b) →
         String.leb (nameOf ex_sort a) (nameOf ex_sort b) = true))) ∧
    (∀ x y z, [3; 0] = [y; z; x] →
       [] = [nameOf ex_sort x; nameOf ex_sort y] →
       (nameOf ex_sort z ∉ @nil string) →
       map (nameOf ex_sort) out
       = [nameOf ex_sort x; nameOf ex_sort y; nameOf ex_sort z]) ∧
    (∀ a b, [3; 0] = [a; b] →
       (nameOf ex_sort a ∉ @nil string) → (nameOf ex_sort b ∉ @nil string) →
       valued ex_sort b → ¬ valued ex_sort a → out = [b; a]).
Proof.
  apply (C2_sort_order ex_sort [3; 0] []).
  intros a Ha. unfold readable.
  apply elem_of_cons in Ha as [->|Ha];
    [|apply list_elem_of_singleton in Ha as ->];
    (eexists; split; [reflexivity|]); simpl; intros i Hi;
    repeat (apply elem_of_cons in Hi as [->|Hi]; [reflexivity|]);
    by apply elem_of_nil in Hi.
Defined.

Example sort_example :
  sortResourceUsages ex_sort [3; 0; 5] ["X"; "Y"]%string = Ok [5; 3; 0].
Proof. reflexivity. Qed.

(** Z, which has a Value, before Y, which has none and the smaller name. *)
Example sort_value_tier :
  sortResourceUsages ex_sort [3; 0] [] = Ok [0; 3] ∧
  valued ex_sort 0 ∧ ¬ valued ex_sort 3.
Proof.
  split; [reflexivity|]. split.
  - exists (mkResourceUsage "Z" [1; 2]), 2,
      (schema.mkUsageItem "b" schema.Int64 EmptyString Nil (VInt 2)).
    repeat split; [by right; left|done].
  - intros (r & i & it & Hr & Hi & Hit & Hv). injection Hr as <-.
    apply list_elem_of_singleton in Hi as ->. injection Hit as <-. done.
Qed.

(** ** The merge-back keeps stores well-formed *)

Lemma good_valid_succ sub lv st l o l' :
  good sub lv st → st !! l = Some o → l' ∈ succs o → l' < length st.
Proof.
  intros G Hl Hs. pose proof (good_obj _ _ _ G l o Hl) as Ho.
  destruct o as [r|it]; simpl in *.
  - destruct Ho as [Hi _]. apply Hi, isItem_true in Hs as (it & Hs).
    by eapply lookup_lt_Some.
  - destruct Ho as (_ & Hd & Hv). unfold ptrs in Hs. unfold field_ok in *.
    apply elem_of_app in Hs as [Hs|Hs]; apply ptrOf_spec in Hs;
      destruct (sub (Key it)).
    + destruct Hd as [Hd|(q & Hd & Hq)]; [congruence|].
      rewrite Hs in Hd. injection Hd as <-.
      apply isRU_true in Hq as (? & ?). by eapply lookup_lt_Some.
    + by destruct (Hd _ Hs).
    + destruct Hv as [Hv|(q & Hv & Hq)]; [congruence|].
      rewrite Hs in Hv. injection Hv as <-.
      apply isRU_true in Hq as (? & ?). by eapply lookup_lt_Some.
    + by destruct (Hv _ Hs).
Qed.

Lemma relevel_ne lv p k l : l ≠ p → relevel lv p k l = lv l.
Proof. intros. unfold relevel. by rewrite decide_False. Qed.

Lemma relevel_eq lv p k : relevel lv p k p = k.
Proof. unfold relevel. by rewrite decide_True. Qed.

(** A new ResourceUsage over existing items, placed at level [k] below
    them. *)
Lemma good_snoc_relevel sub lv st r k :
  good sub lv st →
  (∀ i, i ∈ Items r → isItem st i = true ∧ k < lv i) →
  NoDup (keysOf st (Items r)) →
  (∀ l', length st < l' → k < lv l') →
  good sub (relevel lv (length st) k) (st ++ [ORU r]).
Proof.
  intros G Hi Hn Hk. pose proof (kinds_snoc st (ORU r)) as K. split.
  - intros l o [H| [-> ->]]%lookup_snoc_inv.
    + eapply obj_ok_kinds; [done|]. by eapply good_obj.
    + simpl. destruct K as (_ & _ & KI). split.
      * intros i Hin. by apply KI, Hi.
      * unfold keysOf in *. erewrite map_ext_in; [done|].
        intros i Hin. apply KI, Hi. by apply list_elem_of_In.
  - intros l o l' [H| [-> ->]]%lookup_snoc_inv Hs.
    + pose proof (lookup_lt_Some _ _ _ H).
      pose proof (good_valid_succ _ _ _ _ _ _ G H Hs).
      rewrite !relevel_ne by lia. by eapply good_edge.
    + simpl in Hs. destruct (Hi _ Hs) as [Hit Hlt].
      apply isItem_true in Hit as (it & Hit).
      pose proof (lookup_lt_Some _ _ _ Hit).
      rewrite relevel_eq, relevel_ne by lia. done.
  - intros l l' Hlt Hl. rewrite length_app in Hl. simpl in Hl.
    rewrite (relevel_ne _ _ _ l') by lia.
    destruct (decide (l = length st)) as [->|Hne].
    + rewrite relevel_eq. apply Hk. lia.
    + rewrite relevel_ne by done. eapply good_fresh; [done|done|lia].
Qed.

Lemma good_shift sub lv st : good sub lv st → good sub (S ∘ lv) st.
Proof.
  intros [GO GE GF]. split; [done| |]; simpl; intros.
  - apply ->Nat.succ_lt_mono. eauto.
  - apply ->Nat.succ_lt_mono. eauto.
Qed.

Section MbExt.

Variable sub : string → bool.

Lemma mb_obj_ext_refl n o : mb_obj_ext sub n o o.
Proof. destruct o; simpl; [done|]. repeat split; auto. Qed.

Lemma mb_obj_ext_trans n n' o o' o'' :
  n ≤ n' → mb_obj_ext sub n o o' → mb_obj_ext sub n' o' o'' →
  mb_obj_ext sub n o o''.
Proof.
  intros Hn. destruct o as [r|it], o' as [r'|it'], o'' as [r''|it''];
    simpl; try done.
  - congruence.
  - intros (K1 & T1 & D1 & F1 & V1 & P1 & C1) (K2 & T2 & D2 & F2 & V2 & P2 & C2).
    repeat split; try congruence.
    + intros Hs Hv. rewrite V2, V1; try done; [congruence|].
      by rewrite V1.
    + intros q Hq. destruct (P2 q Hq) as [Hq'|?]; [|right; lia].
      apply P1 in Hq'. done.
    + destruct C2 as [->|C2]; [done|by right].
Qed.

Lemma mb_ext_refl st : mb_ext sub st st.
Proof.
  split; [done| |].
  - intros l o H. exists o. split; [done|]. apply mb_obj_ext_refl.
  - intros l o Hl H. apply lookup_lt_Some in H. lia.
Qed.

Lemma mb_ext_trans st1 st2 st3 :
  mb_ext sub st1 st2 → mb_ext sub st2 st3 → mb_ext sub st1 st3.
Proof.
  intros [L1 O1 N1] [L2 O2 N2]. split; [lia| |].
  - intros l o H. destruct (O1 l o H) as (o' & H' & E1).
    destruct (O2 l o' H') as (o'' & H'' & E2).
    exists o''. split; [done|]. by eapply mb_obj_ext_trans.
  - intros l o Hl H. destruct (decide (length st2 ≤ l)) as [?|Hlt].
    + by eapply N2.
    + destruct (lookup_lt_is_Some_2 st2 l) as [o' H']; [lia|].
      destruct (N1 l o' Hl H') as [r ->].
      destruct (O2 l _ H') as (o'' & H'' & E2).
      rewrite H in H''. injection H'' as <-. destruct o; [|done].
      eauto.
Qed.

Lemma mb_ext_ru st st' p r :
  mb_ext sub st st' → st !! p = Some (ORU r) → st' !! p = Some (ORU r).
Proof.
  intros E H. destruct (mbe_obj _ _ _ E p _ H) as (o' & H' & Ho).
  destruct o'; simpl in Ho; [by subst|done].
Qed.

Lemma mb_ext_item st st' i it :
  mb_ext sub st st' → st !! i = Some (OItem it) →
  ∃ it', st' !! i = Some (OItem it') ∧
         mb_obj_ext sub (length st) (OItem it) (OItem it').
Proof.
  intros E H. destruct (mbe_obj _ _ _ E i _ H) as (o' & H' & Ho).
  destruct o' as [|it']; [done|]. eauto.
Qed.

Lemma mb_ext_kinds st st' : mb_ext sub st st' → kinds st st'.
Proof.
  intros E. split; [by destruct E|]. split.
  - intros q (r & H)%isRU_true. apply isRU_true. exists r.
    by eapply mb_ext_ru.
  - intros i (it & H)%isItem_true.
    destruct (mb_ext_item _ _ _ _ E H) as (it' & H' & HK & _).
    split; [apply isItem_true; eauto|].
    by rewrite (keyOf_item _ _ _ H), (keyOf_item _ _ _ H').
Qed.

Lemma mb_ext_snoc st r : mb_ext sub st (st ++ [ORU r]).
Proof.
  split.
  - rewrite length_app. lia.
  - intros l o H. exists o. split; [by apply lookup_snoc_old|].
    apply mb_obj_ext_refl.
  - intros l o Hl [H| [_ ->]]%lookup_snoc_inv; [|eauto].
    apply lookup_lt_Some in H. lia.
Qed.

Lemma mb_ext_insert st i it it' :
  st !! i = Some (OItem it) →
  mb_obj_ext sub (length st) (OItem it) (OItem it') →
  mb_ext sub st (<[i := OItem it']> st).
Proof.
  intros H Ho. pose proof (lookup_lt_Some _ _ _ H) as Hlt. split.
  - by rewrite length_insert.
  - intros l o Hl. destruct (decide (l = i)) as [->|Hne].
    + rewrite H in Hl. injection Hl as <-. exists (OItem it').
      split; [by apply list_lookup_insert_eq|done].
    + exists o. split; [by rewrite list_lookup_insert_ne|].
      apply mb_obj_ext_refl.
  - intros l o Hl Ho'. apply lookup_lt_Some in Ho'.
    rewrite length_insert in Ho'. lia.
Qed.

End MbExt.

Section Kept.

Context `{C : Collaborators}.

Lemma keepNonNull_spec st sx l :
  (∀ i, i ∈ l → isItem st i = true) →
  keepNonNull st sx l = Ok (keptItems st sx l).
Proof.
  induction l as [|i l IH]; intros Hl; [done|]. simpl.
  assert (isItem st i = true) as (it & Hit)%isItem_true by (apply Hl; left).
  pose proof Hit as Hg. apply getItem_Ok in Hg. rewrite Hg. simpl.
  rewrite IH by (intros; apply Hl; by right). simpl.
  unfold keptItems. rewrite filter_cons.
  rewrite (keyOf_item _ _ _ Hit).
  destruct (ResultIsNull (Get sx (Key it))).
  - by rewrite decide_False.
  - by rewrite decide_True.
Qed.

Lemma keptItems_elem st sx l i : i ∈ keptItems st sx l → i ∈ l.
Proof. unfold keptItems. by intros [_ ?]%list_elem_of_filter. Qed.

Lemma keptItems_NoDup st sx l :
  NoDup (keysOf st l) → NoDup (keysOf st (keptItems st sx l)).
Proof.
  unfold keysOf, keptItems. induction l as [|i l IH]; [done|].
  simpl. intros [Hi Hn]%NoDup_cons. rewrite filter_cons.
  destruct (decide _); [|auto]. simpl. apply NoDup_cons. split; [|auto].
  intros (j & [_ Hin]%list_elem_of_filter & Hj)%elem_of_keysOf.
  apply Hi. apply elem_of_keysOf. eauto.
Qed.

End Kept.

Section MergeBack.

Context `{C : Collaborators}.
Variable sub : string → bool.
Variable B : nat.

Lemma mb_inv_refl lv st :
  good sub lv st → bounded lv B st → mb_inv sub B lv st st lv.
Proof.
  intros G Hb. split; [done|done|done|apply mb_ext_refl|].
  intros l it it' q H H' Hq. rewrite H in H'. injection H' as <-. eauto.
Qed.

Lemma mb_inv_trans lv1 st1 lv2 st2 lv3 st3 :
  mb_inv sub B lv1 st1 st2 lv2 → mb_inv sub B lv2 st2 st3 lv3 →
  mb_inv sub B lv1 st1 st3 lv3.
Proof.
  intros [G1 B1 A1 E1 L1] [G2 B2 A2 E2 L2].
  pose proof (mbe_len _ _ _ E1) as Hlen.
  split; [done|done| |by eapply mb_ext_trans|].
  - intros l Hl. rewrite A2 by lia. by apply A1.
  - intros l it it'' q H H'' Hq.
    destruct (mb_ext_item _ _ _ _ _ E1 H) as (it' & H' & _).
    destruct (L2 l it' it'' q H' H'' Hq) as (q0 & Hq0 & Hl0).
    destruct (L1 l it it' q0 H H' Hq0) as (q00 & Hq00 & Hl00).
    exists q00. split; [done|congruence].
Qed.

Lemma mb_inv_item lv st st' lv' i it :
  mb_inv sub B lv st st' lv' → st !! i = Some (OItem it) →
  isItem st' i = true ∧ lv' i = lv i.
Proof.
  intros I H. destruct (mb_ext_item _ _ _ _ _ (mbi_ext _ _ _ _ _ _ I) H)
    as (it' & H' & _).
  split; [apply isItem_true; eauto|].
  apply (mbi_agree _ _ _ _ _ _ I). by eapply lookup_lt_Some.
Qed.

Lemma item_scalar_no_ptrs lv st i it :
  good sub lv st → st !! i = Some (OItem it) → sub (Key it) = false →
  ptrs it = [].
Proof.
  intros G H Hs. destruct (good_obj _ _ _ G i _ H) as (_ & Hd & Hv).
  unfold field_ok in *. rewrite Hs in *. unfold ptrs.
  destruct (DefaultValue it) as [| | | | |[q|]]; try done;
    try (by destruct (Hd (Some q))).
  all: destruct (Value it) as [| | | | |[q'|]]; try done;
    by destruct (Hv (Some q')).
Qed.

(** Lines 229-231 for a scalar value. *)
Lemma assign_scalar lv st i it v :
  good sub lv st → bounded lv B st → st !! i = Some (OItem it) →
  sub (Key it) = false → (∀ p, v ≠ VRU p) →
  ∃ st', assign i v st = Ok st' ∧ mb_inv sub B lv st st' lv ∧
         mb_item_frame lv i st st'.
Proof.
  intros G Hb H Hs Hv. unfold assign. destruct (isNil v) eqn:En.
  { exists st. split; [done|]. split; [by apply mb_inv_refl|]. by intros x. }
  rewrite (modItem_Ok _ _ _ _ H). eexists. split; [done|].
  pose proof (item_scalar_no_ptrs _ _ _ _ G H Hs) as Hp.
  assert (ptrs (setValue v it) = []) as Hp'.
  { unfold ptrs in *. simpl. apply app_eq_nil in Hp as [-> _].
    destruct v as [| | | | |p]; try done. by destruct (Hv p). }
  destruct (good_obj _ _ _ G i _ H) as (Ht & Hd & _).
  split; [split|].
  - eapply good_insert_item; [done|done|done| |].
    + split; [done|]. split; [done|]. simpl. unfold field_ok.
      by rewrite Hs.
    + intros q. rewrite Hp'. by intros ?%elem_of_nil.
  - intros l. rewrite length_insert. apply Hb.
  - done.
  - eapply mb_ext_insert; [done|]. simpl. repeat split; try done.
    + by rewrite Hs.
    + intros q. rewrite Hp'. by intros ?%elem_of_nil.
    + right. simpl. by destruct v.
  - intros l jt jt' q Hl Hl' Hq.
    apply lookup_insert_inv in Hl' as [(-> & [= ->] & _)|[Hne Hl']].
    + rewrite Hp' in Hq. by apply elem_of_nil in Hq.
    + rewrite Hl in Hl'. injection Hl' as <-. eauto.
  - intros x Hx Hne _. by rewrite list_lookup_insert_ne.
Qed.

Lemma mb_ext_insert_after st st2 i it it2 it3 :
  mb_ext sub st st2 → st !! i = Some (OItem it) →
  st2 !! i = Some (OItem it2) →
  mb_obj_ext sub (length st) (OItem it) (OItem it3) →
  mb_ext sub st (<[i := OItem it3]> st2).
Proof.
  intros E H H2 Ho. pose proof (lookup_lt_Some _ _ _ H) as Hlt.
  pose proof (lookup_lt_Some _ _ _ H2) as Hlt2. split.
  - rewrite length_insert. by destruct E.
  - intros l o Hl. destruct (decide (l = i)) as [->|Hne].
    + rewrite H in Hl. injection Hl as <-. exists (OItem it3).
      split; [by apply list_lookup_insert_eq|done].
    + rewrite list_lookup_insert_ne by done. by eapply mbe_obj.
  - intros l o Hl Ho'. rewrite list_lookup_insert_ne in Ho' by lia.
    by eapply mbe_new.
Qed.

Lemma field_sub_cases lv st i it :
  good sub lv st → st !! i = Some (OItem it) → sub (Key it) = true →
  (DefaultValue it = Nil ∨
   ∃ q dr, DefaultValue it = VRU (Some q) ∧ st !! q = Some (ORU dr)) ∧
  (Value it = Nil ∨
   ∃ q vr, Value it = VRU (Some q) ∧ st !! q = Some (ORU vr)).
Proof.
  intros G H Hs. destruct (good_obj _ _ _ G i _ H) as (_ & Hd & Hv).
  unfold field_ok in *. rewrite Hs in *. split.
  - destruct Hd as [?|(q & ? & (dr & ?)%isRU_true)]; [by left|right]. eauto.
  - destruct Hv as [?|(q & ? & (dr & ?)%isRU_true)]; [by left|right]. eauto.
Qed.

(** Lines 196-198: the item has a Value, which is the merge base. *)
Lemma mergeSub_base k recur ud lv st i it qv :
  mb_rec_ok sub B k recur → good sub lv st → bounded lv B st →
  st !! i = Some (OItem it) → sub (Key it) = true → k < lv i →
  Value it = VRU (Some qv) →
  ∃ st' lv', mergeSubUsage recur ud i it st = Ok st' ∧
             mb_inv sub B lv st st' lv' ∧ mb_item_frame lv i st st' ∧
             st' !! i = Some (OItem it).
Proof.
  intros Hrec G Hb H Hs Hk Hv.
  destruct (field_sub_cases _ _ _ _ G H Hs) as [_ [Hn|(q & vr & Hq & Hvr)]];
    [congruence|].
  rewrite Hv in Hq. injection Hq as <-.
  assert (lv i < lv qv) as Hlt.
  { eapply good_edge; [done|done|]. simpl. apply ptrs_spec. by right. }
  destruct (Hrec st lv qv
              (NewUsageData (Key it) (ResultMap (Get ud (Key it)))) G Hb)
    as (st2 & lv2 & Hr & I & F); [apply isRU_true; eauto|lia|].
  pose proof (lookup_lt_Some _ _ _ H) as Hi.
  assert (st2 !! i = Some (OItem it)) as H2 by (rewrite F; [done|done|lia]).
  exists st2, lv2. unfold mergeSubUsage. rewrite Hv. simpl. rewrite Hr.
  simpl. unfold assign. simpl. split; [|split; [done|split; [|done]]].
  - apply (modItem_id _ _ _ it); [done|]. rewrite <- Hv. apply item_eta.
  - intros x Hx Hne Hp. apply F; [done|]. apply (Hp it); [done|].
    apply ptrs_spec. by right.
Qed.

(** The item has neither a Value nor a DefaultValue. *)
Lemma mergeSub_none recur ud i it st :
  Value it = Nil → DefaultValue it = Nil →
  mergeSubUsage recur ud i it st = Ok st.
Proof. intros Hv Hd. unfold mergeSubUsage. by rewrite Hv, Hd. Qed.

(** Lines 202-226: the item has only a DefaultValue; the sub-tree is
    built from the default sub-items that have data. *)
Lemma mergeSub_materialise k recur ud lv st i it q dr :
  mb_rec_ok sub B k recur → good sub lv st → bounded lv B st →
  st !! i = Some (OItem it) → sub (Key it) = true → k < lv i →
  Value it = Nil → DefaultValue it = VRU (Some q) →
  st !! q = Some (ORU dr) →
  ∃ st' lv', mergeSubUsage recur ud i it st = Ok st' ∧
    mb_inv sub B lv st st' lv' ∧ mb_item_frame lv i st st' ∧
    let kept := keptItems st
                  (NewUsageData (Key it) (ResultMap (Get ud (Key it))))
                  (Items dr) in
    st' !! length st = Some (ORU (mkResourceUsage (Key it) kept)) ∧
    st' !! i = Some (OItem (match kept with
                            | [] => it
                            | _ => setValue (VRU (Some (length st))) it
                            end)).
Proof.
  intros Hrec G Hb H Hs Hk Hv Hd Hq.
  set (sx := NewUsageData (Key it) (ResultMap (Get ud (Key it)))).
  pose proof (lookup_lt_Some _ _ _ H) as Hi.
  pose proof (lookup_lt_Some _ _ _ Hq) as Hql.
  assert (lv i < lv q) as Hlt.
  { eapply good_edge; [done|done|]. simpl. apply ptrs_spec. by left. }
  destruct (good_obj _ _ _ G q _ Hq) as [Hval Hnd].
  assert (∀ j, j ∈ Items dr → lv q < lv j) as Hlj.
  { intros j Hj. eapply good_edge; [done|done|done]. }
  pose proof (keepNonNull_spec st sx (Items dr) Hval) as Hkeep.
  set (kept := keptItems st sx (Items dr)) in *.
  set (st1 := st ++ [ORU (mkResourceUsage (Key it) kept)]).
  set (lv1 := relevel lv (length st) (lv q)).
  assert (good sub lv1 st1) as G1.
  { apply good_snoc_relevel; [done| | |]; simpl.
    - intros j Hj%keptItems_elem. auto.
    - by apply keptItems_NoDup.
    - intros l' Hl'. eapply good_fresh; [done|lia|lia]. }
  assert (∀ l, l < length st → lv1 l = lv l) as A1.
  { intros l Hl. unfold lv1. apply relevel_ne. lia. }
  assert (lv1 (length st) = lv q) as Hp1 by apply relevel_eq.
  assert (length st1 = S (length st)) as Hlen1.
  { unfold st1. rewrite length_app. simpl. lia. }
  assert (bounded lv1 B st1) as B1.
  { intros l Hl. destruct (decide (l = length st)) as [->|Hne].
    - rewrite Hp1. by apply Hb.
    - rewrite A1 by lia. apply Hb. lia. }
  assert (mb_inv sub B lv st st1 lv1) as I1.
  { split; [done|done|done|apply mb_ext_snoc|].
    intros l jt jt' q' Hl Hl' Hq'.
    unfold st1 in Hl'.
    rewrite (lookup_snoc_old _ _ _ _ Hl) in Hl'. injection Hl' as <-.
    exists q'. split; [done|]. apply A1.
    eapply good_valid_succ; [done|done|done]. }
  assert (st1 !! length st = Some (ORU (mkResourceUsage (Key it) kept)))
    as Hp.
  { unfold st1. by rewrite lookup_app_r, Nat.sub_diag by lia. }
  assert (mergeSubUsage recur ud i it st =
          match kept with
          | [] => Ok st1
          | _ => st2 ← recur (Some (length st)) (Some sx) st1;
                 assign i (VRU (Some (length st))) st2
          end) as ->.
  { unfold mergeSubUsage, materialise. rewrite Hv, Hd. simpl.
    apply getRU_Ok in Hq. rewrite Hq. simpl. fold sx. rewrite Hkeep.
    simpl. fold st1. by destruct kept. }
  destruct kept as [|j kept'] eqn:Ek.
  { exists st1, lv1. split; [done|]. split; [done|]. split.
    - intros x Hx _ _. unfold st1. by rewrite lookup_app_l.
    - simpl. split; [done|]. by apply lookup_snoc_old. }
  destruct (Hrec st1 lv1 (length st) sx G1 B1) as (st2 & lv2 & Hr & I2 & F2).
  { apply isRU_true. eauto. }
  { rewrite Hp1. lia. }
  rewrite Hr. simpl.
  assert (st1 !! i = Some (OItem it)) as Hi1 by by apply lookup_snoc_old.
  assert (st2 !! i = Some (OItem it)) as Hi2.
  { rewrite F2; [done|lia|]. rewrite Hp1, A1 by done. lia. }
  unfold assign. simpl. rewrite (modItem_Ok _ _ _ _ Hi2).
  set (it3 := setValue (VRU (Some (length st))) it).
  pose proof (mb_inv_trans _ _ _ _ _ _ I1 I2) as I.
  destruct I as [G2 B2 A2 E2 L2].
  assert (lv2 (length st) = lv q) as Hp2.
  { rewrite <- Hp1. apply (mbi_agree _ _ _ _ _ _ I2). lia. }
  assert (st2 !! length st = Some (ORU (mkResourceUsage (Key it) (j :: kept'))))
    as Hp'.
  { apply (mb_ext_ru sub st1 st2); [by destruct I2|exact Hp]. }
  assert (∀ q', q' ∈ ptrs it3 → q' = q ∨ q' = length st) as Hp3.
  { intros q' [Hq'|Hq']%ptrs_spec; simpl in Hq'.
    - left. congruence.
    - right. congruence. }
  destruct (good_obj _ _ _ G i _ H) as (Ht & Hfd & _).
  exists (<[i := OItem it3]> st2), lv2. split; [done|].
  split; [split|split; [|split]].
  - eapply good_insert_item; [done|done|done| |].
    + split; [done|]. split; simpl.
      * apply (field_ok_kinds sub st st2); [by apply (mb_ext_kinds sub)|done].
      * unfold field_ok. rewrite Hs. right. exists (length st).
        split; [done|]. apply isRU_true. eauto.
    + intros q' [-> | ->]%Hp3; rewrite (A2 i Hi).
      * by rewrite (A2 q Hql).
      * by rewrite Hp2.
  - intros l. rewrite length_insert. apply B2.
  - done.
  - eapply mb_ext_insert_after; [done|done|done|]. simpl.
    repeat split; try done; [|by right].
    intros q' [-> | ->]%Hp3; [left|right; lia]. apply ptrs_spec. by left.
  - intros l jt jt' q' Hl Hl' Hq'.
    apply lookup_insert_inv in Hl' as [(-> & [= ->] & _)|[Hne Hl']].
    + rewrite H in Hl. injection Hl as <-. exists q.
      split; [apply ptrs_spec; by left|].
      apply Hp3 in Hq' as [-> | ->]; [by apply A2|done].
    + by eapply L2.
  - intros x Hx Hne Hpx. rewrite list_lookup_insert_ne by done.
    rewrite F2; [unfold st1; by rewrite lookup_app_l|lia|].
    rewrite Hp1, A1 by done. apply (Hpx it); [done|].
    apply ptrs_spec. by left.
  - by rewrite list_lookup_insert_ne by lia.
  - apply list_lookup_insert_eq. by eapply lookup_lt_Some.
Qed.

(** The body of the loop of lines 170-232. *)
Lemma mb_item k recur ud lv st i :
  mb_rec_ok sub B k recur → good sub lv st → bounded lv B st →
  isItem st i = true → k < lv i →
  ∃ st' lv', mergeUsageItem recur ud i st = Ok st' ∧
             mb_inv sub B lv st st' lv' ∧ mb_item_frame lv i st st'.
Proof.
  intros Hrec G Hb (it & H)%isItem_true Hk.
  unfold mergeUsageItem. pose proof H as Hg. apply getItem_Ok in Hg.
  rewrite Hg. simpl.
  destruct (good_obj _ _ _ G i _ H) as (Ht & _).
  destruct (ValueType it) eqn:Et; simpl in Ht.
  1-4: match goal with
       | |- context [assign _ ?v _] =>
           destruct (assign_scalar lv st i it v G Hb H) as (st' & ? & ? & ?);
             [done| |by exists st', lv]
       end.
  1-4: match goal with
       | |- context [from_option _ _ ?o] => by destruct o
       end.
  symmetry in Ht.
  destruct (field_sub_cases _ _ _ _ G H Ht)
    as [Hd [Hv|(qv & vr & Hv & Hvr)]].
  - destruct Hd as [Hd|(q & dr & Hd & Hq)].
    + rewrite (mergeSub_none _ _ _ _ _ Hv Hd). exists st, lv.
      split; [done|]. split; [by apply mb_inv_refl|]. by intros x.
    + destruct (mergeSub_materialise k recur ud lv st i it q dr)
        as (st' & lv' & ? & ? & ? & _); try done.
      by exists st', lv'.
  - destruct (mergeSub_base k recur ud lv st i it qv)
      as (st' & lv' & ? & ? & ? & _); try done.
    by exists st', lv'.
Qed.

Lemma mb_loop k recur ud l :
  mb_rec_ok sub B k recur →
  ∀ lv st, good sub lv st → bounded lv B st →
    (∀ i, i ∈ l → isItem st i = true ∧ k < lv i) →
    ∃ st' lv', forEach (mergeUsageItem recur ud) l st = Ok st' ∧
               mb_inv sub B lv st st' lv' ∧ mb_loop_frame lv l st st'.
Proof.
  intros Hrec. induction l as [|i l IH]; intros lv st G Hb Hl.
  { exists st, lv. split; [done|]. split; [by apply mb_inv_refl|].
    by intros x. }
  destruct (Hl i) as [Hi Hk]; [left|].
  destruct (mb_item k recur ud lv st i Hrec G Hb Hi Hk)
    as (st1 & lv1 & H1 & I1 & F1).
  destruct (IH lv1 st1) as (st2 & lv2 & H2 & I2 & F2).
  { by destruct I1. }
  { by destruct I1. }
  { intros j Hj. destruct (Hl j) as [(jt & Hjt)%isItem_true Hkj]; [by right|].
    destruct (mb_inv_item _ _ _ _ _ _ I1 Hjt) as [? ->]. done. }
  exists st2, lv2. simpl. rewrite H1. simpl. split; [done|].
  split; [by eapply mb_inv_trans|].
  intros x Hx Hnx Hp. apply not_elem_of_cons in Hnx as [Hne Hnl].
  pose proof (mbe_len _ _ _ (mbi_ext _ _ _ _ _ _ I1)) as Hlen.
  rewrite F2; [|lia|done|].
  - apply F1; [done|done|]. intros it q Hit Hq.
    apply (Hp i it q); [left|done|done].
  - intros j jt1 q1 Hj Hjt1 Hq1.
    destruct (Hl j) as [(jt & Hjt)%isItem_true _]; [by right|].
    destruct (mbi_lv _ _ _ _ _ _ I1 j jt jt1 q1 Hjt Hjt1 Hq1)
      as (q0 & Hq0 & ->).
    rewrite (mbi_agree _ _ _ _ _ _ I1 x Hx).
    apply (Hp j jt q0); [by right|done|done].
Qed.

(** The merge-back returns on every well-formed store, given fuel for
    the levels above the ResourceUsage, and leaves a well-formed store. *)
Lemma mergeback_spec n :
  ∀ st lv r ud, good sub lv st → bounded lv B st → isRU st r = true →
    B ≤ n + lv r →
    ∃ st' lv',
      mergeResourceUsageWithUsageData n (Some r) (Some ud) st = Ok st' ∧
      mb_inv sub B lv st st' lv' ∧ mb_frame lv r st st'.
Proof.
  induction n as [|n IH]; intros st lv r ud G Hb (rr & Hr)%isRU_true Hn.
  { pose proof (Hb r (lookup_lt_Some _ _ _ Hr)). lia. }
  simpl. pose proof Hr as Hg. apply getRU_Ok in Hg. rewrite Hg. simpl.
  destruct (good_obj _ _ _ G r _ Hr) as [Hval _].
  assert (∀ i, i ∈ Items rr → lv r < lv i) as Hlv.
  { intros i Hi. eapply good_edge; [done|done|done]. }
  destruct (mb_loop (lv r) (mergeResourceUsageWithUsageData n) ud
              (Items rr)) with (lv := lv) (st := st)
    as (st' & lv' & H & I & F); [|done|done|by auto|].
  { intros st0 lv0 q ud0 G0 B0 Hq Hk. apply IH; [done|done|done|lia]. }
  exists st', lv'. split; [done|]. split; [done|].
  intros x Hx Hle. apply F; [done| |].
  - intros Hin. apply Hlv in Hin. lia.
  - intros j jt q Hj Hjt Hq. pose proof (Hlv j Hj).
    assert (lv j < lv q) by (eapply good_edge; [done|done|done]). lia.
Qed.

End MergeBack.

(** ** One item of a merge-back *)

Lemma NoDup_keys_items st l : NoDup (keysOf st l) → NoDup l.
Proof.
  induction l as [|i l IH]; [constructor|]. simpl.
  intros [Hi Hn]%NoDup_cons. apply NoDup_cons. split; [|auto].
  intros Hin. apply Hi. by apply keyOf_in_keysOf.
Qed.

Section MergeBackItem.

Context `{C : Collaborators}.
Variable sub : string → bool.
Variable B : nat.

Lemma keptItems_keys st st' sx l :
  (∀ j, j ∈ l → keyOf st' j = keyOf st j) →
  keptItems st' sx l = keptItems st sx l.
Proof.
  unfold keptItems. induction l as [|j l IH]; intros Hk; [done|].
  rewrite !filter_cons, (Hk j) by left.
  rewrite IH by (intros; apply Hk; by right). done.
Qed.

Lemma mergeUsageItem_scalar_nil recur ud i it st :
  st !! i = Some (OItem it) → isSub (ValueType it) = false →
  scalarLookup ud it = Nil → mergeUsageItem recur ud i st = Ok st.
Proof.
  intros H Ht Hn. unfold mergeUsageItem. apply getItem_Ok in H.
  rewrite H. simpl. unfold scalarLookup in Hn.
  destruct (ValueType it); try done; by rewrite Hn.
Qed.

(** The loop around the item [i], which no other item of the loop
    shares. *)
Lemma mb_loop_split k recur ud lv st l1 i l2 :
  mb_rec_ok sub B k recur → good sub lv st → bounded lv B st →
  (∀ j, j ∈ l1 ++ i :: l2 → isItem st j = true ∧ k < lv j) →
  i ∉ l1 → i ∉ l2 →
  (∀ j jt q, j ∈ l1 ++ i :: l2 → st !! j = Some (OItem jt) →
     q ∈ ptrs jt → lv i < lv q) →
  ∃ sta lva stb lvb st' lv',
    forEach (mergeUsageItem recur ud) l1 st = Ok sta ∧
    mb_inv sub B lv st sta lva ∧ sta !! i = st !! i ∧
    mergeUsageItem recur ud i sta = Ok stb ∧
    mb_inv sub B lva sta stb lvb ∧
    forEach (mergeUsageItem recur ud) l2 stb = Ok st' ∧
    mb_inv sub B lvb stb st' lv' ∧ st' !! i = stb !! i ∧
    forEach (mergeUsageItem recur ud) (l1 ++ i :: l2) st = Ok st'.
Proof.
  intros Hrec G Hb Hl Hn1 Hn2 Hown.
  assert (isItem st i = true ∧ k < lv i) as [Hi Hki].
  { apply Hl, elem_of_app. right. left. }
  apply isItem_true in Hi as (it & Hi).
  pose proof (lookup_lt_Some _ _ _ Hi) as Hilt.
  destruct (mb_loop sub B k recur ud l1 Hrec lv st G Hb)
    as (sta & lva & Ha & Ia & Fa).
  { intros j Hj. apply Hl, elem_of_app. by left. }
  assert (sta !! i = st !! i) as Hia.
  { apply Fa; [done|done|]. intros j jt q Hj Hjt Hq.
    apply Nat.lt_le_incl, (Hown j jt q); [|done|done].
    apply elem_of_app. by left. }
  destruct (mb_inv_item _ _ _ _ _ _ _ _ Ia Hi) as [Hia' Hlva].
  destruct (mb_item sub B k recur ud lva sta i Hrec)
    as (stb & lvb & Hbd & Ib & _);
    [by destruct Ia|by destruct Ia|done|lia|].
  pose proof (mb_inv_trans _ _ _ _ _ _ _ _ Ia Ib) as Iab.
  destruct (mb_loop sub B k recur ud l2 Hrec lvb stb)
    as (st' & lv' & Hc & Ic & Fc); [by destruct Ib|by destruct Ib| |].
  { intros j Hj. destruct (Hl j) as [Hjt Hkj].
    { apply elem_of_app. right. by right. }
    apply isItem_true in Hjt as (jt & Hjt).
    destruct (mb_inv_item _ _ _ _ _ _ _ _ Iab Hjt) as [? ->]. done. }
  exists sta, lva, stb, lvb, st', lv'.
  repeat (split; [done|]). split.
  - apply Fc; [|done|].
    + pose proof (mbe_len _ _ _ (mbi_ext _ _ _ _ _ _ Iab)). lia.
    + intros j jtb q Hj Hjtb Hq.
      assert (j ∈ l1 ++ i :: l2) as Hjin.
      { apply elem_of_app. right. by right. }
      destruct (Hl j Hjin) as [Hjt _].
      apply isItem_true in Hjt as (jt & Hjt).
      destruct (mbi_lv _ _ _ _ _ _ Iab j jt jtb q Hjt Hjtb Hq)
        as (q0 & Hq0 & ->).
      rewrite (mbi_agree _ _ _ _ _ _ Iab i Hilt).
      apply Nat.lt_le_incl. by apply (Hown j jt q0).
  - apply forEach_app. exists sta. split; [done|]. simpl.
    rewrite Hbd. done.
Qed.

(** The merge-back of [r], written as the loop around one of its items
    [i] that no other item shares. *)
Lemma mergeback_split lv n st r rr ud i :
  good sub lv st → bounded lv B st → st !! r = Some (ORU rr) →
  B ≤ n + lv r → i ∈ Items rr → owned lv st rr i →
  ∃ m l1 l2 sta lva stb lvb st' lv',
    n = S m ∧ Items rr = l1 ++ i :: l2 ∧
    mb_inv sub B lv st sta lva ∧ sta !! i = st !! i ∧
    mergeUsageItem (mergeResourceUsageWithUsageData m) ud i sta = Ok stb ∧
    mb_inv sub B lva sta stb lvb ∧ lva i = lv i ∧
    mb_rec_ok sub B (lv r) (mergeResourceUsageWithUsageData m) ∧
    lv r < lv i ∧
    mb_inv sub B lvb stb st' lv' ∧ st' !! i = stb !! i ∧
    mergeResourceUsageWithUsageData n (Some r) (Some ud) st = Ok st'.
Proof.
  intros G Hb Hr Hn Hi Hown.
  destruct n as [|m].
  { pose proof (Hb r (lookup_lt_Some _ _ _ Hr)). lia. }
  destruct (good_obj _ _ _ G r _ Hr) as [Hval Hnd].
  apply NoDup_keys_items in Hnd.
  destruct (list_elem_of_split _ _ Hi) as (l1 & l2 & Hsplit).
  rewrite Hsplit in Hnd.
  apply NoDup_app in Hnd as (_ & Hn1 & [Hn2 _]%NoDup_cons).
  assert (∀ j, j ∈ Items rr → lv r < lv j) as Hlv.
  { intros j Hj. eapply good_edge; [done|done|done]. }
  assert (mb_rec_ok sub B (lv r) (mergeResourceUsageWithUsageData m))
    as Hrec.
  { intros st0 lv0 q ud0 G0 B0 Hq Hk.
    apply mergeback_spec; [done|done|done|lia]. }
  destruct (mb_loop_split (lv r) (mergeResourceUsageWithUsageData m) ud
              lv st l1 i l2 Hrec G Hb)
    as (sta & lva & stb & lvb & st' & lv' & Ha & Ia & Hia & Hbd & Ib &
        Hc & Ic & Hic & Hall).
  { intros j Hj. rewrite <- Hsplit in Hj. auto. }
  { intros Hin. by apply (Hn1 i Hin); left. }
  { done. }
  { intros j jt q Hj. rewrite <- Hsplit in Hj. by apply Hown. }
  exists m, l1, l2, sta, lva, stb, lvb, st', lv'.
  repeat (split; [done|]). split.
  { apply (mbi_agree _ _ _ _ _ _ Ia).
    pose proof (Hval i Hi) as Hit. apply isItem_true in Hit as (it & Hit).
    by eapply lookup_lt_Some. }
  repeat (split; [by auto|]).
  simpl. apply getRU_Ok in Hr. rewrite Hr. simpl. by rewrite Hsplit.
Qed.

End MergeBackItem.

(** C4 (null-drop in merge-back): for a sub-resource item [i] of [r] with no
    Value and the DefaultValue tree [q], not shared with another item of
    [r], the merge-back returns and
    - when some default sub-item has a key that is not null in the data
      under the key of [i], the Value of [i] is a new ResourceUsage, named
      by the key of [i], whose items are exactly those default sub-items,
      in their order;
    - when there is none, the item is left as it was, its Value absent. *)
Theorem C4_null_drop_in_merge_back `{C : Collaborators} (sub : string → bool)
    (B : nat) (lv : loc → nat) (n : nat) (st : store) (r : loc)
    (rr : ResourceUsage) (ud : UsageData) (i : loc) (it : UsageItem)
    (q : loc) (dr : ResourceUsage) :
  good sub lv st → bounded lv B st → st !! r = Some (ORU rr) →
  B ≤ n + lv r → i ∈ Items rr → owned lv st rr i →
  st !! i = Some (OItem it) → ValueType it = schema.SubResourceUsage →
  Value it = Nil → DefaultValue it = VRU (Some q) →
  st !! q = Some (ORU dr) →
  let subExisting := NewUsageData (Key it) (ResultMap (Get ud (Key it))) in
  let kept := keptItems st subExisting (Items dr) in
  (∀ j, j ∈ kept ↔
        j ∈ Items dr ∧ ResultIsNull (Get subExisting (keyOf st j)) = false) ∧
  ∃ st', mergeResourceUsageWithUsageData n (Some r) (Some ud) st = Ok st' ∧
    match kept with
    | [] => st' !! i = Some (OItem it)
    | _ => ∃ p, st !! p = None ∧
                st' !! i = Some (OItem (setValue (VRU (Some p)) it)) ∧
                st' !! p = Some (ORU (mkResourceUsage (Key it) kept))
    end.
Proof.
  intros G Hb Hr Hn Hi Hown Hit Ht Hv Hd Hq sx kept. split.
  { intros j. unfold kept, keptItems. rewrite list_elem_of_filter. tauto. }
  destruct (mergeback_split sub B lv n st r rr ud i G Hb Hr Hn Hi Hown)
    as (m & l1 & l2 & sta & lva & stb & lvb & st' & lv' & -> & Hsplit &
        Ia & Hia & Hbd & Ib & Hlva & Hrec & Hlt & Ic & Hic & Hall).
  exists st'. split; [done|].
  rewrite Hit in Hia.
  pose proof (mb_ext_ru _ _ _ _ _ (mbi_ext _ _ _ _ _ _ Ia) Hq) as Hqa.
  destruct (good_obj _ _ _ G i _ Hit) as (Hsub & _).
  rewrite Ht in Hsub. simpl in Hsub. symmetry in Hsub.
  destruct (mergeSub_materialise sub B (lv r)
              (mergeResourceUsageWithUsageData m) ud lva sta i it q dr)
    as (stb' & lvb' & Hm & _ & _ & Hp & Hi');
    [done|by destruct Ia|by destruct Ia|done|done|lia|done|done|done|].
  assert (stb' = stb) as ->.
  { unfold mergeUsageItem in Hbd. apply getItem_Ok in Hia.
    rewrite Hia in Hbd. simpl in Hbd. rewrite Ht in Hbd. congruence. }
  assert (keptItems sta sx (Items dr) = kept) as Hk.
  { apply keptItems_keys. intros j Hj.
    destruct (good_obj _ _ _ G q _ Hq) as [Hval _].
    apply (mb_ext_kinds sub st sta); [by destruct Ia|auto]. }
  fold sx in Hp, Hi'. rewrite Hk in Hp, Hi'.
  pose proof (mbe_len _ _ _ (mbi_ext _ _ _ _ _ _ Ia)) as Hlen.
  destruct kept as [|j kept'] eqn:Ek.
  - by rewrite Hic.
  - exists (length sta). split; [by apply lookup_ge_None|].
    split; [by rewrite Hic|].
    eapply mb_ext_ru; [|done]. by destruct Ic.
Qed.

(** ** The merge-back on the example tree *)

Lemma ex_tree_good : good ex_sub ex_lv ex_tree.
Proof.
  apply store_okb_sound; [by vm_compute|]. unfold ex_lv. intros; lia.
Defined.

Lemma ex_tree_bounded : bounded ex_lv 6 ex_tree.
Proof. intros l Hl. exact Hl. Defined.

Lemma C4_witness :
  ∃ st' p,
    mergeResourceUsageWithUsageData (C := exampleCollaborators None) 6
      (Some 0) (Some ex_data) ex_tree = Ok st' ∧
    ex_tree !! p = None ∧
    st' !! 2 = Some (ex_item "nodes" schema.SubResourceUsage (VRU (Some 3))
                       (VRU (Some p))) ∧
    st' !! p = Some (ORU (mkResourceUsage "nodes" [4])).
Proof.
  destruct (C4_null_drop_in_merge_back (C := exampleCollaborators None)
              ex_sub 6 ex_lv 6 ex_tree 0
              (mkResourceUsage "aws_eks_cluster.c" [1; 2]) ex_data 2
              (schema.mkUsageItem "nodes" schema.SubResourceUsage EmptyString
                 (VRU (Some 3)) Nil)
              3 (mkResourceUsage "nodes" [4; 5])
              ex_tree_good ex_tree_bounded eq_refl)
    as (_ & st' & H & p & Hp & Hi & Hr).
  - simpl. lia.
  - simpl. set_solver.
  - apply ownedb_sound. by vm_compute.
  - reflexivity.
  - reflexivity.
  - reflexivity.
  - reflexivity.
  - reflexivity.
  - exists st', p. split; [exact H|]. split; [exact Hp|]. split; [exact Hi|].
    exact Hr.
Defined.

(** With no data for any sub-item the Value stays absent. *)
Example null_drop_all :
  ∃ st',
    mergeResourceUsageWithUsageData (C := exampleCollaborators None) 6
      (Some 0) (Some ex_no_data) ex_tree = Ok st' ∧
    st' !! 2 = Some (ex_item "nodes" schema.SubResourceUsage (VRU (Some 3))
                       Nil).
Proof. eexists. split; reflexivity. Qed.

(** ** More fuel gives the same result *)

Ltac bind_step H :=
  apply bind_Ok in H as (? & ? & H); apply bind_Ok; eexists;
  split; [eassumption|].

Lemma forEach_mono {A} (f g : A → store → res store) l :
  (∀ x st st', f x st = Ok st' → g x st = Ok st') →
  ∀ st st', forEach f l st = Ok st' → forEach g l st = Ok st'.
Proof.
  intros Hfg. induction l as [|x l IH]; intros st st' H; [done|].
  change (f x st ≫= forEach f l = Ok st') in H.
  change (g x st ≫= forEach g l = Ok st').
  apply bind_Ok in H as (st1 & H1 & H). apply bind_Ok. eauto.
Qed.

Section MergeMono.

Variables recur recur' : option loc → option loc →
                         MergeResourceUsagesOpts → store → res store.
Hypothesis recur_le : ∀ d s o st st',
  recur d s o st = Ok st' → recur' d s o st = Ok st'.

Lemma mergeSubDefault_mono o si di st st' :
  mergeSubDefault recur o si di st = Ok st' →
  mergeSubDefault recur' o si di st = Ok st'.
Proof.
  unfold mergeSubDefault. intros H. bind_step H.
  destruct (isNil _); [done|]. repeat bind_step H. eauto.
Qed.

Lemma mergeSubValue_mono o si di st st' :
  mergeSubValue recur o si di st = Ok st' →
  mergeSubValue recur' o si di st = Ok st'.
Proof.
  unfold mergeSubValue. intros H. bind_step H.
  destruct (isNil _); [done|]. repeat bind_step H. eauto.
Qed.

Lemma mergeFields_mono o si di st st' :
  mergeFields recur o si di st = Ok st' →
  mergeFields recur' o si di st = Ok st'.
Proof.
  unfold mergeFields. intros H. bind_step H.
  destruct (isSub _); [|done].
  apply bind_Ok in H as (st1 & H1 & H). apply bind_Ok. exists st1.
  split; [by apply mergeSubDefault_mono|by apply mergeSubValue_mono].
Qed.

Lemma mergeItem_mono d m o si st st' :
  mergeItem recur d m o si st = Ok st' →
  mergeItem recur' d m o si st = Ok st'.
Proof.
  unfold mergeItem. intros H.
  apply bind_Ok in H as ([di st1] & H1 & H). apply bind_Ok.
  exists (di, st1). split; [done|]. do 2 bind_step H.
  by apply mergeFields_mono.
Qed.

End MergeMono.

Lemma merge_mono n : ∀ m d s o st st',
  n ≤ m → mergeResourceUsages n d s o st = Ok st' →
  mergeResourceUsages m d s o st = Ok st'.
Proof.
  induction n as [|n IH]; intros m d s o st st' Hm H; [done|].
  destruct m as [|m]; [lia|]. cbn [mergeResourceUsages] in *.
  destruct d as [d|], s as [s|]; try done. do 3 bind_step H.
  revert H. apply forEach_mono. intros si st1 st2.
  apply mergeItem_mono. intros. apply IH; [lia|done].
Qed.

Section MergeBackMono.

Context `{C : Collaborators}.
Variables recur recur' : option loc → option UsageData → store → res store.
Hypothesis recur_le : ∀ r u st st',
  recur r u st = Ok st' → recur' r u st = Ok st'.

Lemma mergeSubUsage_mono ud i it st st' :
  mergeSubUsage recur ud i it st = Ok st' →
  mergeSubUsage recur' ud i it st = Ok st'.
Proof.
  unfold mergeSubUsage. intros H. bind_step H.
  apply bind_Ok in H as ([sr st1] & H1 & H). apply bind_Ok.
  exists (sr, st1). split; [done|].
  apply bind_Ok in H as (st2 & H2 & H). apply bind_Ok. exists st2.
  split; [|done]. destruct sr; [|done]. eauto.
Qed.

Lemma mergeUsageItem_mono ud i st st' :
  mergeUsageItem recur ud i st = Ok st' →
  mergeUsageItem recur' ud i st = Ok st'.
Proof.
  unfold mergeUsageItem. intros H. bind_step H.
  destruct (ValueType _); try done. by apply mergeSubUsage_mono.
Qed.

End MergeBackMono.

Lemma mergeback_mono `{C : Collaborators} n : ∀ m r u st st',
  n ≤ m → mergeResourceUsageWithUsageData n r u st = Ok st' →
  mergeResourceUsageWithUsageData m r u st = Ok st'.
Proof.
  induction n as [|n IH]; intros m r u st st' Hm H; [done|].
  destruct m as [|m]; [lia|]. cbn [mergeResourceUsageWithUsageData] in *.
  destruct u as [ud|]; [|done]. bind_step H.
  revert H. apply forEach_mono. intros si st1 st2.
  apply mergeUsageItem_mono. intros. apply IH; [lia|done].
Qed.

(** ** The body of the loop of syncResourceUsages returns *)

Lemma prefix_kept_refl st : prefix_kept st st.
Proof. by split. Qed.

Lemma prefix_kept_trans st1 st2 st3 :
  prefix_kept st1 st2 → prefix_kept st2 st3 → prefix_kept st1 st3.
Proof.
  intros [L1 H1] [L2 H2]. split; [lia|]. intros l Hl.
  rewrite H2 by lia. by apply H1.
Qed.

Lemma prefix_kept_snoc st o : prefix_kept st (st ++ [o]).
Proof.
  split; [rewrite length_app; lia|]. intros l Hl. by rewrite lookup_app_l.
Qed.

Lemma prefix_kept_isRU st st' p :
  prefix_kept st st' → isRU st p = true → isRU st' p = true.
Proof.
  intros [_ H] (r & Hr)%isRU_true. apply isRU_true. exists r.
  rewrite H; [done|]. by eapply lookup_lt_Some.
Qed.

Lemma prefix_kept_isItem st st' i :
  prefix_kept st st' → isItem st i = true → isItem st' i = true.
Proof.
  intros [_ H] (it & Hi)%isItem_true. apply isItem_true. exists it.
  rewrite H; [done|]. by eapply lookup_lt_Some.
Qed.

Lemma prefix_kept_keysOf st st' l :
  prefix_kept st st' → (∀ i, i ∈ l → isItem st i = true) →
  keysOf st' l = keysOf st l.
Proof.
  intros [_ H] Hl. unfold keysOf. apply map_ext_in.
  intros i Hi%list_elem_of_In. apply Hl, isItem_true in Hi as (it & Hi).
  unfold keyOf. rewrite H; [done|]. by eapply lookup_lt_Some.
Qed.

Lemma bounded_exists lv st : ∃ B, bounded lv B st.
Proof.
  unfold bounded. generalize (length st). intros n.
  induction n as [|n [B IH]].
  - exists 0. lia.
  - exists (B `max` S (lv n)). intros l Hl.
    destruct (decide (l = n)) as [->|Hne]; [lia|].
    assert (lv l < B) by (apply IH; lia). lia.
Qed.

Lemma good_ptr_isRU sub lv st i it q :
  good sub lv st → st !! i = Some (OItem it) → q ∈ ptrs it →
  isRU st q = true.
Proof.
  intros G H Hq. destruct (good_obj _ _ _ G i _ H) as (_ & Hd & Hv).
  unfold field_ok in *.
  apply ptrs_spec in Hq as [Hq|Hq]; destruct (sub (Key it)).
  - destruct Hd as [Hd|(q' & Hd & ?)]; congruence.
  - by destruct (Hd _ Hq).
  - destruct Hv as [Hv|(q' & Hv & ?)]; congruence.
  - by destruct (Hv _ Hq).
Qed.

(** In a well-formed store, a tree inside a region that is closed under
    pointers and lies below level [k] has a depth bounded by [k]. *)
Lemma tree_below_region sub lv st N k :
  good sub lv st → (∀ l, l < N → lv l < k) →
  (∀ l o l', l < N → st !! l = Some o → l' ∈ succs o → l' < N) →
  ∀ n q, q < N → isRU st q = true → k ≤ n + lv q →
    tree_below lv n k st q.
Proof.
  intros G Hk Hcl. induction n as [|n IH]; intros q Hq HR Hn.
  { pose proof (Hk q Hq). lia. }
  apply isRU_true in HR as (r & Hr). simpl. split; [by apply Hk|].
  exists r. split; [done|]. intros si Hsi.
  assert (si < N) as HsN by (by eapply (Hcl q)).
  assert (lv q < lv si) by (eapply good_edge; [done|done|done]).
  split; [by apply Hk|]. intros it Hit q' Hq'.
  assert (lv si < lv q') by (eapply good_edge; [done|done|done]).
  apply IH.
  - by eapply (Hcl si).
  - by eapply good_ptr_isRU.
  - lia.
Qed.

Section Converge.

Variable sub : string → bool.

Lemma merge_converges lv n st d s o :
  good sub lv st → isRU st d = true → src_ok lv n (lv d) st s →
  ∃ st', converges (fun f => mergeResourceUsages f (Some d) (Some s) o st)
           st' ∧
         good sub lv st' ∧ ext sub st st' ∧ frame lv (lv d) st st'.
Proof.
  intros G Hd Hs.
  destruct (merge_spec sub lv n st d s o G Hd Hs) as (st' & H & ? & ? & ? & _).
  exists st'. split; [|done]. exists (S n). intros f Hf.
  by eapply merge_mono.
Qed.

Lemma mergeback_converges `{C : Collaborators} lv st r ud :
  good sub lv st → isRU st r = true →
  ∃ st' lv',
    converges (fun f => mergeResourceUsageWithUsageData f (Some r) (Some ud)
                          st) st' ∧
    good sub lv' st' ∧ (∀ l, l < length st → lv' l = lv l) ∧
    mb_ext sub st st' ∧ mb_frame lv r st st'.
Proof.
  intros G Hr. destruct (bounded_exists lv st) as [B HB].
  destruct (mergeback_spec sub B B st lv r ud G HB Hr) as (st' & lv' & H & I & F);
    [lia|].
  exists st', lv'. destruct I. split; [|done]. exists B. intros f Hf.
  by eapply mergeback_mono.
Qed.

(** A tree of the initial store is a source for a destination above the
    initial store. *)
Lemma src_ok_old lv lv0 st0 st d p :
  good sub lv0 st0 → good sub lv st → prefix_kept st0 st →
  (∀ l, l < length st0 → lv l < lv d) → isRU st0 p = true →
  src_ok lv (lv d) (lv d) st p.
Proof.
  intros G0 G P Hlv Hp. apply tree_below_src.
  apply (tree_below_region sub lv st (length st0)); [done|done| | | |lia].
  - intros l o l' Hl Ho Hs. destruct P as [_ P]. rewrite P in Ho by done.
    by eapply good_valid_succ.
  - apply isRU_true in Hp as (? & ?). by eapply lookup_lt_Some.
  - by eapply prefix_kept_isRU.
Qed.

End Converge.

Section Build.

Context `{C : Collaborators}.
Variable sub : string → bool.

Lemma frame_prefix lv k st sta stb :
  prefix_kept st sta → frame lv k sta stb → length sta ≤ length stb →
  (∀ l, l < length st → lv l < k) → prefix_kept st stb.
Proof.
  intros [L P] F Hlen Hk. split; [lia|]. intros l Hl.
  rewrite F by auto. by apply P.
Qed.

Lemma old_closed lv0 st0 st :
  good sub lv0 st0 → prefix_kept st0 st →
  ∀ l o l', l < length st0 → st !! l = Some o → l' ∈ succs o →
    l' < length st0.
Proof.
  intros G0 [_ P] l o l' Hl Ho Hs. rewrite P in Ho by done.
  by eapply good_valid_succ.
Qed.

(** Lines 55-77 return, leave every object that existed as it was, and
    leave a well-formed store. *)
Lemma build_converges referenceFile m resource lv0 st0 lv st :
  good sub lv0 st0 → good sub lv st → prefix_kept st0 st →
  (∀ st name p,
     FindMatchingResourceUsage referenceFile st name = Some p →
     isRU st0 p = true) →
  (∀ k p, m !! k = Some p → isRU st0 p = true) →
  (∀ i, i ∈ schema.UsageSchema resource → isItem st0 i = true) →
  NoDup (keysOf st0 (schema.UsageSchema resource)) →
  ∃ st' lv',
    converges (fun f => buildResourceUsage f referenceFile m resource st)
      (length st, st') ∧
    good sub lv' st' ∧ prefix_kept st st' ∧
    isRU st' (length st) = true ∧
    (∀ l, l < length st → lv' l < lv' (length st)).
Proof.
  intros G0 G P0 Href Hm Hsch Hnd.
  set (d := length st). set (name := schema.Name resource).
  set (st1 := st ++ [ORU (mkResourceUsage name [])]).
  assert (length st0 ≤ d) as HN by by destruct P0.
  assert (good sub lv st1) as G1.
  { apply good_snoc; [done| |].
    - split; [by intros i ?%elem_of_nil|constructor].
    - by intros l' ?%elem_of_nil. }
  assert (∀ l, l < d → lv l < lv d) as Hlv.
  { intros l Hl. apply (good_fresh sub lv st G); [done|unfold d; lia]. }
  assert (prefix_kept st st1) as P1 by apply prefix_kept_snoc.
  assert (isRU st1 d = true) as Hd1.
  { apply isRU_true. eexists. unfold st1, d.
    by rewrite lookup_app_r, Nat.sub_diag by lia. }
  assert (length st1 = S d) as Hlen1.
  { unfold st1. rewrite length_app. simpl. unfold d. lia. }
  (* the reference defaults *)
  assert (∃ st2,
    converges (fun f =>
      match FindMatchingResourceUsage referenceFile st1 name with
      | Some refResourceUsage =>
          mergeResourceUsages f (Some d) (Some refResourceUsage)
            (mkOpts false) st1
      | None => Ok st1
      end) st2 ∧
    good sub lv st2 ∧ ext sub st1 st2 ∧ frame lv (lv d) st1 st2)
    as (st2 & [f1 H1] & G2 & E2 & F2).
  { destruct (FindMatchingResourceUsage referenceFile st1 name)
      as [p|] eqn:Ef.
    - apply (merge_converges sub lv (lv d)); [done|done|].
      apply (src_ok_old sub lv lv0 st0); [done|done| | |by eapply Href].
      + by apply (prefix_kept_trans st0 st st1).
      + intros l Hl. apply Hlv. lia.
    - exists st1. split; [by exists 0|].
      split; [done|]. split; [apply ext_refl|apply frame_refl]. }
  pose proof (ext_len _ _ _ E2) as Hlen2.
  assert (prefix_kept st st2) as P2.
  { apply (frame_prefix lv (lv d) st st1); [done|done|done|done]. }
  assert (isRU st2 d = true) as Hd2 by by eapply ext_isRU.
  (* the schema of the resource *)
  set (t := length st2).
  set (sr := mkResourceUsage name (schema.UsageSchema resource)).
  set (st3 := st2 ++ [ORU sr]).
  set (lv3 := relevel (S ∘ lv) t 0).
  assert (prefix_kept st0 st2) as P02
    by by apply (prefix_kept_trans st0 st st2).
  assert (good sub lv3 st3) as G3.
  { apply good_snoc_relevel; [by apply good_shift| | |]; simpl.
    - intros i Hi. split; [|lia]. eapply prefix_kept_isItem; eauto.
    - by rewrite (prefix_kept_keysOf st0 st2).
    - intros; lia. }
  assert (∀ l, l ≠ t → lv3 l = S (lv l)) as Hlv3.
  { intros l Hl. unfold lv3. by rewrite relevel_ne. }
  assert (d < t) as Hdt by (unfold t; lia).
  assert (∀ l, l < d → lv3 l < lv3 d) as Hlv3d.
  { intros l Hl. rewrite !Hlv3 by lia. apply ->Nat.succ_lt_mono. auto. }
  assert (prefix_kept st2 st3) as P23 by apply prefix_kept_snoc.
  assert (prefix_kept st0 st3) as P03
    by by apply (prefix_kept_trans st0 st2 st3).
  assert (isRU st3 d = true) as Hd3 by by apply (prefix_kept_isRU st2 st3).
  assert (st3 !! t = Some (ORU sr)) as Ht3.
  { unfold st3, t. by rewrite lookup_app_r, Nat.sub_diag by lia. }
  assert (src_ok lv3 (lv3 d) (lv3 d) st3 t) as Hsrc3.
  { exists sr. split; [done|]. simpl. intros si Hsi.
    pose proof (Hsch si Hsi) as Hsi0.
    apply isItem_true in Hsi0 as (sit & Hsi0).
    pose proof (lookup_lt_Some _ _ _ Hsi0) as HsN.
    split; [apply Hlv3d; lia|]. intros it Hit q Hq.
    apply (tree_below_region sub lv3 st3 (length st0)); [done| | | | |lia].
    - intros l Hl. apply Hlv3d. lia.
    - by apply (old_closed lv0).
    - by eapply (old_closed lv0 st0 st3 G0 P03 si).
    - by eapply good_ptr_isRU. }
  destruct (merge_converges sub lv3 (lv3 d) st3 d t (mkOpts true) G3 Hd3 Hsrc3)
    as (st4 & [f2 H2] & G4 & E4 & F4).
  pose proof (ext_len _ _ _ E4) as Hlen4.
  assert (length st3 = S t) as Hlen3.
  { unfold st3. rewrite length_app. simpl. unfold t. lia. }
  assert (prefix_kept st st4) as P4.
  { apply (frame_prefix lv3 (lv3 d) st st3); [|done|done|done].
    by apply (prefix_kept_trans st st2 st3). }
  assert (isRU st4 d = true) as Hd4 by by eapply ext_isRU.
  (* the existing usage *)
  assert (∃ st5,
    converges (fun f =>
      match m !! name with
      | Some existingResourceUsage =>
          mergeResourceUsages f (Some d) (Some existingResourceUsage)
            (mkOpts false) st4
      | None => Ok st4
      end) st5 ∧
    good sub lv3 st5 ∧ ext sub st4 st5 ∧ frame lv3 (lv3 d) st4 st5)
    as (st5 & [f3 H3] & G5 & E5 & F5).
  { destruct (m !! name) as [p|] eqn:Em.
    - apply (merge_converges sub lv3 (lv3 d)); [done|done|].
      apply (src_ok_old sub lv3 lv0 st0); [done|done| | |by eapply Hm].
      + by apply (prefix_kept_trans st0 st st4).
      + intros l Hl. apply Hlv3d. lia.
    - exists st4. split; [by exists 0|].
      split; [done|]. split; [apply ext_refl|apply frame_refl]. }
  pose proof (ext_len _ _ _ E5) as Hlen5.
  exists st5, lv3. split; [|split; [done|split; [|split; [|done]]]].
  - exists (f1 `max` (f2 `max` f3)). intros f Hf.
    unfold buildResourceUsage, alloc. fold name d st1.
    apply bind_Ok. exists st2. split; [apply H1; lia|].
    fold t sr st3. apply bind_Ok. exists st4. split; [apply H2; lia|].
    apply bind_Ok. exists st5. split; [apply H3; lia|done].
  - apply (frame_prefix lv3 (lv3 d) st st4); [done|done|done|done].
  - by eapply ext_isRU.
Qed.

End Build.

Section Resource.

Context `{C : Collaborators}.
Variable sub : string → bool.
Hypothesis RUMap_total : ∀ lv st p,
  good sub lv st → isRU st p = true → ∃ m, RUMap st p = Ok m.

(** Lines 80-93 return, whatever the estimation capability returns;
    they leave the objects before the usage tree as they were. *)
Lemma estimate_converges resource d syncResult lv st :
  good sub lv st → isRU st d = true → (∀ l, l < d → lv l < lv d) →
  ∃ st' lv' syncResult',
    converges (fun f => estimate f resource d syncResult st)
      (syncResult', st') ∧
    match schema.EstimateUsage resource with
    | None => syncResult' = syncResult ∧ st' = st
    | Some estimateUsage =>
        ∃ m, RUMap st d = Ok m ∧
          syncResult' = estimated resource m syncResult ∧
          converges (fun f =>
            mergeResourceUsageWithUsageData f (Some d)
              (Some (estimatedUsageData resource estimateUsage m)) st) st'
    end ∧
    good sub lv' st' ∧ length st ≤ length st' ∧
    (∀ l, l ≤ d → st' !! l = st !! l).
Proof.
  intros G Hd Hlv. unfold estimate, estimated.
  destruct (schema.EstimateUsage resource) as [est|] eqn:Ee.
  - destruct (RUMap_total lv st d G Hd) as [m Hm].
    destruct (mergeback_converges sub lv st d
                (estimatedUsageData resource est m) G Hd)
      as (st' & lv' & [f0 H] & G' & A & E & F).
    exists st', lv',
      (mkSyncResult (ResourceCount syncResult)
         (EstimationCount syncResult + 1)%Z
         (match (est m).2 with
          | Some e =>
              <[schema.Name resource := e]> (EstimationErrors syncResult)
          | None => EstimationErrors syncResult
          end)).
    split; [|split; [|split; [done|split]]].
    + exists f0. intros f Hf. rewrite Hm. simpl.
      unfold estimatedUsageData in H.
      destruct (est m) as [m' [e|]] eqn:Em; simpl in *;
        by rewrite (H f Hf).
    + exists m. split; [done|]. split; [done|by exists f0].
    + by destruct E.
    + intros l Hl. apply isRU_true in Hd as (r & Hr).
      pose proof (lookup_lt_Some _ _ _ Hr). apply F; [lia|].
      destruct (decide (l = d)) as [->|Hne]; [done|].
      apply Nat.lt_le_incl, Hlv. lia.
  - exists st, lv, syncResult. split; [by exists 0|]. done.
Qed.

Variable referenceFile : ReferenceFile.
Variable existing : gmap string loc.
Variable lv0 : loc → nat.
Variable st0 : store.
Hypothesis G0 : good sub lv0 st0.
Hypothesis ref_ok : ∀ st name p,
  FindMatchingResourceUsage referenceFile st name = Some p →
  isRU st0 p = true.
Hypothesis existing_ok : ∀ k p, existing !! k = Some p → isRU st0 p = true.

(** The body of the loop of lines 54-96 returns: it builds the usage
    tree at the next address, merges the estimation output back, and
    leaves every object that existed as it was. *)
Lemma syncResource_converges resource syncResult rus lv st :
  good sub lv st → prefix_kept st0 st →
  (∀ i, i ∈ schema.UsageSchema resource → isItem st0 i = true) →
  NoDup (keysOf st0 (schema.UsageSchema resource)) →
  ∃ st1 st' lv' syncResult',
    converges (fun f => syncResource f referenceFile existing resource
                          (syncResult, rus, st))
      (syncResult', rus ++ [length st], st') ∧
    converges (fun f => buildResourceUsage f referenceFile existing
                          resource st) (length st, st1) ∧
    match schema.EstimateUsage resource with
    | None => syncResult' = counted syncResult ∧ st' = st1
    | Some estimateUsage =>
        ∃ m, RUMap st1 (length st) = Ok m ∧
          syncResult' = estimated resource m (counted syncResult) ∧
          converges (fun f =>
            mergeResourceUsageWithUsageData f (Some (length st))
              (Some (estimatedUsageData resource estimateUsage m)) st1) st'
    end ∧
    good sub lv' st' ∧ prefix_kept st st' ∧ prefix_kept st st1 ∧
    isRU st' (length st) = true.
Proof.
  intros G P0 Hsch Hnd.
  destruct (build_converges sub referenceFile existing resource lv0 st0
              lv st G0 G P0 ref_ok existing_ok Hsch Hnd)
    as (st1 & lv1 & [f1 H1] & G1 & P1 & Hd1 & Hlv1).
  destruct (estimate_converges resource (length st) (counted syncResult)
              lv1 st1 G1 Hd1 Hlv1)
    as (st' & lv' & sr' & [f2 H2] & Hdet & G' & Hlen & Hfr).
  exists st1, st', lv', sr'.
  split; [|split; [by exists f1|split; [done|split; [done|split]]]].
  - exists (f1 `max` f2). intros f Hf. unfold syncResource.
    rewrite H1 by lia. simpl. fold (counted syncResult).
    rewrite H2 by lia. done.
  - destruct P1 as [L1 P1]. split; [lia|]. intros l Hl.
    rewrite Hfr by lia. by apply P1.
  - split; [done|]. apply isRU_true in Hd1 as (r & Hr).
    apply isRU_true. exists r. by rewrite Hfr.
Qed.

End Resource.

Lemma namesOf_ok st l :
  (∀ p, p ∈ l → isRU st p = true) → ∃ names, namesOf st l = Ok names.
Proof.
  induction l as [|p l IH]; intros Hl; [by eexists|].
  destruct IH as [names Hn]; [intros; apply Hl; by right|].
  assert (isRU st p = true) as (r & Hr)%isRU_true by (apply Hl; left).
  exists (Name r :: names). simpl. apply getRU_Ok in Hr.
  by rewrite Hr, Hn.
Qed.

Lemma good_readable sub lv st p :
  good sub lv st → isRU st p = true → readable st p.
Proof.
  intros G (r & Hr)%isRU_true. exists r. split; [done|].
  by destruct (good_obj _ _ _ G p _ Hr).
Qed.

Section Pass.

Context `{C : Collaborators} `{S : SliceSort}.
Variable sub : string → bool.
Hypothesis RUMap_total : ∀ lv st p,
  good sub lv st → isRU st p = true → ∃ m, RUMap st p = Ok m.
Variable referenceFile : ReferenceFile.
Variable existing : gmap string loc.
Variable lv0 : loc → nat.
Variable st0 : store.
Hypothesis G0 : good sub lv0 st0.
Hypothesis ref_ok : ∀ st name p,
  FindMatchingResourceUsage referenceFile st name = Some p →
  isRU st0 p = true.
Hypothesis existing_ok : ∀ k p, existing !! k = Some p → isRU st0 p = true.

(** The loop of lines 54-96 returns, with one usage tree per resource. *)
Lemma syncResources_converges resources :
  (∀ r, r ∈ resources →
     (∀ i, i ∈ schema.UsageSchema r → isItem st0 i = true) ∧
     NoDup (keysOf st0 (schema.UsageSchema r))) →
  ∀ syncResult rus lv st, good sub lv st → prefix_kept st0 st →
    ∃ syncResult' rus' st' lv',
      converges (fun f => syncResources f referenceFile existing resources
                            (syncResult, rus, st))
        (syncResult', rus ++ rus', st') ∧
      good sub lv' st' ∧ prefix_kept st st' ∧
      (∀ p, p ∈ rus' → isRU st' p = true) ∧
      ResourceCount syncResult' =
        (ResourceCount syncResult + Z.of_nat (length resources))%Z ∧
      EstimationCount syncResult' =
        (EstimationCount syncResult + Z.of_nat (estimators resources))%Z ∧
      length rus' = length resources.
Proof.
  induction resources as [|r rs IH]; intros Hwf sr rus lv st G P.
  { exists sr, [], st, lv. rewrite app_nil_r.
    split; [by exists 0|]. split; [done|]. split; [apply prefix_kept_refl|].
    split; [by intros p ?%elem_of_nil|]. simpl. unfold estimators. simpl.
    split; [lia|]. split; [lia|done]. }
  destruct (Hwf r) as [Hsch Hnd]; [left|].
  destruct (syncResource_converges sub RUMap_total referenceFile existing
              lv0 st0 G0 ref_ok existing_ok r sr rus lv st G P Hsch Hnd)
    as (st1 & st2 & lv2 & sr2 & [f1 H1] & _ & Hdet & G2 & P2 & _ & Hd).
  destruct (IH (fun r' Hr' => Hwf r' (list_elem_of_further _ _ _ Hr'))
              sr2 (rus ++ [length st]) lv2 st2 G2)
    as (sr3 & rus3 & st3 & lv3 & [f2 H2] & G3 & P3 & Hrus & Hrc & Hec &
        Hlen).
  { by apply (prefix_kept_trans st0 st st2). }
  exists sr3, (length st :: rus3), st3, lv3.
  split; [|split; [done|split; [|split; [|split; [|split]]]]].
  - exists (f1 `max` f2). intros f Hf. cbn [syncResources].
    rewrite H1 by lia. cbn [mbind res_bind].
    rewrite H2 by lia. by rewrite <- app_assoc.
  - by apply (prefix_kept_trans st st2 st3).
  - intros p [->|Hp]%elem_of_cons; [|auto].
    by apply (prefix_kept_isRU st2 st3).
  - rewrite Hrc. simpl length.
    destruct (schema.EstimateUsage r) as [est|].
    + destruct Hdet as (m & _ & -> & _). unfold estimated, counted.
      destruct (schema.EstimateUsage r); simpl; lia.
    + destruct Hdet as [-> _]. unfold counted. simpl. lia.
  - rewrite Hec. unfold estimators. rewrite filter_cons.
    destruct (schema.EstimateUsage r) as [est|] eqn:Ee.
    + destruct Hdet as (m & _ & -> & _). unfold estimated, counted.
      rewrite Ee. rewrite decide_True by eauto. simpl length. simpl. lia.
    + destruct Hdet as [-> _]. unfold counted.
      rewrite decide_False by (by intros [? ?]). simpl. lia.
  - simpl. by rewrite Hlen.
Qed.

End Pass.

(** ** A pass of syncResourceUsages returns *)

Lemma syncResourceUsages_converges `{C : Collaborators} `{S : SliceSort}
    sub referenceFile usageFile resources st0 :
  sync_wf sub referenceFile usageFile resources st0 →
  ∃ syncResult usageFile' st',
    converges (fun f => syncResourceUsages f usageFile resources
                          referenceFile st0)
      (syncResult, usageFile', st') ∧
    ResourceCount syncResult = Z.of_nat (length resources) ∧
    EstimationCount syncResult = Z.of_nat (estimators resources) ∧
    prefix_kept st0 st' ∧
    length (ResourceUsages usageFile') = length resources.
Proof.
  intros [[lv0 G0] Husage Href Hsch (m & Hm & Hmin) Hrumap].
  destruct (namesOf_ok st0 (ResourceUsages usageFile) Husage) as [eo Heo].
  destruct (syncResources_converges sub Hrumap referenceFile m lv0 st0 G0
              Href (fun k p H => Husage p (Hmin k p H)) resources Hsch
              (mkSyncResult 0 0 ∅) [] lv0 st0 G0 (prefix_kept_refl st0))
    as (sr & rus & st' & lv' & [f0 H] & G' & P & Hrus & Hrc & Hec & Hlen).
  simpl in H, Hrc, Hec.
  pose proof (sortResourceUsages_ok st' rus eo) as Hsort.
  exists sr, (mkUsageFile (sortSlice (lessb st' eo) rus)), st'.
  split; [|split; [done|split; [done|split; [done|]]]].
  - exists f0. intros f Hf. unfold syncResourceUsages.
    rewrite Hm. simpl. rewrite Heo. simpl. rewrite (H f Hf). simpl.
    rewrite Hsort; [done|]. intros a Ha. eapply good_readable; eauto.
  - simpl. rewrite <- Hlen. apply Permutation_length, sortSlice_perm.
Qed.

(** ** The sync pass: the claims *)


Lemma ex_sync_good : good ex_sub ex_lv ex_sync.
Proof.
  apply store_okb_sound; [by vm_compute|]. unfold ex_lv. intros; lia.
Defined.

Lemma ex_sync_wf :
  sync_wf (C := exampleCollaborators (Some [])) ex_sub [] ex_usageFile
    [ex_A; ex_B] ex_sync.
Proof.
  split.
  - exists ex_lv. exact ex_sync_good.
  - intros p ->%list_elem_of_singleton. reflexivity.
  - intros st name p. discriminate.
  - intros r [-> | ->%list_elem_of_singleton]%elem_of_cons; simpl.
    + split; [by intros i ->%list_elem_of_singleton|].
      apply (bool_decide_unpack _). by vm_compute.
    + split; [by intros i ->%list_elem_of_singleton|].
      apply (bool_decide_unpack _). by vm_compute.
  - eexists. split; [reflexivity|]. simpl.
    intros k p [[_ <-]|[_ H]]%lookup_insert_Some; [by left|].
    by rewrite lookup_empty in H.
  - intros lv st p _ _. by eexists.
Defined.


(** The example pass: the usage tree of the first resource is at address
    4, its item at address 6 holds the saved value 100 before the
    estimation and the value 42 after the pass, although the estimation
    failed. *)
Example ex_pass :
  ∃ stA syncResult usageFile' st',
    buildResourceUsage (C := exampleCollaborators (Some [])) 10 []
      {[ "aws_lambda_function.a"%string := 2 ]} ex_A ex_sync = Ok (4, stA) ∧
    syncResourceUsages (C := exampleCollaborators (Some [])) 10 ex_usageFile
      [ex_A; ex_B] [] ex_sync = Ok (syncResult, usageFile', st') ∧
    stA !! 4 = Some (ORU (mkResourceUsage "aws_lambda_function.a" [6])) ∧
    stA !! 6 = Some (ex_item "requests" schema.Int64 Nil (VInt 100)) ∧
    st' !! 6 = Some (ex_item "requests" schema.Int64 Nil (VInt 42)).
Proof.
  eexists _, _, _, _. split; [vm_compute; reflexivity|].
  split; [vm_compute; reflexivity|]. split; [reflexivity|].
  split; reflexivity.
Qed.

Lemma C1_counterexample : ¬ C1_as_stated.
Proof.
  intros H.
  destruct ex_pass as (stA & sr & uf' & st' & Hb & Hs & Ha & H6 & H6').
  destruct (H (exampleCollaborators (Some [])) insertionSlice ex_sub ex_lv 10
              ex_usageFile ex_A ex_B [] ex_sync _ _ "throttled"%string
              {[ "aws_lambda_function.a"%string := 2 ]} 4 stA sr uf' st'
              ex_sync_good eq_refl (fun _ => eq_refl) eq_refl
              (fun _ => eq_refl) eq_refl Hb Hs)
    as (_ & _ & Hu).
  destruct (Hu _ Ha) as [_ Hi]. specialize (Hi 6).
  rewrite H6, H6' in Hi. simpl in Hi.
  assert (6 ∈ [6]) as Hin by left. apply Hi in Hin. discriminate.
Qed.

(** * Further properties of the code *)

(** ** indexOf and resourceUsageHasValue *)

Lemma indexOfFrom_found k s arr n :
  indexOfFrom k s arr = (k + Z.of_nat n)%Z → (0 ≤ k)%Z →
  arr !! n = Some s ∧ ∀ j, j < n → arr !! j ≠ Some s.
Proof.
  revert k n. induction arr as [|v arr IH]; intros k n; simpl.
  - lia.
  - destruct (String.eqb s v) eqn:E.
    + intros Hn Hk. assert (n = 0) as -> by lia.
      apply String.eqb_eq in E as ->. split; [done|]. lia.
    + intros Hn Hk. destruct n as [|n].
      * destruct (indexOfFrom_range (k + 1) s arr ltac:(lia)) as [[_ ?]|[_ ?]];
          lia.
      * destruct (IH (k + 1)%Z n) as [Hl Hj]; [lia|lia|].
        split; [done|]. intros [|j] Hlt; simpl.
        -- apply String.eqb_neq in E. congruence.
        -- apply Hj. lia.
Qed.

Lemma indexOf_range s arr :
  s ∈ arr → ∃ n, indexOf s arr = Z.of_nat n ∧ n < length arr.
Proof.
  intros Hs. unfold indexOf.
  destruct (indexOfFrom_range 0 s arr ltac:(lia)) as [[? _]|[_ Hge]]; [done|].
  exists (Z.to_nat (indexOfFrom 0 s arr)).
  assert (indexOfFrom 0 s arr = Z.of_nat (Z.to_nat (indexOfFrom 0 s arr)))
    as Heq by lia.
  split; [done|].
  destruct (indexOfFrom_found 0 s arr _ Heq ltac:(lia)) as [Hl _].
  by eapply lookup_lt_Some.
Qed.

(** X1.  indexOf returns -1 exactly when the string is not in the slice;
    otherwise it returns the index of its first occurrence, which is below
    the length of the slice. *)
Theorem X1_indexOf_first_occurrence (s : string) (arr : list string) :
  (indexOf s arr = (-1)%Z ↔ s ∉ arr) ∧
  (s ∈ arr → ∃ n, indexOf s arr = Z.of_nat n ∧ n < length arr) ∧
  (∀ n, indexOf s arr = Z.of_nat n →
        arr !! n = Some s ∧ ∀ j, j < n → arr !! j ≠ Some s).
Proof.
  split; [apply indexOf_absent|]. split; [apply indexOf_range|].
  intros n Hn. apply (indexOfFrom_found 0); [by rewrite Z.add_0_l|lia].
Qed.

(** X2.  On a ResourceUsage whose items can be read, resourceUsageHasValue
    returns, and it returns true exactly when one of the items of the
    ResourceUsage itself has a Value that is not nil; values nested in
    sub-resources are not looked at, and a ResourceUsage without items has
    no value. *)
Theorem X2_resourceUsageHasValue_spec (st : store) (a : loc)
    (r : ResourceUsage) :
  st !! a = Some (ORU r) → (∀ i, i ∈ Items r → isItem st i = true) →
  ∃ b, resourceUsageHasValue st a = Ok b ∧
       (b = true ↔
        ∃ i it, i ∈ Items r ∧ st !! i = Some (OItem it) ∧ Value it ≠ Nil) ∧
       (Items r = [] → b = false).
Proof.
  intros Hr Hi. unfold resourceUsageHasValue.
  rewrite (getRU_eq _ _ _ Hr). simpl.
  destruct (anyValue_ok st (Items r) Hi) as [b Hb]. exists b.
  split; [done|]. split; [by apply anyValue_spec|].
  intros He. rewrite He in Hb. simpl in Hb. congruence.
Qed.

Lemma X2_witness :
  ∃ b, resourceUsageHasValue ex_sort 0 = Ok b ∧
       (b = true ↔
        ∃ i it, i ∈ [1; 2] ∧ ex_sort !! i = Some (OItem it) ∧ Value it ≠ Nil) ∧
       ([1; 2] = [] → b = false).
Proof.
  apply (X2_resourceUsageHasValue_spec ex_sort 0 (mkResourceUsage "Z" [1; 2])).
  - reflexivity.
  - intros i Hi. simpl in Hi.
    apply elem_of_cons in Hi as [->|Hi]; [reflexivity|].
    apply list_elem_of_singleton in Hi as ->. reflexivity.
Defined.

(** ** The comparison of sortResourceUsages *)

Lemma string_ltb_total a b :
  a ≠ b → String.ltb a b = true ∨ String.ltb b a = true.
Proof.
  intros Hne. unfold String.ltb. rewrite (String.compare_antisym a b).
  destruct (String.compare b a) eqn:E; simpl; auto.
  apply String.compare_eq_iff in E. congruence.
Qed.

Lemma keyLt_total k k' : k ≠ k' → keyLt k k' = true ∨ keyLt k' k = true.
Proof.
  destruct k as [[a b] c], k' as [[a' b'] c']. intros Hne.
  rewrite !keyLt_spec.
  destruct (Z.lt_trichotomy a a') as [?|[->|?]];
    [left; by left| |right; by left].
  destruct (Z.lt_trichotomy b b') as [?|[->|?]];
    [left; right; split; [done|by left]| |right; right; split; [done|by left]].
  destruct (string_ltb_total c c') as [H|H]; [congruence| |].
  - left. right. split; [done|]. right. done.
  - right. right. split; [done|]. right. done.
Qed.

Lemma sortKey_inj st eo a b :
  sortKey st eo a = sortKey st eo b → nameOf st a = nameOf st b.
Proof.
  unfold sortKey.
  destruct (indexOf (nameOf st a) eo =? -1)%Z eqn:Ea,
           (indexOf (nameOf st b) eo =? -1)%Z eqn:Eb; try congruence.
  intros [=]. apply Z.eqb_neq in Ea, Eb.
  assert (nameOf st a ∈ eo) as Ha.
  { destruct (decide (nameOf st a ∈ eo)); [done|].
    by apply indexOf_absent in n. }
  destruct (indexOf_range _ _ Ha) as (n & Hn & _).
  destruct (indexOfFrom_found 0 (nameOf st a) eo n) as [Hla _];
    [by rewrite Z.add_0_l|lia|].
  destruct (indexOfFrom_found 0 (nameOf st b) eo n) as [Hlb _];
    [rewrite Z.add_0_l; unfold indexOf in *; congruence|lia|].
  congruence.
Qed.

(** X3.  On ResourceUsages that can be read, the comparison of lines
    237-266 never panics and is the kind of ordering that sort.Slice asks
    for: no element is less than itself, less is transitive, and so is its
    negation; two ResourceUsages with different names are always ordered
    one way or the other. *)
Theorem X3_less_is_strict_weak_order (st : store)
    (existingOrder : list string) (l : list loc) :
  (∀ a, a ∈ l → readable st a) →
  (∀ a b, a ∈ l → b ∈ l →
     less st existingOrder a b = Ok (lessb st existingOrder a b)) ∧
  transitiveOrdering (lessb st existingOrder) l ∧
  (∀ a b, a ∈ l → b ∈ l → nameOf st a ≠ nameOf st b →
     lessb st existingOrder a b = true ∨ lessb st existingOrder b a = true).
Proof.
  intros Hl. split; [|split].
  - intros a b Ha Hb. rewrite lessb_key, less_key by auto. done.
  - by apply lessb_ordering.
  - intros a b Ha Hb Hne. rewrite !lessb_key by auto.
    apply keyLt_total. intros Heq. by apply Hne, (sortKey_inj st existingOrder).
Qed.

Lemma ex_sort_readable a : a ∈ [3; 0; 5] → readable ex_sort a.
Proof.
  intros Ha. unfold readable.
  apply elem_of_cons in Ha as [->|Ha]; [|apply elem_of_cons in Ha as [->|Ha]];
    [| |apply list_elem_of_singleton in Ha as ->];
    (eexists; split; [reflexivity|]); simpl; intros i Hi;
    repeat (apply elem_of_cons in Hi as [->|Hi]; [reflexivity|]);
    by apply elem_of_nil in Hi.
Defined.

Lemma X3_witness :
  (∀ a b, a ∈ [3; 0; 5] → b ∈ [3; 0; 5] →
     less ex_sort ["X"; "Y"]%string a b
     = Ok (lessb ex_sort ["X"; "Y"]%string a b)) ∧
  transitiveOrdering (lessb ex_sort ["X"; "Y"]%string) [3; 0; 5] ∧
  (∀ a b, a ∈ [3; 0; 5] → b ∈ [3; 0; 5] →
     nameOf ex_sort a ≠ nameOf ex_sort b →
     lessb ex_sort ["X"; "Y"]%string a b = true ∨
     lessb ex_sort ["X"; "Y"]%string b a = true).
Proof.
  apply (X3_less_is_strict_weak_order ex_sort ["X"; "Y"]%string [3; 0; 5]).
  exact ex_sort_readable.
Defined.

(** ** The result of the sort does not depend on [sort.Slice] *)

Lemma noInversion_tail {A} (less : A → A → bool) x l :
  noInversion less (x :: l) → noInversion less l.
Proof. intros H i j a b Hij Hi Hj. apply (H (S i) (S j)); [lia|done|done]. Qed.

Lemma sorted_unique {A} `{EqDecision A} (less : A → A → bool)
    (l1 l2 : list A) :
  l1 ≡ₚ l2 → noInversion less l1 → noInversion less l2 →
  (∀ x y, x ∈ l1 → y ∈ l1 → x ≠ y → less x y = true ∨ less y x = true) →
  l1 = l2.
Proof.
  revert l2. induction l1 as [|x l1 IH]; intros l2 HP H1 H2 Htot.
  { by apply Permutation_nil_l in HP. }
  destruct l2 as [|y l2]; [by apply Permutation_nil_r in HP|].
  assert (x = y) as ->.
  { destruct (decide (x = y)) as [|Hne]; [done|]. exfalso.
    assert (y ∈ l1) as Hy.
    { assert (y ∈ x :: l1) as Hin by (rewrite HP; left).
      apply elem_of_cons in Hin as [?|?]; [congruence|done]. }
    assert (x ∈ l2) as Hx.
    { assert (x ∈ y :: l2) as Hin by (rewrite <- HP; left).
      apply elem_of_cons in Hin as [?|?]; [congruence|done]. }
    apply list_elem_of_lookup in Hy as (j & Hj).
    apply list_elem_of_lookup in Hx as (i & Hi).
    pose proof (H1 0 (S j) x y ltac:(lia) eq_refl Hj) as L1.
    pose proof (H2 0 (S i) y x ltac:(lia) eq_refl Hi) as L2.
    destruct (Htot x y) as [?|?]; [left|right; by apply list_elem_of_lookup_2 in Hj|done| |];
      congruence. }
  f_equal. apply IH.
  - by apply Permutation_cons_inv in HP.
  - by eapply noInversion_tail.
  - by eapply noInversion_tail.
  - intros a b Ha Hb. apply Htot; by right.
Qed.

(** X4.  When the names of the ResourceUsages are pairwise distinct, the
    result of sortResourceUsages is the same for every implementation of
    sort.Slice that meets its contract (the instability of sort.Slice does
    not show), and sorting the result again leaves it as it is. *)
Theorem X4_sort_is_determined `{S1 : SliceSort} (S2 : SliceSort)
    (st : store) (rus : list loc) (existingOrder : list string) :
  (∀ a, a ∈ rus → readable st a) → NoDup (nameOf st <$> rus) →
  ∃ out, sortResourceUsages (H := S1) st rus existingOrder = Ok out ∧
         sortResourceUsages (H := S2) st rus existingOrder = Ok out ∧
         sortResourceUsages (H := S1) st out existingOrder = Ok out.
Proof.
  intros Hr Hnd.
  set (less := lessb st existingOrder).
  assert (∀ (S : SliceSort) l, l ≡ₚ rus →
            sortResourceUsages (H := S) st l existingOrder
            = Ok (sortSlice (SliceSort := S) less l) ∧
            sortSlice (SliceSort := S) less l ≡ₚ rus ∧
            noInversion less (sortSlice (SliceSort := S) less l)) as Hsort.
  { intros S l Hl.
    assert (∀ a, a ∈ l → readable st a) as Hrl
      by (intros a Ha; apply Hr; by rewrite <- Hl).
    split; [by apply sortResourceUsages_ok|]. split.
    - by rewrite sortSlice_perm.
    - apply sortSlice_sorted. by apply lessb_ordering. }
  assert (∀ l1 l2, l1 ≡ₚ rus → l2 ≡ₚ rus → noInversion less l1 →
            noInversion less l2 → l1 = l2) as Huniq.
  { intros l1 l2 P1 P2 N1 N2.
    apply (sorted_unique less); [by rewrite P1, P2|done|done|].
    intros x y Hx Hy Hne. rewrite P1 in Hx, Hy. unfold less.
    rewrite !lessb_key by auto. apply keyLt_total. intros Heq.
    apply (sortKey_inj st existingOrder) in Heq.
    apply Hne. apply list_elem_of_lookup in Hx as (i & Hi).
    apply list_elem_of_lookup in Hy as (j & Hj).
    assert (i = j) as ->; [|congruence].
    apply (NoDup_lookup (nameOf st <$> rus) i j (nameOf st x)); [done| |].
    - by rewrite list_lookup_fmap, Hi.
    - by rewrite list_lookup_fmap, Hj, Heq. }
  destruct (Hsort S1 rus) as (E1 & P1 & N1); [done|].
  destruct (Hsort S2 rus) as (E2 & P2 & N2); [done|].
  destruct (Hsort S1 (sortSlice (SliceSort := S1) less rus)) as (E3 & P3 & N3);
    [done|].
  exists (sortSlice (SliceSort := S1) less rus). split; [done|].
  split.
  - rewrite E2. f_equal. by apply Huniq.
  - rewrite E3. f_equal. by apply Huniq.
Qed.

Lemma X4_witness :
  ∃ out, sortResourceUsages (H := insertionSlice) ex_sort [3; 0; 5]
           ["X"; "Y"]%string = Ok out ∧
         sortResourceUsages (H := insertionSlice) ex_sort [3; 0; 5]
           ["X"; "Y"]%string = Ok out ∧
         sortResourceUsages (H := insertionSlice) ex_sort out
           ["X"; "Y"]%string = Ok out.
Proof.
  apply (X4_sort_is_determined (S1 := insertionSlice) insertionSlice ex_sort
           [3; 0; 5] ["X"; "Y"]%string).
  - exact ex_sort_readable.
  - apply (bool_decide_unpack _). by vm_compute.
Defined.

(** ** What a merge does to the destination as a whole *)

Section MergeWhole.

Variable sub : string → bool.
Variable lv : loc → nat.

Lemma merge_post n st d s o dr sr :
  good sub lv st → st !! d = Some (ORU dr) → st !! s = Some (ORU sr) →
  src_ok lv n (lv d) st s →
  ∃ st' dr',
    mergeResourceUsages (S n) (Some d) (Some s) o st = Ok st' ∧
    good sub lv st' ∧ ext sub st st' ∧ frame lv (lv d) st st' ∧
    st' !! d = Some (ORU dr') ∧
    (∀ si, si ∈ Items sr → keyOf st si ∈ keysOf st' (Items dr')) ∧
    (∀ dj, dj ∈ Items dr' →
       dj ∈ Items dr ∨ keyOf st' dj ∈ keysOf st (Items sr)).
Proof.
  intros G Hd Hs Hsrc.
  destruct (good_obj _ _ _ G d (ORU dr) Hd) as (Hit & Hnd).
  destruct (buildItemMap_spec st (Items dr) ∅ Hit) as (m & Hm & M1 & M2).
  rewrite (merge_unfold n d s o st dr sr m Hd Hs Hm).
  destruct (forEach_merge_spec sub lv (mergeResourceUsages n) o n d m
              (rec_spec_merge sub lv n) (Items sr) st dr G Hd)
    as (st' & dr' & H & G' & E & F & Hd' & Hcov & Hnew & _).
  - by eapply src_ok_srcs.
  - by apply index_ok_build.
  - intros k _ Hnone Hk. destruct (M2 k (or_introl Hk)) as [? ?]. congruence.
  - exists st', dr'. done.
Qed.

Lemma reaches_below n k st q l :
  good sub lv st → tree_below lv n k st q → reaches st q l → lv l < k.
Proof.
  intros G. revert q. induction n as [|n IH]; intros q; [done|].
  simpl. intros (Hq & r & Hr & Hi) HR.
  inversion HR as [|? o si ? Ho Hsi HR']; subst; [done|].
  rewrite Hr in Ho. injection Ho as <-. simpl in Hsi.
  destruct (Hi si Hsi) as [Hsil Hp].
  destruct (good_obj _ _ _ G q _ Hr) as [Hval _].
  pose proof (Hval si Hsi) as Hit. apply isItem_true in Hit as (it & Hit).
  inversion HR' as [|? o' q' ? Ho' Hq' HR'']; subst; [done|].
  rewrite Hit in Ho'. injection Ho' as <-. simpl in Hq'.
  apply (IH q'); [|done]. by eapply Hp.
Qed.

End MergeWhole.

(** X5.  A merge keeps the name of the destination and its items in their
    places, appends new items (at new addresses) after them, and leaves the
    destination with exactly the keys that the destination or the source
    had; the key of an item that was there does not change. *)
Theorem X5_merge_key_set (sub : string → bool) (lv : loc → nat) (n : nat)
    (st : store) (d s : loc) (opts : MergeResourceUsagesOpts)
    (dr sr : ResourceUsage) :
  good sub lv st → st !! d = Some (ORU dr) → st !! s = Some (ORU sr) →
  src_ok lv n (lv d) st s →
  ∃ st' dr' added,
    mergeResourceUsages (S n) (Some d) (Some s) opts st = Ok st' ∧
    st' !! d = Some (ORU dr') ∧ Name dr' = Name dr ∧
    Items dr' = Items dr ++ added ∧
    (∀ i, i ∈ added → st !! i = None) ∧
    (∀ i, i ∈ Items dr → keyOf st' i = keyOf st i) ∧
    (∀ k, k ∈ keysOf st' (Items dr') ↔
          k ∈ keysOf st (Items dr) ∨ k ∈ keysOf st (Items sr)).
Proof.
  intros G Hd Hs Hsrc.
  destruct (merge_post sub lv n st d s opts dr sr G Hd Hs Hsrc)
    as (st' & dr' & H & G' & E & F & Hd' & Hcov & Hnew).
  destruct (ext_ru _ _ _ _ _ E Hd) as (x & Hx & HN & (ap & Hap & Hfr)).
  rewrite Hd' in Hx. injection Hx as <-.
  destruct (good_obj _ _ _ G d _ Hd) as [Hval _].
  assert (∀ i, i ∈ Items dr → keyOf st' i = keyOf st i) as Hkeys.
  { intros i Hi. by apply (ext_keyOf sub st st'), Hval. }
  exists st', dr', ap. split; [done|]. split; [done|]. split; [done|].
  split; [done|]. split; [|split; [done|]].
  - intros i Hi. apply lookup_ge_None. by apply Hfr.
  - intros k. split.
    + intros (dj & Hdj & <-)%elem_of_keysOf.
      destruct (Hnew dj Hdj) as [Hold|?]; [left|by right].
      rewrite Hkeys by done. by apply keyOf_in_keysOf.
    + intros [(i & Hi & <-)%elem_of_keysOf|(si & Hsi & <-)%elem_of_keysOf].
      * rewrite <- Hkeys by done. apply keyOf_in_keysOf.
        rewrite Hap. apply elem_of_app. by left.
      * by apply Hcov.
Qed.

Lemma X5_witness :
  ∃ st' dr' added,
    mergeResourceUsages 2 (Some 7) (Some 0) (mkOpts true) ex_store = Ok st' ∧
    st' !! 7 = Some (ORU dr') ∧ Name dr' = "aws_eks_cluster.dest"%string ∧
    Items dr' = [8; 9] ++ added ∧
    (∀ i, i ∈ added → ex_store !! i = None) ∧
    (∀ i, i ∈ [8; 9] → keyOf st' i = keyOf ex_store i) ∧
    (∀ k, k ∈ keysOf st' (Items dr') ↔
          k ∈ keysOf ex_store [8; 9] ∨ k ∈ keysOf ex_store [1; 2]).
Proof.
  apply (X5_merge_key_set ex_sub ex_lv 1 ex_store 7 0 (mkOpts true)
           (mkResourceUsage "aws_eks_cluster.dest" [8; 9])
           (mkResourceUsage "aws_eks_cluster.src" [1; 2]) ex_store_good).
  - reflexivity.
  - reflexivity.
  - apply src_okb_sound. by vm_compute.
Defined.

(** X6.  A merge changes no object of the source tree (the source
    ResourceUsage, its items, their sub-trees), when the source tree lies
    apart from the destination, below it. *)
Theorem X6_merge_leaves_source (sub : string → bool) (lv : loc → nat)
    (n : nat) (st : store) (d s : loc) (opts : MergeResourceUsagesOpts) :
  good sub lv st → isRU st d = true → tree_below lv (S n) (lv d) st s →
  ∃ st', mergeResourceUsages (S n) (Some d) (Some s) opts st = Ok st' ∧
         ∀ l, reaches st s l → st' !! l = st !! l.
Proof.
  intros G Hd Ht.
  destruct (merge_spec sub lv n st d s opts G Hd (tree_below_src _ _ _ _ _ Ht))
    as (st' & H & _ & _ & F & _).
  exists st'. split; [done|]. intros l Hl. apply F.
  by eapply reaches_below.
Qed.

Lemma X6_witness :
  ∃ st', mergeResourceUsages 2 (Some 7) (Some 0) (mkOpts true) ex_store = Ok st' ∧
         ∀ l, reaches ex_store 0 l → st' !! l = ex_store !! l.
Proof.
  apply (X6_merge_leaves_source ex_sub ex_lv 1 ex_store 7 0 (mkOpts true)
           ex_store_good).
  - reflexivity.
  - apply tree_belowb_sound. by vm_compute.
Defined.

(** ** What a merge never does to an item *)

Lemma item_kept_refl o it : item_kept o it it.
Proof. unfold item_kept. repeat split; auto. Qed.

Lemma item_kept_trans o a b c :
  item_kept o a b → item_kept o b c → item_kept o a c.
Proof.
  intros (K1 & T1 & D1 & V1 & W1) (K2 & T2 & D2 & V2 & W2).
  repeat split.
  - congruence.
  - intros Ho. rewrite T2, T1; done.
  - destruct D2 as [D2|D2]; [|by right]. rewrite D2. done.
  - auto.
  - auto.
Qed.

Lemma items_kept_refl o st : items_kept o st st.
Proof. intros l it H. exists it. split; [done|apply item_kept_refl]. Qed.

Lemma items_kept_trans o st1 st2 st3 :
  items_kept o st1 st2 → items_kept o st2 st3 → items_kept o st1 st3.
Proof.
  intros H1 H2 l it Hl. destruct (H1 l it Hl) as (it' & Hl' & K1).
  destruct (H2 l it' Hl') as (it'' & Hl'' & K2).
  exists it''. split; [done|]. by eapply item_kept_trans.
Qed.

Lemma items_kept_snoc o st x : items_kept o st (st ++ [x]).
Proof.
  intros l it H. exists it. split; [|apply item_kept_refl].
  by apply lookup_snoc_old.
Qed.

Lemma items_kept_insert_ru o st p r r' :
  st !! p = Some (ORU r) → items_kept o st (<[p := ORU r']> st).
Proof.
  intros Hp l it H. exists it. split; [|apply item_kept_refl].
  rewrite list_lookup_insert_ne; [done|]. intros ->. congruence.
Qed.

Lemma items_kept_modItem o f i st st' :
  modItem f i st = Ok st' →
  (∀ it, st !! i = Some (OItem it) → item_kept o it (f it)) →
  items_kept o st st'.
Proof.
  unfold modItem. intros H Hf. apply bind_Ok in H as (it & Hit & H).
  apply getItem_Ok in Hit. injection H as <-. intros l x Hl.
  destruct (decide (l = i)) as [->|Hne].
  - rewrite Hit in Hl. injection Hl as <-. exists (f it). split; [|by apply Hf].
    apply list_lookup_insert_eq. by eapply lookup_lt_Some.
  - exists x. split; [|apply item_kept_refl].
    by rewrite list_lookup_insert_ne.
Qed.

Section MergeKeeps.

Variable recur : option loc → option loc → MergeResourceUsagesOpts →
                 store → res store.
Variable o : MergeResourceUsagesOpts.
Hypothesis recur_kept : ∀ d s st st',
  recur d s o st = Ok st' → items_kept o st st'.

Lemma findOrAppend_kept d m si st di st' :
  findOrAppend d m si st = Ok (di, st') → items_kept o st st'.
Proof.
  unfold findOrAppend. intros H. apply bind_Ok in H as (s & _ & H).
  destruct (m !! Key s).
  - injection H as _ <-. apply items_kept_refl.
  - simpl in H. apply bind_Ok in H as (r & Hr & H). apply getRU_Ok in Hr.
    injection H as _ <-.
    eapply items_kept_trans; [apply items_kept_snoc|].
    by eapply items_kept_insert_ru.
Qed.

Lemma overrideType_kept si di st st' :
  overrideType o si di st = Ok st' → items_kept o st st'.
Proof.
  unfold overrideType. destruct (OverrideValueType o) eqn:Ho; intros H.
  - apply bind_Ok in H as (s & _ & H).
    apply (items_kept_modItem _ _ _ _ _ H). intros it _.
    unfold item_kept. simpl. rewrite Ho. repeat split; auto; done.
  - injection H as <-. apply items_kept_refl.
Qed.

Lemma copyDescription_kept si di st st' :
  copyDescription si di st = Ok st' → items_kept o st st'.
Proof.
  unfold copyDescription. intros H. apply bind_Ok in H as (s & _ & H).
  destruct (String.eqb (Description s) EmptyString) eqn:E.
  - injection H as <-. apply items_kept_refl.
  - apply (items_kept_modItem _ _ _ _ _ H). intros it _.
    unfold item_kept. simpl. repeat split; auto.
    right. by apply String.eqb_neq.
Qed.

Lemma mergeSubDefault_kept si di st st' :
  mergeSubDefault recur o si di st = Ok st' → items_kept o st st'.
Proof.
  unfold mergeSubDefault. intros H. apply bind_Ok in H as (s & _ & H).
  destruct (isNil (DefaultValue s)).
  { injection H as <-. apply items_kept_refl. }
  apply bind_Ok in H as (sp & _ & H). apply bind_Ok in H as (d0 & Hd0 & H).
  apply getItem_Ok in Hd0.
  apply bind_Ok in H as (st1 & H1 & H). apply bind_Ok in H as (d1 & _ & H).
  apply bind_Ok in H as (dp & _ & H).
  eapply items_kept_trans; [|by eapply recur_kept].
  destruct (isNil (DefaultValue d0)) eqn:En.
  - apply bind_Ok in H1 as (r & _ & H1). simpl in H1.
    eapply items_kept_trans; [apply items_kept_snoc|].
    apply (items_kept_modItem _ _ _ _ _ H1). intros it Hit.
    apply lookup_snoc_inv in Hit as [Hit|[_ ?]]; [|done].
    rewrite Hd0 in Hit. injection Hit as <-.
    unfold item_kept. simpl. repeat split; auto; try done.
  - injection H1 as <-. apply items_kept_refl.
Qed.

Lemma mergeSubValue_kept si di st st' :
  mergeSubValue recur o si di st = Ok st' → items_kept o st st'.
Proof.
  unfold mergeSubValue. intros H. apply bind_Ok in H as (s & _ & H).
  destruct (isNil (Value s)).
  { injection H as <-. apply items_kept_refl. }
  apply bind_Ok in H as (sp & _ & H). apply bind_Ok in H as (d0 & Hd0 & H).
  apply getItem_Ok in Hd0.
  apply bind_Ok in H as (st1 & H1 & H). apply bind_Ok in H as (d1 & Hd1 & H).
  apply getItem_Ok in Hd1.
  apply bind_Ok in H as (st2 & H2 & H). apply bind_Ok in H as (d2 & _ & H).
  apply bind_Ok in H as (dp & _ & H).
  eapply items_kept_trans; [|by eapply recur_kept].
  apply (items_kept_trans _ _ st1).
  - destruct (isNil (Value d0)) eqn:En.
    + apply (items_kept_modItem _ _ _ _ _ H1). intros it Hit.
      rewrite Hd0 in Hit. injection Hit as <-.
      unfold item_kept. simpl. repeat split; auto; try done.
      all: by destruct (Value d0).
    + injection H1 as <-. apply items_kept_refl.
  - destruct (isNil (Value d1)) eqn:En.
    + apply bind_Ok in H2 as (r & _ & H2). simpl in H2.
      eapply items_kept_trans; [apply items_kept_snoc|].
      apply (items_kept_modItem _ _ _ _ _ H2). intros it Hit.
      apply lookup_snoc_inv in Hit as [Hit|[_ ?]]; [|done].
      rewrite Hd1 in Hit. injection Hit as <-.
      unfold item_kept. simpl. repeat split; auto; try done.
    + injection H2 as <-. apply items_kept_refl.
Qed.

Lemma copyScalars_kept si di st st' :
  copyScalars si di st = Ok st' → items_kept o st st'.
Proof.
  unfold copyScalars. intros H. apply bind_Ok in H as (s & _ & H).
  apply bind_Ok in H as (st1 & H1 & H). apply bind_Ok in H as (s1 & _ & H).
  apply (items_kept_trans _ _ st1).
  - destruct (isNil (DefaultValue s)) eqn:En.
    + injection H1 as <-. apply items_kept_refl.
    + apply (items_kept_modItem _ _ _ _ _ H1). intros it _.
      unfold item_kept. simpl. repeat split; auto; try done.
      all: intros _ E; by rewrite E in En.
  - destruct (isNil (Value s1)) eqn:En.
    + injection H as <-. apply items_kept_refl.
    + apply (items_kept_modItem _ _ _ _ _ H). intros it _.
      unfold item_kept. simpl. repeat split; auto; try done.
      all: intros _ E; by rewrite E in En.
Qed.

Lemma mergeItem_kept d m si st st' :
  mergeItem recur d m o si st = Ok st' → items_kept o st st'.
Proof.
  unfold mergeItem. intros H.
  apply bind_Ok in H as ([di st1] & H1 & H).
  apply bind_Ok in H as (st2 & H2 & H). apply bind_Ok in H as (st3 & H3 & H).
  unfold mergeFields in H. apply bind_Ok in H as (s & _ & H).
  eapply items_kept_trans; [by eapply findOrAppend_kept|].
  eapply items_kept_trans; [by eapply overrideType_kept|].
  eapply items_kept_trans; [by eapply copyDescription_kept|].
  destruct (isSub (ValueType s)).
  - apply bind_Ok in H as (st4 & H4 & H).
    eapply items_kept_trans; [by eapply mergeSubDefault_kept|].
    by eapply mergeSubValue_kept.
  - by eapply copyScalars_kept.
Qed.

End MergeKeeps.

Lemma forEach_kept o (f : loc → store → res store) l :
  (∀ x st st', f x st = Ok st' → items_kept o st st') →
  ∀ st st', forEach f l st = Ok st' → items_kept o st st'.
Proof.
  intros Hf. induction l as [|x l IH]; intros st st' H; simpl in H.
  - injection H as <-. apply items_kept_refl.
  - apply bind_Ok in H as (st1 & H1 & H).
    eapply items_kept_trans; [by eapply Hf|by apply IH].
Qed.

Lemma merge_kept n : ∀ d s o st st',
  mergeResourceUsages n d s o st = Ok st' → items_kept o st st'.
Proof.
  induction n as [|n IH]; intros d s o st st' H; [done|].
  cbn [mergeResourceUsages] in H.
  destruct d as [d|], s as [s|];
    try (injection H as <-; apply items_kept_refl).
  apply bind_Ok in H as (dr & _ & H). apply bind_Ok in H as (m & _ & H).
  apply bind_Ok in H as (sr & _ & H).
  revert H. apply forEach_kept. intros si st1 st2.
  apply mergeItem_kept. intros. by eapply IH.
Qed.

(** X7.  A merge erases nothing.  Every usage item that exists before the
    merge, at any depth of any tree, is an item with the same key after it;
    its type is the same unless OverrideValueType is set; its description is
    only replaced by a non-empty one; and a DefaultValue or Value that was
    set is still set. *)
Theorem X7_merge_erases_nothing (sub : string → bool) (lv : loc → nat)
    (n : nat) (st : store) (d s : loc) (opts : MergeResourceUsagesOpts) :
  good sub lv st → isRU st d = true → src_ok lv n (lv d) st s →
  ∃ st', mergeResourceUsages (S n) (Some d) (Some s) opts st = Ok st' ∧
    ∀ l it, st !! l = Some (OItem it) →
      ∃ it', st' !! l = Some (OItem it') ∧
        Key it' = Key it ∧
        (OverrideValueType opts = false → ValueType it' = ValueType it) ∧
        (Description it' = Description it ∨ Description it' ≠ EmptyString) ∧
        (DefaultValue it ≠ Nil → DefaultValue it' ≠ Nil) ∧
        (Value it ≠ Nil → Value it' ≠ Nil).
Proof.
  intros G Hd Hsrc.
  destruct (merge_spec sub lv n st d s opts G Hd Hsrc) as (st' & H & _).
  exists st'. split; [done|]. by apply (merge_kept _ _ _ _ _ _ H).
Qed.

Lemma X7_witness :
  ∃ st', mergeResourceUsages 2 (Some 7) (Some 0) (mkOpts false) ex_store = Ok st' ∧
    ∀ l it, ex_store !! l = Some (OItem it) →
      ∃ it', st' !! l = Some (OItem it') ∧
        Key it' = Key it ∧
        (OverrideValueType (mkOpts false) = false → ValueType it' = ValueType it) ∧
        (Description it' = Description it ∨ Description it' ≠ EmptyString) ∧
        (DefaultValue it ≠ Nil → DefaultValue it' ≠ Nil) ∧
        (Value it ≠ Nil → Value it' ≠ Nil).
Proof.
  apply (X7_merge_erases_nothing ex_sub ex_lv 1 ex_store 7 0 (mkOpts false)
           ex_store_good).
  - reflexivity.
  - apply src_okb_sound. by vm_compute.
Defined.

(** ** The fields of a destination item after a merge *)

Section MergeSplit.

Variable sub : string → bool.
Variable lv : loc → nat.

(** The iteration of the loop for the source item [si]: it starts in a
    store [sa] and ends in [sb]; an item that the destination owns and
    that has the key of [si] is not touched outside this iteration. *)
Lemma merge_item_split n st d s o dr sr si sit :
  good sub lv st → st !! d = Some (ORU dr) → st !! s = Some (ORU sr) →
  src_ok lv n (lv d) st s → si ∈ Items sr → st !! si = Some (OItem sit) →
  ∃ m sa sb st',
    mergeResourceUsages (S n) (Some d) (Some s) o st = Ok st' ∧
    sa !! si = Some (OItem sit) ∧ lv si < lv d ∧
    mergeItem (mergeResourceUsages n) d m o si sa = Ok sb ∧
    (∀ di dit, di ∈ Items dr → st !! di = Some (OItem dit) →
       Key dit = Key sit → owned lv st dr di →
       m !! Key sit = Some di ∧ sa !! di = Some (OItem dit) ∧
       st' !! di = sb !! di).
Proof.
  intros G Hd Hs Hsrc Hsi Hsit.
  destruct (good_obj _ _ _ G d (ORU dr) Hd) as (Hit & Hnd).
  destruct (buildItemMap_spec st (Items dr) ∅ Hit) as (m & Hm & M1 & M2).
  rewrite (merge_unfold n d s o st dr sr m Hd Hs Hm).
  apply list_elem_of_split in Hsi as (l1 & l2 & Hsplit).
  rewrite Hsplit.
  pose proof (rec_spec_merge sub lv n) as R.
  assert (loop_pre sub lv n d m st dr (l1 ++ si :: l2)) as P.
  { split; try done.
    - rewrite <- Hsplit. by eapply src_ok_srcs.
    - by apply index_ok_build.
    - intros k _ Hnone Hk. destruct (M2 k (or_introl Hk)) as [? ?]. congruence. }
  destruct (loop_spec sub lv _ o n d m l1 st dr R) as (sa & dra & Ha & Qa).
  { by eapply loop_pre_prefix. }
  pose proof (loop_pre_app sub lv n d m st dr l1 (si :: l2) sa dra P Qa) as Pa.
  destruct Qa as [Ga Ea Fa Hda Hcova Hnewa LFa].
  assert (lv si < lv d) as Hsil.
  { destruct P as [_ _ [Hl _] _ _]. apply Hl, elem_of_app. right. left. }
  assert (sa !! si = Some (OItem sit)) as Hsa by (by rewrite Fa).
  destruct (item_spec sub lv _ o n d m si l2 sa dra sit R Pa Hsa)
    as (dj & sb & drb & dit0 & dK & Hb & Qb & Pb).
  destruct (loop_spec sub lv _ o n d m l2 sb drb R Pb) as (st' & dr' & Hc & Qc).
  destruct Qb as [Gb Eb Fb Hdb Hinb HKb Hcase IFb Hjb FDb].
  destruct Qc as [Gc Ec Fc Hdc Hcovc Hnewc LFc].
  assert (ext sub st sb) as Esb by (by eapply ext_trans).
  assert (NoDup (keysOf st (l1 ++ si :: l2))) as Hndl.
  { destruct P as [_ _ [_ ?] _ _]. done. }
  rewrite keysOf_app in Hndl. apply NoDup_app in Hndl as (_ & Hdisj & Hnd2).
  unfold keysOf at 1 in Hnd2. simpl in Hnd2. fold (keysOf st l2) in Hnd2.
  apply NoDup_cons in Hnd2 as [Hnin2 _].
  rewrite (keyOf_item _ _ _ Hsit) in Hnin2.
  assert (Key sit ∉ keysOf st l1) as Hnin1.
  { intros Hk. apply (Hdisj _ Hk). unfold keysOf. simpl.
    rewrite (keyOf_item _ _ _ Hsit). left. }
  exists m, sa, sb, st'.
  split.
  { apply forEach_app. exists sa. split; [done|]. simpl. rewrite Hb. done. }
  split; [done|]. split; [done|]. split; [done|].
  intros di dit Hdi Hdit HK Hown.
  split; [|split].
  - destruct (M2 (Key sit)) as [x Hx].
    { left. rewrite <- HK, <- (keyOf_item _ _ _ Hdit).
      by apply keyOf_in_keysOf. }
    destruct (M1 _ _ Hx) as [[Hxin Hxk]|Habs];
      [|by rewrite lookup_empty in Habs].
    rewrite Hx. f_equal.
    eapply (NoDup_keys_inj st (Items dr)); eauto.
    rewrite Hxk, (keyOf_item _ _ _ Hdit). done.
  - rewrite <- Hdit.
    eapply (loop_frame_owned sub lv d l1 st sa dra st dr di dit);
      eauto using ext_refl. by rewrite HK.
  - eapply (loop_frame_owned sub lv d l2 sb st' dr' st dr di dit); eauto.
    rewrite (keysOf_frame lv (lv d) st sb); [by rewrite HK| |].
    + eapply frame_trans; eauto.
    + intros i Hi. destruct P as [_ _ [Hl _] _ _].
      apply Hl, elem_of_app. right. by right.
Qed.

End MergeSplit.

Lemma modItem_step f si di st sit it :
  st !! si = Some (OItem sit) → st !! di = Some (OItem it) → si ≠ di →
  ∃ st', modItem f di st = Ok st' ∧
         st' !! si = Some (OItem sit) ∧ st' !! di = Some (OItem (f it)) ∧
         length st' = length st ∧ ∀ x, x ≠ di → st' !! x = st !! x.
Proof.
  intros Hs Hd Hne. unfold modItem.
  rewrite (proj2 (getItem_Ok _ _ _) Hd). simpl. eexists. split; [done|].
  split; [by rewrite list_lookup_insert_ne|]. split.
  - apply list_lookup_insert_eq. by eapply lookup_lt_Some.
  - split; [by rewrite length_insert|].
    intros x Hx. by rewrite list_lookup_insert_ne.
Qed.

(** One conditional assignment to a field of the destination item. *)
Lemma field_step (b : bool) f si di st sit it :
  st !! si = Some (OItem sit) → st !! di = Some (OItem it) → si ≠ di →
  ∃ st', (if b then Ok st else modItem f di st) = Ok st' ∧
         st' !! si = Some (OItem sit) ∧
         st' !! di = Some (OItem (if b then it else f it)) ∧
         length st' = length st ∧ ∀ x, x ≠ di → st' !! x = st !! x.
Proof.
  intros Hs Hd Hne. destruct b; [by exists st|]. by apply modItem_step.
Qed.

(** Lines 122-128 and 154-160 for a source item that is not a
    sub-resource: only the destination item changes. *)
Lemma scalar_fields recur o si di st sit dit :
  st !! si = Some (OItem sit) → st !! di = Some (OItem dit) → si ≠ di →
  isSub (ValueType sit) = false →
  ∃ st', (st ← overrideType o si di st;
          st ← copyDescription si di st;
          mergeFields recur o si di st) = Ok st' ∧
         st' !! di = Some (OItem (mergedScalar o sit dit)) ∧
         length st' = length st ∧ ∀ x, x ≠ di → st' !! x = st !! x.
Proof.
  intros Hs Hd Hne Hsub.
  destruct (field_step (negb (OverrideValueType o))
              (setValueType (ValueType sit)) si di st sit dit Hs Hd Hne)
    as (st1 & H1 & Hs1 & Hd1 & L1 & F1).
  set (d1 := if negb (OverrideValueType o) then _ else _) in Hd1.
  destruct (field_step (String.eqb (Description sit) EmptyString)
              (setDescription (Description sit)) si di st1 sit d1 Hs1 Hd1 Hne)
    as (st2 & H2 & Hs2 & Hd2 & L2 & F2).
  set (d2 := if String.eqb _ _ then _ else _) in Hd2.
  destruct (field_step (isNil (DefaultValue sit))
              (setDefaultValue (DefaultValue sit)) si di st2 sit d2 Hs2 Hd2 Hne)
    as (st3 & H3 & Hs3 & Hd3 & L3 & F3).
  set (d3 := if isNil (DefaultValue sit) then _ else _) in Hd3.
  destruct (field_step (isNil (Value sit))
              (setValue (Value sit)) si di st3 sit d3 Hs3 Hd3 Hne)
    as (st4 & H4 & Hs4 & Hd4 & L4 & F4).
  exists st4. split; [|split; [|split]].
  - assert (overrideType o si di st = Ok st1) as ->.
    { unfold overrideType. rewrite <- H1. destruct (OverrideValueType o).
      - by rewrite (proj2 (getItem_Ok _ _ _) Hs).
      - done. }
    simpl. unfold copyDescription.
    rewrite (proj2 (getItem_Ok _ _ _) Hs1). simpl. rewrite H2. simpl.
    unfold mergeFields.
    rewrite (proj2 (getItem_Ok _ _ _) Hs2). simpl. rewrite Hsub.
    unfold copyScalars. rewrite (proj2 (getItem_Ok _ _ _) Hs2). simpl.
    rewrite H3. simpl. rewrite (proj2 (getItem_Ok _ _ _) Hs3). simpl. done.
  - rewrite Hd4. do 2 f_equal. unfold d3, d2, d1, mergedScalar.
    destruct dit as [k t ds dv v], (OverrideValueType o),
      (String.eqb (Description sit) EmptyString),
      (isNil (DefaultValue sit)), (isNil (Value sit)); reflexivity.
  - lia.
  - intros x Hx. rewrite F4, F3, F2, F1; done.
Qed.

(** The body of the loop on an item that is in the index. *)
Lemma mergeItem_scalar recur d m o si di st sit dit :
  st !! si = Some (OItem sit) → st !! di = Some (OItem dit) → si ≠ di →
  m !! Key sit = Some di → isSub (ValueType sit) = false →
  ∃ st', mergeItem recur d m o si st = Ok st' ∧
         st' !! di = Some (OItem (mergedScalar o sit dit)) ∧
         length st' = length st ∧ ∀ x, x ≠ di → st' !! x = st !! x.
Proof.
  intros Hs Hd Hne Hm Hsub.
  destruct (scalar_fields recur o si di st sit dit Hs Hd Hne Hsub)
    as (st' & H & Hres).
  exists st'. split; [|done].
  unfold mergeItem, findOrAppend.
  rewrite (proj2 (getItem_Ok _ _ _) Hs). simpl. rewrite Hm. simpl. done.
Qed.

(** X8.  When the source and the destination both have an item for a key
    and the source item is not a sub-resource, the merge leaves the
    destination item with: its key; the type of the source item if
    OverrideValueType is set, its own type otherwise; the description, the
    DefaultValue and the Value of the source item where the source has one,
    its own otherwise. *)
Theorem X8_merge_scalar_item (sub : string → bool) (lv : loc → nat) (n : nat)
    (st : store) (d s : loc) (opts : MergeResourceUsagesOpts)
    (dr sr : ResourceUsage) (di si : loc) (dit sit : UsageItem) :
  good sub lv st → st !! d = Some (ORU dr) → st !! s = Some (ORU sr) →
  src_ok lv n (lv d) st s →
  di ∈ Items dr → st !! di = Some (OItem dit) → owned lv st dr di →
  si ∈ Items sr → st !! si = Some (OItem sit) → Key sit = Key dit →
  isSub (ValueType sit) = false →
  ∃ st', mergeResourceUsages (S n) (Some d) (Some s) opts st = Ok st' ∧
         st' !! di = Some (OItem (mergedScalar opts sit dit)).
Proof.
  intros G Hd Hs Hsrc Hdi Hdit Hown Hsi Hsit HK Hsub.
  destruct (merge_item_split sub lv n st d s opts dr sr si sit G Hd Hs Hsrc Hsi Hsit)
    as (m & sa & sb & st' & H & Hsa & Hlv & Hb & Hown').
  destruct (Hown' di dit Hdi Hdit (eq_sym HK) Hown) as (Hm & Hda & Hfin).
  exists st'. split; [done|]. rewrite Hfin.
  assert (lv d < lv di) as Hlt.
  { apply (good_edge _ _ _ G d (ORU dr) di Hd). simpl. done. }
  destruct (mergeItem_scalar (mergeResourceUsages n) d m opts si di sa sit dit)
    as (sb' & Hb' & Hres & _); try done.
  { intros ->. lia. }
  rewrite Hb in Hb'. injection Hb' as <-. done.
Qed.

Lemma X8_witness :
  ∃ st', mergeResourceUsages 2 (Some 7) (Some 0) (mkOpts true) ex_store = Ok st' ∧
         st' !! 8 = Some (OItem (schema.mkUsageItem "requests" schema.Int64
                                   EmptyString (VInt 5) (VInt 100))).
Proof.
  apply (X8_merge_scalar_item ex_sub ex_lv 1 ex_store 7 0 (mkOpts true)
           (mkResourceUsage "aws_eks_cluster.dest" [8; 9])
           (mkResourceUsage "aws_eks_cluster.src" [1; 2])
           8 1
           (schema.mkUsageItem "requests" schema.Int64 EmptyString Nil (VInt 100))
           (schema.mkUsageItem "requests" schema.Int64 EmptyString (VInt 5) Nil)
           ex_store_good).
  - reflexivity.
  - reflexivity.
  - apply src_okb_sound. by vm_compute.
  - set_solver.
  - reflexivity.
  - apply ownedb_sound. by vm_compute.
  - set_solver.
  - reflexivity.
  - reflexivity.
  - reflexivity.
Defined.

(** ** What the merge-back assigns and what it creates *)

Lemma mergeUsageItem_scalar `{C : Collaborators} recur ud i it st :
  st !! i = Some (OItem it) → isSub (ValueType it) = false →
  mergeUsageItem recur ud i st = assign i (scalarLookup ud it) st.
Proof.
  intros H Ht. unfold mergeUsageItem. apply getItem_Ok in H.
  rewrite H. simpl. unfold scalarLookup. by destruct (ValueType it).
Qed.

(** X9.  The merge-back looks a scalar or array item up with the accessor
    of the type of the item (GetInt for Int64, GetFloat for Float64,
    GetString for String, GetStringArray for StringArray) under the key of
    the item; when the accessor finds a value, that value becomes the Value
    of the item and nothing else of the item changes. *)
Theorem X9_merge_back_assigns `{C : Collaborators} (sub : string → bool)
    (B : nat) (lv : loc → nat) (n : nat) (st : store) (r : loc)
    (rr : ResourceUsage) (ud : UsageData) (i : loc) (it : UsageItem) :
  good sub lv st → bounded lv B st → st !! r = Some (ORU rr) →
  B ≤ n + lv r → i ∈ Items rr → owned lv st rr i →
  st !! i = Some (OItem it) → isSub (ValueType it) = false →
  scalarLookup ud it ≠ Nil →
  ∃ st', mergeResourceUsageWithUsageData n (Some r) (Some ud) st = Ok st' ∧
         st' !! i = Some (OItem (setValue (scalarLookup ud it) it)).
Proof.
  intros G Hb Hr Hn Hi Hown Hit Ht Hv.
  destruct (mergeback_split sub B lv n st r rr ud i G Hb Hr Hn Hi Hown)
    as (m & l1 & l2 & sta & lva & stb & lvb & st' & lv' & -> & Hsplit &
        Ia & Hia & Hbd & Ib & _ & _ & _ & Ic & Hic & Hall).
  exists st'. split; [done|]. rewrite Hic.
  rewrite Hit in Hia.
  rewrite (mergeUsageItem_scalar _ _ _ _ _ Hia Ht) in Hbd.
  unfold assign in Hbd.
  destruct (isNil (scalarLookup ud it)) eqn:En.
  { by destruct (scalarLookup ud it). }
  unfold modItem in Hbd. rewrite (proj2 (getItem_Ok _ _ _) Hia) in Hbd.
  simpl in Hbd. injection Hbd as <-.
  apply list_lookup_insert_eq. by eapply lookup_lt_Some.
Qed.

Lemma X9_witness :
  ∃ st',
    mergeResourceUsageWithUsageData (C := exampleCollaborators None) 6
      (Some 0) (Some [("requests"%string, JInt 42)]) ex_tree = Ok st' ∧
    st' !! 1 = Some (ex_item "requests" schema.Int64 Nil (VInt 42)).
Proof.
  apply (X9_merge_back_assigns (C := exampleCollaborators None)
           ex_sub 6 ex_lv 6 ex_tree 0
           (mkResourceUsage "aws_eks_cluster.c" [1; 2])
           [("requests"%string, JInt 42)] 1
           (schema.mkUsageItem "requests" schema.Int64 EmptyString Nil
              (VInt 100))
           ex_tree_good ex_tree_bounded eq_refl).
  - simpl. lia.
  - simpl. set_solver.
  - apply ownedb_sound. by vm_compute.
  - reflexivity.
  - reflexivity.
  - by vm_compute.
Defined.

(** X10.  The merge-back creates no usage item.  Every object it creates is
    a ResourceUsage, and the items of such a ResourceUsage are items that
    existed before (those of a DefaultValue tree, which it then shares with
    that tree); and a sub-resource item that has a Value keeps it. *)
Theorem X10_merge_back_creates_no_item `{C : Collaborators}
    (sub : string → bool) (B : nat) (lv : loc → nat) (n : nat) (st : store)
    (r : loc) (ud : UsageData) :
  good sub lv st → bounded lv B st → isRU st r = true → B ≤ n + lv r →
  ∃ st', mergeResourceUsageWithUsageData n (Some r) (Some ud) st = Ok st' ∧
    (∀ p o, st !! p = None → st' !! p = Some o →
       ∃ rp, o = ORU rp ∧
             ∀ i, i ∈ Items rp → ∃ it, st !! i = Some (OItem it)) ∧
    (∀ l it, st !! l = Some (OItem it) →
       ValueType it = schema.SubResourceUsage → Value it ≠ Nil →
       ∃ it', st' !! l = Some (OItem it') ∧ Value it' = Value it).
Proof.
  intros G Hb Hr Hn.
  destruct (mergeback_spec sub B n st lv r ud G Hb Hr Hn)
    as (st' & lv' & H & [G' _ _ E _] & _).
  exists st'. split; [done|]. split.
  - intros p o Hp Hp'. apply lookup_ge_None in Hp.
    destruct (mbe_new _ _ _ E p o Hp Hp') as [rp ->].
    exists rp. split; [done|]. intros i Hi.
    destruct (good_obj _ _ _ G' p _ Hp') as [Hval _].
    pose proof (Hval i Hi) as Hit. apply isItem_true in Hit as (it' & Hit).
    destruct (decide (i < length st)) as [Hlt|Hge].
    + destruct (lookup_lt_is_Some_2 st i Hlt) as [o Ho].
      destruct (mbe_obj _ _ _ E i o Ho) as (o' & Ho' & OE).
      rewrite Hit in Ho'. injection Ho' as <-.
      destruct o as [?|it]; [done|]. by exists it.
    + destruct (mbe_new _ _ _ E i _ ltac:(lia) Hit) as [? ?]. done.
  - intros l it Hl Ht Hv.
    destruct (mb_ext_item _ _ _ _ _ E Hl)
      as (it' & Hl' & _ & _ & _ & _ & Hkeep & _).
    exists it'. split; [done|]. apply Hkeep; [|done].
    destruct (good_obj _ _ _ G l _ Hl) as (Hsub & _).
    rewrite <- Hsub, Ht. done.
Qed.

Lemma X10_witness :
  ∃ st',
    mergeResourceUsageWithUsageData (C := exampleCollaborators None) 6
      (Some 0) (Some ex_data) ex_tree = Ok st' ∧
    (∀ p o, ex_tree !! p = None → st' !! p = Some o →
       ∃ rp, o = ORU rp ∧
             ∀ i, i ∈ Items rp → ∃ it, ex_tree !! i = Some (OItem it)) ∧
    (∀ l it, ex_tree !! l = Some (OItem it) →
       ValueType it = schema.SubResourceUsage → Value it ≠ Nil →
       ∃ it', st' !! l = Some (OItem it') ∧ Value it' = Value it).
Proof.
  apply (X10_merge_back_creates_no_item (C := exampleCollaborators None)
           ex_sub 6 ex_lv 6 ex_tree 0 ex_data ex_tree_good ex_tree_bounded).
  - reflexivity.
  - simpl. lia.
Defined.

(** ** The names of the ResourceUsages through a sync pass *)

Lemma rus_kept_refl st : rus_kept st st.
Proof. split; [done|]. intros l r H. by exists r. Qed.

Lemma rus_kept_trans st1 st2 st3 :
  rus_kept st1 st2 → rus_kept st2 st3 → rus_kept st1 st3.
Proof.
  intros [L1 H1] [L2 H2]. split; [lia|]. intros l r Hl.
  destruct (H1 l r Hl) as (r' & Hl' & N1).
  destruct (H2 l r' Hl') as (r'' & Hl'' & N2).
  exists r''. split; [done|congruence].
Qed.

Lemma rus_kept_snoc st x : rus_kept st (st ++ [x]).
Proof.
  split; [rewrite length_app; lia|]. intros l r H. exists r.
  split; [by apply lookup_snoc_old|done].
Qed.

Lemma rus_kept_insert_ru st p r r' :
  st !! p = Some (ORU r) → Name r' = Name r →
  rus_kept st (<[p := ORU r']> st).
Proof.
  intros Hp HN. split; [by rewrite length_insert|]. intros l x Hl.
  destruct (decide (l = p)) as [->|Hne].
  - rewrite Hp in Hl. injection Hl as <-. exists r'. split; [|done].
    apply list_lookup_insert_eq. by eapply lookup_lt_Some.
  - exists x. by rewrite list_lookup_insert_ne.
Qed.

Lemma rus_kept_modItem f i st st' : modItem f i st = Ok st' → rus_kept st st'.
Proof.
  unfold modItem. intros H. apply bind_Ok in H as (it & Hit & H).
  apply getItem_Ok in Hit. injection H as <-.
  split; [by rewrite length_insert|]. intros l r Hl. exists r.
  rewrite list_lookup_insert_ne; [done|]. intros ->. congruence.
Qed.

Lemma rus_kept_if (b : bool) f i st st' :
  (if b then Ok st else modItem f i st) = Ok st' → rus_kept st st'.
Proof.
  destruct b; intros H.
  - injection H as <-. apply rus_kept_refl.
  - by eapply rus_kept_modItem.
Qed.

Section MergeNames.

Variable recur : option loc → option loc → MergeResourceUsagesOpts →
                 store → res store.
Hypothesis recur_kept : ∀ d s o st st',
  recur d s o st = Ok st' → rus_kept st st'.

Lemma mergeSubDefault_names o si di st st' :
  mergeSubDefault recur o si di st = Ok st' → rus_kept st st'.
Proof.
  unfold mergeSubDefault. intros H. apply bind_Ok in H as (s & _ & H).
  destruct (isNil (DefaultValue s)).
  { injection H as <-. apply rus_kept_refl. }
  apply bind_Ok in H as (sp & _ & H). apply bind_Ok in H as (d0 & _ & H).
  apply bind_Ok in H as (st1 & H1 & H). apply bind_Ok in H as (d1 & _ & H).
  apply bind_Ok in H as (dp & _ & H).
  eapply rus_kept_trans; [|by eapply recur_kept].
  destruct (isNil (DefaultValue d0)).
  - apply bind_Ok in H1 as (r & _ & H1). simpl in H1.
    eapply rus_kept_trans; [apply rus_kept_snoc|by eapply rus_kept_modItem].
  - injection H1 as <-. apply rus_kept_refl.
Qed.

Lemma mergeSubValue_names o si di st st' :
  mergeSubValue recur o si di st = Ok st' → rus_kept st st'.
Proof.
  unfold mergeSubValue. intros H. apply bind_Ok in H as (s & _ & H).
  destruct (isNil (Value s)).
  { injection H as <-. apply rus_kept_refl. }
  apply bind_Ok in H as (sp & _ & H). apply bind_Ok in H as (d0 & _ & H).
  apply bind_Ok in H as (st1 & H1 & H). apply bind_Ok in H as (d1 & _ & H).
  apply bind_Ok in H as (st2 & H2 & H). apply bind_Ok in H as (d2 & _ & H).
  apply bind_Ok in H as (dp & _ & H).
  eapply rus_kept_trans; [|by eapply recur_kept].
  apply (rus_kept_trans _ st1).
  - destruct (isNil (Value d0)).
    + by eapply rus_kept_modItem.
    + injection H1 as <-. apply rus_kept_refl.
  - destruct (isNil (Value d1)).
    + apply bind_Ok in H2 as (r & _ & H2). simpl in H2.
      eapply rus_kept_trans; [apply rus_kept_snoc|by eapply rus_kept_modItem].
    + injection H2 as <-. apply rus_kept_refl.
Qed.

Lemma mergeItem_names d m o si st st' :
  mergeItem recur d m o si st = Ok st' → rus_kept st st'.
Proof.
  unfold mergeItem. intros H.
  apply bind_Ok in H as ([di st1] & H1 & H).
  apply bind_Ok in H as (st2 & H2 & H). apply bind_Ok in H as (st3 & H3 & H).
  apply (rus_kept_trans _ st1).
  { unfold findOrAppend in H1. apply bind_Ok in H1 as (s & _ & H1).
    destruct (m !! Key s).
    - injection H1 as _ <-. apply rus_kept_refl.
    - simpl in H1. apply bind_Ok in H1 as (r & Hr & H1).
      apply getRU_Ok in Hr. injection H1 as _ <-.
      eapply rus_kept_trans; [apply rus_kept_snoc|].
      by eapply rus_kept_insert_ru. }
  apply (rus_kept_trans _ st2).
  { unfold overrideType in H2. destruct (OverrideValueType o).
    - apply bind_Ok in H2 as (s & _ & H2). by eapply rus_kept_modItem.
    - injection H2 as <-. apply rus_kept_refl. }
  apply (rus_kept_trans _ st3).
  { unfold copyDescription in H3. apply bind_Ok in H3 as (s & _ & H3).
    by eapply rus_kept_if. }
  unfold mergeFields in H. apply bind_Ok in H as (s & _ & H).
  destruct (isSub (ValueType s)).
  - apply bind_Ok in H as (st4 & H4 & H).
    eapply rus_kept_trans; [by eapply mergeSubDefault_names|].
    by eapply mergeSubValue_names.
  - unfold copyScalars in H. apply bind_Ok in H as (s0 & _ & H).
    apply bind_Ok in H as (st4 & H4 & H). apply bind_Ok in H as (s1 & _ & H).
    eapply rus_kept_trans; by eapply rus_kept_if.
Qed.

End MergeNames.

Lemma forEach_names {A} (f : A → store → res store) l :
  (∀ x st st', f x st = Ok st' → rus_kept st st') →
  ∀ st st', forEach f l st = Ok st' → rus_kept st st'.
Proof.
  intros Hf. induction l as [|x l IH]; intros st st' H; simpl in H.
  - injection H as <-. apply rus_kept_refl.
  - apply bind_Ok in H as (st1 & H1 & H).
    eapply rus_kept_trans; [by eapply Hf|by apply IH].
Qed.

Lemma merge_names n : ∀ d s o st st',
  mergeResourceUsages n d s o st = Ok st' → rus_kept st st'.
Proof.
  induction n as [|n IH]; intros d s o st st' H; [done|].
  cbn [mergeResourceUsages] in H.
  destruct d as [d|], s as [s|];
    try (injection H as <-; apply rus_kept_refl).
  apply bind_Ok in H as (dr & _ & H). apply bind_Ok in H as (m & _ & H).
  apply bind_Ok in H as (sr & _ & H).
  revert H. apply forEach_names. intros si st1 st2.
  apply mergeItem_names. intros. by eapply IH.
Qed.

Section MergeBackNames.

Context `{C : Collaborators}.
Variable recur : option loc → option UsageData → store → res store.
Hypothesis recur_kept : ∀ r u st st',
  recur r u st = Ok st' → rus_kept st st'.

Lemma assign_names i v st st' : assign i v st = Ok st' → rus_kept st st'.
Proof. apply rus_kept_if. Qed.

Lemma mergeUsageItem_names ud i st st' :
  mergeUsageItem recur ud i st = Ok st' → rus_kept st st'.
Proof.
  unfold mergeUsageItem. intros H. apply bind_Ok in H as (it & _ & H).
  destruct (ValueType it); try by eapply assign_names.
  unfold mergeSubUsage in H. apply bind_Ok in H as (base & _ & H).
  apply bind_Ok in H as ([sr st1] & H1 & H).
  apply bind_Ok in H as (st2 & H2 & H).
  apply (rus_kept_trans _ st1).
  { destruct (isNil (Value it) && negb (isNil (DefaultValue it))).
    - unfold materialise in H1. apply bind_Ok in H1 as (d & _ & H1).
      apply bind_Ok in H1 as (dr & _ & H1).
      apply bind_Ok in H1 as (kept & _ & H1). simpl in H1.
      injection H1 as _ <-. apply rus_kept_snoc.
    - injection H1 as _ <-. apply rus_kept_refl. }
  apply (rus_kept_trans _ st2).
  { destruct sr; [by eapply recur_kept|].
    injection H2 as <-. apply rus_kept_refl. }
  destruct sr; [by eapply assign_names|].
  injection H as <-. apply rus_kept_refl.
Qed.

End MergeBackNames.

Lemma mergeback_names `{C : Collaborators} n : ∀ r u st st',
  mergeResourceUsageWithUsageData n r u st = Ok st' → rus_kept st st'.
Proof.
  induction n as [|n IH]; intros r u st st' H; [done|].
  cbn [mergeResourceUsageWithUsageData] in H.
  destruct u as [ud|]; [|injection H as <-; apply rus_kept_refl].
  apply bind_Ok in H as (rr & _ & H).
  revert H. apply forEach_names. intros i st1 st2.
  apply mergeUsageItem_names. intros. by eapply IH.
Qed.

(** ** The result of a sync pass *)

Section SyncResult.

Context `{C : Collaborators}.
Variable fuel : nat.
Variable referenceFile : ReferenceFile.
Variable existing : gmap string loc.

Lemma build_names resource st d st1 :
  buildResourceUsage fuel referenceFile existing resource st = Ok (d, st1) →
  d = length st ∧ rus_kept st st1 ∧
  ∃ r, st1 !! d = Some (ORU r) ∧ Name r = schema.Name resource.
Proof.
  unfold buildResourceUsage. simpl. intros H.
  apply bind_Ok in H as (st2 & H2 & H). simpl in H.
  apply bind_Ok in H as (st3 & H3 & H).
  apply bind_Ok in H as (st4 & H4 & H). injection H as <- <-.
  set (sta := st ++ [ORU (mkResourceUsage (schema.Name resource) [])]) in *.
  assert (rus_kept sta st4) as [L K].
  { apply (rus_kept_trans _ st2).
    { destruct (FindMatchingResourceUsage referenceFile sta
                  (schema.Name resource)).
      - by eapply merge_names.
      - injection H2 as <-. apply rus_kept_refl. }
    apply (rus_kept_trans _ st3).
    { eapply rus_kept_trans; [apply rus_kept_snoc|by eapply merge_names]. }
    destruct (existing !! schema.Name resource).
    - by eapply merge_names.
    - injection H4 as <-. apply rus_kept_refl. }
  split; [done|]. split.
  - eapply rus_kept_trans; [apply rus_kept_snoc|by split].
  - destruct (K (length st) (mkResourceUsage (schema.Name resource) []))
      as (r & Hr & HN); [|by exists r].
    unfold sta. by rewrite lookup_app_r, Nat.sub_diag by lia.
Qed.

Lemma estimate_inv resource d syncResult st syncResult' st' :
  estimate fuel resource d syncResult st = Ok (syncResult', st') →
  rus_kept st st' ∧
  match schema.EstimateUsage resource with
  | None => EstimationErrors syncResult' = EstimationErrors syncResult
  | Some estimateUsage =>
      ∃ m, EstimationErrors syncResult' =
             match (estimateUsage m).2 with
             | Some e => <[schema.Name resource := e]>
                           (EstimationErrors syncResult)
             | None => EstimationErrors syncResult
             end
  end.
Proof.
  unfold estimate. destruct (schema.EstimateUsage resource) as [est|].
  - intros H. apply bind_Ok in H as (m & _ & H).
    destruct (est m) as [m' err] eqn:Em.
    apply bind_Ok in H as (st1 & H1 & H). injection H as <- <-.
    split; [by eapply mergeback_names|]. exists m. rewrite Em. simpl.
    by destruct err.
  - intros [= <- <-]. split; [apply rus_kept_refl|done].
Qed.

(** The loop of lines 54-96. *)
Lemma syncResources_inv resources :
  ∀ syncResult rus st syncResult' rus' st',
    syncResources fuel referenceFile existing resources
      (syncResult, rus, st) = Ok (syncResult', rus', st') →
    rus_kept st st' ∧
    (∃ new, rus' = rus ++ new ∧
       namesOf st' new = Ok (schema.Name <$> resources) ∧
       (∀ p, p ∈ new → length st ≤ p) ∧ NoDup new) ∧
    (∀ name e, EstimationErrors syncResult' !! name = Some e →
       EstimationErrors syncResult !! name = Some e ∨
       ∃ r estimateUsage m, r ∈ resources ∧ schema.Name r = name ∧
         schema.EstimateUsage r = Some estimateUsage ∧
         (estimateUsage m).2 = Some e) ∧
    (∀ name, is_Some (EstimationErrors syncResult !! name) →
       is_Some (EstimationErrors syncResult' !! name)) ∧
    (∀ r estimateUsage, r ∈ resources →
       schema.EstimateUsage r = Some estimateUsage →
       (∀ m, (estimateUsage m).2 ≠ None) →
       is_Some (EstimationErrors syncResult' !! schema.Name r)).
Proof.
  induction resources as [|r rs IH]; intros sr rus st sr' rus' st' H.
  { injection H as <- <- <-. split; [apply rus_kept_refl|].
    split; [exists []; rewrite app_nil_r; repeat split; try done;
            [by intros p ?%elem_of_nil|constructor]|].
    split; [by left|]. split; [done|]. by intros r est ?%elem_of_nil. }
  cbn [syncResources] in H.
  apply bind_Ok in H as ([[sr1 rus1] st1] & H1 & H).
  unfold syncResource in H1.
  apply bind_Ok in H1 as ([d sta] & Hb & H1).
  apply bind_Ok in H1 as ([sr1' st1'] & He & H1).
  injection H1 as <- <- <-.
  destruct (build_names _ _ _ _ Hb) as (-> & Ka & r0 & Hr0 & HN0).
  destruct (estimate_inv _ _ _ _ _ _ He) as [Kb Herr].
  destruct (IH _ _ _ _ _ _ H)
    as (Kc & (new & -> & Hnames & Hnew & Hnd) & Hfrom & Hmono & Hfail).
  pose proof (rus_kept_trans _ _ _ Ka Kb) as Kab.
  destruct Kb as [Lb Kb']. destruct (Kb' _ _ Hr0) as (r1 & Hr1 & HN1).
  destruct Kc as [Lc Kc']. destruct (Kc' _ _ Hr1) as (r2 & Hr2 & HN2).
  pose proof (lookup_lt_Some _ _ _ Hr1) as Hlt.
  split; [eapply rus_kept_trans; [exact Kab|by split]|].
  split; [|split; [|split]].
  - exists (length st :: new). split; [by rewrite <- app_assoc|].
    split; [|split].
    + simpl. rewrite (proj2 (getRU_Ok _ _ _) Hr2). simpl.
      rewrite Hnames. simpl. do 2 f_equal. congruence.
    + intros p [->|Hp]%elem_of_cons; [done|].
      apply Hnew in Hp. lia.
    + apply NoDup_cons. split; [|done]. intros Hp%Hnew. lia.
  - intros name e Hs.
    assert (EstimationErrors sr1' !! name = Some e →
            EstimationErrors sr !! name = Some e ∨
            ∃ est m, schema.Name r = name ∧
              schema.EstimateUsage r = Some est ∧ (est m).2 = Some e)
      as Hhead.
    { destruct (schema.EstimateUsage r) as [est|]; simpl in Herr.
      - destruct Herr as [m Herr]. rewrite Herr.
        destruct ((est m).2) as [e0|] eqn:Ee; [|by left].
        destruct (decide (schema.Name r = name)) as [<-|Hne].
        + rewrite lookup_insert_eq. intros [= <-]. right. by exists est, m.
        + rewrite lookup_insert_ne by done. by left.
      - rewrite Herr. by left. }
    destruct (Hfrom name e Hs) as [H0|(r' & est & m & Hin & ? & ? & ?)].
    + destruct (Hhead H0) as [?|(est & m & ? & ? & ?)]; [by left|].
      right. exists r, est, m. split; [left|done].
    + right. exists r', est, m. split; [by right|done].
  - intros name Hs. apply Hmono.
    destruct (schema.EstimateUsage r) as [est|]; simpl in Herr.
    + destruct Herr as [m Herr]. rewrite Herr.
      destruct ((est m).2) as [e0|]; [|done].
      destruct (decide (schema.Name r = name)) as [<-|Hne].
      * rewrite lookup_insert_eq. by eexists.
      * by rewrite lookup_insert_ne.
    + by rewrite Herr.
  - intros r' est [->|Hin]%elem_of_cons Hest Hall; [|by eapply Hfail].
    apply Hmono. rewrite Hest in Herr. destruct Herr as [m Herr].
    rewrite Herr. destruct ((est m).2) as [e0|] eqn:Ee.
    + rewrite lookup_insert_eq. by eexists.
    + by destruct (Hall m).
Qed.

End SyncResult.

Lemma syncResourceUsages_inv `{C : Collaborators} `{S : SliceSort}
    fuel usageFile resources referenceFile st syncResult usageFile' st' :
  syncResourceUsages fuel usageFile resources referenceFile st =
    Ok (syncResult, usageFile', st') →
  ∃ existing rus,
    syncResources fuel referenceFile existing resources
      (mkSyncResult 0 0 ∅, [], st) = Ok (syncResult, rus, st') ∧
    ResourceUsages usageFile' ≡ₚ rus.
Proof.
  unfold syncResourceUsages. intros H.
  apply bind_Ok in H as (existing & _ & H).
  apply bind_Ok in H as (eo & _ & H).
  apply bind_Ok in H as ([[sr rus] st1] & H1 & H).
  apply bind_Ok in H as (out & Hs & H). injection H as <- <- <-.
  exists existing, rus. split; [done|]. simpl.
  unfold sortResourceUsages in Hs.
  destruct (forallb _ _); [|done]. injection Hs as <-. apply sortSlice_perm.
Qed.

(** X11.  A sync pass changes no object that existed before it (the trees
    of the usage file it is given and the reference trees are read only).
    The usage file it leaves lists, in some order, one newly allocated
    ResourceUsage per resource, each named after its resource. *)
Theorem X11_sync_builds_fresh_usages `{C : Collaborators} `{S : SliceSort}
    (sub : string → bool) (referenceFile : ReferenceFile)
    (usageFile : UsageFile) (resources : list (schema.Resource UsageMap))
    (st : store) :
  sync_wf sub referenceFile usageFile resources st →
  ∃ syncResult usageFile' st' rus,
    converges (fun f => syncResourceUsages f usageFile resources
                          referenceFile st)
      (syncResult, usageFile', st') ∧
    (∀ l, l < length st → st' !! l = st !! l) ∧
    ResourceUsages usageFile' ≡ₚ rus ∧
    namesOf st' rus = Ok (schema.Name <$> resources) ∧
    NoDup rus ∧ (∀ p, p ∈ rus → st !! p = None).
Proof.
  intros Hwf.
  destruct (syncResourceUsages_converges sub referenceFile usageFile
              resources st Hwf)
    as (sr & uf' & st' & [f0 H] & _ & _ & [_ P] & _).
  destruct (syncResourceUsages_inv _ _ _ _ _ _ _ _ (H f0 (le_n _)))
    as (existing & rus & Hs & Hperm).
  destruct (syncResources_inv _ _ _ _ _ _ _ _ _ _ Hs)
    as (_ & (new & Hrus & Hnames & Hnew & Hnd) & _).
  simpl in Hrus. subst new.
  exists sr, uf', st', rus. split; [by exists f0|].
  repeat (split; [done|]).
  intros p Hp. apply lookup_ge_None. by apply Hnew.
Qed.

Lemma X11_witness :
  ∃ syncResult usageFile' st' rus,
    converges (fun f =>
      syncResourceUsages (C := exampleCollaborators (Some []))
        (S := insertionSlice) f ex_usageFile [ex_A; ex_B] [] ex_sync)
      (syncResult, usageFile', st') ∧
    (∀ l, l < length ex_sync → st' !! l = ex_sync !! l) ∧
    ResourceUsages usageFile' ≡ₚ rus ∧
    namesOf st' rus = Ok ["aws_lambda_function.a"; "aws_s3_bucket.b"]%string ∧
    NoDup rus ∧ (∀ p, p ∈ rus → ex_sync !! p = None).
Proof.
  apply (X11_sync_builds_fresh_usages (C := exampleCollaborators (Some []))
           (S := insertionSlice) ex_sub [] ex_usageFile [ex_A; ex_B] ex_sync).
  exact ex_sync_wf.
Defined.

(** X12.  EstimationErrors holds an entry under a name only if the
    estimation of a resource of that name returned that error, and it holds
    an entry under the name of every resource whose estimation fails. *)
Theorem X12_estimation_errors `{C : Collaborators} `{S : SliceSort}
    (sub : string → bool) (referenceFile : ReferenceFile)
    (usageFile : UsageFile) (resources : list (schema.Resource UsageMap))
    (st : store) :
  sync_wf sub referenceFile usageFile resources st →
  ∃ syncResult usageFile' st',
    converges (fun f => syncResourceUsages f usageFile resources
                          referenceFile st)
      (syncResult, usageFile', st') ∧
    (∀ name e, EstimationErrors syncResult !! name = Some e →
       ∃ r estimateUsage m, r ∈ resources ∧ schema.Name r = name ∧
         schema.EstimateUsage r = Some estimateUsage ∧
         (estimateUsage m).2 = Some e) ∧
    (∀ r estimateUsage, r ∈ resources →
       schema.EstimateUsage r = Some estimateUsage →
       (∀ m, (estimateUsage m).2 ≠ None) →
       is_Some (EstimationErrors syncResult !! schema.Name r)).
Proof.
  intros Hwf.
  destruct (syncResourceUsages_converges sub referenceFile usageFile
              resources st Hwf)
    as (sr & uf' & st' & [f0 H] & _).
  destruct (syncResourceUsages_inv _ _ _ _ _ _ _ _ (H f0 (le_n _)))
    as (existing & rus & Hs & _).
  destruct (syncResources_inv _ _ _ _ _ _ _ _ _ _ Hs)
    as (_ & _ & Hfrom & _ & Hfail).
  exists sr, uf', st'. split; [by exists f0|]. split; [|done].
  intros name e He. destruct (Hfrom name e He) as [Habs|?]; [|done].
  simpl in Habs. by rewrite lookup_empty in Habs.
Qed.

Lemma X12_witness :
  ∃ syncResult usageFile' st',
    converges (fun f =>
      syncResourceUsages (C := exampleCollaborators (Some []))
        (S := insertionSlice) f ex_usageFile [ex_A; ex_B] [] ex_sync)
      (syncResult, usageFile', st') ∧
    (∀ name e, EstimationErrors syncResult !! name = Some e →
       ∃ r estimateUsage m, r ∈ [ex_A; ex_B] ∧ schema.Name r = name ∧
         schema.EstimateUsage r = Some estimateUsage ∧
         (estimateUsage m).2 = Some e) ∧
    (∀ r estimateUsage, r ∈ [ex_A; ex_B] →
       schema.EstimateUsage r = Some estimateUsage →
       (∀ m, (estimateUsage m).2 ≠ None) →
       is_Some (EstimationErrors syncResult !! schema.Name r)).
Proof.
  apply (X12_estimation_errors (C := exampleCollaborators (Some []))
           (S := insertionSlice) ex_sub [] ex_usageFile [ex_A; ex_B] ex_sync).
  exact ex_sync_wf.
Defined.

(** ** The items that a merge appends *)

Lemma mergedScalar_fresh o s :
  mergedScalar o s
    (schema.mkUsageItem (Key s) (ValueType s) EmptyString Nil Nil) = s.
Proof.
  destruct s as [k t ds dv v]. unfold mergedScalar. simpl.
  destruct (OverrideValueType o), (String.eqb_spec ds EmptyString), dv, v;
    subst; reflexivity.
Qed.

Lemma filter_ext_in {A} (P Q : A → Prop) `{∀ x, Decision (P x)}
    `{∀ x, Decision (Q x)} (l : list A) :
  (∀ x, x ∈ l → P x ↔ Q x) → filter P l = filter Q l.
Proof.
  induction l as [|x l IH]; intros Hl; [done|].
  rewrite !filter_cons.
  rewrite IH by (intros y Hy; apply Hl; by right).
  destruct (decide (P x)) as [Hp|Hp], (decide (Q x)) as [Hq|Hq]; try done.
  - destruct Hq. apply Hl; [left|done].
  - destruct Hp. apply Hl; [left|done].
Qed.

Lemma keysOf_ext st st' l :
  (∀ i, i ∈ l → st' !! i = st !! i) → keysOf st' l = keysOf st l.
Proof.
  intros H. unfold keysOf. apply map_ext_in. intros i Hi%list_elem_of_In.
  unfold keyOf. by rewrite (H i Hi).
Qed.

Section AppendLoop.

Variable recur : option loc → option loc → MergeResourceUsagesOpts →
                 store → res store.
Variable d : loc.
Variable m : gmap string loc.
Variable o : MergeResourceUsagesOpts.
Variable name : string.
Variable dI : list loc.
Hypothesis index_in : ∀ k dj, m !! k = Some dj → dj ∈ dI.

Lemma unindexed_ext st st' l :
  (∀ si, si ∈ l → st' !! si = st !! si) →
  unindexed m st' l = unindexed m st l.
Proof.
  intros H. apply filter_ext_in. intros si Hsi. unfold keyOf.
  by rewrite (H si Hsi).
Qed.

(** One iteration of the loop of lines 115-162 for a source item that is
    not a sub-resource. *)
Lemma scalar_step si sit st new :
  st !! d = Some (ORU (mkResourceUsage name (dI ++ new))) →
  (∀ dj, dj ∈ dI → isItem st dj = true) →
  st !! si = Some (OItem sit) → isSub (ValueType sit) = false →
  si ∉ dI →
  ∃ st1, mergeItem recur d m o si st = Ok st1 ∧
    match m !! Key sit with
    | Some dj =>
        ∃ dit, st !! dj = Some (OItem dit) ∧
          st1 !! dj = Some (OItem (mergedScalar o sit dit)) ∧
          length st1 = length st ∧ ∀ x, x ≠ dj → st1 !! x = st !! x
    | None =>
        length st1 = S (length st) ∧
        st1 !! d = Some (ORU (mkResourceUsage name
                     (dI ++ new ++ [length st]))) ∧
        st1 !! length st = Some (OItem sit) ∧
        ∀ x, x < length st → x ≠ d → st1 !! x = st !! x
    end.
Proof.
  intros Hd HdI Hsi Hsub Hdisj.
  pose proof (lookup_lt_Some _ _ _ Hsi) as Hsilt.
  pose proof (lookup_lt_Some _ _ _ Hd) as Hdlt.
  assert (si ≠ d) as Hsd by (intros ->; congruence).
  destruct (m !! Key sit) as [dj|] eqn:Hm.
  - pose proof (index_in _ _ Hm) as Hdj.
    destruct (proj1 (isItem_true _ _) (HdI dj Hdj)) as (dit & Hdit).
    assert (si ≠ dj) as Hne by (intros ->; done).
    destruct (mergeItem_scalar recur d m o si dj st sit dit Hsi Hdit Hne Hm
                Hsub) as (st1 & H1 & Hres & L1 & F1).
    exists st1. split; [done|]. by exists dit.
  - set (fresh := schema.mkUsageItem (Key sit) (ValueType sit) EmptyString
                    Nil Nil).
    set (p := length st).
    set (sa := st ++ [OItem fresh]).
    set (sb := <[d := ORU (mkResourceUsage name ((dI ++ new) ++ [p]))]> sa).
    assert (sa !! d = Some (ORU (mkResourceUsage name (dI ++ new)))) as Hda.
    { unfold sa. by rewrite lookup_app_l. }
    assert (sb !! si = Some (OItem sit)) as Hsib.
    { unfold sb, sa. rewrite list_lookup_insert_ne by done.
      by rewrite lookup_app_l. }
    assert (sb !! p = Some (OItem fresh)) as Hpb.
    { unfold sb, sa, p. rewrite list_lookup_insert_ne by lia.
      by rewrite lookup_app_r, Nat.sub_diag by lia. }
    assert (si ≠ p) as Hsp by (unfold p; lia).
    destruct (scalar_fields recur o si p sb sit fresh Hsib Hpb Hsp Hsub)
      as (st1 & H1 & Hres & L1 & F1).
    rewrite mergedScalar_fresh in Hres.
    exists st1. split; [|split; [|split; [|split]]].
    + unfold mergeItem, findOrAppend.
      rewrite (proj2 (getItem_Ok _ _ _) Hsi). simpl. rewrite Hm.
      unfold alloc. fold fresh. fold sa. fold p.
      rewrite (proj2 (getRU_Ok _ _ _) Hda). simpl. exact H1.
    + rewrite L1. unfold sb, sa. rewrite length_insert, length_app.
      simpl. lia.
    + rewrite F1 by (unfold p; lia). unfold sb.
      rewrite list_lookup_insert_eq by (unfold sa; rewrite length_app; lia).
      by rewrite <- app_assoc.
    + done.
    + intros x Hx Hxd. rewrite F1 by (unfold p; lia). unfold sb, sa.
      rewrite list_lookup_insert_ne by done. by rewrite lookup_app_l.
Qed.

(** The loop, for a source whose items are not sub-resources. *)
Lemma forEach_scalar l : ∀ st new,
  st !! d = Some (ORU (mkResourceUsage name (dI ++ new))) →
  (∀ dj, dj ∈ dI → isItem st dj = true) →
  (∀ si, si ∈ l → ∃ sit, st !! si = Some (OItem sit) ∧
                         isSub (ValueType sit) = false) →
  (∀ si, si ∈ l → si ∉ dI) →
  ∃ st', forEach (mergeItem recur d m o) l st = Ok st' ∧
    length st' = length st + length (unindexed m st l) ∧
    st' !! d = Some (ORU (mkResourceUsage name
                 (dI ++ new ++
                  seq (length st) (length (unindexed m st l))))) ∧
    (∀ j si, unindexed m st l !! j = Some si →
       st' !! (length st + j) = st !! si) ∧
    (∀ x, x < length st → x ≠ d → x ∉ dI → st' !! x = st !! x) ∧
    (∀ dj, dj ∈ dI → (∀ si, si ∈ l → m !! keyOf st si ≠ Some dj) →
       st' !! dj = st !! dj) ∧
    (NoDup (keysOf st l) →
     (∀ k dj, m !! k = Some dj → keyOf st dj = k) →
     ∀ si sit dj dit, si ∈ l → st !! si = Some (OItem sit) →
       m !! Key sit = Some dj → st !! dj = Some (OItem dit) →
       st' !! dj = Some (OItem (mergedScalar o sit dit))).
Proof.
  induction l as [|si l IH]; intros st new Hd HdI Hl Hdisj.
  { exists st. simpl. rewrite app_nil_r, Nat.add_0_r.
    repeat split; try done. intros _ _ si sit dj dit Hsi.
    by apply elem_of_nil in Hsi. }
  destruct (Hl si) as (sit & Hsi & Hsub); [left|].
  pose proof (lookup_lt_Some _ _ _ Hd) as Hdlt.
  assert (∀ x, x ∈ l → x < length st ∧ x ≠ d ∧ x ∉ dI) as Hsrc.
  { intros x Hx. destruct (Hl x) as (xt & Hxt & _); [by right|].
    split; [by eapply lookup_lt_Some|]. split; [intros ->; congruence|].
    apply Hdisj. by right. }
  assert (∀ x, x ∈ dI → x < length st ∧ x ≠ d) as HdI'.
  { intros x Hx. apply HdI, isItem_true in Hx as (xt & Hxt).
    split; [by eapply lookup_lt_Some|]. intros ->. congruence. }
  destruct (scalar_step si sit st new Hd HdI Hsi Hsub) as (st1 & H1 & Hcase).
  { apply Hdisj. left. }
  unfold unindexed at 1 2 3. rewrite filter_cons.
  rewrite (keyOf_item _ _ _ Hsi). fold (unindexed m st l).
  destruct (m !! Key sit) as [dj0|] eqn:Hm.
  - destruct Hcase as (dit0 & Hdit0 & Hres & L1 & F1).
    pose proof (index_in _ _ Hm) as Hdj0.
    assert (∀ x, x ∈ l → st1 !! x = st !! x) as Hsame.
    { intros x Hx. apply F1. intros ->.
      by destruct (Hsrc dj0 Hx) as (_ & _ & ?). }
    destruct (IH st1 new) as (st' & H & L & Hd' & Hnew & Hfr & Hun & Hfd).
    + rewrite F1; [done|]. by destruct (HdI' dj0 Hdj0).
    + intros x Hx. apply isItem_true.
      destruct (decide (x = dj0)) as [->|Hx']; [by eexists|].
      rewrite F1 by done. by apply isItem_true, HdI.
    + intros x Hx. destruct (Hl x) as (xt & Hxt & Hxs); [by right|].
      exists xt. by rewrite Hsame.
    + intros x Hx. apply Hdisj. by right.
    + rewrite (unindexed_ext st st1 l Hsame), L1 in L, Hd', Hnew.
      rewrite L1 in Hfr.
      assert (∀ x, x ∈ l → keyOf st1 x = keyOf st x) as HKs.
      { intros x Hx. unfold keyOf. by rewrite Hsame. }
      exists st'. split; [simpl; by rewrite H1|].
      rewrite decide_False by (intros ?; congruence).
      split; [done|]. split; [done|]. split; [|split; [|split]].
      * intros j x Hj. rewrite (Hnew j x Hj). apply Hsame.
        by apply list_elem_of_lookup_2, list_elem_of_filter in Hj as [_ Hx].
      * intros x Hx Hxd HxI. rewrite Hfr by done. apply F1.
        intros ->. done.
      * intros dj Hdj Hmiss.
        assert (dj ≠ dj0) as Hne.
        { intros ->. apply (Hmiss si); [left|].
          by rewrite (keyOf_item _ _ _ Hsi). }
        rewrite Hun; [by apply F1|done|].
        intros x Hx. rewrite HKs by done. apply Hmiss. by right.
      * intros Hnd Hidx x xt dj dit Hx Hxt Hmx Hdit.
        unfold keysOf in Hnd. simpl in Hnd. fold (keysOf st l) in Hnd.
        apply NoDup_cons in Hnd as [Hhead Hnd].
        rewrite (keyOf_item _ _ _ Hsi) in Hhead.
        apply elem_of_cons in Hx as [->|Hx].
        -- rewrite Hsi in Hxt. injection Hxt as <-.
           rewrite Hm in Hmx. injection Hmx as <-.
           rewrite Hdit0 in Hdit. injection Hdit as <-.
           rewrite Hun; [done|done|].
           intros y Hy Hmy. rewrite HKs in Hmy by done.
           apply Hhead. rewrite <- (Hidx _ _ Hm), (Hidx _ _ Hmy).
           by apply keyOf_in_keysOf.
        -- assert (dj ≠ dj0) as Hne.
           { intros ->. apply Hhead.
             rewrite <- (Hidx _ _ Hm), (Hidx _ _ Hmx),
               <- (keyOf_item _ _ _ Hxt).
             by apply keyOf_in_keysOf. }
           apply (Hfd) with (si := x) (sit := xt); try done.
           ++ by rewrite (keysOf_ext st st1 l Hsame).
           ++ intros k y Hk. rewrite <- (Hidx k y Hk). unfold keyOf.
              destruct (decide (y = dj0)) as [->|Hy].
              ** rewrite Hres, Hdit0. done.
              ** by rewrite F1.
           ++ by rewrite Hsame.
           ++ by rewrite F1.
  - destruct Hcase as (L1 & Hd1 & Hp & Hold).
    assert (∀ x, x ∈ l → st1 !! x = st !! x) as Hsame.
    { intros x Hx. destruct (Hsrc x Hx) as (? & ? & _). by apply Hold. }
    assert (∀ x, x ∈ dI → st1 !! x = st !! x) as HsameI.
    { intros x Hx. destruct (HdI' x Hx) as [? ?]. by apply Hold. }
    destruct (IH st1 (new ++ [length st]))
      as (st' & H & L & Hd' & Hnew & Hfr & Hun & Hfd).
    + done.
    + intros x Hx. apply isItem_true. rewrite HsameI by done.
      by apply isItem_true, HdI.
    + intros x Hx. destruct (Hl x) as (xt & Hxt & Hxs); [by right|].
      exists xt. by rewrite Hsame.
    + intros x Hx. apply Hdisj. by right.
    + rewrite (unindexed_ext st st1 l Hsame), L1 in L, Hd', Hnew.
      rewrite L1 in Hfr.
      assert (∀ x, x ∈ l → keyOf st1 x = keyOf st x) as HKs.
      { intros x Hx. unfold keyOf. by rewrite Hsame. }
      exists st'. split; [simpl; by rewrite H1|].
      rewrite decide_True by done. simpl.
      split; [lia|]. split; [by rewrite <- app_assoc in Hd'|].
      split; [|split; [|split]].
      * intros [|j] x Hj.
        -- simpl in Hj. injection Hj as <-. rewrite Nat.add_0_r.
           rewrite Hfr; [by rewrite Hp| lia | lia |].
           intros Hin. destruct (HdI' _ Hin). lia.
        -- simpl in Hj. pose proof (Hnew j x Hj) as Hj'.
           apply list_elem_of_lookup_2, list_elem_of_filter in Hj
             as [_ Hx].
           rewrite <- (Hsame x Hx), <- Hj'. f_equal. lia.
      * intros x Hx Hxd HxI. rewrite Hfr by (try done; lia).
        by apply Hold.
      * intros dj Hdj Hmiss. rewrite Hun; [by apply HsameI|done|].
        intros x Hx. rewrite HKs by done. apply Hmiss. by right.
      * intros Hnd Hidx x xt dj dit Hx Hxt Hmx Hdit.
        unfold keysOf in Hnd. simpl in Hnd. fold (keysOf st l) in Hnd.
        apply NoDup_cons in Hnd as [Hhead Hnd].
        apply elem_of_cons in Hx as [->|Hx].
        { rewrite Hsi in Hxt. injection Hxt as <-. congruence. }
        pose proof (index_in _ _ Hmx) as Hdj.
        apply (Hfd) with (si := x) (sit := xt); try done.
        -- by rewrite (keysOf_ext st st1 l Hsame).
        -- intros k y Hk. rewrite <- (Hidx k y Hk). unfold keyOf.
           by rewrite (HsameI y (index_in _ _ Hk)).
        -- by rewrite Hsame.
        -- by rewrite HsameI.
Qed.

End AppendLoop.

(** X13.  For a source whose items are scalars or arrays and are not items
    of the destination, the merge appends to the destination, in the order
    of the source, one new item for every source item whose key the
    destination does not have, and each new item is an exact copy of its
    source item (key, type, description, DefaultValue and Value).  Apart
    from the destination and its items nothing that existed is changed. *)
Theorem X13_merge_appends_copies (n : nat) (st : store) (d s : loc)
    (opts : MergeResourceUsagesOpts) (dr sr : ResourceUsage) :
  st !! d = Some (ORU dr) → st !! s = Some (ORU sr) →
  (∀ i, i ∈ Items dr → isItem st i = true) →
  (∀ si, si ∈ Items sr → ∃ sit, st !! si = Some (OItem sit) ∧
                                isSub (ValueType sit) = false) →
  (∀ si, si ∈ Items sr → si ∉ Items dr) →
  ∃ st' added,
    mergeResourceUsages (S n) (Some d) (Some s) opts st = Ok st' ∧
    added = filter (fun si => keyOf st si ∉ keysOf st (Items dr)) (Items sr) ∧
    st' !! d = Some (ORU (mkResourceUsage (Name dr)
                   (Items dr ++ seq (length st) (length added)))) ∧
    (∀ j si, added !! j = Some si → st' !! (length st + j) = st !! si) ∧
    (∀ x, x < length st → x ≠ d → x ∉ Items dr → st' !! x = st !! x).
Proof.
  intros Hd Hs Hit Hsrc Hdisj.
  destruct (buildItemMap_spec st (Items dr) ∅ Hit) as (m & Hm & M1 & M2).
  rewrite (merge_unfold n d s opts st dr sr m Hd Hs Hm).
  destruct (forEach_scalar (mergeResourceUsages n) d m opts (Name dr)
              (Items dr)) with (l := Items sr) (st := st) (new := @nil loc)
    as (st' & H & _ & Hd' & Hnew & Hfr & _); try done.
  { intros k dj Hk. destruct (M1 k dj Hk) as [[? _]|Habs]; [done|].
    by rewrite lookup_empty in Habs. }
  { rewrite app_nil_r. by destruct dr. }
  assert (unindexed m st (Items sr) =
          filter (fun si => keyOf st si ∉ keysOf st (Items dr)) (Items sr))
    as Hu.
  { apply filter_ext_in. intros si _. cbn beta. split.
    - intros Hnone Hk. destruct (M2 _ (or_introl Hk)) as [? ?]. congruence.
    - intros Hk. destruct (m !! keyOf st si) as [dj|] eqn:E; [|done].
      destruct (M1 _ _ E) as [[Hin HK]|Habs];
        [|by rewrite lookup_empty in Habs].
      destruct Hk. rewrite <- HK. by apply keyOf_in_keysOf. }
  rewrite Hu in Hd', Hnew.
  exists st', (filter (fun si => keyOf st si ∉ keysOf st (Items dr)) (Items sr)).
  done.
Qed.

Lemma X13_witness :
  ∃ st' added,
    mergeResourceUsages 1 (Some 0) (Some 3) (mkOpts false) ex_tree = Ok st' ∧
    added = filter (fun si => keyOf ex_tree si ∉ keysOf ex_tree [1; 2]) [4; 5] ∧
    st' !! 0 = Some (ORU (mkResourceUsage "aws_eks_cluster.c"
                   ([1; 2] ++ seq 6 (length added)))) ∧
    (∀ j si, added !! j = Some si → st' !! (6 + j) = ex_tree !! si) ∧
    (∀ x, x < 6 → x ≠ 0 → x ∉ [1; 2] → st' !! x = ex_tree !! x).
Proof.
  apply (X13_merge_appends_copies 0 ex_tree 0 3 (mkOpts false)
           (mkResourceUsage "aws_eks_cluster.c" [1; 2])
           (mkResourceUsage "nodes" [4; 5])).
  - reflexivity.
  - reflexivity.
  - intros i Hi. repeat (apply elem_of_cons in Hi as [->|Hi]; [reflexivity|]).
    by apply elem_of_nil in Hi.
  - intros i Hi.
    repeat (apply elem_of_cons in Hi as [->|Hi]; [by eexists|]).
    by apply elem_of_nil in Hi.
  - intros i Hi.
    repeat (apply elem_of_cons in Hi as [->|Hi];
            [apply (bool_decide_unpack _); by vm_compute|]).
    by apply elem_of_nil in Hi.
Defined.

(** ** The order of the usage file after a sync pass *)

(** X14.  In the usage file that a sync pass leaves, the ResourceUsages
    whose names were in the usage file before the pass come first, in the
    order their names had there; the others follow, those that have an item
    with a Value after the estimation first, and by name among those that
    agree on that. *)
Theorem X14_sync_keeps_existing_order `{C : Collaborators} `{S : SliceSort}
    (sub : string → bool) (referenceFile : ReferenceFile)
    (usageFile : UsageFile) (resources : list (schema.Resource UsageMap))
    (st : store) :
  sync_wf sub referenceFile usageFile resources st →
  ∃ syncResult usageFile' st' existingOrder,
    converges (fun f => syncResourceUsages f usageFile resources
                          referenceFile st)
      (syncResult, usageFile', st') ∧
    namesOf st (ResourceUsages usageFile) = Ok existingOrder ∧
    ∀ i j a b, i < j → ResourceUsages usageFile' !! i = Some a →
      ResourceUsages usageFile' !! j = Some b →
      (nameOf st' b ∈ existingOrder →
       nameOf st' a ∈ existingOrder ∧
       (indexOf (nameOf st' a) existingOrder
        ≤ indexOf (nameOf st' b) existingOrder)%Z) ∧
      ((nameOf st' a ∉ existingOrder) →
       (nameOf st' b ∉ existingOrder) ∧
       (valued st' b → valued st' a) ∧
       ((valued st' a ↔ valued st' b) →
        String.leb (nameOf st' a) (nameOf st' b) = true)).
Proof.
  intros [[lv0 G0] Husage Href Hsch (m & Hm & Hmin) Hrumap].
  destruct (namesOf_ok st (ResourceUsages usageFile) Husage) as [eo Heo].
  destruct (syncResources_converges sub Hrumap referenceFile m lv0 st G0
              Href (fun k p H => Husage p (Hmin k p H)) resources Hsch
              (mkSyncResult 0 0 ∅) [] lv0 st G0 (prefix_kept_refl st))
    as (sr & rus & st' & lv' & [f0 H] & G' & P & Hrus & _).
  simpl in H.
  assert (∀ a, a ∈ rus → readable st' a) as Hr.
  { intros a Ha. eapply good_readable; eauto. }
  pose proof (sortResourceUsages_ok st' rus eo Hr) as Hsort.
  pose proof (sortSlice_perm _ (lessb st' eo) rus) as HP.
  pose proof (sortSlice_sorted _ (lessb st' eo) rus
                (lessb_ordering st' eo rus Hr)) as HS.
  exists sr, (mkUsageFile (sortSlice (lessb st' eo) rus)), st', eo.
  split; [|split; [done|]].
  - exists f0. intros f Hf. unfold syncResourceUsages.
    rewrite Hm. simpl. rewrite Heo. simpl. rewrite (H f Hf). simpl.
    by rewrite Hsort.
  - simpl. intros i j a b Hij Hi Hj. apply sorted_pair_valued.
    + apply Hr. rewrite <- HP. by eapply list_elem_of_lookup_2.
    + apply Hr. rewrite <- HP. by eapply list_elem_of_lookup_2.
    + by eapply HS.
Qed.

Lemma X14_witness :
  ∃ syncResult usageFile' st' existingOrder,
    converges (fun f =>
      syncResourceUsages (C := exampleCollaborators (Some []))
        (S := insertionSlice) f ex_usageFile [ex_B; ex_A] [] ex_sync)
      (syncResult, usageFile', st') ∧
    namesOf ex_sync [2] = Ok existingOrder ∧
    ∀ i j a b, i < j → ResourceUsages usageFile' !! i = Some a →
      ResourceUsages usageFile' !! j = Some b →
      (nameOf st' b ∈ existingOrder →
       nameOf st' a ∈ existingOrder ∧
       (indexOf (nameOf st' a) existingOrder
        ≤ indexOf (nameOf st' b) existingOrder)%Z) ∧
      ((nameOf st' a ∉ existingOrder) →
       (nameOf st' b ∉ existingOrder) ∧
       (valued st' b → valued st' a) ∧
       ((valued st' a ↔ valued st' b) →
        String.leb (nameOf st' a) (nameOf st' b) = true)).
Proof.
  apply (X14_sync_keeps_existing_order (C := exampleCollaborators (Some []))
           (S := insertionSlice) ex_sub [] ex_usageFile [ex_B; ex_A] ex_sync).
  destruct ex_sync_wf as [Hg Hu Hr Hs Hm Hrm].
  split; try done.
  intros r Hr'. apply Hs.
  apply elem_of_cons in Hr' as [->|Hr']; [right; left|].
  apply list_elem_of_singleton in Hr' as ->. left.
Defined.

(** ** The usage tree of a resource without sub-resources *)

Lemma unindexed_empty st l : unindexed ∅ st l = l.
Proof.
  unfold unindexed. induction l as [|x l IH]; [done|].
  rewrite filter_cons, IH. by rewrite decide_True by apply lookup_empty.
Qed.

(** The items at the addresses from [a] on are copies of the items [l]. *)
Lemma keysOf_copies st st' l : ∀ a,
  (∀ j si, l !! j = Some si → st' !! (a + j) = st !! si) →
  keysOf st' (seq a (length l)) = keysOf st l.
Proof.
  induction l as [|x l IH]; intros a H; [done|].
  unfold keysOf. simpl. f_equal.
  - unfold keyOf. rewrite <- (H 0 x eq_refl). by rewrite Nat.add_0_r.
  - apply IH. intros j si Hj. rewrite <- (H (S j) si Hj). f_equal. lia.
Qed.

(** X15.  For a resource without sub-resources that the reference file
    does not know and the usage file does: lines 55-77 build a usage tree
    with one item per item of the schema of the resource, in the order of
    the schema, followed by copies of the items of the usage file that the
    schema does not have.  An item of the schema has the key and the type
    of the schema, and the description, DefaultValue and Value of the item
    of the usage file under its key wherever that has one.  Nothing that
    existed before is changed. *)
Theorem X15_usage_of_flat_resource `{C : Collaborators} (n : nat)
    (referenceFile : ReferenceFile) (existing : gmap string loc)
    (resource : schema.Resource UsageMap) (st : store) (e : loc)
    (er : ResourceUsage) :
  (∀ st1, FindMatchingResourceUsage referenceFile st1
            (schema.Name resource) = None) →
  (∀ si, si ∈ schema.UsageSchema resource →
     ∃ sit, st !! si = Some (OItem sit) ∧ isSub (ValueType sit) = false) →
  NoDup (keysOf st (schema.UsageSchema resource)) →
  existing !! schema.Name resource = Some e → st !! e = Some (ORU er) →
  (∀ ei, ei ∈ Items er →
     ∃ eit, st !! ei = Some (OItem eit) ∧ isSub (ValueType eit) = false) →
  NoDup (keysOf st (Items er)) →
  ∃ st' added,
    buildResourceUsage (S n) referenceFile existing resource st
      = Ok (length st, st') ∧
    added = filter (fun ei => keyOf st ei ∉
                                keysOf st (schema.UsageSchema resource))
              (Items er) ∧
    st' !! length st =
      Some (ORU (mkResourceUsage (schema.Name resource)
        (seq (length st + 2) (length (schema.UsageSchema resource)) ++
         seq (length st + 2 + length (schema.UsageSchema resource))
           (length added)))) ∧
    (∀ j si sit, schema.UsageSchema resource !! j = Some si →
       st !! si = Some (OItem sit) →
       (∀ ei eit, ei ∈ Items er → st !! ei = Some (OItem eit) →
          Key eit = Key sit →
          st' !! (length st + 2 + j) =
            Some (OItem (mergedScalar (mkOpts false) eit sit))) ∧
       (Key sit ∉ keysOf st (Items er) →
        st' !! (length st + 2 + j) = Some (OItem sit))) ∧
    (∀ j ei, added !! j = Some ei →
       st' !! (length st + 2 + length (schema.UsageSchema resource) + j)
       = st !! ei) ∧
    (∀ x, x < length st → st' !! x = st !! x).
Proof.
  intros Href Hsch Hnds He Her Hex Hnde.
  set (name := schema.Name resource) in *.
  set (sch := schema.UsageSchema resource) in *.
  set (d := length st).
  set (st1 := st ++ [ORU (mkResourceUsage name [])]).
  set (st2 := st1 ++ [ORU (mkResourceUsage name sch)]).
  assert (length st1 = S d) as L1.
  { unfold st1, d. rewrite length_app. simpl. lia. }
  assert (length st2 = d + 2) as L2.
  { unfold st2. rewrite length_app, L1. simpl. lia. }
  assert (∀ x, x < d → st2 !! x = st !! x) as Hold2.
  { intros x Hx. unfold st2, st1. rewrite !lookup_app_l; [done|lia|].
    fold st1. lia. }
  assert (st2 !! d = Some (ORU (mkResourceUsage name []))) as Hd2.
  { unfold st2. rewrite lookup_app_l by lia. unfold st1, d.
    by rewrite lookup_app_r, Nat.sub_diag by lia. }
  assert (st2 !! S d = Some (ORU (mkResourceUsage name sch))) as Hs2.
  { unfold st2. rewrite <- L1. by rewrite lookup_app_r, Nat.sub_diag by lia. }
  (* the schema *)
  destruct (forEach_scalar (mergeResourceUsages n) d ∅ (mkOpts true) name [])
    with (l := sch) (st := st2) (new := @nil loc)
    as (st3 & H3 & L3 & Hd3 & Hnew3 & Hfr3 & _).
  { intros k dj Hk. by rewrite lookup_empty in Hk. }
  { done. }
  { by intros dj ?%elem_of_nil. }
  { intros si Hsi. destruct (Hsch si Hsi) as (sit & Hsit & Hflat).
    exists sit. split; [|done]. rewrite Hold2; [done|].
    by eapply lookup_lt_Some. }
  { intros si _ ?%elem_of_nil. done. }
  rewrite unindexed_empty in L3, Hd3, Hnew3. simpl in Hd3.
  rewrite L2 in L3, Hd3, Hnew3, Hfr3.
  assert (mergeResourceUsages (S n) (Some d) (Some (S d)) (mkOpts true) st2
          = Ok st3) as Hm2.
  { by rewrite (merge_unfold n d (S d) (mkOpts true) st2 _ _ ∅ Hd2 Hs2). }
  assert (∀ x, x < d → st3 !! x = st !! x) as Hold3.
  { intros x Hx. rewrite Hfr3; [by apply Hold2|lia|lia|].
    by intros ?%elem_of_nil. }
  assert (∀ j si, sch !! j = Some si → st3 !! (d + 2 + j) = st !! si)
    as Hcopy.
  { intros j si Hj. rewrite (Hnew3 j si Hj). apply Hold2.
    destruct (Hsch si) as (sit & Hsit & _);
      [by eapply list_elem_of_lookup_2|]. by eapply lookup_lt_Some. }
  (* the usage file *)
  set (dI := seq (d + 2) (length sch)) in *.
  assert (keysOf st3 dI = keysOf st sch) as HKI.
  { by apply keysOf_copies. }
  assert (∀ dj, dj ∈ dI → isItem st3 dj = true) as HdI.
  { intros dj [Hlo Hhi]%elem_of_seq. apply isItem_true.
    destruct (lookup_lt_is_Some_2 sch (dj - (d + 2))) as [si Hsi]; [lia|].
    destruct (Hsch si) as (sit & Hsit & _);
      [by eapply list_elem_of_lookup_2|].
    exists sit. rewrite <- Hsit, <- (Hcopy _ _ Hsi). f_equal. lia. }
  destruct (buildItemMap_spec st3 dI ∅ HdI) as (m & Hm & M1 & M2).
  assert (∀ k dj, m !! k = Some dj → dj ∈ dI ∧ keyOf st3 dj = k) as M1'.
  { intros k dj Hk. destruct (M1 k dj Hk) as [?|Habs]; [done|].
    by rewrite lookup_empty in Habs. }
  assert (e < d) as Hed by by eapply lookup_lt_Some.
  assert (∀ ei, ei ∈ Items er → ei < d ∧ st3 !! ei = st !! ei) as Hsrc.
  { intros ei Hei. destruct (Hex ei Hei) as (eit & Heit & _).
    pose proof (lookup_lt_Some _ _ _ Heit). split; [done|by apply Hold3]. }
  assert (keysOf st3 (Items er) = keysOf st (Items er)) as HKE.
  { apply keysOf_ext. intros ei Hei. by apply Hsrc. }
  destruct (forEach_scalar (mergeResourceUsages n) d m (mkOpts false) name dI)
    with (l := Items er) (st := st3) (new := @nil loc)
    as (st4 & H4 & L4 & Hd4 & Hnew4 & Hfr4 & Hun4 & Hfd4).
  { intros k dj Hk. by destruct (M1' k dj Hk). }
  { by rewrite app_nil_r. }
  { done. }
  { intros ei Hei. destruct (Hex ei Hei) as (eit & Heit & Hflat).
    exists eit. split; [|done]. by rewrite (proj2 (Hsrc ei Hei)). }
  { intros ei Hei [Hlo _]%elem_of_seq. destruct (Hsrc ei Hei). lia. }
  assert (mergeResourceUsages (S n) (Some d) (Some e) (mkOpts false) st3
          = Ok st4) as Hm3.
  { rewrite (merge_unfold n d e (mkOpts false) st3
               (mkResourceUsage name dI) er m); [done|done| |done].
    by rewrite Hold3. }
  assert (unindexed m st3 (Items er) =
          filter (fun ei => keyOf st ei ∉ keysOf st sch) (Items er)) as Hu.
  { apply filter_ext_in. intros ei Hei. cbn beta.
    assert (keyOf st3 ei = keyOf st ei) as ->.
    { unfold keyOf. by rewrite (proj2 (Hsrc ei Hei)). }
    rewrite <- HKI. split.
    - intros Hnone Hk. destruct (M2 _ (or_introl Hk)) as [? ?]. congruence.
    - intros Hk. destruct (m !! keyOf st ei) as [dj|] eqn:E; [|done].
      destruct (M1' _ _ E) as [Hin HK]. destruct Hk. rewrite <- HK.
      by apply keyOf_in_keysOf. }
  rewrite Hu, L3 in L4, Hd4, Hnew4. rewrite L3 in Hfr4. simpl in Hd4.
  exists st4, (filter (fun ei => keyOf st ei ∉ keysOf st sch) (Items er)).
  split; [|split; [done|split; [exact Hd4|split; [|split]]]].
  - unfold buildResourceUsage, alloc. fold name d st1. rewrite Href.
    apply bind_Ok. exists st1. split; [done|]. fold sch st2. rewrite L1.
    apply bind_Ok. exists st3. split; [exact Hm2|].
    apply bind_Ok. exists st4. split; [by rewrite He|done].
  - intros j si sit Hj Hsit.
    assert (d + 2 + j ∈ dI) as Hin.
    { apply elem_of_seq. apply lookup_lt_Some in Hj. lia. }
    assert (st3 !! (d + 2 + j) = Some (OItem sit)) as Hdj.
    { by rewrite (Hcopy j si Hj). }
    split.
    + intros ei eit Hei Heit HK.
      apply (Hfd4) with (si := ei); try done.
      * by rewrite HKE.
      * intros k dj Hk. by destruct (M1' k dj Hk).
      * by rewrite (proj2 (Hsrc ei Hei)).
      * destruct (M2 (Key eit)) as [x Hx].
        { left. rewrite HK, <- (keyOf_item _ _ _ Hdj).
          by apply keyOf_in_keysOf. }
        destruct (M1' _ _ Hx) as [Hxin Hxk]. rewrite Hx. f_equal.
        apply (NoDup_keys_inj st3 dI); try done.
        { by rewrite HKI. }
        by rewrite Hxk, HK, (keyOf_item _ _ _ Hdj).
    + intros Hmiss. rewrite Hun4; [done|done|].
      intros ei Hei Hmi. apply Hmiss.
      destruct (M1' _ _ Hmi) as [_ HK].
      rewrite (keyOf_item _ _ _ Hdj) in HK. rewrite HK, <- HKE.
      by apply keyOf_in_keysOf.
  - intros j ei Hj. rewrite (Hnew4 j ei Hj). apply Hsrc.
    by apply list_elem_of_lookup_2, list_elem_of_filter in Hj as [_ ?].
  - intros x Hx. rewrite Hfr4; [by apply Hold3|lia|lia|].
    intros [? _]%elem_of_seq. lia.
Qed.

Lemma X15_witness :
  ∃ st' added,
    buildResourceUsage (C := exampleCollaborators (Some [])) 1 []
      {[ "aws_lambda_function.a"%string := 2 ]} ex_A ex_sync = Ok (4, st') ∧
    added = filter (fun ei => keyOf ex_sync ei ∉ keysOf ex_sync [0]) [3] ∧
    st' !! 4 =
      Some (ORU (mkResourceUsage "aws_lambda_function.a"
                   (seq 6 1 ++ seq 7 (length added)))) ∧
    (∀ j si sit, [0] !! j = Some si → ex_sync !! si = Some (OItem sit) →
       (∀ ei eit, ei ∈ [3] → ex_sync !! ei = Some (OItem eit) →
          Key eit = Key sit →
          st' !! (6 + j) =
            Some (OItem (mergedScalar (mkOpts false) eit sit))) ∧
       (Key sit ∉ keysOf ex_sync [3] → st' !! (6 + j) = Some (OItem sit))) ∧
    (∀ j ei, added !! j = Some ei → st' !! (7 + j) = ex_sync !! ei) ∧
    (∀ x, x < 4 → st' !! x = ex_sync !! x).
Proof.
  apply (X15_usage_of_flat_resource (C := exampleCollaborators (Some [])) 0
           [] {[ "aws_lambda_function.a"%string := 2 ]} ex_A ex_sync 2
           (mkResourceUsage "aws_lambda_function.a" [3])).
  - intros st1. reflexivity.
  - intros si Hsi. apply list_elem_of_singleton in Hsi as ->.
    eexists. split; reflexivity.
  - apply (bool_decide_unpack _). by vm_compute.
  - by vm_compute.
  - reflexivity.
  - intros ei Hei. apply list_elem_of_singleton in Hei as ->.
    eexists. split; reflexivity.
  - apply (bool_decide_unpack _). by vm_compute.
Defined.

(** ** What the merge of a source item without a Value leaves alone *)

Lemma modItem_only f dj st st' :
  modItem f dj st = Ok st' → ∀ l, l ≠ dj → st' !! l = st !! l.
Proof.
  unfold modItem. intros H l Hl. apply bind_Ok in H as (it & _ & H).
  injection H as <-. by rewrite list_lookup_insert_ne.
Qed.

Lemma overrideType_only o si dj st st' :
  overrideType o si dj st = Ok st' → ∀ l, l ≠ dj → st' !! l = st !! l.
Proof.
  unfold overrideType. destruct (OverrideValueType o); intros H.
  - apply bind_Ok in H as (s & _ & H). by eapply modItem_only.
  - by injection H as <-.
Qed.

Lemma copyDescription_only si dj st st' :
  copyDescription si dj st = Ok st' → ∀ l, l ≠ dj → st' !! l = st !! l.
Proof.
  unfold copyDescription. intros H. apply bind_Ok in H as (s & _ & H).
  destruct (String.eqb _ _); [by injection H as <-|by eapply modItem_only].
Qed.

Lemma copyScalars_only si dj st st' :
  copyScalars si dj st = Ok st' → ∀ l, l ≠ dj → st' !! l = st !! l.
Proof.
  unfold copyScalars. intros H l Hl. apply bind_Ok in H as (s & _ & H).
  apply bind_Ok in H as (st1 & H1 & H). apply bind_Ok in H as (s1 & _ & H).
  transitivity (st1 !! l).
  - destruct (isNil (Value s1)); [by injection H as <-|by eapply modItem_only].
  - destruct (isNil (DefaultValue s)); [by injection H1 as <-|].
    by eapply modItem_only.
Qed.

Section NilFrame.

Variable sub : string → bool.
Variable lv : loc → nat.
Variable recur : option loc → option loc → MergeResourceUsagesOpts →
                 store → res store.
Variable opts : MergeResourceUsagesOpts.

(** The recursive call changes nothing below its destination. *)
Lemma recur_below n d si dj st sit djt dd q :
  rec_spec sub lv n recur → ctx sub lv n d si dj st →
  st !! si = Some (OItem sit) → st !! dj = Some (OItem djt) →
  dd ∈ ptrs djt → q ∈ ptrs sit →
  ∃ st', recur (Some dd) (Some q) opts st = Ok st' ∧
         frame lv (lv dd) st st'.
Proof.
  intros R C Hs Hj Hdd Hq. pose proof (ctx_good _ _ _ _ _ _ _ C) as G.
  pose proof (good_edge _ _ _ G dj (OItem djt) dd Hj Hdd) as Hlv.
  pose proof (ctx_lv _ _ _ _ _ _ _ C) as Hlvd.
  assert (isRU st dd = true) as Hru.
  { destruct (good_obj _ _ _ G dj (OItem djt) Hj) as (_ & Hd & Hv).
    unfold field_ok in *. apply ptrs_spec in Hdd.
    destruct (sub (Key djt)).
    - destruct Hdd as [E|E]; [rewrite E in Hd; destruct Hd as [?|(? & ? & ?)]
                             |rewrite E in Hv; destruct Hv as [?|(? & ? & ?)]];
        by simplify_eq.
    - destruct Hdd as [E|E]; [by apply Hd in E|by apply Hv in E]. }
  destruct (R st dd q opts G Hru) as (st' & Hr & G' & E & F & Cv).
  { eapply tree_below_mono_k;
      [|apply (proj2 (ctx_below _ _ _ _ _ _ _ C) sit Hs q Hq)]. lia. }
  by exists st'.
Qed.

(** Lines 131-139 change, apart from the destination item, only what is
    at or above the DefaultValue tree of the destination item. *)
Lemma mergeSubDefault_below n d si dj st sit djt :
  rec_spec sub lv n recur → ctx sub lv n d si dj st →
  st !! si = Some (OItem sit) → st !! dj = Some (OItem djt) →
  isSub (ValueType sit) = true →
  ∃ st', mergeSubDefault recur opts si dj st = Ok st' ∧
    ∀ l, l < length st → l ≠ dj →
      (∀ q, DefaultValue djt = VRU (Some q) → lv l < lv q) →
      st' !! l = st !! l.
Proof.
  intros R C Hs Hj Hsub. pose proof (ctx_good _ _ _ _ _ _ _ C) as G.
  destruct (ctx_items _ _ _ _ _ _ _ C)
    as (sit' & djt0 & Hs' & Hj' & HK & Hsok & Hjok & Hne).
  rewrite Hs in Hs'. injection Hs' as <-.
  rewrite Hj in Hj'. injection Hj' as <-.
  assert (sub (Key sit) = true) as Hks by (destruct Hsok as (<- & _); done).
  assert (sub (Key djt) = true) as Hkd by congruence.
  unfold mergeSubDefault. rewrite (getItem_eq _ _ _ Hs). simpl.
  destruct Hsok as (_ & Hsd & _).
  destruct (field_ok_sub _ _ _ _ Hks Hsd) as [E|(q & r & E & Hq)];
    rewrite E; simpl.
  { by exists st. }
  rewrite (getItem_eq _ _ _ Hj). simpl.
  assert (q ∈ ptrs sit) as Hqp by (apply ptrs_spec; auto).
  destruct Hjok as (Hjt & Hjd & Hjv).
  destruct (field_ok_sub _ _ _ _ Hkd Hjd) as [Ed|(dd & rd & Ed & Hdd)];
    rewrite Ed; simpl.
  - rewrite (getRU_eq _ _ _ Hq). simpl.
    edestruct (alloc_mod_steps sub lv
                 (setDefaultValue (VRU (Some (length st))))
                 (Name r) dj st djt) as [-> S1]; try done.
    + split; [done|]. split; [|eapply field_ok_kinds; [apply kinds_snoc|done]].
      simpl. unfold field_ok. rewrite Hkd. right. eexists. split; [done|].
      apply isRU_true. eexists. apply lookup_app_Some. right.
      split; [done|]. by rewrite Nat.sub_diag.
    + simpl. repeat split; try done.
      intros q' Hq'. apply ptrs_spec in Hq'. simpl in Hq'.
      destruct Hq' as [?|?]; [right; by simplify_eq|].
      left. apply ptrs_spec. auto.
    + intros q' Hq'. apply ptrs_spec in Hq'. simpl in Hq'.
      destruct Hq' as [?|?]; [right; by simplify_eq|].
      left. apply ptrs_spec. auto.
    + simpl.
      set (djt1 := setDefaultValue (VRU (Some (length st))) djt) in *.
      set (st1 := <[dj:=OItem djt1]>
                    (st ++ [ORU (mkResourceUsage (Name r) [])])) in *.
      pose proof (ctx_steps _ _ _ _ _ _ _ _ C S1) as C1.
      assert (st1 !! dj = Some (OItem djt1)) as Hj1.
      { apply list_lookup_insert_eq. rewrite length_app.
        apply lookup_lt_Some in Hj. lia. }
      rewrite (getItem_eq _ _ _ Hj1). simpl.
      destruct (recur_below n d si dj st1 sit djt1 (length st) q R C1)
        as (st' & -> & F); try done.
      * apply (ctx_src_lookup _ _ _ _ _ _ _ _ _ C S1 Hs).
      * apply ptrs_spec. by left.
      * exists st'. split; [done|]. intros l Hl Hlj _.
        rewrite F by (apply (good_fresh _ _ _ G); lia).
        unfold st1. rewrite list_lookup_insert_ne by done.
        by rewrite lookup_app_l.
  - rewrite (getItem_eq _ _ _ Hj). simpl. rewrite Ed. simpl.
    destruct (recur_below n d si dj st sit djt dd q R C)
      as (st' & -> & F); try done.
    { apply ptrs_spec. by left. }
    exists st'. split; [done|]. intros l Hl Hlj Hlow. apply F. by apply Hlow.
Qed.

(** The iteration for a source item without a Value whose key the index
    has. *)
Lemma mergeItem_below n d m si st dr sit dj dit :
  rec_spec sub lv n recur →
  good sub lv st → st !! d = Some (ORU dr) → st !! si = Some (OItem sit) →
  item_below lv (tree_below lv n (lv d) st) (lv d) st si →
  index_ok st (Items dr) m →
  m !! Key sit = Some dj → st !! dj = Some (OItem dit) → Value sit = Nil →
  ∃ st', mergeItem recur d m opts si st = Ok st' ∧
    ∀ l, l < length st → l ≠ dj →
      (∀ q, DefaultValue dit = VRU (Some q) → lv l < lv q) →
      st' !! l = st !! l.
Proof.
  intros R G Hd Hs Hb M1 Hm Hj HV.
  destruct (findOrAppend_spec sub lv n d m si st dr sit G Hd Hs Hb M1)
    as (dj' & st1 & dr1 & Hf & C1 & E1 & Hd1 & Hin1 & Hfr1 & Hcase).
  { intros Hnone. congruence. }
  destruct Hcase as [[Hm' ->]|(Hm' & _)]; [|congruence].
  assert (dj' = dj) as -> by congruence.
  unfold mergeItem. rewrite Hf. simpl.
  destruct (overrideType_steps sub lv opts n d si dj st C1)
    as (st2 & H2 & S2 & K2).
  rewrite H2. simpl. pose proof (ctx_steps _ _ _ _ _ _ _ _ C1 S2) as C2.
  destruct (copyDescription_steps sub lv n d si dj st2 C2)
    as (st3 & H3 & S3 & K3).
  rewrite H3. simpl. pose proof (ctx_steps _ _ _ _ _ _ _ _ C2 S3) as C3.
  destruct (K2 dit Hj) as (dit2 & Hj2 & ED2 & EV2).
  destruct (K3 dit2 Hj2) as (dit3 & Hj3 & ED3 & EV3).
  pose proof (ctx_src_lookup _ _ _ _ _ _ _ _ _ C1 S2 Hs) as Hs2.
  pose proof (ctx_src_lookup _ _ _ _ _ _ _ _ _ C2 S3 Hs2) as Hs3.
  pose proof (ext_len _ _ _ (proj1 (proj2 S2))) as L2.
  pose proof (ext_len _ _ _ (proj1 (proj2 S3))) as L3.
  assert (∀ l, l ≠ dj → st3 !! l = st !! l) as F3.
  { intros l Hl. rewrite (copyDescription_only _ _ _ _ H3 l Hl).
    by apply (overrideType_only _ _ _ _ _ H2). }
  unfold mergeFields. rewrite (getItem_eq _ _ _ Hs3). simpl.
  destruct (isSub (ValueType sit)) eqn:Hsub.
  - destruct (mergeSubDefault_steps sub lv recur opts n d si dj st3 sit dit3)
      as (st4 & djt4 & H4 & S4 & Hj4 & _); try done.
    destruct (mergeSubDefault_below n d si dj st3 sit dit3)
      as (st4' & H4' & F4); try done.
    rewrite H4 in H4'. injection H4' as <-. rewrite H4. simpl.
    pose proof (ctx_steps _ _ _ _ _ _ _ _ C3 S4) as C4.
    pose proof (ctx_src_lookup _ _ _ _ _ _ _ _ _ C3 S4 Hs3) as Hs4.
    destruct (mergeSubValue_steps sub lv recur opts n d si dj st4 sit djt4)
      as (st5 & djt5 & H5 & _ & _ & _ & Hsame & _); try done.
    rewrite (Hsame HV) in H5. exists st4. split; [done|].
    intros l Hl Hlj Hlow. rewrite F4; [by apply F3|lia|done|].
    intros q Hq. apply Hlow. congruence.
  - destruct (copyScalars_steps sub lv n d si dj st3 sit C3 Hs3 Hsub)
      as (st4 & H4 & _).
    exists st4. split; [done|]. intros l Hl Hlj _.
    rewrite (copyScalars_only _ _ _ _ H4 l Hlj). by apply F3.
Qed.

End NilFrame.

Lemma reaches_valid sub lv st v x :
  good sub lv st → v < length st → reaches st v x → x < length st.
Proof.
  intros G Hv HR. induction HR as [|p o q l Hp Hq _ IH]; [done|].
  apply IH. by eapply good_valid_succ.
Qed.

Lemma reaches_level sub lv st v x :
  good sub lv st → reaches st v x → lv v ≤ lv x.
Proof.
  intros G HR. induction HR as [|p o q l Hp Hq _ IH]; [done|].
  pose proof (good_edge _ _ _ G p o q Hp Hq). lia.
Qed.

Section ValueTree.

Variable sub : string → bool.
Variable lv : loc → nat.

(** The iterations for other keys leave alone what lies below the
    sub-trees of the destination items they work on. *)
Lemma loop_frame_apart d l st st' dr' st0 dr0 x :
  good sub lv st0 → ext sub st0 st → ext sub st st' →
  st0 !! d = Some (ORU dr0) → st' !! d = Some (ORU dr') →
  loop_frame lv d l st st' dr' →
  x < length st0 → x ≠ d → x ∉ Items dr0 →
  (∀ dj djt q, dj ∈ Items dr0 → st0 !! dj = Some (OItem djt) →
     Key djt ∈ keysOf st l → q ∈ ptrs djt → lv x < lv q) →
  st' !! x = st !! x.
Proof.
  intros G0 E0 E Hd0 Hd' LF Hx Hxd Hxi Hlow.
  pose proof (ext_trans _ _ _ _ E0 E) as E0'.
  pose proof (ext_len _ _ _ E0) as L0.
  destruct (ext_ru _ _ _ _ _ E0' Hd0) as (y & Hy & _ & (ap & Hap & Hfr)).
  rewrite Hd' in Hy. injection Hy as <-.
  apply LF; [lia|done|].
  intros dj Hdj Hkj.
  rewrite Hap in Hdj. apply elem_of_app in Hdj as [Hdj|Hdj].
  - split; [by intros ->|]. intros it q Hit Hq.
    destruct (good_obj _ _ _ G0 d (ORU dr0) Hd0) as (Hitems & _).
    destruct (proj1 (isItem_true _ _) (Hitems dj Hdj)) as (djt & Hdjt).
    destruct (ext_item _ _ _ _ _ E0' Hdjt) as (y & Hy & HK & _ & _ & HP).
    rewrite Hit in Hy. injection Hy as <-.
    destruct (HP q Hq) as [Hold|Hnew].
    + apply (Hlow dj djt q); try done.
      by rewrite <- HK, <- (keyOf_item _ _ _ Hit).
    + apply (good_fresh _ _ _ G0); lia.
  - apply Hfr in Hdj. split; [lia|]. intros it q Hit Hq.
    assert (q ∈ succs (OItem it)) as Hq' by done.
    pose proof (ext_new _ _ _ E0' dj (OItem it) q Hdj Hit Hq').
    apply (good_fresh _ _ _ G0); lia.
Qed.

(** A merge in which the source item for the key of [di] has no Value
    changes nothing that lies apart from what it works on. *)
Lemma merge_nil_frame n st d s o dr sr si sit di dit x st' :
  good sub lv st → st !! d = Some (ORU dr) → st !! s = Some (ORU sr) →
  src_ok lv n (lv d) st s → si ∈ Items sr → st !! si = Some (OItem sit) →
  Value sit = Nil →
  di ∈ Items dr → st !! di = Some (OItem dit) → Key dit = Key sit →
  owned lv st dr di →
  x < length st → x ≠ d → apart lv st dr di x →
  mergeResourceUsages (S n) (Some d) (Some s) o st = Ok st' →
  st' !! x = st !! x.
Proof.
  intros G Hd Hs Hsrc Hsi Hsit HV Hdi Hdit HK Hown Hx Hxd (Hxi & Hxd' & Hxo).
  destruct (good_obj _ _ _ G d (ORU dr) Hd) as (Hit & Hnd).
  destruct (buildItemMap_spec st (Items dr) ∅ Hit) as (m & Hm & M1 & M2).
  rewrite (merge_unfold n d s o st dr sr m Hd Hs Hm).
  apply list_elem_of_split in Hsi as (l1 & l2 & Hsplit).
  rewrite Hsplit.
  pose proof (rec_spec_merge sub lv n) as R.
  assert (loop_pre sub lv n d m st dr (l1 ++ si :: l2)) as P.
  { split; try done.
    - rewrite <- Hsplit. by eapply src_ok_srcs.
    - by apply index_ok_build.
    - intros k _ Hnone Hk. destruct (M2 k (or_introl Hk)) as [? ?]. congruence. }
  destruct (loop_spec sub lv _ o n d m l1 st dr R) as (sa & dra & Ha & Qa).
  { by eapply loop_pre_prefix. }
  pose proof (loop_pre_app sub lv n d m st dr l1 (si :: l2) sa dra P Qa) as Pa.
  destruct Qa as [Ga Ea Fa Hda Hcova Hnewa LFa].
  assert (lv si < lv d) as Hsil.
  { destruct P as [_ _ [Hl _] _ _]. apply Hl, elem_of_app. right. left. }
  assert (sa !! si = Some (OItem sit)) as Hsa by (by rewrite Fa).
  destruct (item_spec sub lv _ o n d m si l2 sa dra sit R Pa Hsa)
    as (dj & sb & drb & dit0 & dK & Hb & Qb & Pb).
  destruct (loop_spec sub lv _ o n d m l2 sb drb R Pb) as (st2 & dr' & Hc & Qc).
  destruct Qb as [Gb Eb Fb Hdb Hinb HKb Hcase IFb Hjb FDb].
  destruct Qc as [Gc Ec Fc Hdc Hcovc Hnewc LFc].
  assert (ext sub st sb) as Esb by (by eapply ext_trans).
  assert (NoDup (keysOf st (l1 ++ si :: l2))) as Hndl.
  { destruct P as [_ _ [_ ?] _ _]. done. }
  rewrite keysOf_app in Hndl. apply NoDup_app in Hndl as (_ & Hdisj & Hnd2).
  unfold keysOf at 1 in Hnd2. simpl in Hnd2. fold (keysOf st l2) in Hnd2.
  apply NoDup_cons in Hnd2 as [Hnin2 _].
  rewrite (keyOf_item _ _ _ Hsit) in Hnin2.
  assert (Key sit ∉ keysOf st l1) as Hnin1.
  { intros Hk. apply (Hdisj _ Hk). unfold keysOf. simpl.
    rewrite (keyOf_item _ _ _ Hsit). left. }
  assert (keysOf sb l2 = keysOf st l2) as Hk2.
  { apply (keysOf_frame lv (lv d)); [eapply frame_trans; eauto|].
    intros i Hi. destruct P as [_ _ [Hl _] _ _].
    apply Hl, elem_of_app. right. by right. }
  assert (∀ l, Key sit ∉ keysOf st l →
            ∀ dj djt q, dj ∈ Items dr → st !! dj = Some (OItem djt) →
              Key djt ∈ keysOf st l → q ∈ ptrs djt → lv x < lv q) as Hlow.
  { intros l Hnin j jt q Hj Hjt Hkj Hq. apply (Hxo j jt q); try done.
    intros ->. rewrite Hdit in Hjt. injection Hjt as <-.
    apply Hnin. by rewrite <- HK. }
  assert (m !! Key sit = Some di) as Hmdi.
  { destruct (M2 (Key sit)) as [y Hy].
    { left. rewrite <- HK, <- (keyOf_item _ _ _ Hdit).
      by apply keyOf_in_keysOf. }
    destruct (M1 _ _ Hy) as [[Hyin Hyk]|Habs];
      [|by rewrite lookup_empty in Habs].
    rewrite Hy. f_equal.
    eapply (NoDup_keys_inj st (Items dr)); eauto.
    rewrite Hyk, (keyOf_item _ _ _ Hdit). done. }
  assert (sa !! di = Some (OItem dit)) as Hdia.
  { rewrite <- Hdit.
    eapply (loop_frame_owned sub lv d l1 st sa dra st dr di dit);
      eauto using ext_refl. by rewrite HK. }
  assert (sa !! x = st !! x) as Hxa.
  { apply (loop_frame_apart d l1 st sa dra st dr x);
      auto using ext_refl.
    by apply Hlow. }
  destruct (mergeItem_below sub lv (mergeResourceUsages n) o n d m si sa dra
              sit di dit R Ga Hda Hsa) as (sb' & Hb' & Fb'); try done.
  { destruct Pa as [_ _ [Hl _] _ _]. apply Hl. left. }
  { by destruct Pa. }
  rewrite Hb in Hb'. injection Hb' as <-.
  pose proof (ext_len _ _ _ Ea) as La.
  assert (sb !! x = sa !! x) as Hxb.
  { apply Fb'; [lia|by intros ->|]. intros q Hq. by apply (Hxd' dit q). }
  assert (st2 !! x = sb !! x) as Hxc.
  { apply (loop_frame_apart d l2 sb st2 dr' st dr x); auto.
    rewrite Hk2. by apply Hlow. }
  intros H.
  assert (forEach (mergeItem (mergeResourceUsages n) d m o)
            (l1 ++ si :: l2) st = Ok st2) as Hall.
  { apply forEach_app. exists sa. split; [done|]. simpl. by rewrite Hb. }
  rewrite Hall in H. injection H as <-. congruence.
Qed.

End ValueTree.

(** ** Value precedence *)

(** The claim C5 as stated fails on [ex_alias]: the source has no Value for
    "nodes", the Value of the destination's "nodes" is the tree at 6, and
    the merge of the source's DefaultValue changes the DefaultValue of
    "count" in that tree from 3 to 8, because the tree is the destination's
    DefaultValue tree as well. *)
Lemma C5_counterexample : ¬ C5_as_stated.
Proof.
  intros H.
  destruct (H 2 ex_alias 4 0 (mkOpts false)
              (mkResourceUsage "dest" [5]) (mkResourceUsage "src" [1]) 5
              (schema.mkUsageItem "nodes" schema.SubResourceUsage EmptyString
                 (VRU (Some 6)) (VRU (Some 6)))
              1
              (schema.mkUsageItem "nodes" schema.SubResourceUsage EmptyString
                 (VRU (Some 2)) Nil) _
              eq_refl eq_refl ltac:(left) eq_refl ltac:(left) eq_refl eq_refl
              ltac:(done) eq_refl eq_refl)
    as [_ Htree].
  assert (reaches ex_alias 6 7) as HR.
  { eapply reaches_step; [reflexivity|left|apply reaches_here]. }
  specialize (Htree 6 7 eq_refl HR). vm_compute in Htree. discriminate.
Qed.

(** C5, amended.  When the item of the destination for a key has a Value
    and the item of the source for that key has none (only, at most, a
    DefaultValue), the Value field of the destination's item is the same
    after the merge: the same scalar or array, or the same tree.  The
    contents of that tree are unchanged too, as far as the tree lies apart
    from the DefaultValue tree of the item and from the sub-trees of the
    other items of the destination. *)
Theorem C5_value_precedence sub lv n st d s opts dr sr di dit si sit :
  good sub lv st → st !! d = Some (ORU dr) → st !! s = Some (ORU sr) →
  src_ok lv n (lv d) st s →
  di ∈ Items dr → st !! di = Some (OItem dit) → owned lv st dr di →
  si ∈ Items sr → st !! si = Some (OItem sit) → Key sit = Key dit →
  Value sit = Nil →
  ∃ st' dit', mergeResourceUsages (S n) (Some d) (Some s) opts st = Ok st' ∧
              st' !! di = Some (OItem dit') ∧ Value dit' = Value dit ∧
              ∀ v x, Value dit = VRU (Some v) → reaches st v x →
                apart lv st dr di x → st' !! x = st !! x.
Proof.
  intros G Hd Hs Hsrc Hdi Hdit Hown Hsi Hsit HK HV.
  destruct (merge_item_detail sub lv n st d s opts dr sr si sit G Hd Hs Hsrc Hsi Hsit)
    as (st' & dr' & dj & dit0 & dK & Hm & _ & _ & _ & _ & _ & _ & FD & _ & HA & _).
  destruct (HA di dit Hdi Hdit (eq_sym HK) Hown) as (-> & -> & Hdi').
  exists st', dK. split; [done|]. split; [done|]. split; [by apply FD|].
  intros v x Hv HR Hap.
  assert (v ∈ succs (OItem dit)) as Hvs.
  { simpl. apply ptrs_spec. by right. }
  pose proof (good_valid_succ _ _ _ _ _ _ G Hdit Hvs) as Hvlt.
  pose proof (good_edge _ _ _ G di _ v Hdit Hvs) as Hlv1.
  pose proof (good_edge _ _ _ G d (ORU dr) di Hd Hdi) as Hlv2.
  pose proof (reaches_level _ _ _ _ _ G HR) as Hlv3.
  apply (merge_nil_frame sub lv n st d s opts dr sr si sit di dit x st');
    try done.
  - by eapply reaches_valid.
  - intros ->. lia.
Qed.

Lemma ex_value_good : good ex_sub ex_lv ex_value.
Proof.
  apply store_okb_sound; [by vm_compute|]. unfold ex_lv. intros; lia.
Defined.

Lemma C5_witness :
  ∃ st' dit',
    mergeResourceUsages 2 (Some 4) (Some 0) (mkOpts false) ex_value = Ok st' ∧
    st' !! 5 = Some (OItem dit') ∧ Value dit' = VRU (Some 6) ∧
    ∀ v x, VRU (Some 6) = VRU (Some v) → reaches ex_value v x →
      apart ex_lv ex_value (mkResourceUsage "dest" [5]) 5 x →
      st' !! x = ex_value !! x.
Proof.
  apply (C5_value_precedence ex_sub ex_lv 1 ex_value 4 0 (mkOpts false)
           (mkResourceUsage "dest" [5]) (mkResourceUsage "src" [1])
           5 (schema.mkUsageItem "nodes" schema.SubResourceUsage EmptyString
                (VRU (Some 8)) (VRU (Some 6)))
           1 (schema.mkUsageItem "nodes" schema.SubResourceUsage EmptyString
                (VRU (Some 2)) Nil)
           ex_value_good).
  - reflexivity.
  - reflexivity.
  - apply src_okb_sound. by vm_compute.
  - left.
  - reflexivity.
  - apply ownedb_sound. by vm_compute.
  - left.
  - reflexivity.
  - reflexivity.
  - reflexivity.
Defined.

(** On [ex_value] the Value tree of "nodes" (the objects 6 and 7) lies
    apart, and the merge changes "count" in the DefaultValue tree only. *)
Example value_tree_kept :
  apart ex_lv ex_value (mkResourceUsage "dest" [5]) 5 6 ∧
  apart ex_lv ex_value (mkResourceUsage "dest" [5]) 5 7 ∧
  ∃ st', mergeResourceUsages 2 (Some 4) (Some 0) (mkOpts false) ex_value
         = Ok st' ∧
    st' !! 7 = ex_value !! 7 ∧
    st' !! 9 = Some (ex_item "count" schema.Int64 (VInt 8) Nil).
Proof.
  assert (∀ x, 5 < x → x < 8 →
            apart ex_lv ex_value (mkResourceUsage "dest" [5]) 5 x) as Hap.
  { intros x Hlo Hhi. split; [|split].
    - intros ->%list_elem_of_singleton. lia.
    - intros dit q [= <-] [= <-]. unfold ex_lv. lia.
    - intros dj djt q ->%list_elem_of_singleton Hne. done. }
  split; [apply Hap; lia|]. split; [apply Hap; lia|].
  eexists. split; [reflexivity|]. split; reflexivity.
Qed.

(** ** The merge-back below the first level *)

Lemma mergeUsageItem_sub `{C : Collaborators} recur ud j jt st :
  st !! j = Some (OItem jt) → ValueType jt = schema.SubResourceUsage →
  mergeUsageItem recur ud j st = mergeSubUsage recur ud j jt st.
Proof.
  intros H Ht. unfold mergeUsageItem. apply getItem_Ok in H.
  rewrite H. simpl. by rewrite Ht.
Qed.

(** Lines 196-198 and 220-226: after the merge-back of its Value tree the
    item is assigned that tree again. *)
Lemma mergeSub_base_only `{C : Collaborators} recur ud j jt q st stc stb :
  Value jt = VRU (Some q) →
  recur (Some q) (Some (subData ud jt)) st = Ok stc →
  mergeSubUsage recur ud j jt st = Ok stb →
  ∀ x, x ≠ j → stb !! x = stc !! x.
Proof.
  intros Hv Hr. unfold mergeSubUsage. rewrite Hv. simpl.
  unfold subData in Hr. rewrite Hr. simpl. unfold assign. simpl.
  intros H. by eapply modItem_only.
Qed.

(** Lines 202-226: the sub-tree is built from the default sub-items that
    have data, merged back, and assigned. *)
Lemma mergeSub_default_only `{C : Collaborators} recur ud j jt q qr kept x0
    st stc stb :
  Value jt = Nil → DefaultValue jt = VRU (Some q) →
  st !! q = Some (ORU qr) →
  keepNonNull st (subData ud jt) (Items qr) = Ok (x0 :: kept) →
  recur (Some (length st)) (Some (subData ud jt))
    (st ++ [ORU (mkResourceUsage (Key jt) (x0 :: kept))]) = Ok stc →
  mergeSubUsage recur ud j jt st = Ok stb →
  ∀ x, x ≠ j → stb !! x = stc !! x.
Proof.
  intros Hv Hd Hq Hk Hr. unfold mergeSubUsage, materialise.
  rewrite Hv, Hd. simpl. apply getRU_Ok in Hq. rewrite Hq. simpl.
  unfold subData in Hk, Hr. rewrite Hk. simpl. rewrite Hr. simpl.
  unfold assign. simpl. intros H. by eapply modItem_only.
Qed.

Lemma reaches_trans st a b c : reaches st a b → reaches st b c → reaches st a c.
Proof.
  intros H1 H2. induction H1 as [|p o q l Hp Hq _ IH]; [done|].
  eapply reaches_step; [done|done|]. by apply IH.
Qed.

Lemma reaches_sub_item st j jt q qr j0 :
  st !! j = Some (OItem jt) → q ∈ ptrs jt → st !! q = Some (ORU qr) →
  j0 ∈ Items qr → reaches st j j0.
Proof.
  intros Hj Hq Hqr Hj0.
  eapply reaches_step; [exact Hj|exact Hq|].
  eapply reaches_step; [exact Hqr|exact Hj0|]. apply reaches_here.
Qed.

(** Lines 207-217: no default sub-item has data; there is nothing to
    merge back and nothing to assign. *)
Lemma mergeSub_default_empty `{C : Collaborators} recur ud j jt q qr st stb :
  Value jt = Nil → DefaultValue jt = VRU (Some q) →
  st !! q = Some (ORU qr) →
  keepNonNull st (subData ud jt) (Items qr) = Ok [] →
  mergeSubUsage recur ud j jt st = Ok stb →
  stb = st ++ [ORU (mkResourceUsage (Key jt) [])].
Proof.
  intros Hv Hd Hq Hk. unfold mergeSubUsage, materialise.
  rewrite Hv, Hd. simpl. apply getRU_Ok in Hq. rewrite Hq. simpl.
  unfold subData in Hk. rewrite Hk. simpl. unfold assign. simpl.
  by intros [= <-].
Qed.

Lemma mergedBack_mono `{C : Collaborators} st st1 st2 u it it' :
  (∀ p r, st1 !! p = Some (ORU r) → st2 !! p = Some (ORU r)) →
  mergedBack st st1 u it it' → mergedBack st st2 u it it'.
Proof.
  intros Hru. unfold mergedBack. destruct (isSub _); [|done].
  destruct (Value it); try done.
  destruct (DefaultValue it) as [| | | | |[q|]]; try done.
  intros (qr & Hq & H). exists qr. split; [done|].
  destruct (keptItems _ _ _); [done|].
  destruct H as (p & ? & ? & ?). exists p. auto.
Qed.

Lemma outcome_mono `{C : Collaborators} st st1 st2 i u :
  st2 !! i = st1 !! i →
  (∀ p r, st1 !! p = Some (ORU r) → st2 !! p = Some (ORU r)) →
  outcome st st1 i u → outcome st st2 i u.
Proof.
  intros Hi Hru. destruct u as [u|]; simpl.
  - intros H it Hit. destruct (H it Hit) as (it' & H1 & HM).
    exists it'. split; [by rewrite Hi|]. by eapply mergedBack_mono.
  - intros H. by rewrite Hi.
Qed.

Section MergeBackNested.

Context `{C : Collaborators}.
Variable sub : string → bool.
Variable B : nat.

(** The loop around one of its items. *)
Lemma mb_loop_parts k recur ud lv st l1 j l2 :
  mb_rec_ok sub B k recur → good sub lv st → bounded lv B st →
  (∀ x, x ∈ l1 ++ j :: l2 → isItem st x = true ∧ k < lv x) →
  ∃ sta lva stb lvb st' lv',
    forEach (mergeUsageItem recur ud) l1 st = Ok sta ∧
    mb_inv sub B lv st sta lva ∧ mb_loop_frame lv l1 st sta ∧
    mergeUsageItem recur ud j sta = Ok stb ∧
    mb_inv sub B lva sta stb lvb ∧
    forEach (mergeUsageItem recur ud) l2 stb = Ok st' ∧
    mb_inv sub B lvb stb st' lv' ∧ mb_loop_frame lvb l2 stb st' ∧
    forEach (mergeUsageItem recur ud) (l1 ++ j :: l2) st = Ok st'.
Proof.
  intros Hrec G Hb Hl.
  assert (isItem st j = true ∧ k < lv j) as [Hj Hkj].
  { apply Hl, elem_of_app. right. left. }
  apply isItem_true in Hj as (jt & Hj).
  destruct (mb_loop sub B k recur ud l1 Hrec lv st G Hb)
    as (sta & lva & Ha & Ia & Fa).
  { intros x Hx. apply Hl, elem_of_app. by left. }
  destruct (mb_inv_item _ _ _ _ _ _ _ _ Ia Hj) as [Hja Hlva].
  destruct (mb_item sub B k recur ud lva sta j Hrec)
    as (stb & lvb & Hbd & Ib & _);
    [by destruct Ia|by destruct Ia|done|lia|].
  pose proof (mb_inv_trans _ _ _ _ _ _ _ _ Ia Ib) as Iab.
  destruct (mb_loop sub B k recur ud l2 Hrec lvb stb)
    as (st' & lv' & Hc & Ic & Fc); [by destruct Ib|by destruct Ib| |].
  { intros x Hx. destruct (Hl x) as [Hxt Hkx].
    { apply elem_of_app. right. by right. }
    apply isItem_true in Hxt as (xt & Hxt).
    destruct (mb_inv_item _ _ _ _ _ _ _ _ Iab Hxt) as [? ->]. done. }
  exists sta, lva, stb, lvb, st', lv'. repeat (split; [done|]).
  apply forEach_app. exists sta. split; [done|]. simpl. by rewrite Hbd.
Qed.

(** The new ResourceUsage of lines 203-205, with the items that are
    kept. *)
Lemma materialise_inv lv st q dr k kept :
  good sub lv st → bounded lv B st → st !! q = Some (ORU dr) →
  (∀ j, j ∈ kept → j ∈ Items dr) → NoDup (keysOf st kept) →
  let st1 := st ++ [ORU (mkResourceUsage k kept)] in
  let lv1 := relevel lv (length st) (lv q) in
  good sub lv1 st1 ∧ bounded lv1 B st1 ∧ mb_inv sub B lv st st1 lv1 ∧
  lv1 (length st) = lv q.
Proof.
  intros G Hb Hq Hk Hnd st1 lv1.
  pose proof (lookup_lt_Some _ _ _ Hq) as Hql.
  destruct (good_obj _ _ _ G q _ Hq) as [Hval _].
  assert (∀ j, j ∈ Items dr → lv q < lv j) as Hlj.
  { intros j Hj. eapply good_edge; [done|done|done]. }
  assert (good sub lv1 st1) as G1.
  { apply good_snoc_relevel; [done| | |]; simpl.
    - intros j Hj%Hk. auto.
    - done.
    - intros l' Hl'. eapply good_fresh; [done|lia|lia]. }
  assert (∀ l, l < length st → lv1 l = lv l) as A1.
  { intros l Hl. unfold lv1. apply relevel_ne. lia. }
  assert (lv1 (length st) = lv q) as Hp1 by apply relevel_eq.
  assert (bounded lv1 B st1) as B1.
  { intros l Hl. unfold st1 in Hl. rewrite length_app in Hl. simpl in Hl.
    destruct (decide (l = length st)) as [->|Hne].
    - rewrite Hp1. by apply Hb.
    - rewrite A1 by lia. apply Hb. lia. }
  split; [done|]. split; [done|]. split; [|done].
  split; [done|done|done|apply mb_ext_snoc|].
  intros l jt jt' q' Hl Hl' Hq'. unfold st1 in Hl'.
  rewrite (lookup_snoc_old _ _ _ _ Hl) in Hl'. injection Hl' as <-.
  exists q'. split; [done|]. apply A1.
  eapply good_valid_succ; [done|done|done].
Qed.

End MergeBackNested.

Section NestedItems.

Context `{C : Collaborators}.
Variable sub : string → bool.
Variable B : nat.
Variable lv : loc → nat.
Variable st : store.
Hypothesis st_good : good sub lv st.

Lemma mb_rec_fuel n k :
  B ≤ n + k + 1 → mb_rec_ok sub B k (mergeResourceUsageWithUsageData n).
Proof.
  intros Hn st0 lv0 q ud0 G0 B0 Hq Hk.
  apply mergeback_spec; [done|done|done|lia].
Qed.

Lemma recursesInto_cases ud jt l :
  recursesInto st ud jt l →
  ∃ q qr, q ∈ ptrs jt ∧ st !! q = Some (ORU qr) ∧
          (∀ j0, j0 ∈ l → j0 ∈ Items qr) ∧
          ((Value jt = VRU (Some q) ∧ l = Items qr) ∨
           (Value jt = Nil ∧ DefaultValue jt = VRU (Some q) ∧
            l = keptItems st (subData ud jt) (Items qr))).
Proof.
  intros [(q & qr & Hv & Hq & ->)|(q & qr & Hv & Hd & Hq & ->)];
    exists q, qr.
  - split; [apply ptrs_spec; by right|]. split; [done|].
    split; [done|]. by left.
  - split; [apply ptrs_spec; by left|]. split; [done|].
    split; [intros j0; apply keptItems_elem|]. by right.
Qed.

(** One item of the loop, which the iterations before it have left as
    it was: lines 173-231 for it. *)
Lemma mb_item_outcome n k lva sta stb i it ud :
  mb_inv sub B lv st sta lva → sta !! i = Some (OItem it) →
  st !! i = Some (OItem it) → k < lv i → B ≤ n + k + 1 →
  mergeUsageItem (mergeResourceUsageWithUsageData n) ud i sta = Ok stb →
  ∃ it', stb !! i = Some (OItem it') ∧ mergedBack st stb ud it it'.
Proof.
  intros Ia Hia Hit Hk Hfuel Hbd.
  pose proof Ia as [Ga Ba Aa Ea La].
  pose proof (mb_rec_fuel n k Hfuel) as Hrec.
  pose proof (lookup_lt_Some _ _ _ Hit) as Hilt.
  assert (k < lva i) as Hka by by rewrite Aa.
  unfold mergedBack.
  destruct (isSub (ValueType it)) eqn:Ht.
  - assert (ValueType it = schema.SubResourceUsage) as Ht'
      by by destruct (ValueType it).
    rewrite (mergeUsageItem_sub _ _ _ _ _ Hia Ht') in Hbd.
    destruct (good_obj _ _ _ st_good i _ Hit) as (Hs & _).
    rewrite Ht in Hs. simpl in Hs. symmetry in Hs.
    destruct (field_sub_cases sub _ _ _ _ st_good Hit Hs)
      as [Hd [Hv|(qv & vr & Hv & Hvr)]].
    + rewrite Hv.
      destruct Hd as [Hd|(q & dr & Hd & Hq)].
      * rewrite Hd. rewrite (mergeSub_none _ _ _ _ _ Hv Hd) in Hbd.
        injection Hbd as <-. exists it. done.
      * rewrite Hd.
        pose proof (mb_ext_ru _ _ _ _ _ Ea Hq) as Hqa.
        destruct (mergeSub_materialise sub B k
                    (mergeResourceUsageWithUsageData n) ud lva sta i it q dr
                    Hrec Ga Ba Hia Hs Hka Hv Hd Hqa)
          as (stb' & lvb' & Hm & _ & _ & Hp & Hi').
        rewrite Hm in Hbd. injection Hbd as ->.
        assert (keptItems sta (subData ud it) (Items dr)
                = keptItems st (subData ud it) (Items dr)) as Hkeys.
        { apply keptItems_keys. intros x Hx.
          destruct (good_obj _ _ _ st_good q _ Hq) as [Hval _].
          apply (mb_ext_kinds sub st sta); [done|auto]. }
        unfold subData in Hkeys. rewrite Hkeys in Hp, Hi'.
        eexists. split; [exact Hi'|]. exists dr. split; [done|].
        unfold subData.
        destruct (keptItems st _ (Items dr)) as [|x0 kept]; [done|].
        exists (length sta). split; [|done].
        apply lookup_ge_None. by apply (mbe_len _ _ _ Ea).
    + rewrite Hv.
      destruct (mergeSub_base sub B k (mergeResourceUsageWithUsageData n)
                  ud lva sta i it qv Hrec Ga Ba Hia Hs Hka Hv)
        as (stb' & lvb' & Hm & _ & _ & Hi').
      rewrite Hm in Hbd. injection Hbd as ->. exists it. done.
  - rewrite (mergeUsageItem_scalar _ _ _ _ _ Hia Ht) in Hbd.
    unfold assign in Hbd. unfold assigned.
    destruct (isNil (scalarLookup ud it)).
    + injection Hbd as <-. by exists it.
    + unfold modItem in Hbd. rewrite (proj2 (getItem_Ok _ _ _) Hia) in Hbd.
      simpl in Hbd. injection Hbd as <-. eexists. split; [|done].
      apply list_lookup_insert_eq. by eapply lookup_lt_Some.
Qed.

(** The merge-back of the items [items], started in a store [st2] that
    a merge-back has made of [st] without touching the trees of these
    items, leaves an object to which it comes, or which it passes by, as
    [outcome] says. *)
Lemma mb_nested items ud i u :
  nested lv st items ud i u →
  ∀ n k lv2 st2,
    mb_inv sub B lv st st2 lv2 →
    (∀ x j, j ∈ items → reaches st j x → st2 !! x = st !! x) →
    st2 !! i = st !! i →
    (∀ j, j ∈ items → isItem st j = true ∧ k < lv j) → NoDup items →
    B ≤ n + k + 1 →
    ∃ st' lv',
      forEach (mergeUsageItem (mergeResourceUsageWithUsageData n) ud)
        items st2 = Ok st' ∧
      mb_inv sub B lv2 st2 st' lv' ∧ outcome st st' i u.
Proof.
  induction 1 as [items ud i Hi Hown
                 |items ud x Hx Hout Hlow
                 |items ud j jt l i u Hj Hjt Ht Hr HRi Hij Hsep Hn IH];
    intros n k lv2 st2 I2 Hsame Hsi Hitems Hnd Hfuel.
  - (* the item is one of [items] *)
    pose proof (mb_rec_fuel n k Hfuel) as Hrec.
    pose proof I2 as [G2 B2 A2 E2 L2].
    destruct (list_elem_of_split _ _ Hi) as (l1 & l2 & Hsplit).
    rewrite Hsplit in Hnd.
    apply NoDup_app in Hnd as (_ & Hn1 & [Hn2 _]%NoDup_cons).
    assert (∀ x, x ∈ items → x < length st ∧ st2 !! x = st !! x) as Hold.
    { intros x Hx. destruct (Hitems x Hx) as [(xt & Hxt)%isItem_true _].
      split; [by eapply lookup_lt_Some|].
      apply (Hsame x x Hx). apply reaches_here. }
    destruct (mb_loop_split sub B k (mergeResourceUsageWithUsageData n) ud
                lv2 st2 l1 i l2 Hrec G2 B2)
      as (sta & lva & stb & lvb & st' & lv' & Ha & Ia & Hia & Hbd & Ib &
          Hc & Ic & Hic & Hall).
    { intros x Hx. rewrite <- Hsplit in Hx.
      destruct (Hold x Hx) as [Hxl Hxe].
      destruct (Hitems x Hx) as [Hxt Hkx]. split.
      - unfold isItem in *. by rewrite Hxe.
      - by rewrite A2. }
    { intros Hin. by apply (Hn1 i Hin); left. }
    { done. }
    { intros x xt q Hx Hxt Hq. rewrite <- Hsplit in Hx.
      destruct (Hold x Hx) as [Hxl Hxe]. rewrite Hxe in Hxt.
      destruct (Hold i Hi) as [Hil _].
      rewrite (A2 i Hil), (A2 q). { by eapply Hown. }
      assert (q ∈ succs (OItem xt)) as Hq' by done.
      by eapply good_valid_succ. }
    rewrite <- Hsplit in Hall.
    exists st', lv'. split; [done|]. split.
    { eapply mb_inv_trans; [exact Ia|].
      eapply mb_inv_trans; [exact Ib|exact Ic]. }
    intros it Hit. rewrite Hsi, Hit in Hia.
    destruct (Hitems i Hi) as [_ Hki].
    destruct (mb_item_outcome n k lva sta stb i it ud
                (mb_inv_trans _ _ _ _ _ _ _ _ I2 Ia) Hia Hit Hki Hfuel Hbd)
      as (it' & Hi' & HM).
    exists it'. split; [by rewrite Hic|].
    eapply mergedBack_mono; [|exact HM].
    intros p r Hp. eapply mb_ext_ru; [|done]. by destruct Ic.
  - (* the loop passes the object by *)
    pose proof (mb_rec_fuel n k Hfuel) as Hrec.
    pose proof I2 as [G2 B2 A2 E2 L2].
    pose proof (mbe_len _ _ _ E2) as Hlen2.
    assert (∀ j, j ∈ items → j < length st ∧ st2 !! j = st !! j) as Hold.
    { intros j Hj. destruct (Hitems j Hj) as [(xt & Hxt)%isItem_true _].
      split; [by eapply lookup_lt_Some|].
      apply (Hsame j j Hj). apply reaches_here. }
    destruct (mb_loop sub B k (mergeResourceUsageWithUsageData n) ud items
                Hrec lv2 st2 G2 B2) as (st' & lv' & H & I & F).
    { intros j Hj. destruct (Hold j Hj) as [Hjl Hje].
      destruct (Hitems j Hj) as [Hjt Hkj]. split.
      - unfold isItem in *. by rewrite Hje.
      - by rewrite A2. }
    exists st', lv'. split; [done|]. split; [done|]. simpl.
    rewrite <- Hsi. apply F; [lia|done|].
    intros j jt q Hj Hjt Hq. destruct (Hold j Hj) as [Hjl Hje].
    rewrite Hje in Hjt. rewrite (A2 x Hx), (A2 q). { by eapply Hlow. }
    assert (q ∈ succs (OItem jt)) as Hq' by done.
    by eapply good_valid_succ.
  - (* the way goes through the item [j] of [items] *)
    pose proof (mb_rec_fuel n k Hfuel) as Hrec.
    pose proof I2 as [G2 B2 A2 E2 L2].
    destruct (recursesInto_cases _ _ _ Hr)
      as (q & qr & Hq & Hqr & Hl & Hcase).
    assert (q ∈ succs (OItem jt)) as Hqs by done.
    pose proof (good_edge _ _ _ st_good j _ q Hjt Hqs) as Hlvq.
    pose proof (good_valid_succ _ _ _ _ _ _ st_good Hjt Hqs) as Hqlt.
    destruct (good_obj _ _ _ st_good q _ Hqr) as [Hqval Hqnd].
    assert (∀ x, x ∈ Items qr → lv q < lv x) as Hlvi.
    { intros x Hx. eapply good_edge; [done|done|done]. }
    pose proof (lookup_lt_Some _ _ _ Hjt) as Hjlt.
    destruct (Hitems j Hj) as [_ Hkj].
    pose proof (mbe_len _ _ _ E2) as Hlen2.
    assert (∀ x, reaches st j x → x < length st) as Hval.
    { intros x Hx. by eapply reaches_valid. }
    destruct n as [|m].
    { (* without fuel the recursive call does not return *)
      exfalso. pose proof (B2 j ltac:(lia)) as Hbj.
      rewrite (A2 j Hjlt) in Hbj. lia. }
    destruct (list_elem_of_split _ _ Hj) as (l1 & l2 & Hsplit).
    pose proof Hnd as Hnd'. rewrite Hsplit in Hnd'.
    apply NoDup_app in Hnd' as (_ & Hn1 & [Hn2 _]%NoDup_cons).
    assert (∀ x, x ∈ items → x < length st ∧ st2 !! x = st !! x) as Hold.
    { intros x Hx. destruct (Hitems x Hx) as [(xt & Hxt)%isItem_true _].
      split; [by eapply lookup_lt_Some|].
      apply (Hsame x x Hx). apply reaches_here. }
    destruct (mb_loop_parts sub B k
                (mergeResourceUsageWithUsageData (S m)) ud
                lv2 st2 l1 j l2 Hrec G2 B2)
      as (sta & lva & stb & lvb & st' & lv' & Ha & Ia & Fa & Hbd & Ib &
          Hc & Ic & Fc & Hall).
    { intros x Hx. rewrite <- Hsplit in Hx.
      destruct (Hold x Hx) as [Hxl Hxe].
      destruct (Hitems x Hx) as [Hxt Hkx]. split.
      - unfold isItem in *. by rewrite Hxe.
      - by rewrite A2. }
    rewrite <- Hsplit in Hall.
    pose proof (mb_inv_trans _ _ _ _ _ _ _ _ I2 Ia) as I0a.
    pose proof (mb_inv_trans _ _ _ _ _ _ _ _ I0a Ib) as I0b.
    (* the iterations before [j] leave its tree alone *)
    assert (∀ x, reaches st j x → sta !! x = st !! x) as Hta.
    { intros x Hx. rewrite <- (Hsame x j Hj Hx).
      apply Fa; [pose proof (Hval x Hx); lia| |].
      - intros Hin. destruct (Hsep x x Hx) as [Hne _]; [| |done].
        + rewrite Hsplit. apply elem_of_app. by left.
        + intros ->. by apply (Hn1 j Hin); left.
      - intros j' jt' q' Hj' Hjt' Hq'.
        assert (j' ∈ items) as Hj'i.
        { rewrite Hsplit. apply elem_of_app. by left. }
        destruct (Hold j' Hj'i) as [_ He]. rewrite He in Hjt'.
        destruct (Hsep x j' Hx Hj'i) as [_ Hle].
        { intros ->. by apply (Hn1 j Hj'); left. }
        assert (q' ∈ succs (OItem jt')) as Hq's by done.
        rewrite (A2 x (Hval x Hx)), (A2 q'); [by eapply Hle|].
        by eapply good_valid_succ. }
    assert (sta !! j = Some (OItem jt)) as Hja.
    { rewrite Hta; [done|apply reaches_here]. }
    assert (sta !! q = Some (ORU qr)) as Hqa.
    { rewrite Hta; [done|]. eapply reaches_step; [done|done|].
      apply reaches_here. }
    assert (∀ x, x ∈ Items qr → sta !! x = st !! x) as Hta'.
    { intros x Hx. apply Hta. eapply reaches_sub_item; eauto. }
    assert (∀ x j1, j1 ∈ l → reaches st j1 x → sta !! x = st !! x) as Htl.
    { intros x j1 Hj1 Hx. apply Hta.
      eapply reaches_trans; [|exact Hx]. eapply reaches_sub_item; eauto. }
    assert (∀ x, x ∈ l → isItem st x = true ∧ lv q < lv x) as Hitl.
    { intros x Hx%Hl. split; [by apply Hqval|by apply Hlvi]. }
    assert (B ≤ m + lv q + 1) as Hfuel' by lia.
    rewrite (mergeUsageItem_sub _ _ _ _ _ Hja Ht) in Hbd.
    pose proof I0a as [Ga Ba Aa Ea La].
    pose proof (mbe_len _ _ _ Ea) as Hlena.
    pose proof (Hval i HRi) as Hilt.
    assert (∃ stc : store,
              (∀ x, x ≠ j → stb !! x = stc !! x) ∧
              (∃ jt', stc !! j = Some (OItem jt')) ∧
              outcome st stc i u)
      as (stc & Hbc & (jtc & Hjc) & Hoc).
    { destruct Hcase as [[Hv ->]|(Hv & Hd & Hleq)].
      - (* the Value tree *)
        assert (NoDup (Items qr)) as Hndl by by eapply NoDup_keys_items.
        destruct (IH m (lv q) lva sta I0a Htl (Hta i HRi) Hitl Hndl Hfuel')
          as (stc & lvc & Hfc & Ic' & Hoc).
        exists stc. split; [|split; [|done]].
        + apply (mergeSub_base_only (mergeResourceUsageWithUsageData (S m))
                   ud j jt q sta stc stb Hv); [|done].
          simpl. rewrite (proj2 (getRU_Ok _ _ _) Hqa). simpl. exact Hfc.
        + destruct (mb_ext_item _ _ _ _ _ (mbi_ext _ _ _ _ _ _ Ic') Hja)
            as (jt' & ? & _).
          by exists jt'.
      - (* the DefaultValue tree *)
        assert (l = keptItems sta (subData ud jt) (Items qr)) as Hla.
        { rewrite Hleq. symmetry. apply keptItems_keys.
          intros x Hx. unfold keyOf. by rewrite Hta'. }
        assert (keepNonNull sta (subData ud jt) (Items qr) = Ok l) as Hk.
        { rewrite Hla. apply keepNonNull_spec. intros x Hx.
          unfold isItem. rewrite (Hta' x Hx). by apply Hqval. }
        assert (NoDup (keysOf sta l)) as Hndk.
        { rewrite Hla. apply keptItems_NoDup.
          by destruct (good_obj _ _ _ Ga q _ Hqa). }
        assert (NoDup l) as Hndl by by eapply NoDup_keys_items.
        destruct (materialise_inv sub B lva sta q qr (Key jt) l
                    Ga Ba Hqa Hl Hndk) as (G1 & B1 & I1 & Hp1).
        set (st1 := sta ++ [ORU (mkResourceUsage (Key jt) l)]) in *.
        set (lv1 := relevel lva (length sta) (lva q)) in *.
        pose proof (mb_inv_trans _ _ _ _ _ _ _ _ I0a I1) as I01.
        assert (∀ x, x < length st → st1 !! x = sta !! x) as Hst1.
        { intros x Hx. apply lookup_app_l. lia. }
        assert (∀ x j1, j1 ∈ l → reaches st j1 x → st1 !! x = st !! x)
          as Htl1.
        { intros x j1 Hj1 Hx. rewrite <- (Htl x j1 Hj1 Hx).
          apply Hst1, Hval. eapply reaches_trans; [|exact Hx].
          eapply reaches_sub_item; eauto. }
        assert (st1 !! i = st !! i) as Hsi1.
        { rewrite Hst1 by done. by apply Hta. }
        destruct (IH m (lv q) lv1 st1 I01 Htl1 Hsi1 Hitl Hndl Hfuel')
          as (stc & lvc & Hfc & Ic' & Hoc).
        exists stc. split; [|split; [|done]].
        + destruct l as [|x0 kept].
          * simpl in Hfc. injection Hfc as <-.
            rewrite (mergeSub_default_empty _ ud j jt q qr sta stb
                       Hv Hd Hqa Hk Hbd). done.
          * apply (mergeSub_default_only
                     (mergeResourceUsageWithUsageData (S m))
                     ud j jt q qr kept x0 sta stc stb Hv Hd Hqa Hk); [|done].
            simpl. fold st1.
            assert (st1 !! length sta
                    = Some (ORU (mkResourceUsage (Key jt) (x0 :: kept))))
              as H1.
            { unfold st1. by apply list_lookup_middle. }
            rewrite (proj2 (getRU_Ok _ _ _) H1). simpl. exact Hfc.
        + assert (st1 !! j = Some (OItem jt)) as Hj1.
          { rewrite Hst1 by done. done. }
          destruct (mb_ext_item _ _ _ _ _ (mbi_ext _ _ _ _ _ _ Ic') Hj1)
            as (jt' & ? & _).
          by exists jt'. }
    exists st', lv'. split; [done|]. split.
    { eapply mb_inv_trans; [exact Ia|].
      eapply mb_inv_trans; [exact Ib|exact Ic]. }
    apply (outcome_mono st stc st'); [| |done].
    + rewrite <- (Hbc i Hij). apply Fc.
      * pose proof (mbe_len _ _ _ (mbi_ext _ _ _ _ _ _ I0b)). lia.
      * intros Hin. destruct (Hsep i i HRi) as [Hne _]; [| |done].
        -- rewrite Hsplit. apply elem_of_app. right. by right.
        -- intros ->. done.
      * intros j' jtb q' Hj' Hjtb Hq'.
        assert (j' ∈ items) as Hj'i.
        { rewrite Hsplit. apply elem_of_app. right. by right. }
        destruct (Hitems j' Hj'i) as [(jt' & Hjt')%isItem_true _].
        destruct (mbi_lv _ _ _ _ _ _ I0b j' jt' jtb q' Hjt' Hjtb Hq')
          as (q0 & Hq0 & ->).
        rewrite (mbi_agree _ _ _ _ _ _ I0b i Hilt).
        destruct (Hsep i j' HRi Hj'i) as [_ Hle].
        { intros ->. done. }
        by eapply Hle.
    + intros p r Hp. eapply mb_ext_ru; [by destruct Ic|].
      rewrite Hbc; [done|]. intros ->. congruence.
Qed.

End NestedItems.

(** C7 (merge-back frame): on a well-formed store, with fuel for the levels
    above [r], mergeResourceUsageWithUsageData returns, and
    - a scalar or array item of [r] for whose key the accessor of its type
      finds nothing (absent or null) is left exactly as it was, Value
      included, when no other item of [r] shares it;
    - at any depth of the tree of [r], an item to which the merge-back
      comes with the data [u] of its level (the output itself for the
      items of [r], the map under the key of the sub-resource item for the
      items below it) is left as [mergedBack] says: a scalar or array item
      exactly as it was when the accessor of its type finds nothing under
      its key in [u], and with only its Value replaced by what the
      accessor finds otherwise; a sub-resource item as it was when it has
      a Value or no default sub-item with data, and with a new
      ResourceUsage of the default sub-items that have data as Value
      otherwise;
    - an object that the merge-back passes by on its way, so a default
      sub-item whose key is null in the data of its level, is left
      exactly as it was;
    - of any item, at any depth, only the Value is ever reassigned, and
      only with a value that is not nil: key, type, description and
      DefaultValue are kept, and an item that is not assigned a value
      keeps its entire state;
    - no ResourceUsage that existed is changed;
    - nothing at or below the level of [r], so nothing outside its tree, is
      changed. *)
Theorem C7_merge_back_frame `{C : Collaborators} (sub : string → bool)
    (B : nat) (lv : loc → nat) (n : nat) (st : store) (r : loc)
    (rr : ResourceUsage) (ud : UsageData) :
  good sub lv st → bounded lv B st → st !! r = Some (ORU rr) →
  B ≤ n + lv r →
  ∃ st', mergeResourceUsageWithUsageData n (Some r) (Some ud) st = Ok st' ∧
    (∀ i it, i ∈ Items rr → st !! i = Some (OItem it) →
       isSub (ValueType it) = false → scalarLookup ud it = Nil →
       owned lv st rr i → st' !! i = Some (OItem it)) ∧
    (∀ i it u, nested lv st (Items rr) ud i (Some u) →
       st !! i = Some (OItem it) →
       ∃ it', st' !! i = Some (OItem it') ∧ mergedBack st st' u it it') ∧
    (∀ i it u, nested lv st (Items rr) ud i (Some u) →
       st !! i = Some (OItem it) → isSub (ValueType it) = false →
       st' !! i = Some (OItem (assigned u it)) ∧
       (scalarLookup u it = Nil → st' !! i = Some (OItem it))) ∧
    (∀ x, nested lv st (Items rr) ud x None → st' !! x = st !! x) ∧
    (∀ l it, st !! l = Some (OItem it) →
       ∃ it', st' !! l = Some (OItem it') ∧ Key it' = Key it ∧
              ValueType it' = ValueType it ∧
              Description it' = Description it ∧
              DefaultValue it' = DefaultValue it ∧
              (it' = it ∨ Value it' ≠ Nil)) ∧
    (∀ l rl, st !! l = Some (ORU rl) → st' !! l = Some (ORU rl)) ∧
    (∀ x, x < length st → lv x ≤ lv r → st' !! x = st !! x).
Proof.
  intros G Hb Hr Hn.
  destruct (mergeback_spec sub B n st lv r ud G Hb) as (st' & lv' & H & I & F);
    [apply isRU_true; eauto|done|].
  assert (∀ i u, nested lv st (Items rr) ud i u → outcome st st' i u) as Hout.
  { intros i u Hnest. destruct n as [|m].
    { pose proof (Hb r (lookup_lt_Some _ _ _ Hr)). lia. }
    destruct (good_obj _ _ _ G r _ Hr) as [Hval Hnd].
    destruct (mb_nested sub B lv st G (Items rr) ud i u Hnest m (lv r) lv st)
      as (st2 & lv2 & H2 & _ & Hi); try done.
    - by apply mb_inv_refl.
    - intros j Hj. split; [by apply Hval|].
      eapply good_edge; [done|done|done].
    - by eapply NoDup_keys_items.
    - lia.
    - simpl in H. rewrite (proj2 (getRU_Ok _ _ _) Hr) in H. simpl in H.
      rewrite H2 in H. by injection H as <-. }
  exists st'. split; [done|].
  split; [|split; [|split; [|split; [|split; [|split]]]]].
  - intros i it Hi Hit Ht Hnil Hown.
    destruct (mergeback_split sub B lv n st r rr ud i G Hb Hr Hn Hi Hown)
      as (m & l1 & l2 & sta & lva & stb & lvb & st2 & lv2 & -> & Hsplit &
          Ia & Hia & Hbd & Ib & _ & _ & _ & Ic & Hic & Hall).
    rewrite H in Hall. injection Hall as <-.
    rewrite Hit in Hia.
    rewrite (mergeUsageItem_scalar_nil _ _ _ _ _ Hia Ht Hnil) in Hbd.
    injection Hbd as <-. by rewrite Hic.
  - intros i it u Hnest Hit. exact (Hout i (Some u) Hnest it Hit).
  - intros i it u Hnest Hit Ht.
    destruct (Hout i (Some u) Hnest it Hit) as (it' & Hi' & HM).
    unfold mergedBack in HM. rewrite Ht in HM. subst it'.
    split; [done|]. intros Hnil. rewrite Hi'. unfold assigned.
    by rewrite Hnil.
  - intros x Hnest. exact (Hout x None Hnest).
  - intros l it Hl.
    destruct (mb_ext_item _ _ _ _ _ (mbi_ext _ _ _ _ _ _ I) Hl)
      as (it' & Hl' & HK & HT & HD & HF & _ & _ & HC).
    exists it'. done.
  - intros l rl Hl. eapply mb_ext_ru; [|done]. by destruct I.
  - exact F.
Qed.

Lemma ex_nested_good : good ex_sub ex_lv ex_nested.
Proof.
  apply store_okb_sound; [by vm_compute|]. unfold ex_lv. intros; lia.
Defined.

Lemma ex_nested_bounded : bounded ex_lv 5 ex_nested.
Proof. intros l Hl. exact Hl. Defined.

(** The items "a" and "b" lie below the item "nodes", where the
    merge-back comes to them with the map under "nodes". *)
Lemma ex_nested_below (i : loc) :
  i ∈ [3; 4] →
  nested (C := exampleCollaborators None) ex_lv ex_nested [1] ex_nested_data i
    (Some (subData (C := exampleCollaborators None) ex_nested_data
             (schema.mkUsageItem "nodes" schema.SubResourceUsage EmptyString
                Nil (VRU (Some 2))))).
Proof.
  intros Hi.
  eapply (nested_below (C := exampleCollaborators None) ex_lv ex_nested [1]
            ex_nested_data 1 _ [3; 4]).
  - by left.
  - reflexivity.
  - reflexivity.
  - left. exists 2, (mkResourceUsage "nodes" [3; 4]). done.
  - apply (reaches_sub_item ex_nested 1
             (schema.mkUsageItem "nodes" schema.SubResourceUsage EmptyString
                Nil (VRU (Some 2)))
             2 (mkResourceUsage "nodes" [3; 4]) i);
      [reflexivity| |reflexivity|exact Hi].
    apply ptrs_spec. by right.
  - intros ->. apply elem_of_cons in Hi as [Hi|Hi]; [done|].
    by apply list_elem_of_singleton in Hi.
  - intros x j' _ Hj' Hne. apply list_elem_of_singleton in Hj'. done.
  - apply nested_here; [done|].
    intros j jt q Hj Hjt Hq.
    apply elem_of_cons in Hj as [->|Hj];
      [|apply list_elem_of_singleton in Hj as ->];
      injection Hjt as <-; by apply elem_of_nil in Hq.
Defined.

Lemma C7_witness :
  ∃ st',
    mergeResourceUsageWithUsageData (C := exampleCollaborators None) 5
      (Some 0) (Some ex_nested_data) ex_nested = Ok st' ∧
    st' !! 3 = Some (ex_item "a" schema.Int64 Nil (VInt 1)) ∧
    st' !! 4 = Some (ex_item "b" schema.Int64 Nil (VInt 5)).
Proof.
  destruct (C7_merge_back_frame (C := exampleCollaborators None)
              ex_sub 5 ex_lv 5 ex_nested 0
              (mkResourceUsage "aws_eks_cluster.c" [1]) ex_nested_data
              ex_nested_good ex_nested_bounded eq_refl)
    as (st' & H & _ & _ & Hn & _); [simpl; lia|].
  exists st'. split; [exact H|]. split.
  - exact (proj1 (Hn 3 (schema.mkUsageItem "a" schema.Int64 EmptyString Nil
                          (VInt 1))
                    _ (ex_nested_below 3 ltac:(by left)) eq_refl eq_refl)).
  - exact (proj1 (Hn 4 (schema.mkUsageItem "b" schema.Int64 EmptyString Nil
                          (VInt 2))
                    _ (ex_nested_below 4 ltac:(right; by left)) eq_refl
                    eq_refl)).
Defined.

(** The same pass, run: "a" under "nodes" keeps 1 although the output has
    9 for "a" at the top. *)
Example nested_null_kept :
  ∃ st',
    mergeResourceUsageWithUsageData (C := exampleCollaborators None) 5
      (Some 0) (Some ex_nested_data) ex_nested = Ok st' ∧
    st' !! 3 = ex_nested !! 3 ∧
    scalarLookup (C := exampleCollaborators None) ex_nested_data
      (schema.mkUsageItem "a" schema.Int64 EmptyString Nil (VInt 1))
    = VInt 9.
Proof. eexists. split; [reflexivity|]. split; reflexivity. Qed.

(** On the tree whose "nodes" has only a default tree, the merge-back
    comes to the default sub-item "a", the one with data, through the
    ResourceUsage it builds, and passes the default sub-item "b", whose
    key is null in the data, by. *)
Example nested_default :
  let sd := subData (C := exampleCollaborators None) ex_data
              (schema.mkUsageItem "nodes" schema.SubResourceUsage EmptyString
                 (VRU (Some 3)) Nil) in
  nested (C := exampleCollaborators None) ex_lv ex_tree [1; 2] ex_data 4
    (Some sd) ∧
  nested (C := exampleCollaborators None) ex_lv ex_tree [1; 2] ex_data 5 None.
Proof.
  assert (∀ i, i ∈ [4; 5] → ∀ u,
            nested (C := exampleCollaborators None) ex_lv ex_tree [4]
              (subData (C := exampleCollaborators None) ex_data
                 (schema.mkUsageItem "nodes" schema.SubResourceUsage
                    EmptyString (VRU (Some 3)) Nil)) i u →
            nested (C := exampleCollaborators None) ex_lv ex_tree [1; 2]
              ex_data i u) as Hbelow.
  { intros i Hi u Hn.
    eapply (nested_below (C := exampleCollaborators None) ex_lv ex_tree
              [1; 2] ex_data 2 _ [4]); [| | | | | | |exact Hn].
    - right. by left.
    - reflexivity.
    - reflexivity.
    - right. exists 3, (mkResourceUsage "nodes" [4; 5]). done.
    - apply (reaches_sub_item ex_tree 2
               (schema.mkUsageItem "nodes" schema.SubResourceUsage EmptyString
                  (VRU (Some 3)) Nil)
               3 (mkResourceUsage "nodes" [4; 5]) i);
        [reflexivity| |reflexivity|exact Hi].
      apply ptrs_spec. by left.
    - intros ->. apply elem_of_cons in Hi as [Hi|Hi]; [done|].
      by apply list_elem_of_singleton in Hi.
    - intros x j' Hx Hj' Hne.
      apply elem_of_cons in Hj' as [->|Hj'];
        [|apply list_elem_of_singleton in Hj'; done].
      split.
      + intros ->. apply (reaches_level _ _ _ _ _ ex_tree_good) in Hx.
        unfold ex_lv in Hx. lia.
      + intros jt' q' Hjt' Hq'. injection Hjt' as <-.
        by apply elem_of_nil in Hq'. }
  split.
  - apply Hbelow; [by left|]. apply nested_here; [by left|].
    intros j jt q Hj Hjt Hq. apply list_elem_of_singleton in Hj as ->.
    injection Hjt as <-. by apply elem_of_nil in Hq.
  - apply Hbelow; [right; by left|]. apply nested_out.
    + simpl. lia.
    + by intros Hin%list_elem_of_singleton.
    + intros j jt q Hj Hjt Hq. apply list_elem_of_singleton in Hj as ->.
      injection Hjt as <-. by apply elem_of_nil in Hq.
Qed.

(** ** The estimation of one resource and the trees of the pass *)

Lemma converges_eq {A} (F : nat → res A) x y :
  converges F x → converges F y → x = y.
Proof.
  intros [f1 H1] [f2 H2].
  specialize (H1 (f1 `max` f2) ltac:(lia)).
  rewrite H2 in H1 by lia. by injection H1.
Qed.

Lemma build_mono `{C : Collaborators} n m referenceFile existing resource st x :
  n ≤ m →
  buildResourceUsage n referenceFile existing resource st = Ok x →
  buildResourceUsage m referenceFile existing resource st = Ok x.
Proof.
  intros Hm. unfold buildResourceUsage, alloc. intros H.
  apply bind_Ok in H as (s1 & H1 & H). apply bind_Ok. exists s1. split.
  { destruct (FindMatchingResourceUsage _ _ _); [|done].
    by eapply merge_mono. }
  apply bind_Ok in H as (s2 & H2 & H). apply bind_Ok. exists s2. split.
  { by eapply merge_mono. }
  apply bind_Ok in H as (s3 & H3 & H). apply bind_Ok. exists s3. split.
  { destruct (existing !! _); [|done]. by eapply merge_mono. }
  done.
Qed.

Section Converged.

Context `{C : Collaborators}.
Variable sub : string → bool.

Lemma mergeback_converged_ext lv st r ud st' :
  good sub lv st → isRU st r = true →
  converges (fun f => mergeResourceUsageWithUsageData f (Some r) (Some ud)
                        st) st' →
  mb_ext sub st st'.
Proof.
  intros G Hr Hc.
  destruct (mergeback_converges sub lv st r ud G Hr)
    as (st2 & lv2 & H2 & _ & _ & E & _).
  by rewrite (converges_eq _ _ _ Hc H2).
Qed.

(** The merge-back of a pass, whatever fuel it needs, leaves an object
    to which it comes, or which it passes by, as [outcome] says. *)
Lemma mergeback_converged_outcome lv st r rr ud st' i u :
  good sub lv st → st !! r = Some (ORU rr) →
  converges (fun f => mergeResourceUsageWithUsageData f (Some r) (Some ud)
                        st) st' →
  nested lv st (Items rr) ud i u → outcome st st' i u.
Proof.
  intros G Hr [f0 Hc] Hn.
  destruct (bounded_exists lv st) as [B HB].
  destruct (good_obj _ _ _ G r _ Hr) as [Hval Hnd].
  destruct (mb_nested sub B lv st G (Items rr) ud i u Hn (f0 `max` B)
              (lv r) lv st)
    as (st2 & lv2 & H2 & _ & Hi); try done.
  - by apply mb_inv_refl.
  - intros j Hj. split; [by apply Hval|].
    eapply good_edge; [done|done|done].
  - by eapply NoDup_keys_items.
  - lia.
  - specialize (Hc (S (f0 `max` B)) ltac:(lia)). simpl in Hc.
    rewrite (proj2 (getRU_Ok _ _ _) Hr) in Hc. simpl in Hc.
    rewrite H2 in Hc. by injection Hc as <-.
Qed.

Lemma nested_passed_valid lv st items ud x u :
  nested lv st items ud x u → u = None → x < length st.
Proof. induction 1; [done|done|auto]. Qed.

Lemma outcome_scalar st st' i u it :
  outcome st st' i (Some u) → st !! i = Some (OItem it) →
  isSub (ValueType it) = false → st' !! i = Some (OItem (assigned u it)).
Proof.
  intros H Hit Ht. destruct (H it Hit) as (it' & Hi' & HM).
  unfold mergedBack in HM. rewrite Ht in HM. by subst.
Qed.

Lemma outcome_prefix st st1 st2 i u :
  prefix_kept st1 st2 → (u = None → i < length st) →
  length st ≤ length st1 →
  outcome st st1 i u → outcome st st2 i u.
Proof.
  intros [L P] Hv Hlen H. destruct u as [u|]; simpl in *.
  - intros it Hit. destruct (H it Hit) as (it' & Hi' & HM).
    exists it'. split.
    + rewrite P; [done|]. by eapply lookup_lt_Some.
    + eapply mergedBack_mono; [|exact HM]. intros p r Hp.
      rewrite P; [done|]. by eapply lookup_lt_Some.
  - rewrite P; [done|]. specialize (Hv eq_refl). lia.
Qed.

End Converged.

(** C1 (estimation isolation), amended: in a pass over the resources A and
    B where the estimation of A fails and that of B succeeds, on input
    that respects the data model, syncResourceUsages returns; it records
    the error of A only, counts two resources and two estimations, and
    yields the usage trees of A and of B.  The tree of A is the tree built
    by lines 55-77 into which the usage map as the failed estimation left
    it has been merged back, B is processed after it in the same way, and
    processing B changes no object of the tree of A.  In the final store
    - the items of B receive the estimated values: a scalar or array item
      of the tree built for B, at any depth to which the merge-back comes
      with the data [u] of its level, is as [assigned u] makes it: its
      Value is what the accessor of its type finds under its key in the
      output of the estimation, and it is as built when there is nothing;
    - the items of A are as built, except for the data that the failed
      estimation left: a scalar or array item of the tree built for A is
      as [assigned u] makes it for the usage map that the estimation of A
      returned with its error, so exactly as it was before the estimation
      when that map has nothing under its key;
    - in both trees every item to which the merge-back comes is as
      [mergedBack] says, sub-resource items included, and an object that
      it passes by (a default sub-item whose key is null in the data) is
      as built;
    - of every item that the stores built for A and for B hold, key, type,
      description and DefaultValue are as built, and the item is as built
      or has a Value; every ResourceUsage is as built. *)
Theorem C1_estimation_isolation `{C : Collaborators} `{S : SliceSort}
    (sub : string → bool) (usageFile : UsageFile)
    (A B : schema.Resource UsageMap) (referenceFile : ReferenceFile)
    (st : store) (estimateA estimateB : UsageMap → UsageMap * option error)
    (e : error) :
  sync_wf sub referenceFile usageFile [A; B] st →
  schema.EstimateUsage A = Some estimateA →
  (∀ m, (estimateA m).2 = Some e) →
  schema.EstimateUsage B = Some estimateB →
  (∀ m, (estimateB m).2 = None) →
  ∃ existing syncResult usageFile' st' stA stA' stB mA mB rA rB,
    resourceUsagesMap st (ResourceUsages usageFile) = Ok existing ∧
    converges (fun f => syncResourceUsages f usageFile [A; B] referenceFile st)
      (syncResult, usageFile', st') ∧
    EstimationErrors syncResult = {[ schema.Name A := e ]} ∧
    EstimationCount syncResult = 2%Z ∧ ResourceCount syncResult = 2%Z ∧
    ResourceUsages usageFile' ≡ₚ [length st; length stA'] ∧
    converges (fun f => buildResourceUsage f referenceFile existing A st)
      (length st, stA) ∧
    RUMap stA (length st) = Ok mA ∧
    converges (fun f =>
      mergeResourceUsageWithUsageData f (Some (length st))
        (Some (estimatedUsageData A estimateA mA)) stA) stA' ∧
    converges (fun f => buildResourceUsage f referenceFile existing B stA')
      (length stA', stB) ∧
    RUMap stB (length stA') = Ok mB ∧
    converges (fun f =>
      mergeResourceUsageWithUsageData f (Some (length stA'))
        (Some (estimatedUsageData B estimateB mB)) stB) st' ∧
    prefix_kept stA' st' ∧
    stA !! length st = Some (ORU rA) ∧
    stB !! length stA' = Some (ORU rB) ∧
    (∀ lv i it u, good sub lv stB →
       nested lv stB (Items rB) (estimatedUsageData B estimateB mB) i
         (Some u) →
       stB !! i = Some (OItem it) → isSub (ValueType it) = false →
       st' !! i = Some (OItem (assigned u it))) ∧
    (∀ lv i it u, good sub lv stA →
       nested lv stA (Items rA) (estimatedUsageData A estimateA mA) i
         (Some u) →
       stA !! i = Some (OItem it) → isSub (ValueType it) = false →
       st' !! i = Some (OItem (assigned u it)) ∧
       (scalarLookup u it = Nil → st' !! i = Some (OItem it))) ∧
    (∀ lv i u, good sub lv stB →
       nested lv stB (Items rB) (estimatedUsageData B estimateB mB) i u →
       outcome stB st' i u) ∧
    (∀ lv i u, good sub lv stA →
       nested lv stA (Items rA) (estimatedUsageData A estimateA mA) i u →
       outcome stA st' i u) ∧
    (∀ stX, stX = stA ∨ stX = stB →
       (∀ l it, stX !! l = Some (OItem it) →
          ∃ it', st' !! l = Some (OItem it') ∧ Key it' = Key it ∧
                 ValueType it' = ValueType it ∧
                 Description it' = Description it ∧
                 DefaultValue it' = DefaultValue it ∧
                 (it' = it ∨ Value it' ≠ Nil)) ∧
       (∀ l rl, stX !! l = Some (ORU rl) → st' !! l = Some (ORU rl))).
Proof.
  intros [[lv0 G0] Husage Href Hsch (m & Hm & Hmin) Hrumap] EA HA EB HB.
  destruct (namesOf_ok st (ResourceUsages usageFile) Husage) as [eo Heo].
  assert (∀ k p, m !! k = Some p → isRU st p = true) as Hex
    by (intros k p H; eapply Husage, Hmin, H).
  destruct (Hsch A) as [HsA HnA]; [left|].
  destruct (Hsch B) as [HsB HnB]; [right; left|].
  destruct (syncResource_converges sub Hrumap referenceFile m lv0 st G0
              Href Hex A (mkSyncResult 0 0 ∅) [] lv0 st G0
              (prefix_kept_refl st) HsA HnA)
    as (stA & stA' & lvA & srA & [fA H1] & HbA & HdA & GA & PA & _ & HrA).
  rewrite EA in HdA. destruct HdA as (mA & HmA & -> & HcA).
  destruct (syncResource_converges sub Hrumap referenceFile m lv0 st G0
              Href Hex B (estimated A mA (counted (mkSyncResult 0 0 ∅)))
              ([] ++ [length st]) lvA stA' GA PA HsB HnB)
    as (stB & st' & lv' & srB & [fB H2] & HbB & HdB & G' & PB & _ & HrB).
  rewrite EB in HdB. destruct HdB as (mB & HmB & -> & HcB).
  (* the trees as built *)
  destruct (build_converges sub referenceFile m A lv0 st lv0 st G0 G0
              (prefix_kept_refl st) Href Hex HsA HnA)
    as (stA0 & lvA0 & HbA0 & GA0 & _ & HdA0 & _).
  pose proof (converges_eq _ _ _ HbA0 HbA) as [= ->].
  destruct (build_converges sub referenceFile m B lv0 st lvA stA' G0 GA
              PA Href Hex HsB HnB)
    as (stB0 & lvB0 & HbB0 & GB0 & _ & HdB0 & _).
  pose proof (converges_eq _ _ _ HbB0 HbB) as [= ->].
  pose proof (mergeback_converged_ext sub _ _ _ _ _ GA0 HdA0 HcA) as EA'.
  pose proof (mergeback_converged_ext sub _ _ _ _ _ GB0 HdB0 HcB) as EB'.
  pose proof (mbe_len _ _ _ EA') as HlenA.
  apply isRU_true in HdA0 as (rA & HrA0).
  apply isRU_true in HdB0 as (rB & HrB0).
  set (rus := ([] ++ [length st]) ++ [length stA']) in *.
  assert (∀ a, a ∈ rus → readable st' a) as Hread.
  { intros a Ha. apply (good_readable sub lv' st' a G').
    unfold rus in Ha. simpl in Ha.
    apply elem_of_cons in Ha as [->|Ha%list_elem_of_singleton].
    - by apply (prefix_kept_isRU stA' st').
    - by subst. }
  exists m, (estimated B mB (counted (estimated A mA
                                        (counted (mkSyncResult 0 0 ∅))))),
    (mkUsageFile (sortSlice (lessb st' eo) rus)), st', stA, stA', stB, mA, mB,
    rA, rB.
  split; [done|].
  split; [|split; [|split; [|split; [|split]]]].
  - exists (fA `max` fB). intros f Hf. unfold syncResourceUsages.
    rewrite Hm. cbn [mbind res_bind]. rewrite Heo. cbn [mbind res_bind].
    cbn [syncResources]. rewrite H1 by lia. cbn [mbind res_bind]. rewrite H2 by lia.
    cbn [mbind res_bind]. fold rus.
    by rewrite (sortResourceUsages_ok st' rus eo Hread).
  - unfold estimated, counted. rewrite EA, EB, HA, HB. simpl.
    apply insert_empty.
  - unfold estimated, counted. rewrite EA, EB. reflexivity.
  - unfold estimated, counted. rewrite EA, EB. reflexivity.
  - simpl. apply sortSlice_perm.
  - do 7 (split; [done|]). split; [done|]. split; [done|].
    assert (∀ lv i u, good sub lv stB →
              nested lv stB (Items rB) (estimatedUsageData B estimateB mB) i u →
              outcome stB st' i u) as HoB.
    { intros lv i u G Hn.
      by eapply (mergeback_converged_outcome sub lv stB). }
    assert (∀ lv i u, good sub lv stA →
              nested lv stA (Items rA) (estimatedUsageData A estimateA mA) i u →
              outcome stA st' i u) as HoA.
    { intros lv i u G Hn.
      apply (outcome_prefix stA stA' st'); [done| |done|].
      - intros ->. by eapply nested_passed_valid.
      - by eapply (mergeback_converged_outcome sub lv stA). }
    split; [|split; [|split; [|split]]].
    + intros lv i it u G Hn Hit Ht.
      by eapply outcome_scalar; [eapply HoB|..].
    + intros lv i it u G Hn Hit Ht.
      assert (st' !! i = Some (OItem (assigned u it))) as Hi'
        by by eapply outcome_scalar; [eapply HoA|..].
      split; [done|]. intros Hnil. rewrite Hi'. unfold assigned.
      by rewrite Hnil.
    + exact HoB.
    + exact HoA.
    + intros stX [->| ->]; split.
      * intros l it Hl.
        destruct (mb_ext_item _ _ _ _ _ EA' Hl)
          as (it' & Hl' & HK & HT & HD & HF & _ & _ & HC).
        exists it'. destruct PB as [_ PB]. rewrite PB; [done|].
        by eapply lookup_lt_Some.
      * intros l rl Hl. destruct PB as [_ PB]. rewrite PB.
        -- by eapply mb_ext_ru.
        -- pose proof (lookup_lt_Some _ _ _ Hl). lia.
      * intros l it Hl.
        destruct (mb_ext_item _ _ _ _ _ EB' Hl)
          as (it' & Hl' & HK & HT & HD & HF & _ & _ & HC).
        exists it'. done.
      * intros l rl Hl. by eapply mb_ext_ru.
Qed.

Lemma ex_builtA_good : good ex_sub (ex_lvOf ex_builtA) ex_builtA.
Proof.
  apply store_okb_sound; [by vm_compute|]. intros l l' Hl Hl'.
  unfold ex_lvOf. apply Nat.ltb_ge in Hl'. rewrite Hl'.
  destruct (l <? length ex_builtA) eqn:E; [|lia].
  apply Nat.ltb_lt in E. simpl in E. destruct (isItem ex_builtA l); lia.
Defined.

Lemma ex_builtB_good : good ex_sub (ex_lvOf ex_builtB) ex_builtB.
Proof.
  apply store_okb_sound; [by vm_compute|]. intros l l' Hl Hl'.
  unfold ex_lvOf. apply Nat.ltb_ge in Hl'. rewrite Hl'.
  destruct (l <? length ex_builtB) eqn:E; [|lia].
  apply Nat.ltb_lt in E. simpl in E. destruct (isItem ex_builtB l); lia.
Defined.

(** An item without sub-trees, alone in its ResourceUsage. *)
Lemma nested_single `{C : Collaborators} lv st i it ud :
  st !! i = Some (OItem it) → ptrs it = [] →
  nested lv st [i] ud i (Some ud).
Proof.
  intros Hi Hp. apply nested_here; [by left|].
  intros j jt q ->%list_elem_of_singleton Hj Hq.
  rewrite Hi in Hj. injection Hj as <-. rewrite Hp in Hq.
  by apply elem_of_nil in Hq.
Defined.

Lemma C1_witness :
  ∃ syncResult usageFile' st',
    converges (fun f => syncResourceUsages
                          (C := exampleCollaborators (Some [])) f ex_usageFile
                          [ex_A; ex_B] [] ex_sync)
      (syncResult, usageFile', st') ∧
    EstimationErrors syncResult =
      {[ "aws_lambda_function.a"%string := "throttled"%string ]} ∧
    EstimationCount syncResult = 2%Z ∧
    st' !! 9 = Some (ex_item "storage" schema.Int64 Nil (VInt 7)) ∧
    st' !! 6 = Some (ex_item "requests" schema.Int64 Nil (VInt 42)).
Proof.
  destruct (C1_estimation_isolation (C := exampleCollaborators (Some []))
              ex_sub ex_usageFile ex_A ex_B [] ex_sync _ _ "throttled"%string
              ex_sync_wf eq_refl (fun _ => eq_refl) eq_refl
              (fun _ => eq_refl))
    as (m & sr & uf' & st' & stA & stA' & stB & mA & mB & rA & rB & Hm & H &
        He & Hc & _ & _ & HbA & HmA & HcA & HbB & HmB & _ & _ & HrA & HrB &
        HB' & HA' & _).
  assert (Ok m = Ok ({[ "aws_lambda_function.a"%string := 2 ]}
                       : gmap string loc)) as [= ->]
    by (rewrite <- Hm; vm_compute; reflexivity).
  assert ((length ex_sync, stA) = (4, ex_builtA)) as [= ->].
  { apply (converges_eq _ _ _ HbA). exists 10. intros f Hf.
    apply (build_mono 10); [done|]. vm_compute. reflexivity. }
  assert (Ok mA = Ok []) as [= ->] by (rewrite <- HmA; reflexivity).
  assert (stA' = ex_mergedA) as ->.
  { apply (converges_eq _ _ _ HcA). exists 10. intros f Hf.
    apply (mergeback_mono 10); [done|]. vm_compute. reflexivity. }
  assert ((length ex_mergedA, stB) = (7, ex_builtB)) as [= ->].
  { apply (converges_eq _ _ _ HbB). exists 10. intros f Hf.
    apply (build_mono 10); [done|]. vm_compute. reflexivity. }
  assert (Ok mB = Ok []) as [= ->] by (rewrite <- HmB; reflexivity).
  assert (Some (ORU rA)
          = Some (ORU (mkResourceUsage "aws_lambda_function.a" [6])))
    as [= ->] by (rewrite <- HrA; reflexivity).
  assert (Some (ORU rB) = Some (ORU (mkResourceUsage "aws_s3_bucket.b" [9])))
    as [= ->] by (rewrite <- HrB; reflexivity).
  exists sr, uf', st'. split; [exact H|]. split; [exact He|].
  split; [exact Hc|]. split.
  - exact (HB' (ex_lvOf ex_builtB) 9
             (schema.mkUsageItem "storage" schema.Int64 EmptyString Nil Nil)
             _ ex_builtB_good
             (nested_single (C := exampleCollaborators (Some []))
                (ex_lvOf ex_builtB) ex_builtB 9
                (schema.mkUsageItem "storage" schema.Int64 EmptyString Nil Nil)
                _ eq_refl eq_refl)
             eq_refl eq_refl).
  - refine (proj1 _).
    exact (HA' (ex_lvOf ex_builtA) 6
             (schema.mkUsageItem "requests" schema.Int64 EmptyString Nil
                (VInt 100))
             _ ex_builtA_good
             (nested_single (C := exampleCollaborators (Some []))
                (ex_lvOf ex_builtA) ex_builtA 6
                (schema.mkUsageItem "requests" schema.Int64 EmptyString Nil
                   (VInt 100))
                _ eq_refl eq_refl)
             eq_refl eq_refl).
Defined.
